(** * The GraphQL response resolver of pkg/engine/resolve (resolve.go)

    A shallow embedding of the resolver runtime: the paired data/errors
    buffers, the input template renderer and the variables of a plan, the
    response extractor, the fetch orchestrator, the tree walker with its
    array executors, the envelope writer and the streaming and subscription
    drivers, followed by the properties of the specification that were
    checked against it and by further properties of the code.

    Conventions of the embedding.
    - A Go [[]byte] is a [list ascii]; where the code tests a slice against
      [nil] the slice is an [option bytes] ([None] is [nil]).
    - A [*fastbuffer.FastBuffer] is the list of the bytes written so far.
    - Functions that mutate their arguments return the new values.
    - Go [int] is [Z], with the wrap-around of its 64 bits written out where
      a computation of the code can leave the range; loop indices are [nat].
    - [jsonparser] (github.com/buger/jsonparser) and [net/textproto] are
      external libraries: they are interfaces here ([JsonParser],
      [TextProto]) and every general theorem holds for each implementation. *)

From Stdlib Require Import ZArith Ascii String List Lia Bool Permutation DecimalString.
From Stdlib Require DecimalZ DecimalFacts.
From stdpp Require Import base option gmap strings list fin_maps.
Import ListNotations.

Local Open Scope Z_scope.
Local Open Scope list_scope.

(** ** Bytes and the literals of resolve.go *)

Definition bytes : Type := list ascii.

(** [[]byte(s)] for a Go string [s]. *)
Definition B (s : string) : bytes := list_ascii_of_string s.

Fixpoint bytes_Equal (a b : bytes) : bool :=
  match a, b with
  | [], [] => true
  | x :: a', y :: b' => Ascii.eqb x y && bytes_Equal a' b'
  | _, _ => false
  end.

(** [bytes.Join]. *)
Fixpoint bytes_Join (s : list bytes) (sep : bytes) : bytes :=
  match s with
  | [] => []
  | [x] => x
  | x :: s' => x ++ sep ++ bytes_Join s' sep
  end.

(** A slice that may be [nil]. *)
Definition slice_bytes (s : option bytes) : bytes := default [] s.

(** [x != nil]. *)
Definition isSome {A : Type} (x : option A) : bool :=
  match x with Some _ => true | None => false end.

Definition lBrace : bytes := B "{".
Definition rBrace : bytes := B "}".
Definition lBrack : bytes := B "[".
Definition rBrack : bytes := B "]".
Definition comma : bytes := B ",".
Definition colon : bytes := B ":".
Definition quote : bytes := ["034"%char].
Definition backslash : bytes := ["092"%char].
Definition quotedComma : bytes := quote ++ comma ++ quote.
Definition null : bytes := B "null".
Definition slash : bytes := B "/".
Definition literalData : bytes := B "data".
Definition literalErrors : bytes := B "errors".
Definition literalMessage : bytes := B "message".
Definition literalLocations : bytes := B "locations".
Definition literalLine : bytes := B "line".
Definition literalColumn : bytes := B "column".
Definition literalPath : bytes := B "path".
Definition literalExtensions : bytes := B "extensions".
Definition unableToResolveMsg : bytes := B "unable to resolve".
Definition emptyArray : bytes := B "[]".

(** [strconv.Itoa]. *)
Definition Itoa (i : Z) : bytes := B (NilZero.string_of_int (Z.to_int i)).

(** The range of a Go [int] of 64 bits, and the value an [int] computation
    wraps around to. *)
Definition minInt : Z := - 2 ^ 63.
Definition maxInt : Z := 2 ^ 63 - 1.
Definition wrapInt (z : Z) : Z := (z + 2 ^ 63) mod 2 ^ 64 - 2 ^ 63.

(** ** Errors *)

Inductive error : Type :=
| errNonNullableFieldValueIsNull
| errTypeNameSkipped
| errHeaderPathInvalid
| ErrUnableToResolve
| errInvalidContext              (* validateContext's fmt.Errorf *)
| errCannotResolveVariable (kind : Z) (* InputTemplate.Render's fmt.Errorf *)
| errJson (what : string)        (* an error of jsonparser *)
| errDataSource (what : string)  (* an error of a DataSource *)
| errWriter (what : string)      (* an error of an io.Writer *)
| panicIndexOutOfRange.          (* a run-time panic, not an error value *)

(** [errors.Is(err, target)] for the sentinel errors, none of which wraps
    another. *)
Definition is_errNonNullableFieldValueIsNull (e : error) : bool :=
  match e with errNonNullableFieldValueIsNull => true | _ => false end.

Definition is_errTypeNameSkipped (e : error) : bool :=
  match e with errTypeNameSkipped => true | _ => false end.

(** ** BufPair *)

Record BufPair : Type := mkBufPair { Data : bytes; Errors : bytes }.

Definition NewBufPair : BufPair := {| Data := []; Errors := [] |}.

Definition HasData (b : BufPair) : bool := negb (length (Data b) =? 0)%nat.
Definition HasErrors (b : BufPair) : bool := negb (length (Errors b) =? 0)%nat.

Definition Data_WriteBytes (b : BufPair) (x : bytes) : BufPair :=
  {| Data := Data b ++ x; Errors := Errors b |}.

Definition Data_Reset (b : BufPair) : BufPair :=
  {| Data := []; Errors := Errors b |}.

Definition Errors_Reset (b : BufPair) : BufPair :=
  {| Data := Data b; Errors := [] |}.

Definition writeErrors (b : BufPair) (data : bytes) : BufPair :=
  {| Data := Data b; Errors := Errors b ++ data |}.

(** One optional member [,"key":value] of an error object. *)
Definition writeErrMember (key : bytes) (value : option bytes) (b : BufPair) : BufPair :=
  match value with
  | None => b
  | Some v =>
      let b := writeErrors b comma in
      let b := writeErrors b quote in
      let b := writeErrors b key in
      let b := writeErrors b quote in
      let b := writeErrors b colon in
      writeErrors b v
  end.

Definition WriteErr (b : BufPair) (message : bytes)
    (locations path extensions : option bytes) : BufPair :=
  let b := if HasErrors b then writeErrors b comma else b in
  let b := writeErrors b lBrace in
  let b := writeErrors b quote in
  let b := writeErrors b literalMessage in
  let b := writeErrors b quote in
  let b := writeErrors b colon in
  let b := writeErrors b quote in
  let b := writeErrors b message in
  let b := writeErrors b quote in
  let b := writeErrMember literalLocations locations b in
  let b := writeErrMember literalPath path b in
  let b := writeErrMember literalExtensions extensions b in
  writeErrors b rBrace.

(** The merge functions mutate both pairs: they return [(from, to)]. *)
Definition MergeBufPairData (from to : BufPair) (prefixDataWithComma : bool)
    : BufPair * BufPair :=
  if negb (HasData from) then (from, to)
  else
    let to := if prefixDataWithComma then Data_WriteBytes to comma else to in
    let to := Data_WriteBytes to (Data from) in
    (Data_Reset from, to).

Definition MergeBufPairErrors (from to : BufPair) : BufPair * BufPair :=
  if negb (HasErrors from) then (from, to)
  else
    let to := if HasErrors to then writeErrors to comma else to in
    let to := writeErrors to (Errors from) in
    (Errors_Reset from, to).

Definition MergeBufPairs (from to : BufPair) (prefixDataWithComma : bool)
    : BufPair * BufPair :=
  let '(from, to) := MergeBufPairData from to prefixDataWithComma in
  MergeBufPairErrors from to.

(** Modelled from the spec: the byte constants of pkg/lexer/literal, a
    package of this repository that is not among the sources; each is the
    token its name says (the spec's root prefix [/data], the patch frame
    keys [op], [path] and [value]). *)
Module literal.
Definition SLASH : bytes := B "/".
Definition DATA : bytes := B "data".
Definition NULL : bytes := B "null".
Definition COMMA : bytes := B ",".
Definition COLON : bytes := B ":".
Definition LBRACE : bytes := B "{".
Definition RBRACE : bytes := B "}".
Definition LBRACK : bytes := B "[".
Definition RBRACK : bytes := B "]".
Definition QUOTE : bytes := ["034"%char].
Definition BACKSLASH : bytes := ["092"%char].
Definition OP : bytes := B "op".
Definition PATH : bytes := B "path".
Definition VALUE : bytes := B "value".
End literal.

(** ** Writers and the response envelope *)

(** [io.Writer]: a write returns the writer after it and the error, if any. *)
Class Writer (W : Type) : Type := { Write : W -> bytes -> W * option error }.

(** A [bytes.Buffer] as a writer: it appends and never fails. *)
#[export] Instance BufferWriter : Writer bytes :=
  {| Write := fun w p => (w ++ p, None) |}.

(** [FlushWriter]. *)
Class FlushWriter (W : Type) : Type := {
  FlushWriter_Writer :: Writer W;
  Flush : W -> W;
}.

(** What the streaming driver reads from the outside at its [k]-th
    iteration: whether the context is done, and whether the flush interval
    has passed ([now.After(nextFlush)]). *)
Record Clock : Type := mkClock { cancelled : nat -> bool; flushDue : nat -> bool }.

Section EnvelopeWriter.
Context {W : Type} `{Writer W}.

Definition writeSafe (err : option error) (writer : W) (data : bytes)
    : W * option error :=
  match err with
  | Some e => (writer, Some e)
  | None => Write writer data
  end.

(** [err = writeSafe(err, writer, data)] on the pair of the writer and the
    pending error. *)
Definition safely (data : bytes) (st : W * option error) : W * option error :=
  writeSafe (snd st) (fst st) data.

Definition writeGraphqlResponse (buf : BufPair) (writer : W) (ignoreData : bool)
    : W * option error :=
  let hasErrors := negb (length (Errors buf) =? 0)%nat in
  let hasData := negb (length (Data buf) =? 0)%nat && negb ignoreData in
  let st := safely lBrace (writer, None) in
  let st :=
    if hasErrors then
      let st := safely quote st in
      let st := safely literalErrors st in
      let st := safely quote st in
      let st := safely colon st in
      let st := safely lBrack st in
      let st := safely (Errors buf) st in
      let st := safely rBrack st in
      safely comma st
    else st in
  let st := safely quote st in
  let st := safely literalData st in
  let st := safely quote st in
  let st := safely colon st in
  let st :=
    if hasData then Write (fst st) (Data buf)  (* [_, err = writer.Write(...)] *)
    else safely literal.NULL st in
  safely rBrace st.
End EnvelopeWriter.

(** ** External interfaces *)

(** [net/textproto]. *)
Class TextProto : Type := { CanonicalMIMEHeaderKey : string -> string }.

(** [jsonparser.ValueType]. *)
Inductive ValueType : Type :=
| NotExist | String_ | Number | Object_ | Array_ | Boolean_ | Null_ | Unknown.

Definition ValueType_eqb (a b : ValueType) : bool :=
  match a, b with
  | NotExist, NotExist | String_, String_ | Number, Number | Object_, Object_
  | Array_, Array_ | Boolean_, Boolean_ | Null_, Null_ | Unknown, Unknown => true
  | _, _ => false
  end.

(** The functions of [jsonparser] that the resolver calls. The offsets they
    return are ignored by every caller and left out. A callback-driven
    function is the list of the calls it makes to its callback, in order,
    together with the error it returns at the end.
    - [Get data keys]: the value (nil when there is none), its type and the
      error.
    - [ArrayEach data keys]: one [(value, dataType)] per element.
    - [ObjectEach data]: one [(key, value, dataType)] per member.
    - [EachKey data paths]: one [(index of the path, value, dataType)] per
      path found, in the order of the document. *)
Class JsonParser : Type := {
  Get : bytes -> list string -> option bytes * ValueType * option error;
  ArrayEach : bytes -> list string -> list (bytes * ValueType) * option error;
  ObjectEach : bytes -> list (bytes * bytes * ValueType) * option error;
  EachKey : bytes -> list (list string) -> list (nat * bytes * ValueType);
}.

(** [unicode.IsLetter(rune(b))] for a byte [b]: the letters of Latin-1. *)
Definition IsLetter (b : ascii) : bool :=
  let n := N_of_ascii b in
  ((65 <=? n) && (n <=? 90) || (97 <=? n) && (n <=? 122)
   || (n =? 170) || (n =? 181) || (n =? 186)
   || (192 <=? n) && (n <=? 214) || (216 <=? n) && (n <=? 246)
   || (248 <=? n) && (n <=? 255))%N.

(** ** Context *)

Record Position : Type := mkPosition { Line : N; Column : N }.

Record patch : Type := mkPatch {
  patch_path : bytes;
  patch_extraPath : option bytes;
  patch_data : bytes;
  patch_index : Z;
}.

Record Request : Type := mkRequest { Header : gmap string (list string) }.

(** The embedded [context.Context] carries cancellation only and is left
    out. A hook is an observer outside the resolver: the context records
    whether one is installed. *)
Record Context : Type := mkContext {
  Variables : bytes;
  request : Request;
  pathElements : list bytes;
  patches : list patch;
  usedBuffers : list bytes;
  currentPatch : Z;
  maxPatch : Z;
  pathPrefix : bytes;
  beforeFetchHook : bool;
  afterFetchHook : bool;
  position : Position;
}.

Definition NewContext : Context :=
  {| Variables := []; request := {| Header := ∅ |}; pathElements := [];
     patches := []; usedBuffers := []; currentPatch := -1; maxPatch := -1;
     pathPrefix := []; beforeFetchHook := false; afterFetchHook := false;
     position := {| Line := 0; Column := 0 |} |}.

Definition set_pathElements (c : Context) (v : list bytes) : Context :=
  {| Variables := Variables c; request := request c; pathElements := v;
     patches := patches c; usedBuffers := usedBuffers c;
     currentPatch := currentPatch c; maxPatch := maxPatch c;
     pathPrefix := pathPrefix c; beforeFetchHook := beforeFetchHook c;
     afterFetchHook := afterFetchHook c; position := position c |}.

Definition set_usedBuffers (c : Context) (v : list bytes) : Context :=
  {| Variables := Variables c; request := request c;
     pathElements := pathElements c; patches := patches c; usedBuffers := v;
     currentPatch := currentPatch c; maxPatch := maxPatch c;
     pathPrefix := pathPrefix c; beforeFetchHook := beforeFetchHook c;
     afterFetchHook := afterFetchHook c; position := position c |}.

(** The deep copy of [Clone]: the same values, no leased buffer. *)
Definition Clone (c : Context) : Context := set_usedBuffers c [].

Definition setPosition (c : Context) (p : Position) : Context :=
  {| Variables := Variables c; request := request c;
     pathElements := pathElements c; patches := patches c;
     usedBuffers := usedBuffers c; currentPatch := currentPatch c;
     maxPatch := maxPatch c; pathPrefix := pathPrefix c;
     beforeFetchHook := beforeFetchHook c; afterFetchHook := afterFetchHook c;
     position := p |}.

Definition addPathElement (c : Context) (elem : bytes) : Context :=
  set_pathElements c (pathElements c ++ [elem]).

Definition addIntegerPathElement (c : Context) (elem : Z) : Context :=
  set_pathElements c (pathElements c ++ [Itoa elem]).

Definition removeLastPathElement (c : Context) : Context :=
  set_pathElements c (removelast (pathElements c)).

(** The loop of [path]: element [i] of [all] is written after a slash,
    except a first element equal to [data]. *)
Fixpoint writePathElements (all : list bytes) (i : nat) (rest : list bytes)
    (buf : bytes) : bytes :=
  match rest with
  | [] => buf
  | e :: rest' =>
      let buf :=
        if (i =? 0)%nat && bytes_Equal literal.DATA (nth 0 all [])
        then buf
        else (buf ++ literal.SLASH) ++ e in
      writePathElements all (S i) rest' buf
  end.

(** [path] leases a buffer from the pool and returns its bytes. *)
Definition path (c : Context) : Context * bytes :=
  let buf :=
    if negb (length (pathPrefix c) =? 0)%nat then pathPrefix c
    else literal.SLASH ++ literal.DATA in
  let buf := writePathElements (pathElements c) 0 (pathElements c) buf in
  (set_usedBuffers c (usedBuffers c ++ [buf]), buf).

Definition addPatch (c : Context) (index : Z) (path : bytes)
    (extraPath : option bytes) (data : bytes) : Context :=
  let next := {| patch_path := path; patch_extraPath := extraPath;
                 patch_data := data; patch_index := index |} in
  {| Variables := Variables c; request := request c;
     pathElements := pathElements c; patches := patches c ++ [next];
     usedBuffers := usedBuffers c; currentPatch := currentPatch c;
     maxPatch := maxPatch c + 1; pathPrefix := pathPrefix c;
     beforeFetchHook := beforeFetchHook c; afterFetchHook := afterFetchHook c;
     position := position c |}.

Definition set_currentPatch (c : Context) (v : Z) : Context :=
  {| Variables := Variables c; request := request c;
     pathElements := pathElements c; patches := patches c;
     usedBuffers := usedBuffers c; currentPatch := v; maxPatch := maxPatch c;
     pathPrefix := pathPrefix c; beforeFetchHook := beforeFetchHook c;
     afterFetchHook := afterFetchHook c; position := position c |}.

Definition set_pathPrefix (c : Context) (v : bytes) : Context :=
  {| Variables := Variables c; request := request c;
     pathElements := pathElements c; patches := patches c;
     usedBuffers := usedBuffers c; currentPatch := currentPatch c;
     maxPatch := maxPatch c; pathPrefix := v;
     beforeFetchHook := beforeFetchHook c; afterFetchHook := afterFetchHook c;
     position := position c |}.

(** [popNextPatch]: the patch and [ok]; indexing [patches] out of range
    panics. *)
Definition popNextPatch (c : Context) : Context * option (option patch) :=
  let c := set_currentPatch c (currentPatch c + 1) in
  if maxPatch c <? currentPatch c then (c, Some None)
  else if currentPatch c <? 0 then (c, None)
  else
    match patches c !! Z.to_nat (currentPatch c) with
    | Some p => (c, Some (Some p))
    | None => (c, None)
    end.

Definition validateContext (ctx : Context) : option error :=
  if negb (maxPatch ctx =? -1) || negb (currentPatch ctx =? -1)
  then Some errInvalidContext
  else None.

Definition preparePatch (ctx : Context) (patchIndex : Z)
    (extraPath : option bytes) (data : bytes) : Context :=
  let buf := data in
  let ctx := set_usedBuffers ctx (usedBuffers ctx ++ [buf]) in
  let '(ctx, path) := path ctx in
  addPatch ctx patchIndex path extraPath buf.

(** ** Input templates *)

Definition StaticSegmentType : Z := 1.
Definition VariableSegmentType : Z := 2.
Definition VariableSourceObject : Z := 3.
Definition VariableSourceContext : Z := 4.
Definition VariableSourceRequestHeader : Z := 5.

Record TemplateSegment : Type := mkTemplateSegment {
  SegmentType : Z;
  SegmentData : bytes;
  VariableSource : Z;
  VariableSourcePath : list string;
  RenderAsGraphQLValue : bool;
}.

Record InputTemplate : Type := mkInputTemplate { Segments : list TemplateSegment }.

(** The loop of [renderHeaderVariable] over the values of a header. *)
Fixpoint writeHeaderValues (j : nat) (value : list string) (preparedInput : bytes)
    : bytes :=
  match value with
  | [] => preparedInput
  | v :: value' =>
      let preparedInput :=
        if negb (j =? 0)%nat then preparedInput ++ literal.COMMA
        else preparedInput in
      writeHeaderValues (S j) value' (preparedInput ++ B v)
  end.

Section Templates.
Context `{JsonParser} `{TextProto}.

Definition renderObjectVariable (data : bytes) (path : list string)
    (preparedInput : bytes) : bytes * option error :=
  match Get data path with
  | (_, _, Some err) => (preparedInput, Some err)
  | (value, _, None) => (preparedInput ++ slice_bytes value, None)
  end.

Section ValueLoops.
Variable render : bytes -> ValueType -> bytes -> bytes * option error.

(** The callback of [ObjectEach] in [renderGraphQLValue], member by member;
    an error of the callback stops the iteration and is what [ObjectEach]
    returns, otherwise it returns its own [parseErr]. *)
Fixpoint renderMembers (parseErr : option error)
    (members : list (bytes * bytes * ValueType)) (first : bool) (buf : bytes)
    : bytes * option error :=
  match members with
  | [] => (buf, parseErr)
  | (key, value, dataType) :: members' =>
      let buf := if negb first then buf ++ literal.COMMA else buf in
      let buf := buf ++ key in
      let buf := buf ++ literal.COLON in
      match render value dataType buf with
      | (buf, Some err) => (buf, Some err)
      | (buf, None) => renderMembers parseErr members' false buf
      end
  end.

(** The callback of [ArrayEach] in [renderGraphQLValue], element by element;
    it keeps in [arrayErr] the error of the element it rendered last. *)
Fixpoint renderElements (elements : list (bytes * ValueType)) (first : bool)
    (arrayErr : option error) (buf : bytes) : bytes * option error :=
  match elements with
  | [] => (buf, arrayErr)
  | (value, dataType) :: elements' =>
      let buf := if negb first then buf ++ literal.COMMA else buf in
      let '(buf, arrayErr) := render value dataType buf in
      renderElements elements' false arrayErr buf
  end.

End ValueLoops.

(** The recursion of [renderGraphQLValue] follows the nesting of the JSON
    value; [depth] bounds it, and [renderGraphQLValue] below starts it with
    more than the length of the value, which is enough whenever the parser
    hands out proper sub-slices. *)
Fixpoint renderGraphQLValueAt (depth : nat) (data : bytes) (valueType : ValueType)
    (buf : bytes) {struct depth} : bytes * option error :=
  match depth with
  | O => (buf, Some (errJson "nesting exceeds the length of the value"))
  | S depth =>
      match valueType with
      | String_ =>
          let buf := buf ++ literal.BACKSLASH in
          let buf := buf ++ literal.QUOTE in
          let buf := buf ++ data in
          let buf := buf ++ literal.BACKSLASH in
          let buf := buf ++ literal.QUOTE in
          (buf, None)
      | Object_ =>
          let buf := buf ++ literal.LBRACE in
          let '(members, parseErr) := ObjectEach data in
          match renderMembers (renderGraphQLValueAt depth) parseErr members true buf with
          | (buf, Some err) => (buf, Some err)
          | (buf, None) => (buf ++ literal.RBRACE, None)
          end
      | Null_ => (buf ++ literal.NULL, None)
      | Boolean_ => (buf ++ data, None)
      | Array_ =>
          let buf := buf ++ literal.LBRACK in
          let '(elements, err) := ArrayEach data [] in
          match renderElements (renderGraphQLValueAt depth) elements true None buf with
          | (buf, Some arrayErr) => (buf, Some arrayErr)
          | (buf, None) =>
              match err with
              | Some err => (buf, Some err)
              | None => (buf ++ literal.RBRACK, None)
              end
          end
      | Number => (buf ++ data, None)
      | NotExist | Unknown => (buf, None)
      end
  end.

Definition renderGraphQLValue (data : bytes) (valueType : ValueType) (buf : bytes)
    : bytes * option error :=
  renderGraphQLValueAt (S (length data)) data valueType buf.

Definition renderContextVariable (ctx : Context) (path : list string)
    (renderAsGraphQLValue : bool) (preparedInput : bytes) : bytes * option error :=
  match Get (Variables ctx) path with
  | (_, _, Some err) => (preparedInput, Some err)
  | (value, valueType, None) =>
      if negb renderAsGraphQLValue
      then (preparedInput ++ slice_bytes value, None)
      else renderGraphQLValue (slice_bytes value) valueType preparedInput
  end.

Definition renderHeaderVariable (ctx : Context) (path : list string)
    (preparedInput : bytes) : bytes * option error :=
  if negb (length path =? 1)%nat then (preparedInput, Some errHeaderPathInvalid)
  else
    let canonicalName := CanonicalMIMEHeaderKey (nth 0 path EmptyString) in
    let value := default [] (Header (request ctx) !! canonicalName) in
    if (length value =? 0)%nat then (preparedInput, None)
    else if (length value =? 1)%nat
    then (preparedInput ++ B (nth 0 value EmptyString), None)
    else (writeHeaderValues 0 value preparedInput, None).

Fixpoint renderSegments (ctx : Context) (data : bytes)
    (segments : list TemplateSegment) (preparedInput : bytes)
    : bytes * option error :=
  match segments with
  | [] => (preparedInput, None)
  | seg :: segments' =>
      if SegmentType seg =? StaticSegmentType then
        renderSegments ctx data segments' (preparedInput ++ SegmentData seg)
      else if SegmentType seg =? VariableSegmentType then
        let '(preparedInput, err) :=
          if VariableSource seg =? VariableSourceObject then
            renderObjectVariable data (VariableSourcePath seg) preparedInput
          else if VariableSource seg =? VariableSourceContext then
            renderContextVariable ctx (VariableSourcePath seg)
              (RenderAsGraphQLValue seg) preparedInput
          else if VariableSource seg =? VariableSourceRequestHeader then
            renderHeaderVariable ctx (VariableSourcePath seg) preparedInput
          else (preparedInput, Some (errCannotResolveVariable (VariableSource seg))) in
        match err with
        | Some err => (preparedInput, Some err)
        | None => renderSegments ctx data segments' preparedInput
        end
      else renderSegments ctx data segments' preparedInput
  end.

Definition Render (i : InputTemplate) (ctx : Context) (data : bytes)
    (preparedInput : bytes) : bytes * option error :=
  renderSegments ctx data (Segments i) preparedInput.

(** ** The response extractor *)

Record ProcessResponseConfig : Type := mkProcessResponseConfig {
  ExtractGraphqlResponse : bool;
  ExtractFederationEntities : bool;
}.

Definition responsePaths : list (list string) := [["errors"%string]; ["data"%string]].
Definition errorPaths : list (list string) :=
  [["message"%string]; ["locations"%string]; ["path"%string]; ["extensions"%string]].
Definition entitiesPath : list string := ["_entities"%string; "[0]"%string].

Definition rootErrorsPathIndex : nat := 0.
Definition rootDataPathIndex : nat := 1.
Definition errorsMessagePathIndex : nat := 0.
Definition errorsLocationsPathIndex : nat := 1.
Definition errorsPathPathIndex : nat := 2.
Definition errorsExtensionsPathIndex : nat := 3.

(** The four members of one upstream error, as the inner [EachKey] callback
    of [extractResponse] assigns them. *)
Definition errorMembers (value : bytes)
    : option bytes * option bytes * option bytes * option bytes :=
  fold_left
    (fun '(message, locations, path, extensions) '(i, bytes, _) =>
       if (i =? errorsMessagePathIndex)%nat then (Some bytes, locations, path, extensions)
       else if (i =? errorsLocationsPathIndex)%nat then (message, Some bytes, path, extensions)
       else if (i =? errorsPathPathIndex)%nat then (message, locations, Some bytes, extensions)
       else if (i =? errorsExtensionsPathIndex)%nat then (message, locations, path, Some bytes)
       else (message, locations, path, extensions))
    (EachKey value errorPaths) (None, None, None, None).

(** The [ArrayEach] callback of [extractResponse], for one upstream error. *)
Definition extractError (bufPair : BufPair) (value : bytes) : BufPair :=
  match errorMembers value with
  | (Some message, locations, path, extensions) =>
      WriteErr bufPair message locations path extensions
  | (None, _, _, _) => bufPair
  end.

Definition extractResponse (responseData : bytes) (bufPair : BufPair)
    (cfg : ProcessResponseConfig) : BufPair :=
  if (length responseData =? 0)%nat then bufPair
  else if negb (ExtractGraphqlResponse cfg)
  then Data_WriteBytes bufPair responseData
  else
    fold_left
      (fun bufPair '(i, bytes, _) =>
         if (i =? rootErrorsPathIndex)%nat then
           fold_left (fun bufPair '(value, _) => extractError bufPair value)
             (fst (ArrayEach bytes [])) bufPair
         else if (i =? rootDataPathIndex)%nat then
           if ExtractFederationEntities cfg then
             let '(data, _, _) := Get bytes entitiesPath in
             Data_WriteBytes bufPair (slice_bytes data)
           else Data_WriteBytes bufPair bytes
         else bufPair)
      (EachKey responseData responsePaths) bufPair.

End Templates.

(** ** The plan tree *)

Record Defer : Type := mkDefer { DeferEnabled : bool; DeferPatchIndex : Z }.

Record Stream : Type := mkStream {
  StreamEnabled : bool;
  InitialBatchSize : Z;
  StreamPatchIndex : Z;
}.

(** [DataSource.Load]: the bytes the source writes and the error it returns,
    as a function of the rendered input. *)
Record DataSource : Type := mkDataSource { Load : bytes -> bytes * option error }.

Record SingleFetch : Type := mkSingleFetch {
  BufferId : Z;
  dataSource : DataSource;
  DisallowSingleFlight : bool;
  inputTemplate : InputTemplate;
  DataSourceIdentifier : bytes;
  processResponseConfig : ProcessResponseConfig;
}.

Inductive Fetch : Type :=
| FetchSingle (f : SingleFetch)
| FetchParallel (Fetches : list SingleFetch).

(** The nodes of a plan. The [Defer] and [Stream] markers of a [Field] are
    not read by the resolver and are left out. A [String] node tests its
    path against nil, so that path is optional. *)
#[warnings="-register-all"]
Inductive Node : Type :=
| NObject (o : Object)
| NEmptyObject
| NArray (a : Array)
| NEmptyArray
| NNull (d : Defer)
| NString (Path : option (list string)) (Nullable : bool)
| NBoolean (Path : list string) (Nullable : bool)
| NInteger (Path : list string) (Nullable : bool)
| NFloat (Path : list string) (Nullable : bool)
with Object : Type :=
| mkObject (Nullable : bool) (Path : list string) (Fields : list Field)
    (Fetch : option Fetch)
with Field : Type :=
| mkField (Name : bytes) (Value : Node) (Position : Position)
    (HasBuffer : bool) (BufferID : Z) (OnTypeName : option bytes)
with Array : Type :=
| mkArray (Path : list string) (Nullable : bool) (ResolveAsynchronous : bool)
    (Item : Node) (Stream : Stream).

Definition ObjectNullable (o : Object) : bool :=
  match o with mkObject Nullable _ _ _ => Nullable end.
Definition ObjectPath (o : Object) : list string :=
  match o with mkObject _ Path _ _ => Path end.
Definition Fields (o : Object) : list Field :=
  match o with mkObject _ _ Fields _ => Fields end.
Definition ObjectFetch (o : Object) : option Fetch :=
  match o with mkObject _ _ _ Fetch => Fetch end.

Definition Name (f : Field) : bytes :=
  match f with mkField Name _ _ _ _ _ => Name end.
Definition Value (f : Field) : Node :=
  match f with mkField _ Value _ _ _ _ => Value end.
Definition fieldPosition (f : Field) : Position :=
  match f with mkField _ _ Position _ _ _ => Position end.
Definition HasBuffer (f : Field) : bool :=
  match f with mkField _ _ _ HasBuffer _ _ => HasBuffer end.
Definition BufferID (f : Field) : Z :=
  match f with mkField _ _ _ _ BufferID _ => BufferID end.
Definition OnTypeName (f : Field) : option bytes :=
  match f with mkField _ _ _ _ _ OnTypeName => OnTypeName end.

Definition ArrayPath (a : Array) : list string :=
  match a with mkArray Path _ _ _ _ => Path end.
Definition ArrayNullable (a : Array) : bool :=
  match a with mkArray _ Nullable _ _ _ => Nullable end.
Definition ResolveAsynchronous (a : Array) : bool :=
  match a with mkArray _ _ ResolveAsynchronous _ _ => ResolveAsynchronous end.
Definition Item (a : Array) : Node :=
  match a with mkArray _ _ _ Item _ => Item end.
Definition ArrayStream (a : Array) : Stream :=
  match a with mkArray _ _ _ _ Stream => Stream end.

Section NodeInduction.
Variable P : Node -> Prop.
Hypothesis HObject : forall o, Forall (fun f => P (Value f)) (Fields o) -> P (NObject o).
Hypothesis HEmptyObject : P NEmptyObject.
Hypothesis HArray : forall a, P (Item a) -> P (NArray a).
Hypothesis HEmptyArray : P NEmptyArray.
Hypothesis HNull : forall d, P (NNull d).
Hypothesis HString : forall p n, P (NString p n).
Hypothesis HBoolean : forall p n, P (NBoolean p n).
Hypothesis HInteger : forall p n, P (NInteger p n).
Hypothesis HFloat : forall p n, P (NFloat p n).

(** Induction on a plan: an object may assume the property of the values of
    its fields, an array that of its item. *)
Fixpoint Node_induction (n : Node) : P n :=
  match n with
  | NObject o =>
      HObject o
        (match o return Forall (fun f => P (Value f)) (Fields o) with
         | mkObject _ _ fields _ =>
             (fix fields_induction (fs : list Field)
                : Forall (fun f => P (Value f)) fs :=
                match fs with
                | [] => List.Forall_nil _
                | f :: fs' =>
                    List.Forall_cons _ _ _
                      (match f return P (Value f) with
                       | mkField _ v _ _ _ _ => Node_induction v
                       end)
                      (fields_induction fs')
                end) fields
         end)
  | NEmptyObject => HEmptyObject
  | NArray a =>
      HArray a (match a return P (Item a) with
                | mkArray _ _ _ item _ => Node_induction item
                end)
  | NEmptyArray => HEmptyArray
  | NNull d => HNull d
  | NString p n => HString p n
  | NBoolean p n => HBoolean p n
  | NInteger p n => HInteger p n
  | NFloat p n => HFloat p n
  end.

End NodeInduction.

Definition isObject (n : Node) : bool :=
  match n with NObject _ => true | _ => false end.

Record GraphQLResponse : Type := mkGraphQLResponse { ResponseData : Node }.

Record GraphQLResponsePatch : Type := mkGraphQLResponsePatch {
  PatchValue : Node;
  PatchFetch : option Fetch;
  Operation : bytes;
}.

Record GraphQLStreamingResponse : Type := mkGraphQLStreamingResponse {
  InitialResponse : GraphQLResponse;
  Patches : list GraphQLResponsePatch;
  FlushInterval : Z;
}.

Record resultSet : Type := mkResultSet { buffers : gmap Z BufPair }.

(** The resolver: its single-flight switch, and the order in which the
    element tasks of an asynchronous array complete, which the Go scheduler
    decides: any function of the path of the array and of its elements. *)
Record Resolver : Type := mkResolver {
  EnableSingleFlightLoader : bool;
  completionOrder : list bytes -> list bytes -> list nat;
}.

(** What a resolve function leaves behind: the context, the buffer pair it
    wrote to, and the error it returns. *)
Definition Result : Type := Context * BufPair * option error.

Definition ctxOf (res : Result) : Context := fst (fst res).
Definition bufOf (res : Result) : BufPair := snd (fst res).
Definition errOf (res : Result) : option error := snd res.

(** The control of a loop body: go on with the next element, or return from
    the enclosing function. *)
Inductive Flow (S R : Type) : Type :=
| Continue (s : S)
| Return (r : R).
Arguments Continue {S R} s.
Arguments Return {S R} r.

(** ** The fetch orchestrator and the tree walker *)

Section Walk.
Context `{JsonParser} `{TextProto}.
Variable r : Resolver.

Definition resolveNull (b : BufPair) : BufPair := Data_WriteBytes b null.

Definition resolveEmptyArray (b : BufPair) : BufPair :=
  Data_WriteBytes (Data_WriteBytes b lBrack) rBrack.

Definition resolveEmptyObject (b : BufPair) : BufPair :=
  Data_WriteBytes (Data_WriteBytes b lBrace) rBrace.

Definition addResolveError (ctx : Context) (objectBuf : BufPair) : BufPair :=
  let locations := lBrack in
  let locations := locations ++ lBrace in
  let locations := locations ++ quote in
  let locations := locations ++ literalLine in
  let locations := locations ++ quote in
  let locations := locations ++ colon in
  let locations := locations ++ Itoa (Z.of_N (Line (position ctx))) in
  let locations := locations ++ comma in
  let locations := locations ++ quote in
  let locations := locations ++ literalColumn in
  let locations := locations ++ quote in
  let locations := locations ++ colon in
  let locations := locations ++ Itoa (Z.of_N (Column (position ctx))) in
  let locations := locations ++ rBrace in
  let locations := locations ++ rBrack in
  let pathBytes :=
    if (0 <? length (pathElements ctx))%nat then
      let path := lBrack in
      let path := path ++ quote in
      let path := path ++ bytes_Join (pathElements ctx) quotedComma in
      let path := path ++ quote in
      let path := path ++ rBrack in
      Some path
    else None in
  WriteErr objectBuf unableToResolveMsg (Some locations) pathBytes None.

(** *** Leaves *)

Definition resolveInteger (Path : list string) (Nullable : bool) (data : bytes)
    (integerBuf : BufPair) : BufPair * option error :=
  let '(value, dataType, err) := Get data Path in
  if isSome err || negb (ValueType_eqb dataType Number) then
    if negb Nullable then (integerBuf, Some errNonNullableFieldValueIsNull)
    else (resolveNull integerBuf, None)
  else (Data_WriteBytes integerBuf (slice_bytes value), None).

Definition resolveFloat (Path : list string) (Nullable : bool) (data : bytes)
    (floatBuf : BufPair) : BufPair * option error :=
  let '(value, dataType, err) := Get data Path in
  if isSome err || negb (ValueType_eqb dataType Number) then
    if negb Nullable then (floatBuf, Some errNonNullableFieldValueIsNull)
    else (resolveNull floatBuf, None)
  else (Data_WriteBytes floatBuf (slice_bytes value), None).

Definition resolveBoolean (Path : list string) (Nullable : bool) (data : bytes)
    (booleanBuf : BufPair) : BufPair * option error :=
  let '(value, valueType, err) := Get data Path in
  if isSome err || negb (ValueType_eqb valueType Boolean_) then
    if negb Nullable then (booleanBuf, Some errNonNullableFieldValueIsNull)
    else (resolveNull booleanBuf, None)
  else (Data_WriteBytes booleanBuf (slice_bytes value), None).

Definition writeQuoted (stringBuf : BufPair) (value : option bytes) : BufPair :=
  let stringBuf := Data_WriteBytes stringBuf quote in
  let stringBuf := Data_WriteBytes stringBuf (slice_bytes value) in
  Data_WriteBytes stringBuf quote.

(** The second half of [resolveString], from [if value == nil]. *)
Definition resolveStringValue (Path : option (list string)) (Nullable : bool)
    (data : bytes) (value : option bytes) (stringBuf : BufPair)
    : BufPair * option error :=
  match value with
  | Some _ => (writeQuoted stringBuf value, None)
  | None =>
      let '(value, valueType, err) := Get data (default [] Path) in
      if isSome err || negb (ValueType_eqb valueType String_) then
        if negb Nullable then (stringBuf, Some errNonNullableFieldValueIsNull)
        else (resolveNull stringBuf, None)
      else if negb (isSome value) && negb Nullable
      then (stringBuf, Some errNonNullableFieldValueIsNull)
      else (writeQuoted stringBuf value, None)
  end.

Definition resolveString (Path : option (list string)) (Nullable : bool)
    (data : bytes) (stringBuf : BufPair) : BufPair * option error :=
  if negb (length data =? 0)%nat && negb (isSome Path) then
    let '(_, valueType, _) := Get data [] in
    if ValueType_eqb valueType String_ || IsLetter (nth 0 data "000"%char)
    then resolveStringValue Path Nullable data (Some data) stringBuf
    else if negb Nullable then (stringBuf, Some errNonNullableFieldValueIsNull)
    else (resolveNull stringBuf, None)
  else resolveStringValue Path Nullable data None stringBuf.

(** *** Fetches *)

Definition hookCtx (ctx : Context) : Context * bytes := path ctx.

(** A hook call: the hook observes, the resolver only computes the path it
    hands over. *)
Definition callHook (installed : bool) (ctx : Context) : Context :=
  if installed then fst (hookCtx ctx) else ctx.

(** [resolveSingleFetch] as one caller runs it. The in-flight map is empty
    whenever no other call is in progress, so with single-flight enabled this
    caller is the leader: it loads into the shared entry and copies from it.
    The waiter branch needs a concurrent caller. *)
Definition resolveSingleFetch (ctx : Context) (fetch : SingleFetch)
    (preparedInput : bytes) (buf : BufPair) : Context * BufPair * option error :=
  let ctx := callHook (beforeFetchHook ctx) ctx in
  if negb (EnableSingleFlightLoader r) || DisallowSingleFlight fetch then
    let '(dataBuf, err) := Load (dataSource fetch) preparedInput in
    let buf := extractResponse dataBuf buf (processResponseConfig fetch) in
    let ctx := callHook (afterFetchHook ctx && HasData buf) ctx in
    let ctx := callHook (afterFetchHook ctx && HasErrors buf) ctx in
    (ctx, buf, err)
  else
    let '(dataBuf, err) := Load (dataSource fetch) preparedInput in
    let inflight := extractResponse dataBuf NewBufPair (processResponseConfig fetch) in
    let '(ctx, buf) :=
      if HasData inflight then
        (callHook (afterFetchHook ctx) ctx, Data_WriteBytes buf (Data inflight))
      else (ctx, buf) in
    let '(ctx, buf) :=
      if HasErrors inflight then
        (callHook (afterFetchHook ctx) ctx, writeErrors buf (Errors inflight))
      else (ctx, buf) in
    (ctx, buf, err).

Definition prepareSingleFetch (ctx : Context) (fetch : SingleFetch) (data : bytes)
    (set : resultSet) (preparedInput : bytes) : resultSet * bytes * option error :=
  let '(preparedInput, err) := Render (inputTemplate fetch) ctx data preparedInput in
  let set := {| buffers := <[BufferId fetch := NewBufPair]> (buffers set) |} in
  (set, preparedInput, err).

(** The first loop of a parallel fetch: the prepared inputs, in order. *)
Fixpoint prepareFetches (ctx : Context) (fetches : list SingleFetch) (data : bytes)
    (set : resultSet) (preparedInputs : list bytes)
    : resultSet * list bytes * option error :=
  match fetches with
  | [] => (set, preparedInputs, None)
  | f :: fetches' =>
      match prepareSingleFetch ctx f data set [] with
      | (set, _, Some err) => (set, preparedInputs, Some err)
      | (set, preparedInput, None) =>
          prepareFetches ctx fetches' data set (preparedInputs ++ [preparedInput])
      end
  end.

(** The tasks of a parallel fetch, each writing to the buffer of its own
    id; their errors are dropped. They are run here one after the other. *)
Fixpoint runFetches (ctx : Context) (fetches : list SingleFetch)
    (preparedInputs : list bytes) (set : resultSet) : Context * resultSet :=
  match fetches, preparedInputs with
  | f :: fetches', preparedInput :: preparedInputs' =>
      let buf := default NewBufPair (buffers set !! BufferId f) in
      let '(ctx, buf, _) := resolveSingleFetch ctx f preparedInput buf in
      runFetches ctx fetches' preparedInputs'
        {| buffers := <[BufferId f := buf]> (buffers set) |}
  | _, _ => (ctx, set)
  end.

Definition resolveFetch (ctx : Context) (fetch : Fetch) (data : bytes)
    (set : resultSet) : Context * resultSet * option error :=
  match fetch with
  | FetchSingle f =>
      match prepareSingleFetch ctx f data set [] with
      | (set, _, Some err) => (ctx, set, Some err)
      | (set, preparedInput, None) =>
          let buf := default NewBufPair (buffers set !! BufferId f) in
          let '(ctx, buf, err) := resolveSingleFetch ctx f preparedInput buf in
          (ctx, {| buffers := <[BufferId f := buf]> (buffers set) |}, err)
      end
  | FetchParallel fetches =>
      match prepareFetches ctx fetches data set [] with
      | (set, _, Some err) => (ctx, set, Some err)
      | (set, preparedInputs, None) =>
          let '(ctx, set) := runFetches ctx fetches preparedInputs set in
          (ctx, set, None)
      end
  end.

(** [for i := range set.buffers { MergeBufPairErrors(set.buffers[i], objectBuf) }].
    Go leaves the order of a map range open; the buffers are taken here in
    the order of [map_to_list]. Each buffer of the set loses its errors. *)
Definition mergeFetchErrors (set : resultSet) (objectBuf : BufPair)
    : resultSet * BufPair :=
  let objectBuf :=
    fold_left (fun objectBuf '(_, buf) => snd (MergeBufPairErrors buf objectBuf))
      (map_to_list (buffers set)) objectBuf in
  ({| buffers := Errors_Reset <$> buffers set |}, objectBuf).

(** *** Objects *)

Section Loops.
Variable resolveNode : Node -> Context -> bytes -> BufPair -> Result.

(** The variables of the loop of [resolveObject] over the fields. *)
Record fieldsState : Type := mkFieldsState {
  fs_ctx : Context;
  fs_objectBuf : BufPair;
  fs_fieldBuf : BufPair;
  fs_typeNameSkip : bool;
  fs_first : bool;
}.

(** The data a field is resolved against. *)
Definition fieldDataOf (set : option resultSet) (data : bytes) (f : Field) : bytes :=
  match set with
  | Some set =>
      if HasBuffer f then
        match buffers set !! BufferID f with
        | Some buffer => Data buffer
        | None => []
        end
      else data
  | None => data
  end.

(** [true] when the field is gated out by its [OnTypeName]. *)
Definition typeNameMismatch (fieldData : bytes) (f : Field) : bool :=
  match OnTypeName f with
  | Some onTypeName =>
      let '(typeName, _, _) := Get fieldData ["__typename"%string] in
      negb (bytes_Equal (slice_bytes typeName) onTypeName)
  | None => false
  end.

(** One iteration of the loop of [resolveObject]. *)
Definition resolveField (object : Object) (data : bytes) (set : option resultSet)
    (f : Field) (st : fieldsState) : Flow fieldsState Result :=
  let fieldData := fieldDataOf set data f in
  if typeNameMismatch fieldData f then
    Continue {| fs_ctx := fs_ctx st; fs_objectBuf := fs_objectBuf st;
                fs_fieldBuf := fs_fieldBuf st; fs_typeNameSkip := true;
                fs_first := fs_first st |}
  else
    let objectBuf := fs_objectBuf st in
    let objectBuf :=
      if fs_first st then Data_WriteBytes objectBuf lBrace
      else Data_WriteBytes objectBuf comma in
    let objectBuf := Data_WriteBytes objectBuf quote in
    let objectBuf := Data_WriteBytes objectBuf (Name f) in
    let objectBuf := Data_WriteBytes objectBuf quote in
    let objectBuf := Data_WriteBytes objectBuf colon in
    let ctx := addPathElement (fs_ctx st) (Name f) in
    let ctx := setPosition ctx (fieldPosition f) in
    let '(ctx, fieldBuf, err) := resolveNode (Value f) ctx fieldData (fs_fieldBuf st) in
    let ctx := removeLastPathElement ctx in
    match err with
    | Some e =>
        if is_errTypeNameSkipped e then
          Return (ctx, resolveEmptyObject (Data_Reset objectBuf), None)
        else if is_errNonNullableFieldValueIsNull e then
          let objectBuf := Data_Reset objectBuf in
          let '(fieldBuf, objectBuf) := MergeBufPairErrors fieldBuf objectBuf in
          if ObjectNullable object then Return (ctx, resolveNull objectBuf, None)
          else
            (* a field of object type does not add a resolve error here *)
            let objectBuf :=
              if negb (isObject (Value f)) then addResolveError ctx objectBuf
              else objectBuf in
            Return (ctx, objectBuf, Some e)
        else Return (ctx, objectBuf, Some e)
    | None =>
        let '(fieldBuf, objectBuf) := MergeBufPairs fieldBuf objectBuf false in
        Continue {| fs_ctx := ctx; fs_objectBuf := objectBuf;
                    fs_fieldBuf := fieldBuf;
                    fs_typeNameSkip := fs_typeNameSkip st; fs_first := false |}
    end.

Fixpoint resolveFields (object : Object) (data : bytes) (set : option resultSet)
    (fields : list Field) (st : fieldsState) {struct fields}
    : Flow fieldsState Result :=
  match fields with
  | [] => Continue st
  | f :: fields' =>
      match resolveField object data set f st with
      | Continue st => resolveFields object data set fields' st
      | Return res => Return res
      end
  end.

(** [resolveObject] from the fetch on, with the data its path selects. *)
Definition resolveObjectFields (ctx : Context) (object : Object) (data : bytes)
    (objectBuf : BufPair) : Result :=
  let fetched :=
    match ObjectFetch object with
    | Some fetch =>
        match resolveFetch ctx fetch data {| buffers := ∅ |} with
        | (ctx, set, Some err) => Return (ctx, objectBuf, Some err)
        | (ctx, set, None) =>
            let '(set, objectBuf) := mergeFetchErrors set objectBuf in
            Continue (ctx, Some set, objectBuf)
        end
    | None => Continue (ctx, None, objectBuf)
    end in
  match fetched with
  | Return res => res
  | Continue (ctx, set, objectBuf) =>
      let st := {| fs_ctx := ctx; fs_objectBuf := objectBuf;
                   fs_fieldBuf := NewBufPair; fs_typeNameSkip := false;
                   fs_first := true |} in
      match resolveFields object data set (Fields object) st with
      | Return res => res
      | Continue st =>
          let ctx := fs_ctx st in
          let objectBuf := fs_objectBuf st in
          if fs_first st then
            if fs_typeNameSkip st then (ctx, objectBuf, Some errTypeNameSkipped)
            else if negb (ObjectNullable object) then
              (ctx, addResolveError ctx objectBuf, Some errNonNullableFieldValueIsNull)
            else (ctx, resolveNull objectBuf, None)
          else (ctx, Data_WriteBytes objectBuf rBrace, None)
      end
  end.

Definition resolveObject (ctx : Context) (object : Object) (data : bytes)
    (objectBuf : BufPair) : Result :=
  if negb (length (ObjectPath object) =? 0)%nat then
    let '(value, _, _) := Get data (ObjectPath object) in
    let data := slice_bytes value in
    if (length data =? 0)%nat then
      if ObjectNullable object then (ctx, resolveNull objectBuf, None)
      else (ctx, addResolveError ctx objectBuf, Some errNonNullableFieldValueIsNull)
    else resolveObjectFields ctx object data objectBuf
  else resolveObjectFields ctx object data objectBuf.

End Loops.

(** *** Arrays *)

Section ArrayLoops.
Variable resolveItem : Context -> bytes -> BufPair -> Result.

(** The variables of the loop of [resolveArraySynchronous]. *)
Record arrayState : Type := mkArrayState {
  as_ctx : Context;
  as_arrayBuf : BufPair;
  as_itemBuf : BufPair;
  as_hasPreviousItem : bool;
  as_dataWritten : nat;
}.

(** [i > array.Stream.InitialBatchSize-1] on a streaming array; the
    subtraction wraps around at the least [int]. *)
Definition beyondInitialBatch (array : Array) (i : nat) : bool :=
  StreamEnabled (ArrayStream array)
  && (wrapInt (InitialBatchSize (ArrayStream array) - 1) <? Z.of_nat i).

(** One iteration of the loop of [resolveArraySynchronous]. *)
Definition resolveArrayItem (array : Array) (i : nat) (item : bytes)
    (st : arrayState) : Flow arrayState Result :=
  if beyondInitialBatch array i then
    let ctx := addIntegerPathElement (as_ctx st) (Z.of_nat i) in
    let ctx := preparePatch ctx (StreamPatchIndex (ArrayStream array)) None item in
    let ctx := removeLastPathElement ctx in
    Continue {| as_ctx := ctx; as_arrayBuf := as_arrayBuf st;
                as_itemBuf := as_itemBuf st;
                as_hasPreviousItem := as_hasPreviousItem st;
                as_dataWritten := as_dataWritten st |}
  else
    let ctx := addIntegerPathElement (as_ctx st) (Z.of_nat i) in
    let '(ctx, itemBuf, err) := resolveItem ctx item (as_itemBuf st) in
    let ctx := removeLastPathElement ctx in
    match err with
    | Some e =>
        if is_errNonNullableFieldValueIsNull e && ArrayNullable array then
          Return (ctx, resolveNull (Data_Reset (as_arrayBuf st)), None)
        else if is_errTypeNameSkipped e then
          Continue {| as_ctx := ctx; as_arrayBuf := as_arrayBuf st;
                      as_itemBuf := itemBuf;
                      as_hasPreviousItem := as_hasPreviousItem st;
                      as_dataWritten := as_dataWritten st |}
        else Return (ctx, as_arrayBuf st, Some e)
    | None =>
        let dataWritten := (as_dataWritten st + length (Data itemBuf))%nat in
        let '(itemBuf, arrayBuf) :=
          MergeBufPairs itemBuf (as_arrayBuf st) (as_hasPreviousItem st) in
        let hasPreviousItem :=
          if negb (as_hasPreviousItem st) && negb (dataWritten =? 0)%nat then true
          else as_hasPreviousItem st in
        Continue {| as_ctx := ctx; as_arrayBuf := arrayBuf; as_itemBuf := itemBuf;
                    as_hasPreviousItem := hasPreviousItem;
                    as_dataWritten := dataWritten |}
    end.

Fixpoint resolveArrayItems (array : Array) (i : nat) (arrayItems : list bytes)
    (st : arrayState) : Flow arrayState Result :=
  match arrayItems with
  | [] => Continue st
  | item :: arrayItems' =>
      match resolveArrayItem array i item st with
      | Continue st => resolveArrayItems array (S i) arrayItems' st
      | Return res => Return res
      end
  end.

Definition resolveArraySynchronous (ctx : Context) (array : Array)
    (arrayItems : list bytes) (arrayBuf : BufPair) : Result :=
  let arrayBuf := Data_WriteBytes arrayBuf lBrack in
  let st := {| as_ctx := ctx; as_arrayBuf := arrayBuf; as_itemBuf := NewBufPair;
               as_hasPreviousItem := false; as_dataWritten := 0 |} in
  match resolveArrayItems array 0 arrayItems st with
  | Return res => res
  | Continue st => (as_ctx st, Data_WriteBytes (as_arrayBuf st) rBrack, None)
  end.

(** The task of element [i] of an asynchronous array, on its own clone of
    the context and its own buffer pair. *)
Definition elementTask (ctx : Context) (i : nat) (itemData : bytes) : Result :=
  resolveItem (addPathElement (Clone ctx) (Itoa (Z.of_nat i))) itemData NewBufPair.

(** What is received from the one-slot error channel after the join: the
    error of the first task, in the order of completion, that returned an
    error other than the type-name skip. *)
Fixpoint firstTaskError (order : list nat) (tasks : list Result) : option error :=
  match order with
  | [] => None
  | i :: order' =>
      match tasks !! i with
      | Some (_, _, Some e) =>
          if negb (is_errTypeNameSkipped e) then Some e
          else firstTaskError order' tasks
      | _ => firstTaskError order' tasks
      end
  end.

(** The merge loop of [resolveArrayAsynchronous] over the buffer pairs of
    the tasks, in the order of the elements. *)
Fixpoint mergeItemBufs (bufSlice : list BufPair) (arrayBuf : BufPair)
    (hasPreviousItem : bool) (dataWritten : nat) : BufPair :=
  match bufSlice with
  | [] => arrayBuf
  | itemBuf :: bufSlice' =>
      let dataWritten := (dataWritten + length (Data itemBuf))%nat in
      let '(_, arrayBuf) := MergeBufPairs itemBuf arrayBuf hasPreviousItem in
      let hasPreviousItem :=
        if negb hasPreviousItem && negb (dataWritten =? 0)%nat then true
        else hasPreviousItem in
      mergeItemBufs bufSlice' arrayBuf hasPreviousItem dataWritten
  end.

(** [resolveArrayAsynchronous], for the completion order [order] of its
    tasks. The tasks work on clones: the context of the caller is unchanged. *)
Definition resolveArrayAsynchronous (ctx : Context) (array : Array)
    (arrayItems : list bytes) (arrayBuf : BufPair) (order : list nat) : Result :=
  let arrayBuf := Data_WriteBytes arrayBuf lBrack in
  let tasks := imap (elementTask ctx) arrayItems in
  match firstTaskError order tasks with
  | Some e =>
      if is_errNonNullableFieldValueIsNull e && ArrayNullable array then
        (ctx, resolveNull (Data_Reset arrayBuf), None)
      else (ctx, arrayBuf, Some e)
  | None =>
      let bufSlice := map bufOf tasks in
      let arrayBuf := mergeItemBufs bufSlice arrayBuf false 0 in
      (ctx, Data_WriteBytes arrayBuf rBrack, None)
  end.

Definition resolveArray (ctx : Context) (array : Array) (data : bytes)
    (arrayBuf : BufPair) : Result :=
  if bytes_Equal data emptyArray then (ctx, resolveEmptyArray arrayBuf, None)
  else
    let arrayItems := map fst (fst (ArrayEach data (ArrayPath array))) in
    if (length arrayItems =? 0)%nat then
      if negb (ArrayNullable array) then
        (ctx, resolveEmptyArray arrayBuf, Some errNonNullableFieldValueIsNull)
      else (ctx, resolveNull arrayBuf, None)
    else if ResolveAsynchronous array && negb (StreamEnabled (ArrayStream array)) then
      resolveArrayAsynchronous ctx array arrayItems arrayBuf
        (completionOrder r (pathElements ctx) arrayItems)
    else resolveArraySynchronous ctx array arrayItems arrayBuf.

End ArrayLoops.

(** *** The dispatch on the kind of a node *)

Fixpoint resolveNode (node : Node) (ctx : Context) (data : bytes)
    (bufPair : BufPair) {struct node} : Result :=
  match node with
  | NObject n => resolveObject resolveNode ctx n data bufPair
  | NArray n => resolveArray (resolveNode (Item n)) ctx n data bufPair
  | NNull n =>
      let ctx :=
        if DeferEnabled n then preparePatch ctx (DeferPatchIndex n) None data
        else ctx in
      (ctx, resolveNull bufPair, None)
  | NString Path Nullable =>
      let '(bufPair, err) := resolveString Path Nullable data bufPair in
      (ctx, bufPair, err)
  | NBoolean Path Nullable =>
      let '(bufPair, err) := resolveBoolean Path Nullable data bufPair in
      (ctx, bufPair, err)
  | NInteger Path Nullable =>
      let '(bufPair, err) := resolveInteger Path Nullable data bufPair in
      (ctx, bufPair, err)
  | NFloat Path Nullable =>
      let '(bufPair, err) := resolveFloat Path Nullable data bufPair in
      (ctx, bufPair, err)
  | NEmptyObject => (ctx, resolveEmptyObject bufPair, None)
  | NEmptyArray => (ctx, resolveEmptyArray bufPair, None)
  end.

(** ** The entry points *)

Section EntryPoints.
Context {W : Type} `{Writer W}.

Definition ResolveGraphQLResponse (ctx : Context) (response : GraphQLResponse)
    (data : bytes) (writer : W) : Context * W * option error :=
  let buf := NewBufPair in
  let responseBuf :=
    extractResponse data NewBufPair
      {| ExtractGraphqlResponse := true; ExtractFederationEntities := false |} in
  let '(ctx, buf, err) := resolveNode (ResponseData response) ctx (Data responseBuf) buf in
  let walked :=
    match err with
    | Some e =>
        if negb (is_errNonNullableFieldValueIsNull e) then Return e
        else Continue true
    | None => Continue false
    end in
  match walked with
  | Return e => (ctx, writer, Some e)
  | Continue ignoreData =>
      let buf :=
        if (0 <? length (Errors responseBuf))%nat
        then snd (MergeBufPairErrors responseBuf buf)
        else buf in
      let '(writer, err) := writeGraphqlResponse buf writer ignoreData in
      (ctx, writer, err)
  end.

Definition ResolveGraphQLResponsePatch (ctx : Context) (patch : GraphQLResponsePatch)
    (data path : bytes) (extraPath : option bytes) (writer : W)
    : Context * W * option error :=
  let buf := NewBufPair in
  let ctx := set_pathPrefix ctx (path ++ slice_bytes extraPath) in
  let fetched :=
    match PatchFetch patch with
    | Some fetch =>
        match resolveFetch ctx fetch data {| buffers := ∅ |} with
        | (ctx, set, Some err) => Return (ctx, err)
        | (ctx, set, None) =>
            match buffers set !! 0 with
            | Some b => Continue (ctx, snd (MergeBufPairErrors b buf), Data b)
            | None => Continue (ctx, buf, data)
            end
        end
    | None => Continue (ctx, buf, data)
    end in
  match fetched with
  | Return (ctx, err) => (ctx, writer, Some err)
  | Continue (ctx, buf, data) =>
      match resolveNode (PatchValue patch) ctx data buf with
      | (ctx, buf, Some err) => (ctx, writer, Some err)
      | (ctx, buf, None) =>
          let hasErrors := negb (length (Errors buf) =? 0)%nat in
          let hasData := negb (length (Data buf) =? 0)%nat in
          if hasErrors then (ctx, writer, None)
          else if hasData then
            let st := safely lBrace (writer, None) in
            let st := safely quote st in
            let st := safely literal.OP st in
            let st := safely quote st in
            let st := safely colon st in
            let st := safely quote st in
            let st := safely (Operation patch) st in
            let st := safely quote st in
            let st := safely comma st in
            let st := safely quote st in
            let st := safely literal.PATH st in
            let st := safely quote st in
            let st := safely colon st in
            let st := safely quote st in
            let st := safely path st in
            let st := safely quote st in
            let st := safely comma st in
            let st := safely quote st in
            let st := safely literal.VALUE st in
            let st := safely quote st in
            let st := safely colon st in
            let st := Write (fst st) (Data buf) in
            let '(writer, err) := safely rBrace st in
            (ctx, writer, err)
          else (ctx, writer, None)
      end
  end.

End EntryPoints.

Section Streaming.
Context {W : Type} `{FlushWriter W}.
Variable clock : Clock.

(** The loop of [ResolveGraphQLStreamingResponse] from its [k]-th iteration
    on; [fuel] bounds the iterations, since a patch may queue patches. The
    result is the context, the writer, the patch buffer and the error, or
    [None] when the fuel runs out. *)
Fixpoint streamPatches (fuel k : nat) (ctx : Context)
    (response : GraphQLStreamingResponse) (buf : bytes) (writer : W)
    : option (Flow (Context * W * bytes) (Context * W * option error)) :=
  match fuel with
  | O => None
  | S fuel =>
      if cancelled clock k then Some (Return (ctx, writer, None))
      else
        match popNextPatch ctx with
        | (ctx, None) => Some (Return (ctx, writer, Some panicIndexOutOfRange))
        | (ctx, Some None) => Some (Continue (ctx, writer, buf))
        | (ctx, Some (Some patch)) =>
            if Z.of_nat (length (Patches response)) - 1 <? patch_index patch
            then streamPatches fuel (S k) ctx response buf writer
            else
              let buf :=
                if negb (length buf =? 1)%nat then buf ++ literal.COMMA else buf in
              match
                (if patch_index patch <? 0 then None
                 else Patches response !! Z.to_nat (patch_index patch))
              with
              | None => Some (Return (ctx, writer, Some panicIndexOutOfRange))
              | Some preparedPatch =>
                  match
                    ResolveGraphQLResponsePatch ctx preparedPatch (patch_data patch)
                      (patch_path patch) (patch_extraPath patch) buf
                  with
                  | (ctx, buf, Some err) => Some (Return (ctx, writer, Some err))
                  | (ctx, buf, None) =>
                      if flushDue clock k then
                        let buf := buf ++ literal.RBRACK in
                        match Write writer buf with
                        | (writer, Some err) => Some (Return (ctx, writer, Some err))
                        | (writer, None) =>
                            let writer := Flush writer in
                            streamPatches fuel (S k) ctx response literal.LBRACK writer
                        end
                      else streamPatches fuel (S k) ctx response buf writer
                  end
              end
        end
  end.

Definition ResolveGraphQLStreamingResponse (fuel : nat) (ctx : Context)
    (response : GraphQLStreamingResponse) (data : bytes) (writer : W)
    : option (Context * W * option error) :=
  match validateContext ctx with
  | Some err => Some (ctx, writer, Some err)
  | None =>
      match ResolveGraphQLResponse ctx (InitialResponse response) data writer with
      | (ctx, writer, Some err) => Some (ctx, writer, Some err)
      | (ctx, writer, None) =>
          let writer := Flush writer in
          match streamPatches fuel 0 ctx response literal.LBRACK writer with
          | None => None
          | Some (Return res) => Some res
          | Some (Continue (ctx, writer, buf)) =>
              if negb (length buf =? 1)%nat then
                let buf := buf ++ literal.RBRACK in
                match Write writer buf with
                | (writer, Some err) => Some (ctx, writer, Some err)
                | (writer, None) => Some (ctx, Flush writer, None)
                end
              else Some (ctx, writer, None)
          end
      end
  end.

End Streaming.
End Walk.

(** ** Variables of a template *)

Definition VariableKindContext : Z := 1.
Definition VariableKindObject : Z := 2.
Definition VariableKindHeader : Z := 3.

(** The three implementations of the [Variable] interface. *)
Inductive Variable_ : Type :=
| ContextVariable (Path : list string) (RenderAsGraphQLValue : bool)
| ObjectVariable (Path : list string)
| HeaderVariable (Path : list string).

Definition VariableKind (v : Variable_) : Z :=
  match v with
  | ContextVariable _ _ => VariableKindContext
  | ObjectVariable _ => VariableKindObject
  | HeaderVariable _ => VariableKindHeader
  end.

Definition VariablePath (v : Variable_) : list string :=
  match v with
  | ContextVariable Path _ | ObjectVariable Path | HeaderVariable Path => Path
  end.

Definition Variable_TemplateSegment (v : Variable_) : TemplateSegment :=
  match v with
  | ContextVariable Path RenderAsGraphQLValue =>
      {| SegmentType := VariableSegmentType; SegmentData := [];
         VariableSource := VariableSourceContext; VariableSourcePath := Path;
         RenderAsGraphQLValue := RenderAsGraphQLValue |}
  | ObjectVariable Path =>
      {| SegmentType := VariableSegmentType; SegmentData := [];
         VariableSource := VariableSourceObject; VariableSourcePath := Path;
         RenderAsGraphQLValue := false |}
  | HeaderVariable Path =>
      {| SegmentType := VariableSegmentType; SegmentData := [];
         VariableSource := VariableSourceRequestHeader; VariableSourcePath := Path;
         RenderAsGraphQLValue := false |}
  end.

(** [for i := range p { if p[i] != q[i] { return false } }; return true],
    entered with two paths of one length. *)
Fixpoint samePathFrom (p q : list string) : bool :=
  match p, q with
  | x :: p', y :: q' => if negb (String.eqb x y) then false else samePathFrom p' q'
  | _, _ => true
  end.

(** The body the three [Equals] methods share: [another] is nil, of another
    kind, has a path of another length, or is compared element by element. *)
Definition equalsVariable (kind : Z) (Path : list string) (another : option Variable_)
    : bool :=
  match another with
  | None => false
  | Some another =>
      if negb (VariableKind another =? kind) then false
      else if negb (length Path =? length (VariablePath another))%nat then false
      else samePathFrom Path (VariablePath another)
  end.

Definition Equals (v : Variable_) (another : option Variable_) : bool :=
  match v with
  | ContextVariable Path _ => equalsVariable VariableKindContext Path another
  | ObjectVariable Path => equalsVariable VariableKindObject Path another
  | HeaderVariable Path => equalsVariable VariableKindHeader Path another
  end.

Definition variablePrefixSuffix : string := "$$".
Definition quotes : string := String "034"%char EmptyString.

(** The loop of [AddVariable]: the index of the first variable, from index
    [i] on, that equals [variable]. *)
Fixpoint indexOfVariable (i : nat) (v : list Variable_) (variable : Variable_)
    : option nat :=
  match v with
  | [] => None
  | x :: v' =>
      if Equals x (Some variable) then Some i
      else indexOfVariable (S i) v' variable
  end.

(** [AddVariable] returns the variables, the name and [exists]. The
    variable added and the variables of the list are not nil. *)
Definition AddVariable (v : list Variable_) (variable : Variable_) (quoteValue : bool)
    : list Variable_ * string * bool :=
  let '(v, index, exists_) :=
    match indexOfVariable 0 v variable with
    | Some i => (v, Z.of_nat i, true)
    | None =>
        let v := v ++ [variable] in
        (v, Z.of_nat (length v) - 1, false)
    end in
  let i := string_of_list_ascii (Itoa index) in
  let name := (variablePrefixSuffix ++ i ++ variablePrefixSuffix)%string in
  let name := if quoteValue then (quotes ++ name ++ quotes)%string else name in
  (v, name, exists_).

(** ** Subscriptions *)

Definition is_ErrUnableToResolve (e : error) : bool :=
  match e with ErrUnableToResolve => true | _ => false end.

(** [SubscriptionDataSource.Start] for an input: the error it returns or,
    when it starts, the messages it sends on the channel [next] before it
    closes it. *)
Record SubscriptionDataSource : Type := mkSubscriptionDataSource {
  Start : bytes -> list bytes * option error;
}.

(** The [Input] and the [Variables] of a trigger are not read by the
    resolver and are left out. *)
Record GraphQLSubscriptionTrigger : Type := mkGraphQLSubscriptionTrigger {
  TriggerInputTemplate : InputTemplate;
  Source : SubscriptionDataSource;
}.

Record GraphQLSubscription : Type := mkGraphQLSubscription {
  Trigger : GraphQLSubscriptionTrigger;
  Response : GraphQLResponse;
}.

(** [[]byte(`{"errors":[{"message":"unable to resolve"}]}`)]. *)
Definition unableToResolveResponse : bytes :=
  B "{" ++ quote ++ B "errors" ++ quote ++ B ":[{" ++ quote ++ B "message" ++ quote
  ++ B ":" ++ quote ++ B "unable to resolve" ++ quote ++ B "}]}".

Section Subscriptions.
Context `{JsonParser} `{TextProto} {W : Type} `{FlushWriter W}.
Variable r : Resolver.
(** Whether the context of the resolver is done at the [k]-th iteration of
    the loop of a subscription. *)
Variable resolverDone : nat -> bool.

(** The loop of [ResolveGraphQLSubscription] from its [k]-th iteration on,
    over the messages still to come on [next]. *)
Fixpoint subscriptionLoop (k : nat) (ctx : Context) (response : GraphQLResponse)
    (next : list bytes) (writer : W) {struct next} : Context * W * option error :=
  if resolverDone k then (ctx, writer, None)
  else
    match next with
    | [] => (ctx, writer, None)
    | data :: next' =>
        match ResolveGraphQLResponse r ctx response data writer with
        | (ctx, writer, Some err) => (ctx, writer, Some err)
        | (ctx, writer, None) =>
            subscriptionLoop (S k) ctx response next' (Flush writer)
        end
    end.

Definition ResolveGraphQLSubscription (ctx : Context)
    (subscription : GraphQLSubscription) (writer : W) : Context * W * option error :=
  match Render (TriggerInputTemplate (Trigger subscription)) ctx [] [] with
  | (_, Some err) => (ctx, writer, Some err)
  | (rendered, None) =>
      let subscriptionInput := rendered in
      match Start (Source (Trigger subscription)) subscriptionInput with
      | (_, Some err) =>
          if is_ErrUnableToResolve err then
            match Write writer unableToResolveResponse with
            | (writer, Some err) => (ctx, writer, Some err)
            | (writer, None) => (ctx, Flush writer, None)
            end
          else (ctx, writer, Some err)
      | (next, None) => subscriptionLoop 0 ctx (Response subscription) next writer
      end
  end.

End Subscriptions.

(** ** Reference implementations of the external interfaces

    The theorems below hold for every [JsonParser] and every [TextProto].
    To run the resolver on concrete documents, this module gives a small
    JSON scanner with the conventions of jsonparser (a string value is
    handed out without its quotes, a key path names object members or
    [[N]] array indices, a missing key is an error) and the canonical form
    of a MIME header key. *)
Module Reference.

Definition isSpace (c : ascii) : bool :=
  Ascii.eqb c " "%char || Ascii.eqb c "010"%char || Ascii.eqb c "013"%char
  || Ascii.eqb c "009"%char.

Fixpoint skipSpace (d : bytes) : bytes :=
  match d with
  | c :: d' => if isSpace c then skipSpace d' else d
  | [] => []
  end.

(** After an opening quote: the bytes up to the closing quote, and the rest. *)
Fixpoint scanString (d : bytes) (acc : bytes) : option (bytes * bytes) :=
  match d with
  | [] => None
  | c :: d' =>
      if Ascii.eqb c "034"%char then Some (rev acc, d')
      else if Ascii.eqb c "092"%char then
        match d' with
        | e :: d'' => scanString d'' (e :: c :: acc)
        | [] => None
        end
      else scanString d' (c :: acc)
  end.

(** After an opening bracket: the bytes up to the matching closing bracket,
    and the rest. *)
Fixpoint scanBlock (open close : ascii) (d : bytes) (depth : nat)
    (inString escaped : bool) (acc : bytes) : option (bytes * bytes) :=
  match d with
  | [] => None
  | c :: d' =>
      if inString then
        if escaped then scanBlock open close d' depth true false (c :: acc)
        else if Ascii.eqb c "092"%char
        then scanBlock open close d' depth true true (c :: acc)
        else scanBlock open close d' depth (negb (Ascii.eqb c "034"%char)) false (c :: acc)
      else if Ascii.eqb c "034"%char
      then scanBlock open close d' depth true false (c :: acc)
      else if Ascii.eqb c open
      then scanBlock open close d' (S depth) false false (c :: acc)
      else if Ascii.eqb c close then
        match depth with
        | O => Some (rev acc, d')
        | S depth' => scanBlock open close d' depth' false false (c :: acc)
        end
      else scanBlock open close d' depth false false (c :: acc)
  end.

Definition isDelimiter (c : ascii) : bool :=
  isSpace c || Ascii.eqb c ","%char || Ascii.eqb c "}"%char || Ascii.eqb c "]"%char.

Fixpoint scanToken (d : bytes) (acc : bytes) : bytes * bytes :=
  match d with
  | [] => (rev acc, [])
  | c :: d' => if isDelimiter c then (rev acc, d) else scanToken d' (c :: acc)
  end.

Definition isDigitOrMinus (c : ascii) : bool :=
  let n := N_of_ascii c in ((48 <=? n) && (n <=? 57) || (n =? 45))%N.

(** The value at the head of [d]: its bytes (a string with its quotes, a
    block with its brackets), its type and the rest of [d]. *)
Definition scanValue (d : bytes) : option (bytes * ValueType * bytes) :=
  match d with
  | [] => None
  | c :: d' =>
      if Ascii.eqb c "034"%char then
        match scanString d' [] with
        | Some (s, rest) => Some (c :: s ++ [c], String_, rest)
        | None => None
        end
      else if Ascii.eqb c "["%char then
        match scanBlock "["%char "]"%char d' 0 false false [] with
        | Some (s, rest) => Some (c :: s ++ B "]", Array_, rest)
        | None => None
        end
      else if Ascii.eqb c "{"%char then
        match scanBlock "{"%char "}"%char d' 0 false false [] with
        | Some (s, rest) => Some (c :: s ++ B "}", Object_, rest)
        | None => None
        end
      else
        let '(tok, rest) := scanToken d [] in
        if bytes_Equal tok (B "true") || bytes_Equal tok (B "false")
        then Some (tok, Boolean_, rest)
        else if bytes_Equal tok (B "null") then Some (tok, Null_, rest)
        else if isDigitOrMinus c then Some (tok, Number, rest)
        else None
  end.

(** A value as jsonparser hands it out. *)
Definition handOut (raw : bytes) (t : ValueType) : bytes :=
  match t with
  | String_ => removelast (tl raw)
  | _ => raw
  end.

(** The members of an object, after its opening brace: key, raw value, type. *)
Fixpoint members (fuel : nat) (d : bytes) : list (bytes * bytes * ValueType) * bool :=
  match fuel with
  | O => ([], false)
  | S fuel =>
      match skipSpace d with
      | c :: d1 =>
          if Ascii.eqb c "}"%char then ([], true)
          else if Ascii.eqb c "034"%char then
            match scanString d1 [] with
            | Some (key, d2) =>
                match skipSpace d2 with
                | c2 :: d3 =>
                    if Ascii.eqb c2 ":"%char then
                      match scanValue (skipSpace d3) with
                      | Some (raw, t, d4) =>
                          match skipSpace d4 with
                          | c4 :: d5 =>
                              if Ascii.eqb c4 ","%char then
                                let '(ms, ok) := members fuel d5 in
                                ((key, raw, t) :: ms, ok)
                              else if Ascii.eqb c4 "}"%char
                              then ([(key, raw, t)], true)
                              else ([(key, raw, t)], false)
                          | [] => ([(key, raw, t)], false)
                          end
                      | None => ([], false)
                      end
                    else ([], false)
                | [] => ([], false)
                end
            | None => ([], false)
            end
          else ([], false)
      | [] => ([], false)
      end
  end.

(** The elements of an array, after its opening bracket: raw value, type. *)
Fixpoint elements (fuel : nat) (d : bytes) : list (bytes * ValueType) * bool :=
  match fuel with
  | O => ([], false)
  | S fuel =>
      match skipSpace d with
      | c :: d1 =>
          if Ascii.eqb c "]"%char then ([], true)
          else
            match scanValue (c :: d1) with
            | Some (raw, t, d2) =>
                match skipSpace d2 with
                | c2 :: d3 =>
                    if Ascii.eqb c2 ","%char then
                      let '(es, ok) := elements fuel d3 in ((raw, t) :: es, ok)
                    else if Ascii.eqb c2 "]"%char then ([(raw, t)], true)
                    else ([(raw, t)], false)
                | [] => ([(raw, t)], false)
                end
            | None => ([], false)
            end
      | [] => ([], false)
      end
  end.

Definition objectMembers (d : bytes) : option (list (bytes * bytes * ValueType) * bool) :=
  match skipSpace d with
  | c :: d' => if Ascii.eqb c "{"%char then Some (members (length d) d') else None
  | [] => None
  end.

Definition arrayElements (d : bytes) : option (list (bytes * ValueType) * bool) :=
  match skipSpace d with
  | c :: d' => if Ascii.eqb c "["%char then Some (elements (length d) d') else None
  | [] => None
  end.

Fixpoint digitsValue (d : bytes) (acc : nat) : option nat :=
  match d with
  | [] => Some acc
  | c :: d' =>
      let n := N_of_ascii c in
      if ((48 <=? n) && (n <=? 57))%N
      then digitsValue d' (10 * acc + N.to_nat (n - 48))%nat
      else None
  end.

(** The index [N] of a key of the form [[N]]. *)
Definition indexKey (key : bytes) : option nat :=
  match key with
  | c :: rest =>
      if Ascii.eqb c "["%char then
        match rev rest with
        | c' :: digits =>
            if Ascii.eqb c' "]"%char && negb (length digits =? 0)%nat
            then digitsValue (rev digits) 0
            else None
        | [] => None
        end
      else None
  | [] => None
  end.

(** The raw value a key path leads to. *)
Fixpoint locate (d : bytes) (keys : list string) : option (bytes * ValueType) :=
  match keys with
  | [] =>
      match scanValue (skipSpace d) with
      | Some (raw, t, _) => Some (raw, t)
      | None => None
      end
  | key :: keys' =>
      match indexKey (B key) with
      | Some n =>
          match arrayElements d with
          | Some (es, _) =>
              match es !! n with
              | Some (raw, _) => locate raw keys'
              | None => None
              end
          | None => None
          end
      | None =>
          match objectMembers d with
          | Some (ms, _) =>
              match List.find (fun '(k, _, _) => bytes_Equal k (B key)) ms with
              | Some (_, raw, _) => locate raw keys'
              | None => None
              end
          | None => None
          end
      end
  end.

Definition refGet (data : bytes) (keys : list string)
    : option bytes * ValueType * option error :=
  match locate data keys with
  | Some (raw, t) => (Some (handOut raw t), t, None)
  | None =>
      match keys with
      | [] => (None, NotExist, Some (errJson "malformed json"))
      | _ => (None, NotExist, Some (errJson "key path not found"))
      end
  end.

Definition refArrayEach (data : bytes) (keys : list string)
    : list (bytes * ValueType) * option error :=
  match locate data keys with
  | Some (raw, Array_) =>
      match arrayElements raw with
      | Some (es, ok) =>
          (map (fun '(v, t) => (handOut v t, t)) es,
           if ok then None else Some (errJson "malformed array"))
      | None => ([], Some (errJson "malformed array"))
      end
  | Some _ => ([], Some (errJson "malformed array"))
  | None => ([], Some (errJson "key path not found"))
  end.

Definition refObjectEach (data : bytes)
    : list (bytes * bytes * ValueType) * option error :=
  match objectMembers data with
  | Some (ms, ok) =>
      (map (fun '(k, v, t) => (k, handOut v t, t)) ms,
       if ok then None else Some (errJson "malformed object"))
  | None => ([], Some (errJson "malformed object"))
  end.

(** The paths that start at member [key] with raw value [raw], by index. *)
Fixpoint matchPaths (i : nat) (paths : list (list string)) (key raw : bytes)
    (t : ValueType) : list (nat * bytes * ValueType) :=
  match paths with
  | [] => []
  | p :: paths' =>
      let found :=
        match p with
        | k :: p' =>
            if bytes_Equal key (B k) then
              match locate raw p' with
              | Some (v, t') => [(i, handOut v t', t')]
              | None => []
              end
            else []
        | [] => []
        end in
      found ++ matchPaths (S i) paths' key raw t
  end.

Definition refEachKey (data : bytes) (paths : list (list string))
    : list (nat * bytes * ValueType) :=
  match objectMembers data with
  | Some (ms, _) => concat (map (fun '(k, raw, t) => matchPaths 0 paths k raw t) ms)
  | None => []
  end.

#[export] Instance jsonparser : JsonParser :=
  {| Get := refGet; ArrayEach := refArrayEach; ObjectEach := refObjectEach;
     EachKey := refEachKey |}.

Definition isLower (c : ascii) : bool :=
  let n := N_of_ascii c in ((97 <=? n) && (n <=? 122))%N.
Definition isUpper (c : ascii) : bool :=
  let n := N_of_ascii c in ((65 <=? n) && (n <=? 90))%N.

Definition validHeaderFieldByte (c : ascii) : bool :=
  let n := N_of_ascii c in
  isLower c || isUpper c || ((48 <=? n) && (n <=? 57))%N
  || existsb (Ascii.eqb c) (B "!#$%&'*+-.^_`|~").

Fixpoint canonical (upper : bool) (s : bytes) : bytes :=
  match s with
  | [] => []
  | c :: s' =>
      let c' :=
        if upper && isLower c then ascii_of_N (N_of_ascii c - 32)
        else if negb upper && isUpper c then ascii_of_N (N_of_ascii c + 32)
        else c in
      c' :: canonical (Ascii.eqb c "-"%char) s'
  end.

Definition refCanonicalMIMEHeaderKey (s : string) : string :=
  if forallb validHeaderFieldByte (B s)
  then string_of_list_ascii (canonical true (B s))
  else s.

#[export] Instance textproto : TextProto :=
  {| CanonicalMIMEHeaderKey := refCanonicalMIMEHeaderKey |}.

End Reference.

(** * The specification, in the terms of the embedding *)

(** The envelope of section 4.6: [{], the errors member when there are
    errors, the data member, [}]. *)
Definition envelope (buf : BufPair) (ignoreData : bool) : bytes :=
  lBrace
  ++ (if HasErrors buf
      then quote ++ literalErrors ++ quote ++ colon ++ lBrack ++ Errors buf
           ++ rBrack ++ comma
      else [])
  ++ quote ++ literalData ++ quote ++ colon
  ++ (if negb ignoreData && HasData buf then Data buf else null)
  ++ rBrace.

(** A writer that never fails and whose output is what was written to it. *)
Definition Appends {W : Type} `{Writer W} (contents : W -> bytes) : Prop :=
  forall w p, exists w', Write w p = (w', None) /\ contents w' = contents w ++ p.

(** The patch cursors of a context that was reset. *)
Definition cursorsInitial (ctx : Context) : Prop :=
  maxPatch ctx = -1 /\ currentPatch ctx = -1.

(** The writer of the execution engine ([EngineResultWriter]): a buffer
    that [Flush] hands over and resets. *)
Record EngineResultWriter : Type := mkEngineResultWriter {
  pending : bytes;
  flushed : list bytes;
}.

#[export] Instance EngineResultWriter_Writer : Writer EngineResultWriter :=
  {| Write := fun e p => ({| pending := pending e ++ p; flushed := flushed e |}, None) |}.

#[export] Instance EngineResultWriter_FlushWriter : FlushWriter EngineResultWriter :=
  {| Flush := fun e => {| pending := []; flushed := flushed e ++ [pending e] |} |}.

(** A JSON value, as section 4.2 speaks of it: the raw bytes of a string, a
    number or a boolean, null, the members of an object, the elements of an
    array. *)
#[warnings="-register-all"]
Inductive json : Type :=
| JString (s : bytes)
| JNumber (n : bytes)
| JBoolean (b : bytes)
| JNull
| JObject (members : list (bytes * json))
| JArray (elements : list json).

(** The GraphQL literal of a JSON value, in the words of section 4.2:
    a string between backslash-escaped quotes, an object as [{key:value,...}]
    with unquoted keys, an array as [[v,...]], null, booleans and numbers as
    they are. *)
Fixpoint graphqlLiteral (j : json) : bytes :=
  match j with
  | JString s => backslash ++ quote ++ s ++ backslash ++ quote
  | JNumber n => n
  | JBoolean b => b
  | JNull => null
  | JObject members =>
      lBrace
      ++ bytes_Join (map (fun m => fst m ++ colon ++ graphqlLiteral (snd m)) members) comma
      ++ rBrace
  | JArray elements =>
      lBrack ++ bytes_Join (map graphqlLiteral elements) comma ++ rBrack
  end.

Section Denotation.
Context `{JsonParser}.

(** [Denotes data valueType j]: the parser sees the JSON value [j] in the
    bytes [data] of type [valueType]. The values it hands out for the members
    of an object and the elements of an array are proper sub-slices. *)
Inductive Denotes : bytes -> ValueType -> json -> Prop :=
| Denotes_String data : Denotes data String_ (JString data)
| Denotes_Number data : Denotes data Number (JNumber data)
| Denotes_Boolean data : Denotes data Boolean_ (JBoolean data)
| Denotes_Null data : Denotes data Null_ JNull
| Denotes_Object data members js :
    ObjectEach data = (members, None) ->
    DenotesMembers data members js ->
    Denotes data Object_ (JObject js)
| Denotes_Array data elements js :
    ArrayEach data [] = (elements, None) ->
    DenotesElements data elements js ->
    Denotes data Array_ (JArray js)
with DenotesMembers : bytes -> list (bytes * bytes * ValueType) -> list (bytes * json) -> Prop :=
| DenotesMembers_nil data : DenotesMembers data [] []
| DenotesMembers_cons data key value dataType j members js :
    (length value < length data)%nat ->
    Denotes value dataType j ->
    DenotesMembers data members js ->
    DenotesMembers data ((key, value, dataType) :: members) ((key, j) :: js)
with DenotesElements : bytes -> list (bytes * ValueType) -> list json -> Prop :=
| DenotesElements_nil data : DenotesElements data [] []
| DenotesElements_cons data value dataType j elements js :
    (length value < length data)%nat ->
    Denotes value dataType j ->
    DenotesElements data elements js ->
    DenotesElements data ((value, dataType) :: elements) (j :: js).

End Denotation.

Scheme Denotes_mind := Induction for Denotes Sort Prop
  with DenotesMembers_mind := Induction for DenotesMembers Sort Prop
  with DenotesElements_mind := Induction for DenotesElements Sort Prop.
Combined Scheme Denotes_mutind from Denotes_mind, DenotesMembers_mind, DenotesElements_mind.

(** One error object of the response format of section 6. *)
Definition errorMember (key : bytes) (value : option bytes) : bytes :=
  match value with
  | Some v => comma ++ quote ++ key ++ quote ++ colon ++ v
  | None => []
  end.

Definition errorObject (message : bytes) (locations path extensions : option bytes)
    : bytes :=
  lBrace ++ quote ++ literalMessage ++ quote ++ colon ++ quote ++ message ++ quote
  ++ errorMember literalLocations locations
  ++ errorMember literalPath path
  ++ errorMember literalExtensions extensions
  ++ rBrace.

(** Two runs of errors, with a comma between them when both are there. *)
Definition joinErrors (walked upstream : bytes) : bytes :=
  walked
  ++ (if negb (length walked =? 0)%nat && negb (length upstream =? 0)%nat
      then comma else [])
  ++ upstream.

Section UpstreamEnvelope.
Context `{JsonParser}.

(** The value of the [data] member of an upstream envelope. *)
Definition envelopeData (data : bytes) : bytes :=
  if (length data =? 0)%nat then []
  else
    concat
      (map (fun '(i, bytes, _) => if (i =? rootDataPathIndex)%nat then bytes else [])
         (EachKey data responsePaths)).

(** The error objects of the elements of an [errors] array that carry a
    message. *)
Definition messageErrors (errors : bytes) : list bytes :=
  flat_map
    (fun '(value, _) =>
       match errorMembers value with
       | (Some message, locations, path, extensions) =>
           [errorObject message locations path extensions]
       | (None, _, _, _) => []
       end)
    (fst (ArrayEach errors [])).

(** The errors of an upstream envelope, as error objects. *)
Definition envelopeErrors (data : bytes) : list bytes :=
  if (length data =? 0)%nat then []
  else
    flat_map
      (fun '(i, bytes, _) =>
         if (i =? rootErrorsPathIndex)%nat then messageErrors bytes else [])
      (EachKey data responsePaths).

End UpstreamEnvelope.

(** The value of the first of the hits of [EachKey] for the path of index
    [i]. *)
Definition hitOf (i : nat) (hits : list (nat * bytes * ValueType)) : option bytes :=
  match List.find (fun hit => (fst (fst hit) =? i)%nat) hits with
  | Some hit => Some (snd (fst hit))
  | None => None
  end.

Section UpstreamMembers.
Context `{JsonParser}.

(** The value the parser reports for the member [key] of the object
    [value], when it is asked for the members [keys] at once. *)
Definition memberOf (value : bytes) (keys : list string) (key : string) : option bytes :=
  match
    List.find
      (fun hit =>
         match keys !! fst (fst hit) with
         | Some k => String.eqb k key
         | None => false
         end)
      (EachKey value (map (fun k => [k]) keys))
  with
  | Some hit => Some (snd (fst hit))
  | None => None
  end.

(** The parser reports each of the members [keys] of [value] at most once,
    as [jsonparser.EachKey] does. *)
Definition ReportedOnce (value : bytes) (keys : list string) : Prop :=
  List.NoDup (map (fun hit => fst (fst hit)) (EachKey value (map (fun k => [k]) keys))).

(** The members of a GraphQL response envelope and those of one of its
    errors. *)
Definition envelopeMembers : list string := ["errors"%string; "data"%string].
Definition errorMembersOf : list string :=
  ["message"%string; "locations"%string; "path"%string; "extensions"%string].

(** The value of the data member of the envelope in the bytes [data];
    empty when there is none. *)
Definition upstreamData (data : bytes) : bytes :=
  default [] (memberOf data envelopeMembers "data").

(** The error object of one element of the errors array of an envelope,
    when the element carries a message: its message, and its locations, path
    and extensions when it has them. *)
Definition upstreamError (element : bytes) : option bytes :=
  match memberOf element errorMembersOf "message" with
  | Some message =>
      Some (errorObject message
              (memberOf element errorMembersOf "locations")
              (memberOf element errorMembersOf "path")
              (memberOf element errorMembersOf "extensions"))
  | None => None
  end.

(** The elements of the errors array of the envelope in the bytes [data]. *)
Definition upstreamElements (data : bytes) : list bytes :=
  match memberOf data envelopeMembers "errors" with
  | Some errors => map fst (fst (ArrayEach errors []))
  | None => []
  end.

(** The error objects of the elements that carry a message, in the order
    of the array. *)
Definition upstreamErrors (data : bytes) : list bytes :=
  omap upstreamError (upstreamElements data).

(** The parser reports the members of the envelope and those of each of
    its errors at most once. *)
Definition EnvelopeReportedOnce (data : bytes) : Prop :=
  ReportedOnce data envelopeMembers
  /\ Forall (fun element => ReportedOnce element errorMembersOf) (upstreamElements data).

End UpstreamMembers.

(** The patch of section 4.5.4 for element [i] of a streaming array:
    [(stream.patchIndex, currentPath/[i], nil, elementBytes)]. *)
Definition streamedPatch (currentPath : bytes) (patchIndex : Z) (i : nat)
    (elementBytes : bytes) : patch :=
  {| patch_path := currentPath ++ slash ++ Itoa (Z.of_nat i);
     patch_extraPath := None;
     patch_data := elementBytes;
     patch_index := patchIndex |}.

(** The patches of the elements [rest], of indices [i], [i+1], ..., in
    order. *)
Definition streamedPatches (currentPath : bytes) (patchIndex : Z) (i : nat)
    (rest : list bytes) : list patch :=
  imap (fun k elementBytes => streamedPatch currentPath patchIndex (i + k) elementBytes)
    rest.

(** A context with one more patch at the end of its queue; the copy of the
    data and the path of the patch are in buffers leased from the pool. *)
Definition enqueued (c : Context) (p : patch) : Context :=
  {| Variables := Variables c; request := request c;
     pathElements := pathElements c; patches := patches c ++ [p];
     usedBuffers := usedBuffers c ++ [patch_data p; patch_path p];
     currentPatch := currentPatch c; maxPatch := maxPatch c + 1;
     pathPrefix := pathPrefix c; beforeFetchHook := beforeFetchHook c;
     afterFetchHook := afterFetchHook c; position := position c |}.

(** The elements [rest], of indices [i], [i+1], ..., enqueued in order. *)
Fixpoint enqueueStreamed (c : Context) (patchIndex : Z) (i : nat)
    (rest : list bytes) : Context :=
  match rest with
  | [] => c
  | elementBytes :: rest' =>
      enqueueStreamed
        (enqueued c (streamedPatch (snd (path c)) patchIndex i elementBytes))
        patchIndex (S i) rest'
  end.

(** What the walk of a plan reads of a context besides the position: the
    variables, the request, the path and the hooks. The walk changes the rest
    (the position, the patch queue, the leased buffers). *)
Definition frame (c : Context)
    : bytes * Request * list bytes * bytes * bool * bool :=
  (Variables c, request c, pathElements c, pathPrefix c, beforeFetchHook c,
   afterFetchHook c).

(** The completion orders of a resolver are orders of all the tasks. *)
Definition WellScheduled (r : Resolver) : Prop :=
  forall (path arrayItems : list bytes),
    Permutation (completionOrder r path arrayItems) (seq 0 (length arrayItems)).

(** The returns that leave the buffer pair of the callee in use: no error,
    or the type-name skip. *)
Definition benign (e : option error) : Prop :=
  e = None \/ e = Some errTypeNameSkipped.

(** Two results that differ at most by the position a resolve error was
    given: the same error, the same frame, the same data, and the same errors
    when the walks started at the same position or the return is benign. *)
Definition Agree (samePosition : Prop) (res1 res2 : Result) : Prop :=
  errOf res1 = errOf res2
  /\ frame (ctxOf res1) = frame (ctxOf res2)
  /\ Data (bufOf res1) = Data (bufOf res2)
  /\ (samePosition \/ benign (errOf res1) -> Errors (bufOf res1) = Errors (bufOf res2))
  /\ (samePosition -> position (ctxOf res1) = position (ctxOf res2)).

(** A resolve function whose result, from two contexts of one frame,
    depends on the position they start at only in this way. *)
Definition PositionBlind (resolve : Context -> bytes -> BufPair -> Result) : Prop :=
  forall c1 c2 data buf,
    frame c1 = frame c2 ->
    Agree (position c1 = position c2) (resolve c1 data buf) (resolve c2 data buf).

(** Two results equal but for the patch queue and the leased buffers. *)
Definition AgreeFully (res1 res2 : Result) : Prop :=
  errOf res1 = errOf res2
  /\ frame (ctxOf res1) = frame (ctxOf res2)
  /\ bufOf res1 = bufOf res2
  /\ position (ctxOf res1) = position (ctxOf res2).

Definition FlowAgree {S R : Type} (continues : S -> S -> Prop)
    (returns : R -> R -> Prop) (flow1 flow2 : Flow S R) : Prop :=
  match flow1, flow2 with
  | Continue s1, Continue s2 => continues s1 s2
  | Return r1, Return r2 => returns r1 r2
  | _, _ => False
  end.

(** A resolve function that leaves the frame of the context as it was. *)
Definition KeepsFrame (resolve : Context -> bytes -> BufPair -> Result) : Prop :=
  forall ctx data buf, frame (ctxOf (resolve ctx data buf)) = frame ctx.

(** The variables of the loop over the fields in two walks that agree; the
    position is the same once a field was resolved. *)
Definition FieldsAgree (samePosition : Prop) (st1 st2 : fieldsState) : Prop :=
  frame (fs_ctx st1) = frame (fs_ctx st2)
  /\ fs_objectBuf st1 = fs_objectBuf st2
  /\ fs_fieldBuf st1 = fs_fieldBuf st2
  /\ fs_typeNameSkip st1 = fs_typeNameSkip st2
  /\ fs_first st1 = fs_first st2
  /\ (samePosition \/ fs_first st1 = false ->
      position (fs_ctx st1) = position (fs_ctx st2)).

(** The variables of the loop over the elements in two walks that agree. *)
Definition ItemsAgree (samePosition : Prop) (st1 st2 : arrayState) : Prop :=
  frame (as_ctx st1) = frame (as_ctx st2)
  /\ as_arrayBuf st1 = as_arrayBuf st2
  /\ as_itemBuf st1 = as_itemBuf st2
  /\ as_hasPreviousItem st1 = as_hasPreviousItem st2
  /\ as_dataWritten st1 = as_dataWritten st2
  /\ (samePosition -> position (as_ctx st1) = position (as_ctx st2)).

(** Two returns of the loop over the elements that agree. *)
Definition ReturnsAgree (samePosition : Prop) (res1 res2 : Result) : Prop :=
  errOf res1 = errOf res2
  /\ frame (ctxOf res1) = frame (ctxOf res2)
  /\ bufOf res1 = bufOf res2
  /\ (samePosition -> position (ctxOf res1) = position (ctxOf res2)).

(** The locations member of a resolve error. *)
Definition locationsOf (pos : Position) : bytes :=
  lBrack ++ lBrace ++ quote ++ literalLine ++ quote ++ colon
  ++ Itoa (Z.of_N (Line pos)) ++ comma ++ quote ++ literalColumn ++ quote ++ colon
  ++ Itoa (Z.of_N (Column pos)) ++ rBrace ++ rBrack.

(** The path member of a resolve error, for a path that is not empty. *)
Definition pathOf (elements : list bytes) : bytes :=
  lBrack ++ quote ++ bytes_Join elements quotedComma ++ quote ++ rBrack.

(** The synthetic error of section 6: the message [unable to resolve], the
    locations, and the path when there is one. *)
Definition unableToResolveError (pos : Position) (elements : list bytes) : bytes :=
  errorObject unableToResolveMsg (Some (locationsOf pos))
    (if (0 <? length elements)%nat then Some (pathOf elements) else None) None.

(** A leaf marked non-nullable. *)
Definition nonNullableLeaf (node : Node) : bool :=
  match node with
  | NString _ Nullable | NBoolean _ Nullable | NInteger _ Nullable
  | NFloat _ Nullable => negb Nullable
  | _ => false
  end.

Section NullPropagation.
Context `{JsonParser} `{TextProto}.
Variable r : Resolver.

(** The source of a leaf is null, in the words of section 4.5.3: the value
    at the path is absent or not of the required type (for a string without
    path, the data are neither a JSON string nor start with a letter). *)
Definition sourceIsNull (node : Node) (data : bytes) : bool :=
  match node with
  | NInteger Path _ | NFloat Path _ =>
      let '(_, dataType, err) := Get data Path in
      isSome err || negb (ValueType_eqb dataType Number)
  | NBoolean Path _ =>
      let '(_, valueType, err) := Get data Path in
      isSome err || negb (ValueType_eqb valueType Boolean_)
  | NString Path _ =>
      if negb (length data =? 0)%nat && negb (isSome Path) then
        let '(_, valueType, _) := Get data [] in
        negb (ValueType_eqb valueType String_ || IsLetter (nth 0 data "000"%char))
      else
        let '(value, valueType, err) := Get data (default [] Path) in
        isSome err || negb (ValueType_eqb valueType String_) || negb (isSome value)
  | _ => false
  end.

(** The record an object takes its fields from: the data themselves, or
    what its path selects in them when that is not empty. *)
Definition objectData (o : Object) (data : bytes) : option bytes :=
  if negb (length (ObjectPath o) =? 0)%nat then
    let '(value, _, _) := Get data (ObjectPath o) in
    if (length (slice_bytes value) =? 0)%nat then None else Some (slice_bytes value)
  else Some data.

(** The walk of the object [o], which has no fetch, reaches its field [f]
    in the context [ctx1]: the fields before [f] were resolved or skipped
    without any error, and [f] is not gated out by its type name. *)
Definition Reaches (o : Object) (ctx : Context) (data : bytes) (f : Field)
    (ctx1 : Context) : Prop :=
  ObjectFetch o = None
  /\ typeNameMismatch data f = false
  /\ exists pre post st,
       Fields o = pre ++ f :: post
       /\ resolveFields (resolveNode r) o data None pre
            {| fs_ctx := ctx; fs_objectBuf := NewBufPair; fs_fieldBuf := NewBufPair;
               fs_typeNameSkip := false; fs_first := true |}
          = Continue st
       /\ Errors (fs_objectBuf st) = []
       /\ ctx1 = fs_ctx st.

(** The field names below an object down to the parent of the unresolved
    leaf, and the position of the field of that leaf. *)
Definition blame (f : Field) (below : option (list bytes * Position))
    : list bytes * Position :=
  match below with
  | None => ([], fieldPosition f)
  | Some (names, pos) => (Name f :: names, pos)
  end.

(** [Unresolved node ctx data where]: in the plan [node], walked from
    [ctx] against [data], a non-nullable leaf resolves to null and no
    ancestor of it within [node] is nullable: [node] is that leaf ([where] is
    [None]), or a non-nullable object whose walk reaches a field with such a
    value. *)
Inductive Unresolved : Node -> Context -> bytes -> option (list bytes * Position) -> Prop :=
| Unresolved_leaf node ctx data :
    nonNullableLeaf node = true ->
    sourceIsNull node data = true ->
    Unresolved node ctx data None
| Unresolved_object o ctx data data' f ctx1 below :
    ObjectNullable o = false ->
    objectData o data = Some data' ->
    Reaches o ctx data' f ctx1 ->
    Unresolved (Value f)
      (setPosition (addPathElement ctx1 (Name f)) (fieldPosition f)) data' below ->
    Unresolved (NObject o) ctx data (Some (blame f below)).

(** The errors an unresolved plan leaves: none for a bare leaf, otherwise
    the one synthetic error, at the position of the field of the leaf and
    with the path of the object that holds it. *)
Definition blameErrors (ctx : Context) (where_ : option (list bytes * Position))
    : bytes :=
  match where_ with
  | None => []
  | Some (names, pos) => unableToResolveError pos (pathElements ctx ++ names)
  end.

End NullPropagation.

(** Error objects written one after the other onto [acc]. *)
Definition writtenOnto (acc : bytes) (objects : list bytes) : bytes :=
  fold_left
    (fun acc object => acc ++ (if negb (length acc =? 0)%nat then comma else []) ++ object)
    objects acc.

(** The placeholder of the variable of index [index]: [$$index$$], between
    double quotes when [quoteValue] is set. *)
Definition variableName (index : nat) (quoteValue : bool) : string :=
  let name :=
    (variablePrefixSuffix ++ string_of_list_ascii (Itoa (Z.of_nat index))
     ++ variablePrefixSuffix)%string in
  if quoteValue then (quotes ++ name ++ quotes)%string else name.

(** The patches [ps] added to a context one after the other. *)
Definition addPatches (c : Context) (ps : list patch) : Context :=
  fold_left
    (fun c p => addPatch c (patch_index p) (patch_path p) (patch_extraPath p)
                  (patch_data p))
    ps c.

(** [popNextPatch] called until it returns no patch: the patches it
    returned, in order; [None] when a call panics or [fuel] calls were not
    enough. *)
Fixpoint drainPatches (fuel : nat) (c : Context) : option (Context * list patch) :=
  match fuel with
  | O => None
  | S fuel =>
      match popNextPatch c with
      | (c, Some (Some p)) =>
          match drainPatches fuel c with
          | Some (c, ps) => Some (c, p :: ps)
          | None => None
          end
      | (c, Some None) => Some (c, [])
      | (c, None) => None
      end
  end.

(** The patch queue of a context is balanced: [maxPatch] is the index of
    the last patch, and the cursor is not before the front. *)
Definition balanced (c : Context) : Prop :=
  maxPatch c = Z.of_nat (length (patches c)) - 1 /\ -1 <= currentPatch c.

(** The patch indices under which the walk of a plan may enqueue a patch:
    those of its deferred nulls and of its streamed arrays. *)
Fixpoint patchIndices (n : Node) : list Z :=
  match n with
  | NObject (mkObject _ _ fields _) =>
      (fix fieldsIndices (fs : list Field) : list Z :=
         match fs with
         | [] => []
         | mkField _ v _ _ _ _ :: fs' => patchIndices v ++ fieldsIndices fs'
         end) fields
  | NArray (mkArray _ _ _ item stream) =>
      (if StreamEnabled stream then [StreamPatchIndex stream] else [])
      ++ patchIndices item
  | NNull d => if DeferEnabled d then [DeferPatchIndex d] else []
  | _ => []
  end.

(** The patch queue of a context and its cursors. *)
Definition queue (c : Context) : list patch * Z * Z :=
  (patches c, maxPatch c, currentPatch c).

(** From [c] to [c'] patches were only added at the end of the queue, each
    under one of the indices [indices]; [maxPatch] counts them and the cursor
    did not move. *)
Definition Enqueues (indices : list Z) (c c' : Context) : Prop :=
  currentPatch c' = currentPatch c
  /\ exists added,
       patches c' = patches c ++ added
       /\ maxPatch c' = maxPatch c + Z.of_nat (length added)
       /\ Forall (fun p => In (patch_index p) indices) added.

(** A resolve function that only enqueues under [indices]. *)
Definition EnqueuesOnly (indices : list Z)
    (resolve : Context -> bytes -> BufPair -> Result) : Prop :=
  forall ctx data buf, Enqueues indices ctx (ctxOf (resolve ctx data buf)).

(** The frame of one patch: [{"op":operation,"path":path,"value":value}],
    with the operation and the path between quotes. *)
Definition patchFrame (operation path value : bytes) : bytes :=
  lBrace ++ quote ++ literal.OP ++ quote ++ colon ++ quote ++ operation ++ quote
  ++ comma ++ quote ++ literal.PATH ++ quote ++ colon ++ quote ++ path ++ quote
  ++ comma ++ quote ++ literal.VALUE ++ quote ++ colon ++ value ++ rBrace.

(** The walk of a patch, under the path prefix [path ++ extraPath]: the
    value of the patch is walked against the data given or, when the patch
    has a fetch, against the data the fetch left in the buffer of id 0, the
    errors of that buffer coming first; a fetch that fails ends the walk
    with its error. *)
Definition patchWalk `{JsonParser} `{TextProto} (r : Resolver) (ctx : Context)
    (patch : GraphQLResponsePatch) (data path : bytes) (extraPath : option bytes)
    : Result :=
  let prefixed := set_pathPrefix ctx (path ++ slice_bytes extraPath) in
  match PatchFetch patch with
  | None => resolveNode r (PatchValue patch) prefixed data NewBufPair
  | Some fetch =>
      match resolveFetch r prefixed fetch data {| buffers := ∅ |} with
      | (c, _, Some err) => (c, NewBufPair, Some err)
      | (c, set, None) =>
          match buffers set !! 0 with
          | Some fetched =>
              resolveNode r (PatchValue patch) c (Data fetched)
                {| Data := []; Errors := Errors fetched |}
          | None => resolveNode r (PatchValue patch) c data NewBufPair
          end
      end
  end.

(** What a fetch that runs alone leaves in a fresh buffer pair for a
    rendered input. *)
Definition responseOf `{JsonParser} (f : SingleFetch) (input : bytes) : BufPair :=
  extractResponse (fst (Load (dataSource f) input)) NewBufPair
    (processResponseConfig f).

(** A resolve function that keeps the errors the buffer pair already held:
    it only writes errors after them. *)
Definition KeepsErrors (resolve : Context -> bytes -> BufPair -> Result) : Prop :=
  forall ctx data buf, Errors buf `prefix_of` Errors (bufOf (resolve ctx data buf)).

(** The byte strings of a list that are not empty. *)
Definition nonEmpty (l : list bytes) : list bytes :=
  List.filter (fun b => negb (length b =? 0)%nat) l.

Section ObjectOutput.
Context `{JsonParser}.
Variable rec : Node -> Context -> bytes -> BufPair -> Result.

(** [FieldsWalk data ctx fields written ctx']: the loop of an object without
    fetch over [fields], from the context [ctx] and against [data], resolves
    without error every field that its type name does not gate out, each in
    an empty buffer pair; [written] lists the names of these fields with the
    buffer pairs their values left, and [ctx'] is the context after the last
    of them. *)
Inductive FieldsWalk (data : bytes)
    : Context -> list Field -> list (bytes * BufPair) -> Context -> Prop :=
| FieldsWalk_nil ctx : FieldsWalk data ctx [] [] ctx
| FieldsWalk_skip ctx f fields written ctx' :
    typeNameMismatch data f = true ->
    FieldsWalk data ctx fields written ctx' ->
    FieldsWalk data ctx (f :: fields) written ctx'
| FieldsWalk_field ctx f fields c b written ctx' :
    typeNameMismatch data f = false ->
    rec (Value f) (setPosition (addPathElement ctx (Name f)) (fieldPosition f)) data
      NewBufPair
    = (c, b, None) ->
    FieldsWalk data (removeLastPathElement c) fields written ctx' ->
    FieldsWalk data ctx (f :: fields) ((Name f, b) :: written) ctx'.

End ObjectOutput.

(** One member of a JSON object: the name between quotes, a colon, the
    value. *)
Definition objectMember (name value : bytes) : bytes :=
  quote ++ name ++ quote ++ colon ++ value.

(** The members of the fields an object wrote. *)
Definition writtenMembers (written : list (bytes * BufPair)) : list bytes :=
  map (fun w => objectMember (fst w) (Data (snd w))) written.

(** The errors the values of these fields left. *)
Definition writtenErrors (written : list (bytes * BufPair)) : list bytes :=
  nonEmpty (map (fun w => Errors (snd w)) written).

Section ArrayOutput.
Variable resolveItem : Context -> bytes -> BufPair -> Result.

(** [ItemsWalk ctx i items outs ctx']: the elements [items], of indices [i],
    [i+1], ..., are resolved one after the other, each under the path of the
    context extended by its index and in an empty buffer pair, and none
    returns an error; [outs] lists the buffer pairs they leave, and [ctx'] is
    the context after the last of them. *)
Inductive ItemsWalk : Context -> nat -> list bytes -> list BufPair -> Context -> Prop :=
| ItemsWalk_nil ctx i : ItemsWalk ctx i [] [] ctx
| ItemsWalk_item ctx i item items c b outs ctx' :
    resolveItem (set_pathElements ctx (pathElements ctx ++ [Itoa (Z.of_nat i)])) item
      NewBufPair
    = (c, b, None) ->
    ItemsWalk (removeLastPathElement c) (S i) items outs ctx' ->
    ItemsWalk ctx i (item :: items) (b :: outs) ctx'.

End ArrayOutput.

(** The bytes [ResolveGraphQLResponse] writes for the upstream message
    [data], from the context [ctx]. *)
Definition responseTo `{JsonParser} `{TextProto} (r : Resolver) (ctx : Context)
    (response : GraphQLResponse) (data : bytes) : bytes :=
  snd (fst (ResolveGraphQLResponse (W := bytes) r ctx response data [])).

(** A writer that refuses its first [refusals] writes and takes every
    write after them. *)
Record FlakyWriter : Type := mkFlakyWriter { delivered : bytes; refusals : nat }.

#[export] Instance FlakyWriter_Writer : Writer FlakyWriter :=
  {| Write := fun w p =>
       match refusals w with
       | O => ({| delivered := delivered w ++ p; refusals := O |}, None)
       | S n => ({| delivered := delivered w; refusals := n |},
                 Some (errWriter "refused"))
       end |}.

(** The patch buffer of the streaming driver after the frames [outs] of the
    patches resolved one after the other, from the buffer [buf]: a comma is
    written before a patch whenever the buffer holds more than its opening
    bracket. *)
Definition batchOnto (buf : bytes) (outs : list bytes) : bytes :=
  fold_left
    (fun acc out =>
       (if negb (length acc =? 1)%nat then acc ++ literal.COMMA else acc) ++ out)
    outs buf.

Section PatchBatches.
Context `{JsonParser} `{TextProto}.
Variable r : Resolver.
Variable response : GraphQLStreamingResponse.

(** [PatchesRun n ctx outs ctx']: from the context [ctx], the [n]-th call of
    [popNextPatch] finds the queue of patches empty and leaves the context
    [ctx']. Every patch popped before either has an index beyond the patches
    of the response, and is skipped, or is resolved without error by the
    patch of its index, writing [out] to an empty buffer; [outs] are these
    outputs in the order of the patches. *)
Inductive PatchesRun : nat -> Context -> list bytes -> Context -> Prop :=
| PatchesRun_done (ctx ctx' : Context) :
    popNextPatch ctx = (ctx', Some None) ->
    PatchesRun 1 ctx [] ctx'
| PatchesRun_beyond (n : nat) (ctx c1 : Context) (p : patch) (outs : list bytes)
    (ctx' : Context) :
    popNextPatch ctx = (c1, Some (Some p)) ->
    Z.of_nat (length (Patches response)) - 1 < patch_index p ->
    PatchesRun n c1 outs ctx' ->
    PatchesRun (S n) ctx outs ctx'
| PatchesRun_patch (n : nat) (ctx c1 c2 : Context) (p : patch)
    (preparedPatch : GraphQLResponsePatch) (out : bytes) (outs : list bytes)
    (ctx' : Context) :
    popNextPatch ctx = (c1, Some (Some p)) ->
    0 <= patch_index p ->
    Patches response !! Z.to_nat (patch_index p) = Some preparedPatch ->
    ResolveGraphQLResponsePatch (W := bytes) r c1 preparedPatch (patch_data p)
      (patch_path p) (patch_extraPath p) [] = (c2, out, None) ->
    PatchesRun n c2 outs ctx' ->
    PatchesRun (S n) ctx (out :: outs) ctx'.

End PatchBatches.

(** * Properties *)

(** ** Buffer pairs *)

Lemma length_zero_nil {A : Type} (l : list A) : (length l =? 0)%nat = true -> l = [].
Proof. destruct l; [reflexivity | discriminate]. Qed.

Lemma HasData_false (b : BufPair) : HasData b = false -> Data b = [].
Proof.
  unfold HasData. intros Hd. apply length_zero_nil.
  destruct (length (Data b) =? 0)%nat; [reflexivity | discriminate].
Qed.

Lemma HasErrors_false (b : BufPair) : HasErrors b = false -> Errors b = [].
Proof.
  unfold HasErrors. intros Hd. apply length_zero_nil.
  destruct (length (Errors b) =? 0)%nat; [reflexivity | discriminate].
Qed.

Lemma MergeBufPairData_spec (from to : BufPair) (prefix : bool) :
  MergeBufPairData from to prefix
  = ({| Data := []; Errors := Errors from |},
     {| Data := Data to ++ (if prefix && HasData from then comma else []) ++ Data from;
        Errors := Errors to |}).
Proof.
  unfold MergeBufPairData. destruct (HasData from) eqn:Hd; simpl.
  - destruct prefix; simpl; unfold Data_Reset, Data_WriteBytes; simpl;
      rewrite <- ?app_assoc; reflexivity.
  - apply HasData_false in Hd. destruct from as [d e], to as [d' e']; simpl in *.
    subst d. rewrite andb_false_r. simpl. rewrite app_nil_r. reflexivity.
Qed.

Lemma MergeBufPairErrors_spec (from to : BufPair) :
  MergeBufPairErrors from to
  = ({| Data := Data from; Errors := [] |},
     {| Data := Data to;
        Errors := Errors to ++ (if HasErrors to && HasErrors from then comma else [])
                  ++ Errors from |}).
Proof.
  unfold MergeBufPairErrors. destruct (HasErrors from) eqn:Hd; simpl.
  - destruct (HasErrors to); simpl; unfold Errors_Reset, writeErrors; simpl;
      rewrite <- ?app_assoc; reflexivity.
  - apply HasErrors_false in Hd. destruct from as [d e], to as [d' e']; simpl in *.
    subst e. rewrite andb_false_r. simpl. rewrite app_nil_r. reflexivity.
Qed.

Lemma MergeBufPairs_spec (from to : BufPair) (prefix : bool) :
  MergeBufPairs from to prefix
  = (NewBufPair,
     {| Data := Data to ++ (if prefix && HasData from then comma else []) ++ Data from;
        Errors := Errors to ++ (if HasErrors to && HasErrors from then comma else [])
                  ++ Errors from |}).
Proof.
  unfold MergeBufPairs. rewrite MergeBufPairData_spec, MergeBufPairErrors_spec.
  reflexivity.
Qed.

(** C3, as stated: the comma before the data would be written only when
    [to] already has data. It is written into an empty [to] as well. *)
Lemma MergeBufPairs_comma_counterexample :
  let from := {| Data := B "1"; Errors := [] |} in
  let to := NewBufPair in
  Data (snd (MergeBufPairs from to true))
  <> Data to ++ (if HasData to && true then comma else []) ++ Data from.
Proof. vm_compute. discriminate. Qed.

(** C3, amended: merging appends the data of [from] to the data of [to],
    after a comma exactly when the flag is set and [from] has data, whatever
    [to] holds; it appends the errors of [from] to the errors of [to], after a
    comma exactly when both have errors; and it leaves [from] empty. *)
Theorem MergeBufPairs_appends (from to : BufPair) (prefixDataWithComma : bool) :
  MergeBufPairs from to prefixDataWithComma
  = (NewBufPair,
     {| Data := Data to
                ++ (if prefixDataWithComma && HasData from then comma else [])
                ++ Data from;
        Errors := Errors to
                  ++ (if HasErrors to && HasErrors from then comma else [])
                  ++ Errors from |}).
Proof.
  unfold MergeBufPairs.
  rewrite MergeBufPairData_spec, MergeBufPairErrors_spec. cbn [Data Errors].
  reflexivity.
Qed.

(** ** The envelope writer *)

Section EnvelopeProperties.
Context {W : Type} `{Writer W}.
Variable contents : W -> bytes.
Hypothesis appends : Appends contents.

Lemma safely_appends (data : bytes) (w : W) :
  exists w', safely data (w, None) = (w', None) /\ contents w' = contents w ++ data.
Proof using appends. unfold safely, writeSafe; simpl. apply appends. Qed.

Lemma writeGraphqlResponse_appends (buf : BufPair) (w : W) (ignoreData : bool) :
  exists w', writeGraphqlResponse buf w ignoreData = (w', None)
             /\ contents w' = contents w ++ envelope buf ignoreData.
Proof using appends.
  unfold writeGraphqlResponse, envelope, HasErrors, HasData.
  cbv zeta.
  destruct (negb (length (Errors buf) =? 0)%nat);
    destruct (negb (length (Data buf) =? 0)%nat); destruct ignoreData;
    cbn [negb andb];
    repeat match goal with
    | |- context [safely ?d (?w0, None)] =>
        let w1 := fresh "w" in let Hw := fresh "Hw" in let Hc := fresh "Hc" in
        destruct (safely_appends d w0) as [w1 [Hw Hc]]; rewrite Hw; clear Hw;
        cbn [fst snd]
    | |- context [Write ?w0 ?d] =>
        let w1 := fresh "w" in let Hw := fresh "Hw" in let Hc := fresh "Hc" in
        destruct (appends w0 d) as [w1 [Hw Hc]]; rewrite Hw; clear Hw;
        cbn [fst snd]
    end;
    eexists; (split; [reflexivity |]);
    repeat match goal with Hc : contents _ = _ |- _ => rewrite Hc; clear Hc end;
    rewrite <- ?app_assoc; reflexivity.
Qed.

End EnvelopeProperties.

Lemma BufferWriter_appends : Appends (fun w : bytes => w).
Proof. intros w p. exists (w ++ p). split; reflexivity. Qed.

(** C5: on a writer that takes every write, [writeGraphqlResponse] emits
    exactly the opening brace, the errors member in brackets followed by a
    comma if and only if the errors buffer is non-empty, the data member,
    whose value is the data bytes when [ignoreData] is false and the data
    buffer is non-empty and [null] otherwise, and the closing brace. *)
Theorem writeGraphqlResponse_emits {W : Type} `{Writer W} (contents : W -> bytes)
    (buf : BufPair) (writer : W) (ignoreData : bool) :
  Appends contents ->
  exists writer',
    writeGraphqlResponse buf writer ignoreData = (writer', None)
    /\ contents writer' =
       contents writer
       ++ lBrace
       ++ (if HasErrors buf
           then quote ++ literalErrors ++ quote ++ colon ++ lBrack ++ Errors buf
                ++ rBrack ++ comma
           else [])
       ++ quote ++ literalData ++ quote ++ colon
       ++ (if negb ignoreData && HasData buf then Data buf else null)
       ++ rBrace.
Proof. intros Happ. apply writeGraphqlResponse_appends. exact Happ. Qed.

Lemma writeGraphqlResponse_emits_witness :
  Appends (fun w : bytes => w)
  /\ exists writer',
       writeGraphqlResponse {| Data := B "1"; Errors := B "{}" |} (@nil ascii) false
       = (writer', None)
       /\ writer' = B "{" ++ quote ++ B "errors" ++ quote ++ B ":[{}]," ++ quote
                    ++ B "data" ++ quote ++ B ":1}".
Proof.
  split; [exact BufferWriter_appends |].
  exact (writeGraphqlResponse_emits (fun w : bytes => w)
           {| Data := B "1"; Errors := B "{}" |} [] false BufferWriter_appends).
Defined.

(** ** Header variables *)

Lemma bytes_Join_cons (x : bytes) (s : list bytes) (sep : bytes) :
  bytes_Join (x :: s) sep = x ++ concat (map (fun y => sep ++ y) s).
Proof.
  revert x. induction s as [| y s IH]; intros x.
  - simpl. rewrite app_nil_r. reflexivity.
  - change (bytes_Join (x :: y :: s) sep) with (x ++ sep ++ bytes_Join (y :: s) sep).
    rewrite IH. simpl. rewrite <- app_assoc. reflexivity.
Qed.

Lemma writeHeaderValues_later (j : nat) (value : list string) (buf : bytes) :
  writeHeaderValues (S j) value buf
  = buf ++ concat (map (fun y => comma ++ y) (map B value)).
Proof.
  revert j buf. induction value as [| v value IH]; intros j buf.
  - simpl. rewrite app_nil_r. reflexivity.
  - cbn [writeHeaderValues map concat Nat.eqb negb]. rewrite IH.
    rewrite <- !app_assoc. reflexivity.
Qed.

Lemma writeHeaderValues_joins (value : list string) (buf : bytes) :
  writeHeaderValues 0 value buf = buf ++ bytes_Join (map B value) comma.
Proof.
  destruct value as [| v value].
  - simpl. rewrite app_nil_r. reflexivity.
  - cbn [writeHeaderValues map Nat.eqb negb]. rewrite writeHeaderValues_later.
    rewrite bytes_Join_cons, <- app_assoc. reflexivity.
Qed.

(** C6: rendering a header variable fails with HeaderPathInvalid if and only
    if the path does not have exactly one element; for a path of one element
    it appends the values of the canonicalized header joined by commas: the
    single value when there is one, nothing when the header is absent or has
    no value; and it succeeds. *)
Theorem renderHeaderVariable_header `{TextProto} (ctx : Context) (path : list string)
    (preparedInput : bytes) :
  (snd (renderHeaderVariable ctx path preparedInput) = Some errHeaderPathInvalid
   <-> length path <> 1%nat)
  /\ (forall key : string,
        renderHeaderVariable ctx [key] preparedInput
        = (preparedInput
           ++ bytes_Join
                (map B (default [] (Header (request ctx) !! CanonicalMIMEHeaderKey key)))
                comma,
           None)).
Proof.
  split.
  - unfold renderHeaderVariable.
    destruct (Nat.eqb_spec (length path) 1) as [Heq | Hne]; cbn [negb].
    + split; [| intros Hc; contradiction].
      repeat match goal with |- context [if ?b then _ else _] => destruct b end;
        discriminate.
    + split; [intros _; exact Hne | reflexivity].
  - intros key. unfold renderHeaderVariable. cbn [length Nat.eqb negb nth].
    destruct (default [] (Header (request ctx) !! CanonicalMIMEHeaderKey key))
      as [| v [| v' value]].
    + simpl. rewrite app_nil_r. reflexivity.
    + reflexivity.
    + cbn [length Nat.eqb]. rewrite writeHeaderValues_joins. reflexivity.
Qed.

(** ** Validation of the context *)

(** C4, as stated: [ResolveGraphQLResponse] would reject a context whose
    patch cursors are not in their initial state. It has no such check: on a
    context that still holds a queued patch it walks the plan and writes the
    response. *)
Lemma ResolveGraphQLResponse_validate_counterexample :
  let r := {| EnableSingleFlightLoader := false;
              completionOrder := fun _ arrayItems => seq 0 (length arrayItems) |} in
  let ctx := addPatch NewContext 0 (B "/data") None (B "1") in
  validateContext ctx = Some errInvalidContext
  /\ ResolveGraphQLResponse (H := Reference.jsonparser) (H0 := Reference.textproto)
       r ctx {| ResponseData := NEmptyObject |} [] (@nil ascii)
     = (ctx, B "{" ++ quote ++ B "data" ++ quote ++ B ":{}}", None).
Proof. split; vm_compute; reflexivity. Qed.

(** C4, amended: it is the streaming resolve that begins by validating the
    context: when the patch cursors are not in their initial state,
    [ResolveGraphQLStreamingResponse] fails with the invalid-context error
    before any fetching, tree walking or writing. [ResolveGraphQLResponse]
    itself does not validate. *)
Theorem ResolveGraphQLStreamingResponse_validates `{JsonParser} `{TextProto}
    {W : Type} `{FlushWriter W} (r : Resolver) (clock : Clock) (fuel : nat)
    (ctx : Context) (response : GraphQLStreamingResponse) (data : bytes) (writer : W) :
  ~ cursorsInitial ctx ->
  ResolveGraphQLStreamingResponse r clock fuel ctx response data writer
  = Some (ctx, writer, Some errInvalidContext).
Proof.
  intros Hnot. unfold ResolveGraphQLStreamingResponse, validateContext.
  destruct (Z.eqb_spec (maxPatch ctx) (-1)) as [Hm | Hm];
    destruct (Z.eqb_spec (currentPatch ctx) (-1)) as [Hc | Hc]; cbn [negb orb];
    try reflexivity.
  exfalso. apply Hnot. split; assumption.
Qed.

Lemma ResolveGraphQLStreamingResponse_validates_witness :
  let r := {| EnableSingleFlightLoader := false;
              completionOrder := fun _ arrayItems => seq 0 (length arrayItems) |} in
  let clock := {| cancelled := fun _ => false; flushDue := fun _ => true |} in
  let ctx := addPatch NewContext 0 (B "/data") None (B "1") in
  let response := {| InitialResponse := {| ResponseData := NEmptyObject |};
                     Patches := []; FlushInterval := 0 |} in
  let writer := {| pending := []; flushed := [] |} in
  ~ cursorsInitial ctx
  /\ ResolveGraphQLStreamingResponse (H := Reference.jsonparser)
       (H0 := Reference.textproto) r clock 1 ctx response [] writer
     = Some (ctx, writer, Some errInvalidContext).
Proof.
  intros r clock ctx response writer.
  assert (Hnot : ~ cursorsInitial ctx)
    by (unfold cursorsInitial; simpl; intros [Hm _]; discriminate).
  split; [exact Hnot |].
  exact (ResolveGraphQLStreamingResponse_validates (H := Reference.jsonparser)
           (H0 := Reference.textproto) r clock 1 ctx response [] writer Hnot).
Defined.

(** ** GraphQL literals *)

Section Literals.
Context `{JsonParser}.

Lemma renderGraphQLValueAt_denotes :
  (forall data valueType j, Denotes data valueType j ->
     forall depth buf, (length data < depth)%nat ->
       renderGraphQLValueAt depth data valueType buf = (buf ++ graphqlLiteral j, None))
  /\ (forall data members js, DenotesMembers data members js ->
        forall depth first buf, (length data <= depth)%nat ->
          renderMembers (renderGraphQLValueAt depth) None members first buf
          = (buf
             ++ (if first
                 then bytes_Join
                        (map (fun m => fst m ++ colon ++ graphqlLiteral (snd m)) js) comma
                 else concat
                        (map (fun y => comma ++ y)
                           (map (fun m => fst m ++ colon ++ graphqlLiteral (snd m)) js))),
             None))
  /\ (forall data elements js, DenotesElements data elements js ->
        forall depth first buf, (length data <= depth)%nat ->
          renderElements (renderGraphQLValueAt depth) elements first None buf
          = (buf
             ++ (if first then bytes_Join (map graphqlLiteral js) comma
                 else concat (map (fun y => comma ++ y) (map graphqlLiteral js))),
             None)).
Proof.
  apply Denotes_mutind.
  - intros data [| depth] buf Hd; [lia |]. cbn [renderGraphQLValueAt graphqlLiteral].
    rewrite <- !app_assoc. reflexivity.
  - intros data [| depth] buf Hd; [lia |]. reflexivity.
  - intros data [| depth] buf Hd; [lia |]. reflexivity.
  - intros data [| depth] buf Hd; [lia |]. reflexivity.
  - intros data members js Heach _ IH [| depth] buf Hd; [lia |].
    cbn [renderGraphQLValueAt graphqlLiteral]. rewrite Heach.
    rewrite (IH depth true) by lia. rewrite <- !app_assoc. reflexivity.
  - intros data elements js Heach _ IH [| depth] buf Hd; [lia |].
    cbn [renderGraphQLValueAt graphqlLiteral]. rewrite Heach.
    rewrite (IH depth true) by lia. rewrite <- !app_assoc. reflexivity.
  - intros data depth first buf _. destruct first; simpl; rewrite app_nil_r; reflexivity.
  - intros data key value dataType j members js Hlt _ IHv _ IHm depth first buf Hd.
    cbn [renderMembers]. rewrite IHv by lia. rewrite IHm by lia.
    cbn [map fst snd concat]. destruct first; cbn [negb].
    + rewrite bytes_Join_cons. rewrite <- !app_assoc. reflexivity.
    + rewrite <- !app_assoc. reflexivity.
  - intros data depth first buf _. destruct first; simpl; rewrite app_nil_r; reflexivity.
  - intros data value dataType j elements js Hlt _ IHv _ IHe depth first buf Hd.
    cbn [renderElements]. rewrite IHv by lia. rewrite IHe by lia.
    cbn [map concat]. destruct first; cbn [negb].
    + rewrite bytes_Join_cons. rewrite <- !app_assoc. reflexivity.
    + rewrite <- !app_assoc. reflexivity.
Qed.

End Literals.

(** C7: for a context variable whose path finds a value in the variables of
    the context, rendering appends the raw JSON fragment when
    [renderAsGraphQLValue] is unset, and the GraphQL literal of the value
    when it is set: a string between backslash-escaped quotes, an object as
    [{key:value,...}] with unquoted keys and transcoded values, an array as
    [[v,...]] with transcoded elements, null, booleans and numbers
    unchanged. *)
Theorem renderContextVariable_transcodes `{JsonParser} (ctx : Context)
    (path : list string) (renderAsGraphQLValue : bool) (preparedInput : bytes)
    (value : bytes) (valueType : ValueType) (j : json) :
  Get (Variables ctx) path = (Some value, valueType, None) ->
  Denotes value valueType j ->
  renderContextVariable ctx path renderAsGraphQLValue preparedInput
  = (preparedInput ++ (if renderAsGraphQLValue then graphqlLiteral j else value), None).
Proof.
  intros Hget Hden. unfold renderContextVariable. rewrite Hget.
  destruct renderAsGraphQLValue; cbn [negb slice_bytes default].
  - unfold renderGraphQLValue.
    apply (proj1 renderGraphQLValueAt_denotes _ _ _ Hden). unfold id; lia.
  - reflexivity.
Qed.

Ltac denote :=
  repeat first
    [ apply Denotes_String | apply Denotes_Number | apply Denotes_Boolean
    | apply Denotes_Null
    | eapply Denotes_Object; [vm_compute; reflexivity |]
    | eapply Denotes_Array; [vm_compute; reflexivity |]
    | apply DenotesMembers_nil | apply DenotesElements_nil
    | apply DenotesMembers_cons; [simpl; lia | |]
    | apply DenotesElements_cons; [simpl; lia | |] ].

Lemma renderContextVariable_transcodes_witness :
  let variables :=
    B "{" ++ quote ++ B "a" ++ quote ++ B ":{" ++ quote ++ B "b" ++ quote ++ B ":"
    ++ quote ++ B "x" ++ quote ++ B "," ++ quote ++ B "c" ++ quote
    ++ B ":[1,true,null]}}" in
  let ctx := {| Variables := variables; request := request NewContext;
                pathElements := []; patches := []; usedBuffers := [];
                currentPatch := -1; maxPatch := -1; pathPrefix := [];
                beforeFetchHook := false; afterFetchHook := false;
                position := position NewContext |} in
  let value :=
    B "{" ++ quote ++ B "b" ++ quote ++ B ":" ++ quote ++ B "x" ++ quote ++ B ","
    ++ quote ++ B "c" ++ quote ++ B ":[1,true,null]}" in
  let j := JObject [(B "b", JString (B "x"));
                    (B "c", JArray [JNumber (B "1"); JBoolean (B "true"); JNull])] in
  Get (JsonParser := Reference.jsonparser) (Variables ctx) ["a"%string]
  = (Some value, Object_, None)
  /\ Denotes (H := Reference.jsonparser) value Object_ j
  /\ renderContextVariable (H := Reference.jsonparser) ctx ["a"%string] true (B "v=")
     = (B "v={b:" ++ backslash ++ quote ++ B "x" ++ backslash ++ quote
        ++ B ",c:[1,true,null]}", None).
Proof.
  intros variables ctx value j.
  assert (Hget : Get (JsonParser := Reference.jsonparser) (Variables ctx) ["a"%string]
                 = (Some value, Object_, None)) by (vm_compute; reflexivity).
  assert (Hden : Denotes (H := Reference.jsonparser) value Object_ j)
    by (subst value j; denote).
  split; [exact Hget |]. split; [exact Hden |].
  exact (renderContextVariable_transcodes (H := Reference.jsonparser)
           ctx ["a"%string] true (B "v=") value Object_ j Hget Hden).
Defined.

(** ** The upstream envelope *)

Lemma BufPair_eq (a b : BufPair) : Data a = Data b -> Errors a = Errors b -> a = b.
Proof. destruct a, b; simpl; intros -> ->; reflexivity. Qed.

Lemma Data_writeErrors (b : BufPair) (x : bytes) : Data (writeErrors b x) = Data b.
Proof. reflexivity. Qed.

Lemma Errors_writeErrors (b : BufPair) (x : bytes) :
  Errors (writeErrors b x) = Errors b ++ x.
Proof. reflexivity. Qed.

Lemma Data_Data_WriteBytes (b : BufPair) (x : bytes) :
  Data (Data_WriteBytes b x) = Data b ++ x.
Proof. reflexivity. Qed.

Lemma Errors_Data_WriteBytes (b : BufPair) (x : bytes) :
  Errors (Data_WriteBytes b x) = Errors b.
Proof. reflexivity. Qed.

Lemma Data_Data_Reset (b : BufPair) : Data (Data_Reset b) = [].
Proof. reflexivity. Qed.

Lemma Errors_Data_Reset (b : BufPair) : Errors (Data_Reset b) = Errors b.
Proof. reflexivity. Qed.

Create Rewrite HintDb buf.
#[export] Hint Rewrite Data_writeErrors Errors_writeErrors Data_Data_WriteBytes
  Errors_Data_WriteBytes Data_Data_Reset Errors_Data_Reset : buf.

Lemma Data_writeErrMember (key : bytes) (value : option bytes) (b : BufPair) :
  Data (writeErrMember key value b) = Data b.
Proof. destruct value; reflexivity. Qed.

Lemma Errors_writeErrMember (key : bytes) (value : option bytes) (b : BufPair) :
  Errors (writeErrMember key value b) = Errors b ++ errorMember key value.
Proof.
  destruct value; cbn [writeErrMember errorMember].
  - autorewrite with buf. rewrite <- !app_assoc. reflexivity.
  - rewrite app_nil_r. reflexivity.
Qed.

#[export] Hint Rewrite Data_writeErrMember Errors_writeErrMember : buf.

Lemma WriteErr_spec (b : BufPair) (message : bytes)
    (locations path extensions : option bytes) :
  WriteErr b message locations path extensions
  = {| Data := Data b;
       Errors := Errors b ++ (if HasErrors b then comma else [])
                 ++ errorObject message locations path extensions |}.
Proof.
  unfold WriteErr, errorObject. cbv zeta.
  apply BufPair_eq; cbn [Data Errors]; autorewrite with buf.
  - destruct (HasErrors b); autorewrite with buf; reflexivity.
  - destruct (HasErrors b); autorewrite with buf; rewrite <- !app_assoc;
      rewrite ?app_nil_l; reflexivity.
Qed.

Lemma writtenOnto_app (acc : bytes) (l1 l2 : list bytes) :
  writtenOnto acc (l1 ++ l2) = writtenOnto (writtenOnto acc l1) l2.
Proof. unfold writtenOnto. apply fold_left_app. Qed.

Lemma writtenOnto_nonempty (acc : bytes) (objects : list bytes) :
  acc <> [] ->
  writtenOnto acc objects = acc ++ concat (map (fun o => comma ++ o) objects).
Proof.
  revert acc. induction objects as [| o objects IH]; intros acc Hacc.
  - simpl. rewrite app_nil_r. reflexivity.
  - cbn [writtenOnto fold_left map concat].
    destruct acc as [| c acc]; [contradiction |]. cbn [length Nat.eqb negb].
    fold (writtenOnto ((c :: acc) ++ comma ++ o) objects).
    rewrite IH by discriminate. rewrite <- !app_assoc. reflexivity.
Qed.

Lemma writtenOnto_joins (acc : bytes) (objects : list bytes) :
  Forall (fun o => o <> []) objects ->
  writtenOnto acc objects = joinErrors acc (bytes_Join objects comma).
Proof.
  intros Hne. unfold joinErrors. destruct objects as [| o objects].
  - simpl. rewrite andb_false_r. rewrite app_nil_r. reflexivity.
  - inversion Hne as [| ? ? Ho _]; subst.
    rewrite bytes_Join_cons.
    assert (Hlen : (length (o ++ concat (map (fun y => comma ++ y) objects)) =? 0)%nat = false).
    { destruct o; [contradiction | reflexivity]. }
    rewrite Hlen. cbn [negb]. rewrite andb_true_r.
    cbn [writtenOnto fold_left]. fold (writtenOnto (acc ++ (if negb (length acc =? 0)%nat then comma else []) ++ o) objects).
    rewrite writtenOnto_nonempty.
    + rewrite <- !app_assoc. reflexivity.
    + destruct acc; [simpl; destruct o; [contradiction | discriminate] | discriminate].
Qed.

Lemma errorObject_nonempty (message : bytes) (locations path extensions : option bytes) :
  errorObject message locations path extensions <> [].
Proof. unfold errorObject. discriminate. Qed.

Section UpstreamProperties.
Context `{JsonParser}.

Lemma messageErrors_nonempty (errors : bytes) :
  Forall (fun o => o <> []) (messageErrors errors).
Proof.
  unfold messageErrors. induction (fst (ArrayEach errors [])) as [| [value t] l IH].
  - constructor.
  - cbn [flat_map]. destruct (errorMembers value) as [[[[m |] loc] p] e]; cbn [app].
    + constructor; [apply errorObject_nonempty | exact IH].
    + exact IH.
Qed.

Lemma extractErrors_fold (elements : list (bytes * ValueType)) (bufPair : BufPair) :
  fold_left (fun bufPair '(value, _) => extractError bufPair value) elements bufPair
  = {| Data := Data bufPair;
       Errors :=
         writtenOnto (Errors bufPair)
           (flat_map
              (fun '(value, _) =>
                 match errorMembers value with
                 | (Some message, locations, path, extensions) =>
                     [errorObject message locations path extensions]
                 | (None, _, _, _) => []
                 end) elements) |}.
Proof.
  revert bufPair. induction elements as [| [value t] elements IH]; intros bufPair.
  - destruct bufPair; reflexivity.
  - cbn [fold_left flat_map]. rewrite IH. unfold extractError.
    destruct (errorMembers value) as [[[[m |] loc] p] e].
    + rewrite WriteErr_spec. cbn [Data Errors]. rewrite writtenOnto_app.
      reflexivity.
    + reflexivity.
Qed.

Lemma extractResponse_fold (entries : list (nat * bytes * ValueType)) (bufPair : BufPair) :
  fold_left
    (fun bufPair '(i, bytes, _) =>
       if (i =? rootErrorsPathIndex)%nat then
         fold_left (fun bufPair '(value, _) => extractError bufPair value)
           (fst (ArrayEach bytes [])) bufPair
       else if (i =? rootDataPathIndex)%nat then
         if false then
           let '(data, _, _) := Get bytes entitiesPath in
           Data_WriteBytes bufPair (slice_bytes data)
         else Data_WriteBytes bufPair bytes
       else bufPair)
    entries bufPair
  = {| Data :=
         Data bufPair
         ++ concat
              (map (fun '(i, bytes, _) =>
                      if (i =? rootDataPathIndex)%nat then bytes else []) entries);
       Errors :=
         writtenOnto (Errors bufPair)
           (flat_map
              (fun '(i, bytes, _) =>
                 if (i =? rootErrorsPathIndex)%nat then messageErrors bytes else [])
              entries) |}.
Proof.
  revert bufPair. induction entries as [| [[i bytes] t] entries IH]; intros bufPair.
  - destruct bufPair; simpl. rewrite app_nil_r. reflexivity.
  - cbn [fold_left flat_map map concat]. rewrite IH.
    destruct i as [| [| i]]; cbn [Nat.eqb rootErrorsPathIndex rootDataPathIndex].
    + rewrite extractErrors_fold. cbn [Data Errors]. rewrite writtenOnto_app.
      reflexivity.
    + cbn [Data_WriteBytes Data Errors app]. rewrite <- app_assoc. reflexivity.
    + reflexivity.
Qed.

(** The extractor splits an upstream envelope into the value of its data
    member and the error objects of its errors that carry a message. *)
Lemma extractResponse_envelope (data : bytes) :
  extractResponse data NewBufPair
    {| ExtractGraphqlResponse := true; ExtractFederationEntities := false |}
  = {| Data := envelopeData data;
       Errors := bytes_Join (envelopeErrors data) comma |}.
Proof.
  unfold extractResponse, envelopeData, envelopeErrors.
  destruct (length data =? 0)%nat; [reflexivity |].
  cbn [negb ExtractGraphqlResponse ExtractFederationEntities].
  rewrite extractResponse_fold. cbn [Data Errors NewBufPair app]. f_equal.
  rewrite writtenOnto_joins.
  - reflexivity.
  - induction (EachKey data responsePaths) as [| [[i bytes] t] l IH].
    + constructor.
    + cbn [flat_map]. apply Forall_app. split; [| exact IH].
      destruct (i =? rootErrorsPathIndex)%nat;
        [apply messageErrors_nonempty | constructor].
Qed.

End UpstreamProperties.

(** [ResolveGraphQLResponse], with the upstream envelope split. *)
Lemma ResolveGraphQLResponse_walk `{JsonParser} `{TextProto} {W : Type}
    `{Writer W} (r : Resolver) (ctx : Context) (response : GraphQLResponse)
    (data : bytes) (writer : W) :
  ResolveGraphQLResponse r ctx response data writer
  = let '(ctx', walked, err) :=
      resolveNode r (ResponseData response) ctx (envelopeData data) NewBufPair in
    let buf :=
      {| Data := Data walked;
         Errors := joinErrors (Errors walked)
                     (bytes_Join (envelopeErrors data) comma) |} in
    match err with
    | None =>
        let '(writer', err') := writeGraphqlResponse buf writer false in
        (ctx', writer', err')
    | Some e =>
        if is_errNonNullableFieldValueIsNull e then
          let '(writer', err') := writeGraphqlResponse buf writer true in
          (ctx', writer', err')
        else (ctx', writer, Some e)
    end.
Proof.
  unfold ResolveGraphQLResponse. rewrite extractResponse_envelope. cbn [Data Errors].
  destruct (resolveNode r (ResponseData response) ctx (envelopeData data) NewBufPair)
    as [[ctx' walked] err].
  assert (Hbuf :
    (if (0 <? length (bytes_Join (envelopeErrors data) comma))%nat
     then snd (MergeBufPairErrors
                 {| Data := envelopeData data;
                    Errors := bytes_Join (envelopeErrors data) comma |} walked)
     else walked)
    = {| Data := Data walked;
         Errors := joinErrors (Errors walked)
                     (bytes_Join (envelopeErrors data) comma) |}).
  { rewrite MergeBufPairErrors_spec. unfold joinErrors, HasErrors. cbn [snd Data Errors].
    destruct (bytes_Join (envelopeErrors data) comma) as [| c up].
    - simpl. rewrite andb_false_r. rewrite app_nil_r. destruct walked; reflexivity.
    - cbn [length Nat.ltb Nat.leb Nat.eqb negb]. reflexivity. }
  destruct err as [e |].
  - destruct (is_errNonNullableFieldValueIsNull e); cbn [negb].
    + rewrite Hbuf. reflexivity.
    + reflexivity.
  - rewrite Hbuf. reflexivity.
Qed.

Section UpstreamMembersProperties.
Context `{JsonParser}.

Lemma find_ext {A : Type} (f g : A -> bool) (l : list A) :
  (forall x, f x = g x) -> List.find f l = List.find g l.
Proof.
  intros Hfg. induction l as [| x l IH]; [reflexivity |].
  cbn [List.find]. rewrite Hfg, IH. reflexivity.
Qed.

Lemma hitOf_absent (i : nat) (hits : list (nat * bytes * ValueType)) :
  ~ In i (map (fun hit => fst (fst hit)) hits) -> hitOf i hits = None.
Proof.
  unfold hitOf. induction hits as [| [[j v] t] hits IH]; intros Hnotin; [reflexivity |].
  cbn [List.find fst snd]. cbn [map In fst] in Hnotin.
  destruct (Nat.eqb_spec j i) as [-> | Hne]; [exfalso; apply Hnotin; left; reflexivity |].
  apply IH. intros Hin. apply Hnotin. right. exact Hin.
Qed.

Lemma memberOf_hitOf (value : bytes) (keys : list string) (key : string) (i : nat) :
  (forall j, match keys !! j with
             | Some k => String.eqb k key
             | None => false
             end = (j =? i)%nat) ->
  memberOf value keys key = hitOf i (EachKey value (map (fun k => [k]) keys)).
Proof.
  intros Hkey. unfold memberOf, hitOf.
  rewrite (find_ext _ (fun hit => (fst (fst hit) =? i)%nat)); [reflexivity |].
  intros hit. apply Hkey.
Qed.

Ltac member_index :=
  intros j; do 5 (try destruct j as [| j]); reflexivity.

Lemma memberOf_errors (data : bytes) :
  memberOf data envelopeMembers "errors"
  = hitOf 0 (EachKey data (map (fun k => [k]) envelopeMembers)).
Proof. apply (memberOf_hitOf data envelopeMembers "errors" 0). member_index. Qed.

Lemma memberOf_data (data : bytes) :
  memberOf data envelopeMembers "data"
  = hitOf 1 (EachKey data (map (fun k => [k]) envelopeMembers)).
Proof. apply (memberOf_hitOf data envelopeMembers "data" 1). member_index. Qed.

Lemma memberOf_message (element : bytes) :
  memberOf element errorMembersOf "message"
  = hitOf 0 (EachKey element (map (fun k => [k]) errorMembersOf)).
Proof. apply (memberOf_hitOf element errorMembersOf "message" 0). member_index. Qed.

Lemma memberOf_locations (element : bytes) :
  memberOf element errorMembersOf "locations"
  = hitOf 1 (EachKey element (map (fun k => [k]) errorMembersOf)).
Proof. apply (memberOf_hitOf element errorMembersOf "locations" 1). member_index. Qed.

Lemma memberOf_path (element : bytes) :
  memberOf element errorMembersOf "path"
  = hitOf 2 (EachKey element (map (fun k => [k]) errorMembersOf)).
Proof. apply (memberOf_hitOf element errorMembersOf "path" 2). member_index. Qed.

Lemma memberOf_extensions (element : bytes) :
  memberOf element errorMembersOf "extensions"
  = hitOf 3 (EachKey element (map (fun k => [k]) errorMembersOf)).
Proof. apply (memberOf_hitOf element errorMembersOf "extensions" 3). member_index. Qed.

(** The callback of the inner [EachKey] of the extractor, over hits of
    different indices: each variable ends with the value of its hit. *)
Lemma errorMembers_fold (hits : list (nat * bytes * ValueType))
    (message locations path extensions : option bytes) :
  List.NoDup (map (fun hit => fst (fst hit)) hits) ->
  fold_left
    (fun '(message, locations, path, extensions) '(i, bytes, _) =>
       if (i =? errorsMessagePathIndex)%nat then (Some bytes, locations, path, extensions)
       else if (i =? errorsLocationsPathIndex)%nat then (message, Some bytes, path, extensions)
       else if (i =? errorsPathPathIndex)%nat then (message, locations, Some bytes, extensions)
       else if (i =? errorsExtensionsPathIndex)%nat then (message, locations, path, Some bytes)
       else (message, locations, path, extensions))
    hits (message, locations, path, extensions)
  = (match hitOf 0 hits with Some v => Some v | None => message end,
     match hitOf 1 hits with Some v => Some v | None => locations end,
     match hitOf 2 hits with Some v => Some v | None => path end,
     match hitOf 3 hits with Some v => Some v | None => extensions end).
Proof.
  revert message locations path extensions.
  induction hits as [| [[i v] t] hits IH]; intros message locations path extensions Hnodup;
    [reflexivity |].
  cbn [map fst] in Hnodup. apply List.NoDup_cons_iff in Hnodup.
  destruct Hnodup as [Hnotin Hnodup].
  cbn [fold_left]. unfold hitOf at 1 2 3 4. cbn [List.find fst snd].
  do 4 (destruct i as [| i];
        [cbn [Nat.eqb errorsMessagePathIndex errorsLocationsPathIndex errorsPathPathIndex
              errorsExtensionsPathIndex];
         rewrite (IH _ _ _ _ Hnodup), (hitOf_absent _ hits Hnotin); reflexivity |]).
  cbn [Nat.eqb errorsMessagePathIndex errorsLocationsPathIndex errorsPathPathIndex
       errorsExtensionsPathIndex].
  rewrite (IH _ _ _ _ Hnodup). reflexivity.
Qed.

Lemma errorMembers_reported (element : bytes) :
  ReportedOnce element errorMembersOf ->
  errorMembers element
  = (memberOf element errorMembersOf "message",
     memberOf element errorMembersOf "locations",
     memberOf element errorMembersOf "path",
     memberOf element errorMembersOf "extensions").
Proof.
  intros Honce. unfold errorMembers.
  rewrite memberOf_message, memberOf_locations, memberOf_path, memberOf_extensions.
  change errorPaths with (map (fun k : string => [k]) errorMembersOf).
  rewrite (errorMembers_fold _ None None None None Honce).
  destruct (hitOf 0 _), (hitOf 1 _), (hitOf 2 _), (hitOf 3 _); reflexivity.
Qed.

Lemma messageErrors_reported (elements : list (bytes * ValueType)) :
  Forall (fun element => ReportedOnce element errorMembersOf) (map fst elements) ->
  flat_map
    (fun '(value, _) =>
       match errorMembers value with
       | (Some message, locations, path, extensions) =>
           [errorObject message locations path extensions]
       | (None, _, _, _) => []
       end) elements
  = omap upstreamError (map fst elements).
Proof.
  induction elements as [| [value t] elements IH]; intros Hall; [reflexivity |].
  cbn [map fst] in Hall. apply Forall_cons in Hall. destruct Hall as [Honce Hall].
  cbn [flat_map map fst omap list_omap]. rewrite (IH Hall).
  rewrite (errorMembers_reported value Honce). unfold upstreamError.
  destruct (memberOf value errorMembersOf "message"); reflexivity.
Qed.

(** Over hits of different indices, what the callback of the outer
    [EachKey] collects is the hit of each path. *)
Lemma envelopeData_hits (hits : list (nat * bytes * ValueType)) :
  List.NoDup (map (fun hit => fst (fst hit)) hits) ->
  concat (map (fun '(i, bytes, _) => if (i =? rootDataPathIndex)%nat then bytes else [])
            hits)
  = default [] (hitOf 1 hits).
Proof.
  induction hits as [| [[i v] t] hits IH]; intros Hnodup; [reflexivity |].
  cbn [map fst] in Hnodup. apply List.NoDup_cons_iff in Hnodup.
  destruct Hnodup as [Hnotin Hnodup].
  cbn [map concat]. unfold hitOf. cbn [List.find fst snd]. fold (hitOf 1 hits).
  rewrite (IH Hnodup). unfold rootDataPathIndex.
  destruct (Nat.eqb_spec i 1) as [-> | Hne]; [| reflexivity].
  rewrite (hitOf_absent 1 hits Hnotin). cbn [default]. apply app_nil_r.
Qed.

Lemma envelopeErrors_hits (hits : list (nat * bytes * ValueType)) :
  List.NoDup (map (fun hit => fst (fst hit)) hits) ->
  flat_map
    (fun '(i, bytes, _) => if (i =? rootErrorsPathIndex)%nat then messageErrors bytes else [])
    hits
  = match hitOf 0 hits with
    | Some errors => messageErrors errors
    | None => []
    end.
Proof.
  induction hits as [| [[i v] t] hits IH]; intros Hnodup; [reflexivity |].
  cbn [map fst] in Hnodup. apply List.NoDup_cons_iff in Hnodup.
  destruct Hnodup as [Hnotin Hnodup].
  cbn [flat_map]. unfold hitOf. cbn [List.find fst snd]. fold (hitOf 0 hits).
  rewrite (IH Hnodup). unfold rootErrorsPathIndex.
  destruct (Nat.eqb_spec i 0) as [-> | Hne]; [| reflexivity].
  rewrite (hitOf_absent 0 hits Hnotin). apply app_nil_r.
Qed.

(** What the extractor takes for the data and the errors of an envelope
    are its data member and the error objects of its errors. *)
Lemma envelopeData_upstream (data : bytes) :
  data <> [] ->
  EnvelopeReportedOnce data ->
  envelopeData data = upstreamData data.
Proof.
  intros Hne [Honce _]. unfold envelopeData, upstreamData.
  destruct data as [| c data]; [contradiction |]. cbn [length Nat.eqb].
  rewrite memberOf_data.
  change responsePaths with (map (fun k : string => [k]) envelopeMembers).
  apply envelopeData_hits. exact Honce.
Qed.

Lemma envelopeErrors_upstream (data : bytes) :
  data <> [] ->
  EnvelopeReportedOnce data ->
  envelopeErrors data = upstreamErrors data.
Proof.
  intros Hne [Honce Helements]. unfold envelopeErrors, upstreamErrors.
  unfold upstreamElements in *.
  destruct data as [| c data]; [contradiction |]. cbn [length Nat.eqb].
  rewrite memberOf_errors in *.
  change responsePaths with (map (fun k : string => [k]) envelopeMembers).
  rewrite (envelopeErrors_hits _ Honce).
  destruct (hitOf 0 _) as [errors |]; [| reflexivity].
  unfold messageErrors. apply messageErrors_reported. exact Helements.
Qed.

End UpstreamMembersProperties.

(** C10: [ResolveGraphQLResponse] takes the bytes it is given for a GraphQL
    response envelope (the parser reporting each member at most once). The
    plan is walked against the value of the data member of that envelope
    only, not against the bytes themselves, and the error objects of the
    elements of its errors array that carry a message come in the errors of
    the response after the errors of the walk, separated from them by a
    comma. On a writer that takes every write the response is the envelope
    of these errors and of the data of the walk, the data being null when
    the walk returned the non-null error; another error of the walk is
    returned and nothing is written. *)
Theorem ResolveGraphQLResponse_envelope `{JsonParser} `{TextProto} {W : Type}
    `{Writer W} (contents : W -> bytes) (r : Resolver) (ctx : Context)
    (response : GraphQLResponse) (data : bytes) (writer : W) :
  Appends contents ->
  data <> [] ->
  EnvelopeReportedOnce data ->
  let walk := resolveNode r (ResponseData response) ctx (upstreamData data) NewBufPair in
  let buf :=
    {| Data := Data (bufOf walk);
       Errors := joinErrors (Errors (bufOf walk))
                   (bytes_Join (upstreamErrors data) comma) |} in
  exists writer',
    ResolveGraphQLResponse r ctx response data writer
    = (ctxOf walk, writer',
       match errOf walk with
       | Some e => if is_errNonNullableFieldValueIsNull e then None else Some e
       | None => None
       end)
    /\ contents writer'
       = contents writer
         ++ match errOf walk with
            | Some e => if is_errNonNullableFieldValueIsNull e then envelope buf true else []
            | None => envelope buf false
            end.
Proof.
  intros Happ Hne Honce walk buf. subst walk buf.
  rewrite ResolveGraphQLResponse_walk.
  rewrite (envelopeData_upstream data Hne Honce), (envelopeErrors_upstream data Hne Honce).
  destruct (resolveNode r (ResponseData response) ctx (upstreamData data) NewBufPair)
    as [[ctx' walked] err].
  unfold ctxOf, bufOf, errOf. cbn [fst snd]. cbv zeta.
  destruct err as [e |]; [destruct (is_errNonNullableFieldValueIsNull e) |].
  - match goal with
    | |- context [writeGraphqlResponse ?b writer true] =>
        destruct (writeGraphqlResponse_appends contents Happ b writer true)
          as (writer' & Hwrite & Hcontents)
    end.
    rewrite Hwrite. exists writer'. split; [reflexivity | exact Hcontents].
  - exists writer. rewrite app_nil_r. split; reflexivity.
  - match goal with
    | |- context [writeGraphqlResponse ?b writer false] =>
        destruct (writeGraphqlResponse_appends contents Happ b writer false)
          as (writer' & Hwrite & Hcontents)
    end.
    rewrite Hwrite. exists writer'. split; [reflexivity | exact Hcontents].
Qed.

Lemma ResolveGraphQLResponse_envelope_witness :
  let r := {| EnableSingleFlightLoader := false;
              completionOrder := fun _ arrayItems => seq 0 (length arrayItems) |} in
  let field := fun name value =>
    mkField (B name) value {| Line := 3; Column := 4 |} false 0 None in
  let response :=
    {| ResponseData :=
         NObject
           (mkObject false []
              [field "hello"%string (NString (Some ["hello"%string]) false);
               field "n"%string (NInteger ["n"%string] false)]
              None) |} in
  let record :=
    B "{" ++ quote ++ B "hello" ++ quote ++ B ":" ++ quote ++ B "world" ++ quote
    ++ B "}" in
  let boom :=
    B "{" ++ quote ++ B "message" ++ quote ++ B ":" ++ quote ++ B "boom" ++ quote
    ++ B "," ++ quote ++ B "path" ++ quote ++ B ":[" ++ quote ++ B "a" ++ quote
    ++ B "]}" in
  let data :=
    B "{" ++ quote ++ B "errors" ++ quote ++ B ":[" ++ boom ++ B ",{" ++ quote
    ++ B "locations" ++ quote ++ B ":[]}]," ++ quote ++ B "data" ++ quote ++ B ":"
    ++ record ++ B "}" in
  let walk :=
    resolveNode (H := Reference.jsonparser) (H0 := Reference.textproto) r
      (ResponseData response) NewContext
      (upstreamData (H := Reference.jsonparser) data) NewBufPair in
  let buf :=
    {| Data := Data (bufOf walk);
       Errors := joinErrors (Errors (bufOf walk))
                   (bytes_Join (upstreamErrors (H := Reference.jsonparser) data) comma) |} in
  Appends (fun w : bytes => w)
  /\ data <> []
  /\ EnvelopeReportedOnce (H := Reference.jsonparser) data
  /\ upstreamData (H := Reference.jsonparser) data = record
  /\ upstreamErrors (H := Reference.jsonparser) data = [boom]
  /\ errOf walk = Some errNonNullableFieldValueIsNull
  /\ envelope buf true
     = B "{" ++ quote ++ B "errors" ++ quote ++ B ":[{" ++ quote ++ B "message" ++ quote
       ++ B ":" ++ quote ++ B "unable to resolve" ++ quote ++ B "," ++ quote
       ++ B "locations" ++ quote ++ B ":[{" ++ quote ++ B "line" ++ quote ++ B ":3,"
       ++ quote ++ B "column" ++ quote ++ B ":4}]}," ++ boom ++ B "]," ++ quote
       ++ B "data" ++ quote ++ B ":null}"
  /\ exists writer',
       ResolveGraphQLResponse (H := Reference.jsonparser) (H0 := Reference.textproto)
         r NewContext response data (@nil ascii)
       = (ctxOf walk, writer',
          match errOf walk with
          | Some e => if is_errNonNullableFieldValueIsNull e then None else Some e
          | None => None
          end)
       /\ writer'
          = [] ++ match errOf walk with
                  | Some e =>
                      if is_errNonNullableFieldValueIsNull e then envelope buf true else []
                  | None => envelope buf false
                  end.
Proof.
  intros r field response record boom data walk buf.
  assert (Hne : data <> []) by discriminate.
  assert (Honce : EnvelopeReportedOnce (H := Reference.jsonparser) data).
  { split.
    - unfold ReportedOnce.
      replace (map (fun hit : nat * bytes * ValueType => fst (fst hit))
                 (EachKey (JsonParser := Reference.jsonparser) data
                    (map (fun k : string => [k]) envelopeMembers)))
        with [0%nat; 1%nat] by (vm_compute; reflexivity).
      repeat constructor; cbn; intuition discriminate.
    - replace (upstreamElements (H := Reference.jsonparser) data)
        with [boom; B "{" ++ quote ++ B "locations" ++ quote ++ B ":[]}"]
        by (vm_compute; reflexivity).
      constructor; [| constructor; [| constructor]]; unfold ReportedOnce.
      + replace (map (fun hit : nat * bytes * ValueType => fst (fst hit))
                   (EachKey (JsonParser := Reference.jsonparser) boom
                      (map (fun k : string => [k]) errorMembersOf)))
          with [0%nat; 2%nat] by (vm_compute; reflexivity).
        repeat constructor; cbn; intuition discriminate.
      + replace (map (fun hit : nat * bytes * ValueType => fst (fst hit))
                   (EachKey (JsonParser := Reference.jsonparser)
                      (B "{" ++ quote ++ B "locations" ++ quote ++ B ":[]}")
                      (map (fun k : string => [k]) errorMembersOf)))
          with [1%nat] by (vm_compute; reflexivity).
        repeat constructor; cbn; intuition discriminate. }
  split; [exact BufferWriter_appends |]. split; [exact Hne |]. split; [exact Honce |].
  split; [vm_compute; reflexivity |]. split; [vm_compute; reflexivity |].
  split; [vm_compute; reflexivity |]. split; [vm_compute; reflexivity |].
  exact (ResolveGraphQLResponse_envelope (H := Reference.jsonparser)
           (H0 := Reference.textproto) (fun w : bytes => w) r NewContext response data []
           BufferWriter_appends Hne Honce).
Defined.

(** ** Paths *)

Lemma Itoa_not_data (i : Z) : bytes_Equal literal.DATA (Itoa i) = false.
Proof.
  unfold Itoa, NilZero.string_of_int.
  destruct (Z.to_int i) as [d | d]; unfold NilZero.string_of_uint.
  - destruct d; reflexivity.
  - destruct d; reflexivity.
Qed.

Lemma writePathElements_app (all : list bytes) (i : nat) (l1 l2 : list bytes)
    (buf : bytes) :
  writePathElements all i (l1 ++ l2) buf
  = writePathElements all (i + length l1) l2 (writePathElements all i l1 buf).
Proof.
  revert i buf. induction l1 as [| e l1 IH]; intros i buf.
  - simpl. rewrite Nat.add_0_r. reflexivity.
  - cbn [writePathElements app length]. rewrite IH.
    replace (S i + length l1)%nat with (i + S (length l1))%nat by lia. reflexivity.
Qed.

Lemma writePathElements_head (all all' : list bytes) (i : nat) (l : list bytes)
    (buf : bytes) :
  nth 0 all [] = nth 0 all' [] ->
  writePathElements all i l buf = writePathElements all' i l buf.
Proof.
  intros Hnth. revert i buf. induction l as [| e l IH]; intros i buf.
  - reflexivity.
  - cbn [writePathElements]. rewrite Hnth. apply IH.
Qed.

(** The path of a context with one more path element, other than [data]. *)
Lemma path_addPathElement (c : Context) (elem : bytes) :
  bytes_Equal literal.DATA elem = false ->
  snd (path (addPathElement c elem)) = snd (path c) ++ slash ++ elem.
Proof.
  intros Hne. unfold path, addPathElement.
  cbn [snd set_pathElements pathElements pathPrefix].
  destruct (pathElements c) as [| e0 l].
  - cbn [app writePathElements Nat.eqb nth andb]. rewrite Hne.
    rewrite <- app_assoc. reflexivity.
  - rewrite writePathElements_app.
    rewrite (writePathElements_head ((e0 :: l) ++ [elem]) (e0 :: l) 0 (e0 :: l))
      by reflexivity.
    cbn [writePathElements length Nat.add Nat.eqb andb].
    rewrite <- app_assoc. reflexivity.
Qed.

(** ** Streaming arrays *)

Lemma path_set_usedBuffers (c : Context) (v : list bytes) :
  snd (path (set_usedBuffers c v)) = snd (path c).
Proof. reflexivity. Qed.

(** What the loop of a streaming array leaves of the context for an element
    beyond the initial batch. *)
Lemma preparePatch_enqueued (c : Context) (patchIndex : Z) (i : nat) (item : bytes) :
  removeLastPathElement
    (preparePatch (addIntegerPathElement c (Z.of_nat i)) patchIndex None item)
  = enqueued c (streamedPatch (snd (path c)) patchIndex i item).
Proof.
  pose proof (path_addPathElement c (Itoa (Z.of_nat i)) (Itoa_not_data _)) as Hpath.
  unfold path, addPathElement in Hpath. cbn [snd set_pathElements pathElements pathPrefix] in Hpath.
  unfold removeLastPathElement, preparePatch, addIntegerPathElement, path, addPatch,
    enqueued, streamedPatch, set_usedBuffers, set_pathElements.
  cbn [Variables request pathElements patches usedBuffers currentPatch maxPatch
       pathPrefix beforeFetchHook afterFetchHook position patch_data patch_path snd].
  rewrite removelast_last, Hpath, <- app_assoc. reflexivity.
Qed.

Section StreamingProperties.
Variable resolveItem : Context -> bytes -> BufPair -> Result.

Lemma resolveArrayItems_app (array : Array) (i : nat) (l1 l2 : list bytes)
    (st : arrayState) :
  resolveArrayItems resolveItem array i (l1 ++ l2) st
  = match resolveArrayItems resolveItem array i l1 st with
    | Continue st' => resolveArrayItems resolveItem array (i + length l1) l2 st'
    | Return res => Return res
    end.
Proof.
  revert i st. induction l1 as [| item l1 IH]; intros i st.
  - cbn [app resolveArrayItems length]. rewrite Nat.add_0_r. reflexivity.
  - cbn [app resolveArrayItems length].
    destruct (resolveArrayItem resolveItem array i item st) as [st' | res];
      [| reflexivity].
    rewrite IH. replace (S i + length l1)%nat with (i + S (length l1))%nat by lia.
    reflexivity.
Qed.

Lemma resolveArrayItems_streamed (array : Array) (l : list bytes) (i : nat)
    (st : arrayState) :
  (forall j, (i <= j)%nat -> beyondInitialBatch array j = true) ->
  resolveArrayItems resolveItem array i l st
  = Continue {| as_ctx := enqueueStreamed (as_ctx st)
                            (StreamPatchIndex (ArrayStream array)) i l;
                as_arrayBuf := as_arrayBuf st; as_itemBuf := as_itemBuf st;
                as_hasPreviousItem := as_hasPreviousItem st;
                as_dataWritten := as_dataWritten st |}.
Proof.
  revert i st. induction l as [| item l IH]; intros i st Hb.
  - destruct st; reflexivity.
  - cbn [resolveArrayItems enqueueStreamed]. unfold resolveArrayItem.
    rewrite Hb by lia. rewrite preparePatch_enqueued.
    rewrite IH by (intros j Hj; apply Hb; lia). reflexivity.
Qed.

End StreamingProperties.

(** ** The frame of the context *)

Lemma frame_inv (c1 c2 : Context) :
  frame c1 = frame c2 ->
  Variables c1 = Variables c2 /\ request c1 = request c2
  /\ pathElements c1 = pathElements c2 /\ pathPrefix c1 = pathPrefix c2
  /\ beforeFetchHook c1 = beforeFetchHook c2
  /\ afterFetchHook c1 = afterFetchHook c2.
Proof. unfold frame. intros Hf. injection Hf. intros. repeat split; assumption. Qed.

Lemma frame_set_usedBuffers (c : Context) (v : list bytes) :
  frame (set_usedBuffers c v) = frame c.
Proof. reflexivity. Qed.

Lemma frame_setPosition (c : Context) (p : Position) : frame (setPosition c p) = frame c.
Proof. reflexivity. Qed.

Lemma frame_path (c : Context) : frame (fst (path c)) = frame c.
Proof. reflexivity. Qed.

Lemma frame_callHook (installed : bool) (c : Context) :
  frame (callHook installed c) = frame c.
Proof. destruct installed; reflexivity. Qed.

Lemma position_callHook (installed : bool) (c : Context) :
  position (callHook installed c) = position c.
Proof. destruct installed; reflexivity. Qed.

Lemma frame_preparePatch (c : Context) (patchIndex : Z) (extraPath : option bytes)
    (data : bytes) :
  frame (preparePatch c patchIndex extraPath data) = frame c.
Proof. reflexivity. Qed.

Lemma position_preparePatch (c : Context) (patchIndex : Z) (extraPath : option bytes)
    (data : bytes) :
  position (preparePatch c patchIndex extraPath data) = position c.
Proof. reflexivity. Qed.

Lemma frame_enqueued (c : Context) (p : patch) : frame (enqueued c p) = frame c.
Proof. reflexivity. Qed.

(** Leaving an element of the path that was entered restores the frame. *)
Lemma frame_removeLast (c c' : Context) (elem : bytes) :
  frame c' = frame (addPathElement c elem) ->
  frame (removeLastPathElement c') = frame c.
Proof.
  intros Hf. apply frame_inv in Hf. destruct Hf as (Hv & Hr & Hp & Hx & Hb & Ha).
  unfold frame, removeLastPathElement. cbn [Variables request pathElements pathPrefix
    beforeFetchHook afterFetchHook set_pathElements].
  rewrite Hv, Hr, Hp, Hx, Hb, Ha. cbn [addPathElement set_pathElements pathElements
    Variables request pathPrefix beforeFetchHook afterFetchHook].
  rewrite removelast_last. reflexivity.
Qed.

Lemma position_removeLast (c : Context) :
  position (removeLastPathElement c) = position c.
Proof. reflexivity. Qed.

Section FetchFrame.
Context `{JsonParser} `{TextProto}.
Variable r : Resolver.

Lemma resolveSingleFetch_frame (ctx : Context) (fetch : SingleFetch)
    (preparedInput : bytes) (buf : BufPair) :
  frame (ctxOf (resolveSingleFetch r ctx fetch preparedInput buf)) = frame ctx
  /\ position (ctxOf (resolveSingleFetch r ctx fetch preparedInput buf)) = position ctx.
Proof.
  unfold resolveSingleFetch, ctxOf.
  destruct (negb (EnableSingleFlightLoader r) || DisallowSingleFlight fetch);
    destruct (Load (dataSource fetch) preparedInput) as [dataBuf err].
  - cbn [fst]. rewrite !frame_callHook, !position_callHook. split; reflexivity.
  - destruct (HasData _), (HasErrors _); cbn [fst];
      rewrite ?frame_callHook, ?position_callHook; split; reflexivity.
Qed.

Lemma runFetches_frame (fetches : list SingleFetch) (preparedInputs : list bytes)
    (ctx : Context) (set : resultSet) :
  frame (fst (runFetches r ctx fetches preparedInputs set)) = frame ctx
  /\ position (fst (runFetches r ctx fetches preparedInputs set)) = position ctx.
Proof.
  revert preparedInputs ctx set.
  induction fetches as [| f fetches IH]; intros [| input inputs] ctx set;
    try (split; reflexivity).
  cbn [runFetches].
  pose proof (resolveSingleFetch_frame ctx f input
                (default NewBufPair (buffers set !! BufferId f))) as [Hf Hp].
  destruct (resolveSingleFetch r ctx f input _) as [[ctx' buf'] e].
  unfold ctxOf in Hf, Hp. cbn [fst] in Hf, Hp.
  destruct (IH inputs ctx' {| buffers := <[BufferId f := buf']> (buffers set) |})
    as [Hf' Hp'].
  rewrite Hf', Hp'. split; assumption.
Qed.

Lemma resolveFetch_frame (ctx : Context) (fetch : Fetch) (data : bytes)
    (set : resultSet) :
  frame (fst (fst (resolveFetch r ctx fetch data set))) = frame ctx
  /\ position (fst (fst (resolveFetch r ctx fetch data set))) = position ctx.
Proof.
  unfold resolveFetch. destruct fetch as [f | fetches].
  - destruct (prepareSingleFetch ctx f data set []) as [[set' input] [e |]];
      [split; reflexivity |].
    pose proof (resolveSingleFetch_frame ctx f input
                  (default NewBufPair (buffers set' !! BufferId f))) as Hf.
    destruct (resolveSingleFetch r ctx f input _) as [[ctx' buf'] e'].
    exact Hf.
  - destruct (prepareFetches ctx fetches data set []) as [[set' inputs] [e |]];
      [split; reflexivity |].
    pose proof (runFetches_frame fetches inputs ctx set') as Hf.
    destruct (runFetches r ctx fetches inputs set') as [ctx' set''].
    exact Hf.
Qed.

End FetchFrame.

Section WalkFrame.
Context `{JsonParser} `{TextProto}.
Variable r : Resolver.

Section LoopsFrame.
Variable rec : Node -> Context -> bytes -> BufPair -> Result.

Lemma resolveField_frame (o : Object) (data : bytes) (set : option resultSet)
    (f : Field) (st : fieldsState) :
  KeepsFrame (rec (Value f)) ->
  match resolveField rec o data set f st with
  | Continue st' => frame (fs_ctx st') = frame (fs_ctx st)
  | Return res => frame (ctxOf res) = frame (fs_ctx st)
  end.
Proof.
  intros Hrec. unfold resolveField.
  destruct (typeNameMismatch (fieldDataOf set data f) f); [reflexivity |].
  cbv zeta.
  pose proof (Hrec (setPosition (addPathElement (fs_ctx st) (Name f)) (fieldPosition f))
                (fieldDataOf set data f) (fs_fieldBuf st)) as Hf.
  destruct (rec (Value f) _ _ _) as [[c2 fieldBuf] err].
  unfold ctxOf in Hf. cbn [fst] in Hf. rewrite frame_setPosition in Hf.
  apply frame_removeLast in Hf.
  destruct err as [e |].
  - destruct (is_errTypeNameSkipped e); [exact Hf |].
    destruct (is_errNonNullableFieldValueIsNull e); [| exact Hf].
    destruct (MergeBufPairErrors _ _) as [fb ob].
    destruct (ObjectNullable o); exact Hf.
  - destruct (MergeBufPairs _ _ _) as [fb ob]. exact Hf.
Qed.

Lemma resolveFields_frame (o : Object) (data : bytes) (set : option resultSet)
    (fields : list Field) (st : fieldsState) :
  Forall (fun f => KeepsFrame (rec (Value f))) fields ->
  match resolveFields rec o data set fields st with
  | Continue st' => frame (fs_ctx st') = frame (fs_ctx st)
  | Return res => frame (ctxOf res) = frame (fs_ctx st)
  end.
Proof.
  intros Hall. revert st. induction Hall as [| f fields Hf _ IH]; intros st.
  - reflexivity.
  - cbn [resolveFields].
    pose proof (resolveField_frame o data set f st Hf) as Hstep.
    destruct (resolveField rec o data set f st) as [st' | res]; [| exact Hstep].
    specialize (IH st'). rewrite <- Hstep.
    destruct (resolveFields rec o data set fields st'); exact IH.
Qed.

Lemma resolveObjectFields_frame (ctx : Context) (o : Object) (data : bytes)
    (objectBuf : BufPair) :
  Forall (fun f => KeepsFrame (rec (Value f))) (Fields o) ->
  frame (ctxOf (resolveObjectFields r rec ctx o data objectBuf)) = frame ctx.
Proof.
  intros Hall. unfold resolveObjectFields.
  destruct (ObjectFetch o) as [fetch |].
  - pose proof (resolveFetch_frame r ctx fetch data {| buffers := ∅ |}) as [Hf _].
    destruct (resolveFetch r ctx fetch data _) as [[ctx' set] [e |]];
      cbn [fst] in Hf; [exact Hf |].
    destruct (mergeFetchErrors set objectBuf) as [set' objectBuf'].
    match goal with
    | |- context [resolveFields rec o data ?s (Fields o) ?st0] =>
        pose proof (resolveFields_frame o data s (Fields o) st0 Hall) as Hloop;
        destruct (resolveFields rec o data s (Fields o) st0) as [st | res]
    end; cbn [fs_ctx] in Hloop.
    + rewrite <- Hf, <- Hloop.
      destruct (fs_first st); [destruct (fs_typeNameSkip st);
        [| destruct (negb (ObjectNullable o))] |]; reflexivity.
    + rewrite <- Hf. exact Hloop.
  - match goal with
    | |- context [resolveFields rec o data ?s (Fields o) ?st0] =>
        pose proof (resolveFields_frame o data s (Fields o) st0 Hall) as Hloop;
        destruct (resolveFields rec o data s (Fields o) st0) as [st | res]
    end; cbn [fs_ctx] in Hloop.
    + rewrite <- Hloop.
      destruct (fs_first st); [destruct (fs_typeNameSkip st);
        [| destruct (negb (ObjectNullable o))] |]; reflexivity.
    + exact Hloop.
Qed.

Lemma resolveObject_frame (o : Object) :
  Forall (fun f => KeepsFrame (rec (Value f))) (Fields o) ->
  KeepsFrame (fun ctx => resolveObject r rec ctx o).
Proof.
  intros Hall ctx data objectBuf. unfold resolveObject.
  destruct (negb (length (ObjectPath o) =? 0)%nat);
    [| apply resolveObjectFields_frame; exact Hall].
  destruct (Get data (ObjectPath o)) as [[value t] e].
  destruct (length (slice_bytes value) =? 0)%nat;
    [destruct (ObjectNullable o); reflexivity |].
  apply resolveObjectFields_frame; exact Hall.
Qed.

End LoopsFrame.

Section ArrayFrame.
Variable resolveItem : Context -> bytes -> BufPair -> Result.
Hypothesis resolveItem_frame : KeepsFrame resolveItem.

Lemma resolveArrayItem_frame (array : Array) (i : nat) (item : bytes)
    (st : arrayState) :
  match resolveArrayItem resolveItem array i item st with
  | Continue st' => frame (as_ctx st') = frame (as_ctx st)
  | Return res => frame (ctxOf res) = frame (as_ctx st)
  end.
Proof using resolveItem_frame.
  unfold resolveArrayItem. destruct (beyondInitialBatch array i).
  - cbn [as_ctx]. rewrite preparePatch_enqueued. apply frame_enqueued.
  - pose proof (resolveItem_frame (addIntegerPathElement (as_ctx st) (Z.of_nat i))
                  item (as_itemBuf st)) as Hf.
    destruct (resolveItem _ _ _) as [[c2 itemBuf] err].
    unfold ctxOf in Hf. cbn [fst] in Hf.
    apply (frame_removeLast (as_ctx st) c2 (Itoa (Z.of_nat i))) in Hf.
    destruct err as [e |].
    + destruct (is_errNonNullableFieldValueIsNull e && ArrayNullable array);
        [exact Hf |].
      destruct (is_errTypeNameSkipped e); exact Hf.
    + destruct (MergeBufPairs _ _ _) as [ib ab]. exact Hf.
Qed.

Lemma resolveArrayItems_frame (array : Array) (arrayItems : list bytes) (i : nat)
    (st : arrayState) :
  match resolveArrayItems resolveItem array i arrayItems st with
  | Continue st' => frame (as_ctx st') = frame (as_ctx st)
  | Return res => frame (ctxOf res) = frame (as_ctx st)
  end.
Proof using resolveItem_frame.
  revert i st. induction arrayItems as [| item arrayItems IH]; intros i st.
  - reflexivity.
  - cbn [resolveArrayItems].
    pose proof (resolveArrayItem_frame array i item st) as Hstep.
    destruct (resolveArrayItem resolveItem array i item st) as [st' | res];
      [| exact Hstep].
    specialize (IH (S i) st'). rewrite <- Hstep.
    destruct (resolveArrayItems resolveItem array (S i) arrayItems st'); exact IH.
Qed.

Lemma resolveArray_frame (array : Array) :
  KeepsFrame (fun ctx => resolveArray r resolveItem ctx array).
Proof using resolveItem_frame.
  intros ctx data arrayBuf. unfold resolveArray.
  destruct (bytes_Equal data emptyArray); [reflexivity |].
  destruct (length _ =? 0)%nat; [destruct (negb (ArrayNullable array)); reflexivity |].
  destruct (ResolveAsynchronous array && negb (StreamEnabled (ArrayStream array))).
  - unfold resolveArrayAsynchronous.
    destruct (firstTaskError _ _) as [e |]; [| reflexivity].
    destruct (is_errNonNullableFieldValueIsNull e && ArrayNullable array); reflexivity.
  - unfold resolveArraySynchronous.
    match goal with
    | |- context [resolveArrayItems resolveItem array 0 ?l ?st0] =>
        pose proof (resolveArrayItems_frame array l 0 st0) as Hloop;
        destruct (resolveArrayItems resolveItem array 0 l st0) as [st | res]
    end; exact Hloop.
Qed.

End ArrayFrame.

(** The walk of a plan leaves the frame of the context as it found it. *)
Lemma resolveNode_frame (node : Node) : KeepsFrame (resolveNode r node).
Proof.
  induction node using Node_induction; intros ctx data buf.
  - cbn [resolveNode]. apply resolveObject_frame. assumption.
  - reflexivity.
  - cbn [resolveNode]. apply resolveArray_frame. assumption.
  - reflexivity.
  - cbn [resolveNode]. destruct (DeferEnabled d); reflexivity.
  - cbn [resolveNode]. destruct (resolveString p n data buf). reflexivity.
  - cbn [resolveNode]. destruct (resolveBoolean p n data buf). reflexivity.
  - cbn [resolveNode]. destruct (resolveInteger p n data buf). reflexivity.
  - cbn [resolveNode]. destruct (resolveFloat p n data buf). reflexivity.
Qed.

End WalkFrame.

(** ** The output of a streaming array *)

Lemma nonEmpty_Forall (l : list bytes) : Forall (fun o => o <> []) (nonEmpty l).
Proof.
  apply List.Forall_forall. intros o Hin. apply filter_In in Hin.
  destruct Hin as [_ Hne]. destruct o; [discriminate | discriminate].
Qed.

Lemma mergeItemBufs_errors_joins (bufSlice : list BufPair) (arrayBuf : BufPair)
    (hasPreviousItem : bool) (dataWritten : nat) :
  Errors (mergeItemBufs bufSlice arrayBuf hasPreviousItem dataWritten)
  = writtenOnto (Errors arrayBuf) (nonEmpty (map Errors bufSlice)).
Proof.
  revert arrayBuf hasPreviousItem dataWritten.
  induction bufSlice as [| itemBuf bufSlice IH]; intros arrayBuf hasPreviousItem dataWritten;
    [reflexivity |].
  cbn [mergeItemBufs]. rewrite MergeBufPairs_spec, IH. cbn [Errors map nonEmpty List.filter].
  fold (nonEmpty (map Errors bufSlice)). unfold HasErrors.
  destruct (Errors itemBuf) as [| c e].
  - cbn [length Nat.eqb negb]. rewrite andb_false_r, !app_nil_r. reflexivity.
  - cbn [length Nat.eqb negb]. rewrite andb_true_r. reflexivity.
Qed.

Lemma mergeItemBufs_data_later (bufSlice : list BufPair) (arrayBuf : BufPair)
    (dataWritten : nat) :
  Data (mergeItemBufs bufSlice arrayBuf true dataWritten)
  = Data arrayBuf ++ concat (map (fun d => comma ++ d) (nonEmpty (map Data bufSlice))).
Proof.
  revert arrayBuf dataWritten.
  induction bufSlice as [| itemBuf bufSlice IH]; intros arrayBuf dataWritten.
  - cbn [mergeItemBufs map nonEmpty List.filter concat]. rewrite app_nil_r. reflexivity.
  - cbn [mergeItemBufs]. rewrite MergeBufPairs_spec. cbn [negb andb]. rewrite IH.
    cbn [Data map nonEmpty List.filter]. fold (nonEmpty (map Data bufSlice)).
    unfold HasData. destruct (Data itemBuf) as [| c d].
    + cbn [length Nat.eqb negb]. rewrite !app_nil_r. reflexivity.
    + cbn [length Nat.eqb negb map concat]. rewrite <- !app_assoc. reflexivity.
Qed.

Lemma mergeItemBufs_data_joins (bufSlice : list BufPair) (arrayBuf : BufPair) :
  Data (mergeItemBufs bufSlice arrayBuf false 0)
  = Data arrayBuf ++ bytes_Join (nonEmpty (map Data bufSlice)) comma.
Proof.
  revert arrayBuf. induction bufSlice as [| itemBuf bufSlice IH]; intros arrayBuf.
  - cbn [mergeItemBufs map nonEmpty List.filter bytes_Join]. rewrite app_nil_r. reflexivity.
  - cbn [mergeItemBufs]. rewrite MergeBufPairs_spec. cbn [negb andb Nat.add].
    cbn [map nonEmpty List.filter]. fold (nonEmpty (map Data bufSlice)).
    destruct (Data itemBuf) as [| c d] eqn:Hd.
    + cbn [length Nat.eqb negb]. rewrite IH. cbn [Data]. rewrite !app_nil_r. reflexivity.
    + cbn [length Nat.eqb negb]. rewrite mergeItemBufs_data_later. cbn [Data app].
      rewrite bytes_Join_cons. rewrite <- !app_assoc. reflexivity.
Qed.

Lemma wrapInt_in_range (z : Z) : minInt <= z <= maxInt -> wrapInt z = z.
Proof.
  unfold minInt, maxInt, wrapInt. intros Hz.
  rewrite Z.mod_small by lia. lia.
Qed.

(** At the least [int] the subtraction wraps around and no element is
    beyond the initial batch. *)
Lemma beyondInitialBatch_least (array : Array) (i : nat) :
  InitialBatchSize (ArrayStream array) = minInt ->
  Z.of_nat i <= maxInt ->
  beyondInitialBatch array i = false.
Proof.
  intros Hleast Hi. unfold beyondInitialBatch. rewrite Hleast.
  replace (wrapInt (minInt - 1)) with maxInt by (vm_compute; reflexivity).
  apply andb_false_iff. right. apply Z.ltb_ge. exact Hi.
Qed.

Lemma patches_enqueueStreamed (rest : list bytes) (c : Context) (patchIndex : Z)
    (i : nat) :
  patches (enqueueStreamed c patchIndex i rest)
  = patches c ++ streamedPatches (snd (path c)) patchIndex i rest.
Proof.
  revert c i. induction rest as [| elementBytes rest IH]; intros c i.
  - cbn [enqueueStreamed streamedPatches imap]. rewrite app_nil_r. reflexivity.
  - cbn [enqueueStreamed]. rewrite IH. unfold streamedPatches. cbn [imap enqueued patches].
    rewrite <- app_assoc. cbn [app]. rewrite Nat.add_0_r. f_equal. f_equal.
    apply imap_ext. intros k x _. cbn. f_equal. lia.
Qed.

Section StreamedOutput.
Variable resolveItem : Context -> bytes -> BufPair -> Result.

(** The loop of [resolveArraySynchronous] over elements that are resolved
    inline and return no error. *)
Lemma resolveArrayItems_walk (array : Array) (ctx : Context) (i : nat)
    (items : list bytes) (outs : list BufPair) (ctx' : Context) :
  ItemsWalk resolveItem ctx i items outs ctx' ->
  (forall j, (i <= j < i + length items)%nat -> beyondInitialBatch array j = false) ->
  forall (arrayBuf : BufPair) (hasPreviousItem : bool) (dataWritten : nat),
  exists hasPreviousItem' dataWritten',
    resolveArrayItems resolveItem array i items
      {| as_ctx := ctx; as_arrayBuf := arrayBuf; as_itemBuf := NewBufPair;
         as_hasPreviousItem := hasPreviousItem; as_dataWritten := dataWritten |}
    = Continue
        {| as_ctx := ctx';
           as_arrayBuf := mergeItemBufs outs arrayBuf hasPreviousItem dataWritten;
           as_itemBuf := NewBufPair; as_hasPreviousItem := hasPreviousItem';
           as_dataWritten := dataWritten' |}.
Proof.
  induction 1 as [ctx i | ctx i item items c b outs ctx' Hitem Hwalk IH];
    intros Hinline arrayBuf hasPreviousItem dataWritten.
  - exists hasPreviousItem, dataWritten. reflexivity.
  - cbn [resolveArrayItems mergeItemBufs]. unfold resolveArrayItem.
    rewrite Hinline by (cbn [length]; lia).
    cbn [as_ctx as_itemBuf as_arrayBuf as_hasPreviousItem as_dataWritten].
    unfold addIntegerPathElement. rewrite Hitem. rewrite MergeBufPairs_spec.
    apply IH. intros j Hj. apply Hinline. cbn [length]. lia.
Qed.

Lemma ItemsWalk_frame (ctx : Context) (i : nat) (items : list bytes)
    (outs : list BufPair) (ctx' : Context) :
  KeepsFrame resolveItem ->
  ItemsWalk resolveItem ctx i items outs ctx' -> frame ctx' = frame ctx.
Proof.
  intros Hkeeps. induction 1 as [ctx i | ctx i item items c b outs ctx' Hitem Hwalk IH].
  - reflexivity.
  - rewrite IH. apply (frame_removeLast ctx c (Itoa (Z.of_nat i))).
    pose proof (Hkeeps (addPathElement ctx (Itoa (Z.of_nat i))) item NewBufPair) as Hf.
    unfold addPathElement in Hf at 1. rewrite Hitem in Hf. exact Hf.
Qed.

End StreamedOutput.

Lemma path_frame (c1 c2 : Context) : frame c1 = frame c2 -> snd (path c1) = snd (path c2).
Proof.
  intros Hf. apply frame_inv in Hf. destruct Hf as (_ & _ & Hp & Hx & _ & _).
  unfold path. cbn [snd]. rewrite Hp, Hx. reflexivity.
Qed.



(** ** What the walk reads of the context *)

Section FetchBlind.
Context `{JsonParser} `{TextProto}.
Variable r : Resolver.

Lemma renderSegments_frame (c1 c2 : Context) (data : bytes)
    (segments : list TemplateSegment) (preparedInput : bytes) :
  frame c1 = frame c2 ->
  renderSegments c1 data segments preparedInput
  = renderSegments c2 data segments preparedInput.
Proof.
  intros Hf. apply frame_inv in Hf. destruct Hf as (Hv & Hr & _).
  revert preparedInput. induction segments as [| seg segments IH]; intros preparedInput.
  - reflexivity.
  - cbn [renderSegments].
    destruct (SegmentType seg =? StaticSegmentType); [apply IH |].
    destruct (SegmentType seg =? VariableSegmentType); [| apply IH].
    unfold renderContextVariable, renderHeaderVariable. rewrite Hv, Hr.
    destruct (VariableSource seg =? VariableSourceObject).
    + destruct (renderObjectVariable _ _ _) as [input [e |]]; [reflexivity | apply IH].
    + destruct (VariableSource seg =? VariableSourceContext).
      * match goal with
        | |- context [match ?x with (p, e) => _ end] =>
            destruct x as [input [e |]]; [reflexivity | apply IH]
        end.
      * destruct (VariableSource seg =? VariableSourceRequestHeader).
        -- match goal with
           | |- context [match ?x with (p, e) => _ end] =>
               destruct x as [input [e |]]; [reflexivity | apply IH]
           end.
        -- reflexivity.
Qed.

Lemma prepareSingleFetch_frame (c1 c2 : Context) (fetch : SingleFetch) (data : bytes)
    (set : resultSet) (preparedInput : bytes) :
  frame c1 = frame c2 ->
  prepareSingleFetch c1 fetch data set preparedInput
  = prepareSingleFetch c2 fetch data set preparedInput.
Proof.
  intros Hf. unfold prepareSingleFetch, Render.
  rewrite (renderSegments_frame c1 c2) by exact Hf. reflexivity.
Qed.

Lemma prepareFetches_frame (c1 c2 : Context) (fetches : list SingleFetch)
    (data : bytes) (set : resultSet) (preparedInputs : list bytes) :
  frame c1 = frame c2 ->
  prepareFetches c1 fetches data set preparedInputs
  = prepareFetches c2 fetches data set preparedInputs.
Proof.
  intros Hf. revert set preparedInputs.
  induction fetches as [| f fetches IH]; intros set preparedInputs; [reflexivity |].
  cbn [prepareFetches]. rewrite (prepareSingleFetch_frame c1 c2) by exact Hf.
  destruct (prepareSingleFetch c2 f data set []) as [[set' input] [e |]];
    [reflexivity | apply IH].
Qed.

(** A single fetch writes the same bytes and returns the same error from
    whatever context. *)
Lemma resolveSingleFetch_blind (c1 c2 : Context) (fetch : SingleFetch)
    (preparedInput : bytes) (buf : BufPair) :
  bufOf (resolveSingleFetch r c1 fetch preparedInput buf)
  = bufOf (resolveSingleFetch r c2 fetch preparedInput buf)
  /\ errOf (resolveSingleFetch r c1 fetch preparedInput buf)
     = errOf (resolveSingleFetch r c2 fetch preparedInput buf).
Proof.
  unfold resolveSingleFetch, bufOf, errOf.
  destruct (negb (EnableSingleFlightLoader r) || DisallowSingleFlight fetch);
    destruct (Load (dataSource fetch) preparedInput) as [dataBuf err].
  - split; reflexivity.
  - destruct (HasData _), (HasErrors _); split; reflexivity.
Qed.

Lemma runFetches_blind (fetches : list SingleFetch) (preparedInputs : list bytes)
    (c1 c2 : Context) (set : resultSet) :
  snd (runFetches r c1 fetches preparedInputs set)
  = snd (runFetches r c2 fetches preparedInputs set).
Proof.
  revert preparedInputs c1 c2 set.
  induction fetches as [| f fetches IH]; intros [| input inputs] c1 c2 set;
    try reflexivity.
  cbn [runFetches].
  pose proof (resolveSingleFetch_blind c1 c2 f input
                (default NewBufPair (buffers set !! BufferId f))) as [Hb _].
  destruct (resolveSingleFetch r c1 f input _) as [[c1' buf1] e1].
  destruct (resolveSingleFetch r c2 f input _) as [[c2' buf2] e2].
  unfold bufOf in Hb. cbn [fst snd] in Hb. subst buf2. apply IH.
Qed.

(** A fetch fills the result set and returns its error as a function of
    the frame of the context. *)
Lemma resolveFetch_blind (c1 c2 : Context) (fetch : Fetch) (data : bytes)
    (set : resultSet) :
  frame c1 = frame c2 ->
  snd (fst (resolveFetch r c1 fetch data set))
  = snd (fst (resolveFetch r c2 fetch data set))
  /\ snd (resolveFetch r c1 fetch data set) = snd (resolveFetch r c2 fetch data set).
Proof.
  intros Hf. unfold resolveFetch. destruct fetch as [f | fetches].
  - rewrite (prepareSingleFetch_frame c1 c2) by exact Hf.
    destruct (prepareSingleFetch c2 f data set []) as [[set' input] [e |]];
      [split; reflexivity |].
    pose proof (resolveSingleFetch_blind c1 c2 f input
                  (default NewBufPair (buffers set' !! BufferId f))) as [Hb He].
    destruct (resolveSingleFetch r c1 f input _) as [[c1' buf1] e1].
    destruct (resolveSingleFetch r c2 f input _) as [[c2' buf2] e2].
    unfold bufOf, errOf in Hb, He. cbn [fst snd] in *. subst. split; reflexivity.
  - rewrite (prepareFetches_frame c1 c2) by exact Hf.
    destruct (prepareFetches c2 fetches data set []) as [[set' inputs] [e |]];
      [split; reflexivity |].
    pose proof (runFetches_blind fetches inputs c1 c2 set') as Hs.
    destruct (runFetches r c1 fetches inputs set') as [c1' s1].
    destruct (runFetches r c2 fetches inputs set') as [c2' s2].
    cbn [fst snd] in *. subst. split; reflexivity.
Qed.

End FetchBlind.

Lemma Data_addResolveError (c : Context) (b : BufPair) :
  Data (addResolveError c b) = Data b.
Proof. unfold addResolveError. cbv zeta. rewrite WriteErr_spec. reflexivity. Qed.

Lemma addResolveError_frame (c1 c2 : Context) (b : BufPair) :
  frame c1 = frame c2 -> position c1 = position c2 ->
  addResolveError c1 b = addResolveError c2 b.
Proof.
  intros Hf Hp. apply frame_inv in Hf. destruct Hf as (_ & _ & He & _).
  unfold addResolveError. rewrite Hp, He. reflexivity.
Qed.

Lemma frame_removeLast_agree (c1 c2 : Context) :
  frame c1 = frame c2 ->
  frame (removeLastPathElement c1) = frame (removeLastPathElement c2).
Proof.
  intros Hf. apply frame_inv in Hf. destruct Hf as (Hv & Hr & Hp & Hx & Hb & Ha).
  unfold frame, removeLastPathElement. cbn [Variables request pathElements pathPrefix
    beforeFetchHook afterFetchHook set_pathElements].
  rewrite Hv, Hr, Hp, Hx, Hb, Ha. reflexivity.
Qed.

Lemma frame_addPathElement_agree (c1 c2 : Context) (elem : bytes) :
  frame c1 = frame c2 ->
  frame (addPathElement c1 elem) = frame (addPathElement c2 elem).
Proof.
  intros Hf. apply frame_inv in Hf. destruct Hf as (Hv & Hr & Hp & Hx & Hb & Ha).
  unfold frame, addPathElement. cbn [Variables request pathElements pathPrefix
    beforeFetchHook afterFetchHook set_pathElements].
  rewrite Hv, Hr, Hp, Hx, Hb, Ha. reflexivity.
Qed.

Lemma Agree_same (samePosition : Prop) (c1 c2 : Context) (b : BufPair)
    (e : option error) :
  frame c1 = frame c2 -> (samePosition -> position c1 = position c2) ->
  Agree samePosition (c1, b, e) (c2, b, e).
Proof. intros Hf Hp. repeat split; auto. Qed.

Lemma Agree_addResolveError (samePosition : Prop) (c1 c2 : Context) (b : BufPair) :
  frame c1 = frame c2 -> (samePosition -> position c1 = position c2) ->
  Agree samePosition
    (c1, addResolveError c1 b, Some errNonNullableFieldValueIsNull)
    (c2, addResolveError c2 b, Some errNonNullableFieldValueIsNull).
Proof.
  intros Hf Hp. unfold Agree, errOf, ctxOf, bufOf. cbn [fst snd].
  repeat split; auto.
  - rewrite !Data_addResolveError. reflexivity.
  - intros [Hs | [Hn | Hn]]; try discriminate.
    rewrite (addResolveError_frame c1 c2) by auto. reflexivity.
Qed.

Lemma AgreeFully_Agree (samePosition : Prop) (res1 res2 : Result) :
  AgreeFully res1 res2 -> Agree samePosition res1 res2.
Proof.
  intros (He & Hf & Hb & Hp). unfold Agree. rewrite Hb. repeat split; auto.
Qed.

(** Started at the same position, two walks that agree are equal but for
    the patch queue and the leased buffers. *)
Lemma Agree_fully (samePosition : Prop) (res1 res2 : Result) :
  samePosition -> Agree samePosition res1 res2 -> AgreeFully res1 res2.
Proof.
  intros Hs (He & Hf & Hd & Herr & Hp). repeat split; auto.
  apply BufPair_eq; auto.
Qed.

Ltac agree :=
  unfold AgreeFully, ReturnsAgree, FieldsAgree, ItemsAgree, ctxOf, bufOf, errOf;
  cbn [fst snd fs_ctx fs_objectBuf fs_fieldBuf fs_typeNameSkip fs_first
       as_ctx as_arrayBuf as_itemBuf as_hasPreviousItem as_dataWritten];
  rewrite ?position_removeLast;
  repeat split;
  auto using frame_removeLast_agree.

Section WalkBlind.
Context `{JsonParser} `{TextProto}.
Variable r : Resolver.

Section LoopsBlind.
Variable rec : Node -> Context -> bytes -> BufPair -> Result.

Lemma resolveField_blind (samePosition : Prop) (o : Object) (data : bytes)
    (set : option resultSet) (f : Field) (st1 st2 : fieldsState) :
  PositionBlind (rec (Value f)) ->
  FieldsAgree samePosition st1 st2 ->
  FlowAgree (FieldsAgree samePosition) AgreeFully
    (resolveField rec o data set f st1) (resolveField rec o data set f st2).
Proof.
  intros Hrec (Hf & Hob & Hfb & Hsk & Hfi & Hpos). unfold resolveField.
  destruct (typeNameMismatch (fieldDataOf set data f) f).
  { cbn [FlowAgree]. agree. }
  cbv zeta. rewrite <- Hob, <- Hfb, <- Hfi.
  assert (HA : AgreeFully
    (rec (Value f) (setPosition (addPathElement (fs_ctx st1) (Name f)) (fieldPosition f))
       (fieldDataOf set data f) (fs_fieldBuf st1))
    (rec (Value f) (setPosition (addPathElement (fs_ctx st2) (Name f)) (fieldPosition f))
       (fieldDataOf set data f) (fs_fieldBuf st1))).
  { eapply Agree_fully; [| apply Hrec].
    - reflexivity.
    - rewrite !frame_setPosition. apply frame_addPathElement_agree. exact Hf. }
  destruct (rec (Value f) (setPosition (addPathElement (fs_ctx st1) _) _) _ _)
    as [[c1 b1] e1].
  destruct (rec (Value f) (setPosition (addPathElement (fs_ctx st2) _) _) _ _)
    as [[c2 b2] e2].
  destruct HA as (He & Hfr & Hb & Hp). unfold errOf, ctxOf, bufOf in *.
  cbn [fst snd] in *. subst e2 b2.
  destruct e1 as [e |].
  - destruct (is_errTypeNameSkipped e); [cbn [FlowAgree]; agree |].
    destruct (is_errNonNullableFieldValueIsNull e); [| cbn [FlowAgree]; agree].
    destruct (MergeBufPairErrors _ _) as [fb ob].
    destruct (ObjectNullable o); [cbn [FlowAgree]; agree |].
    rewrite (addResolveError_frame (removeLastPathElement c1) (removeLastPathElement c2))
      by (rewrite ?position_removeLast; auto using frame_removeLast_agree).
    cbn [FlowAgree]. agree.
  - destruct (MergeBufPairs _ _ _) as [fb ob]. cbn [FlowAgree]. agree.
Qed.

Lemma resolveFields_blind (samePosition : Prop) (o : Object) (data : bytes)
    (set : option resultSet) (fields : list Field) (st1 st2 : fieldsState) :
  Forall (fun f => PositionBlind (rec (Value f))) fields ->
  FieldsAgree samePosition st1 st2 ->
  FlowAgree (FieldsAgree samePosition) AgreeFully
    (resolveFields rec o data set fields st1) (resolveFields rec o data set fields st2).
Proof.
  intros Hall. revert st1 st2. induction Hall as [| f fields Hf _ IH]; intros st1 st2 Hst.
  - exact Hst.
  - cbn [resolveFields].
    pose proof (resolveField_blind samePosition o data set f st1 st2 Hf Hst) as Hstep.
    destruct (resolveField rec o data set f st1) as [st1' | res1],
             (resolveField rec o data set f st2) as [st2' | res2];
      cbn [FlowAgree] in Hstep; try contradiction.
    + apply IH. exact Hstep.
    + exact Hstep.
Qed.

(** The end of [resolveObject], after the loop over the fields. *)
Lemma resolveObject_end_blind (samePosition : Prop) (o : Object)
    (st1 st2 : fieldsState) :
  FieldsAgree samePosition st1 st2 ->
  Agree samePosition
    (if fs_first st1 then
       if fs_typeNameSkip st1 then (fs_ctx st1, fs_objectBuf st1, Some errTypeNameSkipped)
       else if negb (ObjectNullable o) then
         (fs_ctx st1, addResolveError (fs_ctx st1) (fs_objectBuf st1),
          Some errNonNullableFieldValueIsNull)
       else (fs_ctx st1, resolveNull (fs_objectBuf st1), None)
     else (fs_ctx st1, Data_WriteBytes (fs_objectBuf st1) rBrace, None))
    (if fs_first st2 then
       if fs_typeNameSkip st2 then (fs_ctx st2, fs_objectBuf st2, Some errTypeNameSkipped)
       else if negb (ObjectNullable o) then
         (fs_ctx st2, addResolveError (fs_ctx st2) (fs_objectBuf st2),
          Some errNonNullableFieldValueIsNull)
       else (fs_ctx st2, resolveNull (fs_objectBuf st2), None)
     else (fs_ctx st2, Data_WriteBytes (fs_objectBuf st2) rBrace, None)).
Proof.
  intros (Hf & Hob & Hfb & Hsk & Hfi & Hpos). rewrite <- Hob, <- Hsk, <- Hfi.
  destruct (fs_first st1).
  - destruct (fs_typeNameSkip st1); [apply Agree_same; auto |].
    destruct (negb (ObjectNullable o));
      [apply Agree_addResolveError; auto | apply Agree_same; auto].
  - apply Agree_same; auto.
Qed.

Lemma resolveObjectFields_blind (o : Object) (c1 c2 : Context) (data : bytes)
    (objectBuf : BufPair) :
  Forall (fun f => PositionBlind (rec (Value f))) (Fields o) ->
  frame c1 = frame c2 ->
  Agree (position c1 = position c2)
    (resolveObjectFields r rec c1 o data objectBuf)
    (resolveObjectFields r rec c2 o data objectBuf).
Proof.
  intros Hall Hf. unfold resolveObjectFields.
  assert (Hloop : forall c1' c2' set objectBuf',
    frame c1' = frame c2' ->
    (position c1 = position c2 -> position c1' = position c2') ->
    Agree (position c1 = position c2)
      match resolveFields rec o data set (Fields o)
              {| fs_ctx := c1'; fs_objectBuf := objectBuf'; fs_fieldBuf := NewBufPair;
                 fs_typeNameSkip := false; fs_first := true |} with
      | Return res => res
      | Continue st =>
          if fs_first st then
            if fs_typeNameSkip st then (fs_ctx st, fs_objectBuf st, Some errTypeNameSkipped)
            else if negb (ObjectNullable o) then
              (fs_ctx st, addResolveError (fs_ctx st) (fs_objectBuf st),
               Some errNonNullableFieldValueIsNull)
            else (fs_ctx st, resolveNull (fs_objectBuf st), None)
          else (fs_ctx st, Data_WriteBytes (fs_objectBuf st) rBrace, None)
      end
      match resolveFields rec o data set (Fields o)
              {| fs_ctx := c2'; fs_objectBuf := objectBuf'; fs_fieldBuf := NewBufPair;
                 fs_typeNameSkip := false; fs_first := true |} with
      | Return res => res
      | Continue st =>
          if fs_first st then
            if fs_typeNameSkip st then (fs_ctx st, fs_objectBuf st, Some errTypeNameSkipped)
            else if negb (ObjectNullable o) then
              (fs_ctx st, addResolveError (fs_ctx st) (fs_objectBuf st),
               Some errNonNullableFieldValueIsNull)
            else (fs_ctx st, resolveNull (fs_objectBuf st), None)
          else (fs_ctx st, Data_WriteBytes (fs_objectBuf st) rBrace, None)
      end).
  { intros c1' c2' set objectBuf' Hf' Hp'.
    match goal with
    | |- context [resolveFields rec o data set (Fields o) ?s1] =>
        match goal with
        | |- context [resolveFields rec o data set (Fields o) ?s2] =>
            lazymatch s1 with
            | s2 => fail
            | _ =>
                pose proof (resolveFields_blind (position c1 = position c2) o data set
                              (Fields o) s1 s2 Hall) as Hflow
            end
        end
    end.
    match type of Hflow with
    | ?A -> _ => assert (Hst : A) by (agree; intros [Hs | Hd]; [auto | discriminate]);
                 specialize (Hflow Hst)
    end.
    destruct (resolveFields rec o data set (Fields o) _) as [st1 | res1],
             (resolveFields rec o data set (Fields o) _) as [st2 | res2];
      cbn [FlowAgree] in Hflow; try contradiction.
    - apply resolveObject_end_blind. exact Hflow.
    - apply AgreeFully_Agree. exact Hflow. }
  destruct (ObjectFetch o) as [fetch |].
  - pose proof (resolveFetch_blind r c1 c2 fetch data {| buffers := ∅ |} Hf) as [Hs He].
    pose proof (resolveFetch_frame r c1 fetch data {| buffers := ∅ |}) as [Hf1 Hp1].
    pose proof (resolveFetch_frame r c2 fetch data {| buffers := ∅ |}) as [Hf2 Hp2].
    destruct (resolveFetch r c1 fetch data _) as [[c1' set1] e1].
    destruct (resolveFetch r c2 fetch data _) as [[c2' set2] e2].
    cbn [fst snd] in *. subst set2 e2.
    assert (Hf' : frame c1' = frame c2') by congruence.
    assert (Hp' : position c1 = position c2 -> position c1' = position c2') by congruence.
    destruct e1 as [e |]; [apply Agree_same; auto |].
    destruct (mergeFetchErrors set1 objectBuf) as [set' objectBuf'].
    apply Hloop; auto.
  - apply Hloop; auto.
Qed.

Lemma resolveObject_blind (o : Object) :
  Forall (fun f => PositionBlind (rec (Value f))) (Fields o) ->
  PositionBlind (fun ctx => resolveObject r rec ctx o).
Proof.
  intros Hall c1 c2 data objectBuf Hf. unfold resolveObject.
  destruct (negb (length (ObjectPath o) =? 0)%nat);
    [| apply resolveObjectFields_blind; assumption].
  destruct (Get data (ObjectPath o)) as [[value t] e].
  destruct (length (slice_bytes value) =? 0)%nat;
    [| apply resolveObjectFields_blind; assumption].
  destruct (ObjectNullable o);
    [apply Agree_same; auto | apply Agree_addResolveError; auto].
Qed.

End LoopsBlind.
End WalkBlind.

Lemma is_errTypeNameSkipped_true (e : error) :
  is_errTypeNameSkipped e = true -> e = errTypeNameSkipped.
Proof. destruct e; try discriminate; reflexivity. Qed.

Lemma is_errNonNullableFieldValueIsNull_true (e : error) :
  is_errNonNullableFieldValueIsNull e = true -> e = errNonNullableFieldValueIsNull.
Proof. destruct e; try discriminate; reflexivity. Qed.

Lemma map_imap_ext {A B C : Type} (f1 f2 : nat -> A -> B) (g : B -> C) (l : list A) :
  (forall j x, l !! j = Some x -> g (f1 j x) = g (f2 j x)) ->
  map g (imap f1 l) = map g (imap f2 l).
Proof.
  revert f1 f2. induction l as [| x l IH]; intros f1 f2 Hext; [reflexivity |].
  cbn [imap map]. f_equal.
  - apply (Hext 0%nat x). reflexivity.
  - apply IH. intros j y Hj. apply (Hext (S j) y). exact Hj.
Qed.

Lemma firstTaskError_agree (order : list nat) (tasks1 tasks2 : list Result) :
  (forall i, errOf <$> tasks1 !! i = errOf <$> tasks2 !! i) ->
  firstTaskError order tasks1 = firstTaskError order tasks2.
Proof.
  intros Hext. induction order as [| i order IH]; [reflexivity |].
  cbn [firstTaskError]. specialize (Hext i).
  destruct (tasks1 !! i) as [[[c1 b1] e1] |], (tasks2 !! i) as [[[c2 b2] e2] |];
    cbn in Hext; try discriminate; [| exact IH].
  injection Hext as ->. destruct e2 as [e |]; [| exact IH].
  destruct (negb (is_errTypeNameSkipped e)); [reflexivity | exact IH].
Qed.

Lemma firstTaskError_None (order : list nat) (tasks : list Result) :
  firstTaskError order tasks = None ->
  forall i t, In i order -> tasks !! i = Some t -> benign (errOf t).
Proof.
  induction order as [| j order IH]; intros Hnone i t Hin Ht; [contradiction |].
  cbn [firstTaskError] in Hnone. unfold Result in *. destruct Hin as [-> | Hin].
  - rewrite Ht in Hnone. destruct t as [[c b] [e |]]; [| left; reflexivity].
    destruct (is_errTypeNameSkipped e) eqn:Hskip; [| discriminate].
    right. unfold errOf. cbn [snd]. f_equal. apply is_errTypeNameSkipped_true. exact Hskip.
  - apply (IH) with (i := i); auto.
    destruct (tasks !! j) as [[[c b] [e |]] |]; auto.
    destruct (negb (is_errTypeNameSkipped e)); [discriminate | exact Hnone].
Qed.

Section ArraysBlind.
Context `{JsonParser} `{TextProto}.
Variable r : Resolver.
Variable resolveItem : Context -> bytes -> BufPair -> Result.
Hypothesis resolveItem_blind : PositionBlind resolveItem.

Lemma resolveArrayItem_blind (samePosition : Prop) (array : Array) (i : nat)
    (item : bytes) (st1 st2 : arrayState) :
  ItemsAgree samePosition st1 st2 ->
  FlowAgree (ItemsAgree samePosition) (ReturnsAgree samePosition)
    (resolveArrayItem resolveItem array i item st1)
    (resolveArrayItem resolveItem array i item st2).
Proof using resolveItem_blind.
  intros (Hf & Hab & Hib & Hhp & Hdw & Hpos). unfold resolveArrayItem.
  destruct (beyondInitialBatch array i).
  { cbn [FlowAgree]. rewrite !preparePatch_enqueued. agree. }
  rewrite <- Hab, <- Hib, <- Hhp, <- Hdw.
  pose proof (resolveItem_blind (addIntegerPathElement (as_ctx st1) (Z.of_nat i))
                (addIntegerPathElement (as_ctx st2) (Z.of_nat i)) item (as_itemBuf st1)
                (frame_addPathElement_agree _ _ _ Hf)) as HA.
  destruct (resolveItem (addIntegerPathElement (as_ctx st1) _) _ _) as [[c1 b1] e1].
  destruct (resolveItem (addIntegerPathElement (as_ctx st2) _) _ _) as [[c2 b2] e2].
  destruct HA as (He & Hfr & Hd & Herr & Hp). unfold errOf, ctxOf, bufOf in *.
  cbn [fst snd] in *. subst e2.
  assert (Hp' : samePosition -> position c1 = position c2) by auto.
  destruct e1 as [e |].
  - destruct (is_errNonNullableFieldValueIsNull e && ArrayNullable array);
      [cbn [FlowAgree]; agree |].
    destruct (is_errTypeNameSkipped e) eqn:Hskip; [| cbn [FlowAgree]; agree].
    apply is_errTypeNameSkipped_true in Hskip. subst e.
    assert (b1 = b2) as -> by (apply BufPair_eq; [| apply Herr; right; right]; auto).
    cbn [FlowAgree]. agree.
  - assert (b1 = b2) as -> by (apply BufPair_eq; [| apply Herr; right; left]; auto).
    destruct (MergeBufPairs _ _ _) as [ib ab]. cbn [FlowAgree]. agree.
Qed.

Lemma resolveArrayItems_blind (samePosition : Prop) (array : Array)
    (arrayItems : list bytes) (i : nat) (st1 st2 : arrayState) :
  ItemsAgree samePosition st1 st2 ->
  FlowAgree (ItemsAgree samePosition) (ReturnsAgree samePosition)
    (resolveArrayItems resolveItem array i arrayItems st1)
    (resolveArrayItems resolveItem array i arrayItems st2).
Proof using resolveItem_blind.
  revert i st1 st2. induction arrayItems as [| item arrayItems IH]; intros i st1 st2 Hst.
  - exact Hst.
  - cbn [resolveArrayItems].
    pose proof (resolveArrayItem_blind samePosition array i item st1 st2 Hst) as Hstep.
    destruct (resolveArrayItem resolveItem array i item st1) as [st1' | res1],
             (resolveArrayItem resolveItem array i item st2) as [st2' | res2];
      cbn [FlowAgree] in Hstep; try contradiction.
    + apply IH. exact Hstep.
    + exact Hstep.
Qed.

Lemma ReturnsAgree_Agree (samePosition : Prop) (res1 res2 : Result) :
  ReturnsAgree samePosition res1 res2 -> Agree samePosition res1 res2.
Proof.
  intros (He & Hf & Hb & Hp). unfold Agree. rewrite Hb. repeat split; auto.
Qed.

Lemma resolveArraySynchronous_blind (array : Array) (arrayItems : list bytes)
    (c1 c2 : Context) (arrayBuf : BufPair) :
  frame c1 = frame c2 ->
  Agree (position c1 = position c2)
    (resolveArraySynchronous resolveItem c1 array arrayItems arrayBuf)
    (resolveArraySynchronous resolveItem c2 array arrayItems arrayBuf).
Proof using resolveItem_blind.
  intros Hf. unfold resolveArraySynchronous.
  match goal with
  | |- Agree _ (match resolveArrayItems _ _ _ _ ?s1 with _ => _ end)
               (match resolveArrayItems _ _ _ _ ?s2 with _ => _ end) =>
      pose proof (resolveArrayItems_blind (position c1 = position c2) array arrayItems
                    0 s1 s2) as Hflow
  end.
  match type of Hflow with
  | ?A -> _ => assert (Hst : A) by agree; specialize (Hflow Hst)
  end.
  destruct (resolveArrayItems resolveItem array 0 arrayItems _) as [st1 | res1],
           (resolveArrayItems resolveItem array 0 arrayItems _) as [st2 | res2];
    cbn [FlowAgree] in Hflow; try contradiction.
  - destruct Hflow as (Hf' & Hab & _ & _ & _ & Hp). rewrite Hab.
    apply Agree_same; auto.
  - apply ReturnsAgree_Agree. exact Hflow.
Qed.

Lemma elementTask_blind (c1 c2 : Context) (i : nat) (item : bytes) :
  frame c1 = frame c2 ->
  Agree (position c1 = position c2)
    (elementTask resolveItem c1 i item) (elementTask resolveItem c2 i item).
Proof using resolveItem_blind.
  intros Hf. unfold elementTask.
  apply (resolveItem_blind (addPathElement (Clone c1) _) (addPathElement (Clone c2) _)).
  apply frame_addPathElement_agree. exact Hf.
Qed.

Lemma resolveArrayAsynchronous_blind (array : Array) (arrayItems : list bytes)
    (order : list nat) (c1 c2 : Context) (arrayBuf : BufPair) :
  Permutation order (seq 0 (length arrayItems)) ->
  frame c1 = frame c2 ->
  Agree (position c1 = position c2)
    (resolveArrayAsynchronous resolveItem c1 array arrayItems arrayBuf order)
    (resolveArrayAsynchronous resolveItem c2 array arrayItems arrayBuf order).
Proof using resolveItem_blind.
  intros Hperm Hf. unfold resolveArrayAsynchronous.
  assert (Herr : firstTaskError order (imap (elementTask resolveItem c1) arrayItems)
                 = firstTaskError order (imap (elementTask resolveItem c2) arrayItems)).
  { apply firstTaskError_agree. intros i. rewrite !list_lookup_imap.
    destruct (arrayItems !! i) as [item |]; [| reflexivity]. cbn. f_equal.
    apply (elementTask_blind c1 c2 i item Hf). }
  rewrite <- Herr.
  destruct (firstTaskError order (imap (elementTask resolveItem c1) arrayItems))
    as [e |] eqn:Hfirst.
  - destruct (is_errNonNullableFieldValueIsNull e && ArrayNullable array);
      apply Agree_same; auto.
  - rewrite (map_imap_ext (elementTask resolveItem c1) (elementTask resolveItem c2) bufOf).
    + apply Agree_same; auto.
    + intros j item Hj.
      pose proof (elementTask_blind c1 c2 j item Hf) as (_ & _ & Hd & Herrs & _).
      apply BufPair_eq; [exact Hd |]. apply Herrs. right.
      apply (firstTaskError_None order _ Hfirst j).
      * apply (Permutation_in _ (Permutation_sym Hperm)). apply in_seq.
        apply lookup_lt_Some in Hj. lia.
      * rewrite list_lookup_imap, Hj. reflexivity.
Qed.

Lemma resolveArray_blind (array : Array) :
  WellScheduled r ->
  PositionBlind (fun ctx => resolveArray r resolveItem ctx array).
Proof using resolveItem_blind.
  intros Hsched c1 c2 data arrayBuf Hf. unfold resolveArray.
  destruct (bytes_Equal data emptyArray); [apply Agree_same; auto |].
  destruct (length _ =? 0)%nat;
    [destruct (negb (ArrayNullable array)); apply Agree_same; auto |].
  destruct (ResolveAsynchronous array && negb (StreamEnabled (ArrayStream array))).
  - pose proof (frame_inv c1 c2 Hf) as (_ & _ & Hp & _). rewrite <- Hp.
    apply resolveArrayAsynchronous_blind; [| exact Hf].
    apply Hsched.
  - apply resolveArraySynchronous_blind. exact Hf.
Qed.

End ArraysBlind.

(** Two walks of a plan from contexts of one frame agree: the results
    differ at most by the position given to a resolve error that the walk
    returns with. *)
Lemma resolveNode_blind `{JsonParser} `{TextProto} (r : Resolver) (node : Node) :
  WellScheduled r -> PositionBlind (resolveNode r node).
Proof.
  intros Hsched. induction node using Node_induction; intros c1 c2 data buf Hf.
  - cbn [resolveNode]. apply resolveObject_blind; assumption.
  - apply Agree_same; auto.
  - cbn [resolveNode]. apply resolveArray_blind; assumption.
  - apply Agree_same; auto.
  - cbn [resolveNode]. destruct (DeferEnabled d); apply Agree_same; auto.
  - cbn [resolveNode]. destruct (resolveString p n data buf). apply Agree_same; auto.
  - cbn [resolveNode]. destruct (resolveBoolean p n data buf). apply Agree_same; auto.
  - cbn [resolveNode]. destruct (resolveInteger p n data buf). apply Agree_same; auto.
  - cbn [resolveNode]. destruct (resolveFloat p n data buf). apply Agree_same; auto.
Qed.

(** ** Asynchronous arrays *)

Lemma firstTaskError_no_error (order : list nat) (tasks : list Result) :
  (forall i t, tasks !! i = Some t -> errOf t = None) ->
  firstTaskError order tasks = None.
Proof.
  intros Hnone. induction order as [| i order IH]; [reflexivity |].
  cbn [firstTaskError]. unfold Result in *.
  destruct (tasks !! i) as [[[c b] e] |] eqn:Hi; [| exact IH].
  specialize (Hnone i _ Hi). unfold errOf in Hnone. cbn [snd] in Hnone. subst e.
  exact IH.
Qed.

Section AsynchronousArrays.
Variable resolveItem : Context -> bytes -> BufPair -> Result.
Hypothesis resolveItem_frame : KeepsFrame resolveItem.
Hypothesis resolveItem_blind : PositionBlind resolveItem.

(** The synchronous loop over elements whose tasks all return without
    error merges, one by one, the buffer pairs of these tasks. *)
Lemma resolveArrayItems_merges (array : Array) (ctx : Context) (l : list bytes)
    (k : nat) (st : arrayState) :
  StreamEnabled (ArrayStream array) = false ->
  frame (as_ctx st) = frame ctx ->
  as_itemBuf st = NewBufPair ->
  (forall j item, l !! j = Some item ->
     errOf (elementTask resolveItem ctx (k + j) item) = None) ->
  exists st',
    resolveArrayItems resolveItem array k l st = Continue st'
    /\ as_arrayBuf st'
       = mergeItemBufs
           (map bufOf (imap (fun j => elementTask resolveItem ctx (k + j)) l))
           (as_arrayBuf st) (as_hasPreviousItem st) (as_dataWritten st).
Proof using resolveItem_frame resolveItem_blind.
  intros Hstream. revert k st.
  induction l as [| item l IH]; intros k st Hf Hib Hnone.
  - exists st. split; reflexivity.
  - cbn [resolveArrayItems]. unfold resolveArrayItem at 1.
    unfold beyondInitialBatch. rewrite Hstream. cbn [andb].
    pose proof (Hnone 0%nat item eq_refl) as Htask. rewrite Nat.add_0_r in Htask.
    pose proof (resolveItem_blind (addIntegerPathElement (as_ctx st) (Z.of_nat k))
                  (addPathElement (Clone ctx) (Itoa (Z.of_nat k))) item NewBufPair
                  (frame_addPathElement_agree (as_ctx st) (Clone ctx) _ Hf))
      as (He & _ & Hd & Herr & _).
    pose proof (resolveItem_frame (addIntegerPathElement (as_ctx st) (Z.of_nat k))
                  item NewBufPair) as Hkeep.
    rewrite Hib.
    fold (elementTask resolveItem ctx k item) in He, Hd, Herr.
    destruct (resolveItem (addIntegerPathElement (as_ctx st) (Z.of_nat k)) item NewBufPair)
      as [[c' b'] e'].
    unfold errOf, bufOf, ctxOf in He, Hd, Herr, Hkeep. cbn [fst snd] in He, Hd, Herr, Hkeep.
    unfold errOf in Htask. rewrite Htask in He. subst e'.
    assert (Hb : b' = bufOf (elementTask resolveItem ctx k item)).
    { apply BufPair_eq; [exact Hd |]. apply Herr. right. left. reflexivity. }
    rewrite MergeBufPairs_spec.
    match goal with
    | |- context [resolveArrayItems resolveItem array (S k) l ?st1] =>
        destruct (IH (S k) st1) as [st' [Hloop Hbuf]]
    end.
    + cbn [as_ctx]. rewrite <- Hf.
      apply (frame_removeLast (as_ctx st) c' (Itoa (Z.of_nat k))). exact Hkeep.
    + reflexivity.
    + intros j item' Hj. replace (S k + j)%nat with (k + S j)%nat by lia.
      apply Hnone. exact Hj.
    + exists st'. split; [exact Hloop |]. rewrite Hbuf.
      cbn [as_arrayBuf as_hasPreviousItem as_dataWritten imap map mergeItemBufs].
      rewrite Nat.add_0_r. rewrite <- Hb. rewrite MergeBufPairs_spec.
      rewrite (imap_ext (fun j => elementTask resolveItem ctx (S k + j))
                 ((fun j => elementTask resolveItem ctx (k + j)) ∘ S) l).
      * reflexivity.
      * intros j x _. cbn. f_equal. lia.
Qed.

Lemma resolveArrayAsynchronous_merges (array : Array) (ctx : Context)
    (arrayItems : list bytes) (arrayBuf : BufPair) (order : list nat) :
  StreamEnabled (ArrayStream array) = false ->
  (forall i item, arrayItems !! i = Some item ->
     errOf (elementTask resolveItem ctx i item) = None) ->
  bufOf (resolveArrayAsynchronous resolveItem ctx array arrayItems arrayBuf order)
  = bufOf (resolveArraySynchronous resolveItem ctx array arrayItems arrayBuf)
  /\ errOf (resolveArrayAsynchronous resolveItem ctx array arrayItems arrayBuf order) = None
  /\ errOf (resolveArraySynchronous resolveItem ctx array arrayItems arrayBuf) = None.
Proof using resolveItem_frame resolveItem_blind.
  intros Hstream Hnone. unfold resolveArrayAsynchronous, resolveArraySynchronous.
  rewrite firstTaskError_no_error.
  2: { intros i t Ht. rewrite list_lookup_imap in Ht.
       destruct (arrayItems !! i) as [item |] eqn:Hi; [| discriminate].
       cbn in Ht. injection Ht as <-. apply Hnone. exact Hi. }
  match goal with
  | |- context [resolveArrayItems resolveItem array 0 arrayItems ?st0] =>
      destruct (resolveArrayItems_merges array ctx arrayItems 0 st0 Hstream
                  eq_refl eq_refl Hnone) as [st' [Hloop Hbuf]]
  end.
  rewrite Hloop. unfold bufOf, errOf. cbn [fst snd].
  rewrite Hbuf. cbn [as_arrayBuf as_hasPreviousItem as_dataWritten].
  repeat split; reflexivity.
Qed.

End AsynchronousArrays.




(** ** Null propagation *)

Lemma addResolveError_spec (ctx : Context) (b : BufPair) :
  addResolveError ctx b
  = {| Data := Data b;
       Errors := Errors b ++ (if HasErrors b then comma else [])
                 ++ unableToResolveError (position ctx) (pathElements ctx) |}.
Proof.
  unfold addResolveError. cbv zeta. rewrite WriteErr_spec.
  unfold unableToResolveError, locationsOf, pathOf.
  destruct (0 <? length (pathElements ctx))%nat; rewrite <- !app_assoc; reflexivity.
Qed.

Section NullPropagationProperties.
Context `{JsonParser} `{TextProto}.
Variable r : Resolver.

(** A non-nullable leaf whose source is null returns the non-null error and
    leaves the context and the buffers as they are. *)
Lemma resolveNode_leaf (node : Node) (ctx : Context) (data : bytes) (buf : BufPair) :
  nonNullableLeaf node = true ->
  sourceIsNull node data = true ->
  resolveNode r node ctx data buf = (ctx, buf, Some errNonNullableFieldValueIsNull).
Proof.
  destruct node as [o | | a | | d | p n | p n | p n | p n]; try discriminate;
    cbn [nonNullableLeaf sourceIsNull resolveNode]; intros Hn Hs;
    destruct n; try discriminate.
  - unfold resolveString, resolveStringValue.
    destruct (negb (length data =? 0)%nat && negb (isSome p)).
    + destruct (Get data []) as [[v t] e].
      destruct (ValueType_eqb t String_ || IsLetter (nth 0 data "000"%char));
        [discriminate | reflexivity].
    + destruct (Get data (default [] p)) as [[v t] e].
      destruct (isSome e || negb (ValueType_eqb t String_)); [reflexivity |].
      cbn [orb] in Hs. rewrite Hs. reflexivity.
  - unfold resolveBoolean. destruct (Get data p) as [[v t] e]. rewrite Hs. reflexivity.
  - unfold resolveInteger. destruct (Get data p) as [[v t] e]. rewrite Hs. reflexivity.
  - unfold resolveFloat. destruct (Get data p) as [[v t] e]. rewrite Hs. reflexivity.
Qed.

Lemma resolveFields_app (rec : Node -> Context -> bytes -> BufPair -> Result)
    (o : Object) (data : bytes) (set : option resultSet) (l1 l2 : list Field)
    (st : fieldsState) :
  resolveFields rec o data set (l1 ++ l2) st
  = match resolveFields rec o data set l1 st with
    | Continue st' => resolveFields rec o data set l2 st'
    | Return res => Return res
    end.
Proof.
  revert st. induction l1 as [| f l1 IH]; intros st; [reflexivity |].
  cbn [app resolveFields].
  destruct (resolveField rec o data set f st) as [st' | res]; [apply IH | reflexivity].
Qed.

(** Between two fields the buffer pair of the field is empty. *)
Lemma resolveFields_fieldBuf (rec : Node -> Context -> bytes -> BufPair -> Result)
    (o : Object) (data : bytes) (set : option resultSet) (fields : list Field)
    (st st' : fieldsState) :
  fs_fieldBuf st = NewBufPair ->
  resolveFields rec o data set fields st = Continue st' ->
  fs_fieldBuf st' = NewBufPair.
Proof.
  revert st. induction fields as [| f fields IH]; intros st Hfb Hloop.
  - cbn in Hloop. injection Hloop as <-. exact Hfb.
  - cbn [resolveFields] in Hloop.
    destruct (resolveField rec o data set f st) as [st1 | res] eqn:Hstep;
      [| discriminate].
    apply (IH st1); [| exact Hloop].
    unfold resolveField in Hstep.
    destruct (typeNameMismatch _ f).
    + injection Hstep as <-. exact Hfb.
    + cbv zeta in Hstep.
      destruct (rec (Value f) _ _ _) as [[c2 fb] [e |]].
      * destruct (is_errTypeNameSkipped e); [discriminate |].
        destruct (is_errNonNullableFieldValueIsNull e); [| discriminate].
        destruct (MergeBufPairErrors _ _) as [fb' ob'].
        destruct (ObjectNullable o); discriminate.
      * rewrite MergeBufPairs_spec in Hstep. injection Hstep as <-. reflexivity.
Qed.

Lemma resolveObject_objectData (rec : Node -> Context -> bytes -> BufPair -> Result)
    (ctx : Context) (o : Object) (data data' : bytes) (objectBuf : BufPair) :
  objectData o data = Some data' ->
  resolveObject r rec ctx o data objectBuf
  = resolveObjectFields r rec ctx o data' objectBuf.
Proof.
  unfold objectData, resolveObject.
  destruct (negb (length (ObjectPath o) =? 0)%nat).
  - destruct (Get data (ObjectPath o)) as [[value t] e].
    destruct (length (slice_bytes value) =? 0)%nat; [discriminate |].
    intros Hd. injection Hd as <-. reflexivity.
  - intros Hd. injection Hd as <-. reflexivity.
Qed.

Lemma HasErrors_nil (b : BufPair) : Errors b = [] -> HasErrors b = false.
Proof. unfold HasErrors. intros ->. reflexivity. Qed.

(** The iteration of the loop over the fields on a field whose value
    returns the non-null error, when no error was written before. *)
Lemma resolveField_unresolved (rec : Node -> Context -> bytes -> BufPair -> Result)
    (o : Object) (data : bytes) (set : option resultSet) (f : Field)
    (st : fieldsState) (c2 : Context) (b2 : BufPair) :
  typeNameMismatch (fieldDataOf set data f) f = false ->
  Errors (fs_objectBuf st) = [] ->
  rec (Value f) (setPosition (addPathElement (fs_ctx st) (Name f)) (fieldPosition f))
    (fieldDataOf set data f) (fs_fieldBuf st)
  = (c2, b2, Some errNonNullableFieldValueIsNull) ->
  resolveField rec o data set f st
  = Return
      (if ObjectNullable o then
         (removeLastPathElement c2, {| Data := null; Errors := Errors b2 |}, None)
       else
         (removeLastPathElement c2,
          (if negb (isObject (Value f))
           then addResolveError (removeLastPathElement c2)
                  {| Data := []; Errors := Errors b2 |}
           else {| Data := []; Errors := Errors b2 |}),
          Some errNonNullableFieldValueIsNull)).
Proof.
  intros Hgate Hnoerr Hchild. unfold resolveField. rewrite Hgate. cbv zeta.
  rewrite Hchild. cbn [is_errTypeNameSkipped is_errNonNullableFieldValueIsNull].
  rewrite MergeBufPairErrors_spec.
  match goal with
  | |- context [{| Data := Data (Data_Reset ?ob); Errors := ?e |}] =>
      assert (Hb : {| Data := Data (Data_Reset ob); Errors := e |}
                   = {| Data := []; Errors := Errors b2 |})
  end.
  { apply BufPair_eq; cbn [Data Errors]; [reflexivity |].
    rewrite HasErrors_nil
      by (autorewrite with buf; destruct (fs_first st); autorewrite with buf;
          exact Hnoerr).
    cbn [andb app]. autorewrite with buf.
    destruct (fs_first st); autorewrite with buf; rewrite Hnoerr; reflexivity. }
  rewrite Hb. destruct (ObjectNullable o); reflexivity.
Qed.

(** What an object makes of a field whose value returns the non-null
    error, when its walk reaches that field: a nullable object becomes
    [null] and succeeds, another one returns the error in its turn, with a
    resolve error of its own unless the value is an object. *)
Lemma resolveObject_unresolved_field (o : Object) (ctx : Context)
    (data data' : bytes) (f : Field) (ctx1 c2 : Context) (b2 : BufPair) :
  objectData o data = Some data' ->
  Reaches r o ctx data' f ctx1 ->
  resolveNode r (Value f)
    (setPosition (addPathElement ctx1 (Name f)) (fieldPosition f)) data' NewBufPair
  = (c2, b2, Some errNonNullableFieldValueIsNull) ->
  resolveNode r (NObject o) ctx data NewBufPair
  = if ObjectNullable o then
      (removeLastPathElement c2, {| Data := null; Errors := Errors b2 |}, None)
    else
      (removeLastPathElement c2,
       (if negb (isObject (Value f))
        then addResolveError (removeLastPathElement c2) {| Data := []; Errors := Errors b2 |}
        else {| Data := []; Errors := Errors b2 |}),
       Some errNonNullableFieldValueIsNull).
Proof.
  intros Hdata (Hfetch & Hgate & pre & post & st & Hfields & Hpre & Hnoerr & ->) Hchild.
  cbn [resolveNode]. rewrite (resolveObject_objectData _ _ _ _ _ _ Hdata).
  unfold resolveObjectFields. rewrite Hfetch, Hfields, resolveFields_app, Hpre.
  assert (Hfb : fs_fieldBuf st = NewBufPair)
    by (eapply resolveFields_fieldBuf; [| exact Hpre]; reflexivity).
  cbn [resolveFields].
  rewrite (resolveField_unresolved (resolveNode r) o data' None f st c2 b2).
  - reflexivity.
  - exact Hgate.
  - exact Hnoerr.
  - cbn [fieldDataOf]. rewrite Hfb. exact Hchild.
Qed.

End NullPropagationProperties.

Section Propagation.
Context `{JsonParser} `{TextProto}.
Variable r : Resolver.

Lemma Reaches_frame (o : Object) (ctx : Context) (data : bytes) (f : Field)
    (ctx1 : Context) :
  Reaches r o ctx data f ctx1 -> frame ctx1 = frame ctx.
Proof.
  intros (_ & _ & pre & post & st & _ & Hpre & _ & ->).
  pose proof (resolveFields_frame (resolveNode r) o data None pre
                {| fs_ctx := ctx; fs_objectBuf := NewBufPair; fs_fieldBuf := NewBufPair;
                   fs_typeNameSkip := false; fs_first := true |}) as Hloop.
  rewrite Hpre in Hloop. apply Hloop.
  apply Forall_forall. intros f' _. apply resolveNode_frame.
Qed.

Lemma nonNullableLeaf_not_object (node : Node) :
  nonNullableLeaf node = true -> isObject node = false.
Proof. destruct node; try discriminate; reflexivity. Qed.

(** An unresolved plan returns the non-null error with no data, and with
    the one synthetic error unless it is a bare leaf. *)
Lemma Unresolved_resolveNode (node : Node) (ctx : Context) (data : bytes)
    (where_ : option (list bytes * Position)) :
  Unresolved r node ctx data where_ ->
  exists ctx',
    resolveNode r node ctx data NewBufPair
    = (ctx', {| Data := []; Errors := blameErrors ctx where_ |},
       Some errNonNullableFieldValueIsNull)
    /\ frame ctx' = frame ctx
    /\ (where_ = None -> ctx' = ctx).
Proof.
  induction 1 as [node ctx data Hleaf Hnull
                 | o ctx data data' f ctx1 below Hnn Hdata Hreach Hsub IH].
  - exists ctx. split; [| split; [reflexivity | reflexivity]].
    apply resolveNode_leaf; assumption.
  - destruct IH as (c2 & Hchild & Hframe & Hsame).
    pose proof (Reaches_frame _ _ _ _ _ Hreach) as Hf1.
    exists (removeLastPathElement c2). split; [| split].
    + rewrite (resolveObject_unresolved_field r o ctx data data' f ctx1 c2 _
                 Hdata Hreach Hchild).
      rewrite Hnn. f_equal. f_equal. cbn [Errors].
      destruct below as [[names pos] |].
      * assert (Hobj : isObject (Value f) = true)
          by (inversion Hsub; reflexivity).
        rewrite Hobj. cbn [negb blame blameErrors]. f_equal.
        cbn [setPosition addPathElement set_pathElements pathElements].
        apply frame_inv in Hf1. destruct Hf1 as (_ & _ & -> & _).
        rewrite <- app_assoc. reflexivity.
      * assert (Hobj : isObject (Value f) = false)
          by (inversion Hsub; apply nonNullableLeaf_not_object; assumption).
        rewrite Hobj. cbn [negb blame blameErrors].
        rewrite (Hsame eq_refl). rewrite addResolveError_spec.
        cbn [Data Errors HasErrors length Nat.eqb negb app].
        cbn [removeLastPathElement setPosition addPathElement set_pathElements
             pathElements position].
        rewrite removelast_last, app_nil_r.
        apply frame_inv in Hf1. destruct Hf1 as (_ & _ & -> & _). reflexivity.
    + rewrite frame_setPosition in Hframe.
      apply frame_removeLast in Hframe. congruence.
    + discriminate.
Qed.

End Propagation.

(** C1: scenario S2 is to give the envelope
    [{"data":null,"errors":[{"message":"unable to resolve","path":["n"]}]}],
    whose error has the path of the failing field. The resolver writes the
    errors before the data, gives the error the locations of the field, and
    gives it no path: [resolveObject] pops the name of the failing field
    before it adds the error. *)
Lemma ResolveGraphQLResponse_S2_counterexample :
  let r := {| EnableSingleFlightLoader := false;
              completionOrder := fun _ arrayItems => seq 0 (length arrayItems) |} in
  let field := fun name value =>
    mkField (B name) value {| Line := 0; Column := 0 |} false 0 None in
  let response :=
    {| ResponseData :=
         NObject
           (mkObject false []
              [field "hello"%string (NString (Some ["hello"%string]) false);
               field "n"%string (NInteger ["n"%string] false)]
              None) |} in
  let data :=
    B "{" ++ quote ++ B "data" ++ quote ++ B ":{" ++ quote ++ B "hello" ++ quote
    ++ B ":" ++ quote ++ B "world" ++ quote ++ B "}}" in
  let written :=
    snd (fst (ResolveGraphQLResponse (H := Reference.jsonparser)
                (H0 := Reference.textproto) r NewContext response data (@nil ascii))) in
  written
  = B "{" ++ quote ++ B "errors" ++ quote ++ B ":[{" ++ quote ++ B "message" ++ quote
    ++ B ":" ++ quote ++ B "unable to resolve" ++ quote ++ B "," ++ quote
    ++ B "locations" ++ quote ++ B ":[{" ++ quote ++ B "line" ++ quote ++ B ":0,"
    ++ quote ++ B "column" ++ quote ++ B ":0}]}]," ++ quote ++ B "data" ++ quote
    ++ B ":null}"
  /\ written
     <> B "{" ++ quote ++ B "data" ++ quote ++ B ":null," ++ quote ++ B "errors" ++ quote
        ++ B ":[{" ++ quote ++ B "message" ++ quote ++ B ":" ++ quote
        ++ B "unable to resolve" ++ quote ++ B "," ++ quote ++ B "path" ++ quote
        ++ B ":[" ++ quote ++ B "n" ++ quote ++ B "]}]}".
Proof. split; [vm_compute; reflexivity | vm_compute; discriminate]. Qed.

(** The path of the synthetic error, in the two places where an object adds
    it. When the non-nullable leaf [n] of the object [user] is null, the name
    [n] was popped before the error is added: the path of the error is
    [["user"]], that of the object. When the object [user] itself is not
    found, its name is still on the path: the path of the error is
    [["user"]] as well, here that of the failing field. *)
Lemma resolveObject_path_slip :
  let r := {| EnableSingleFlightLoader := false;
              completionOrder := fun _ arrayItems => seq 0 (length arrayItems) |} in
  let n :=
    mkField (B "n") (NInteger ["n"%string] false) {| Line := 2; Column := 5 |}
      false 0 None in
  let user :=
    mkField (B "user") (NObject (mkObject false ["user"%string] [n] None))
      {| Line := 1; Column := 3 |} false 0 None in
  let response := {| ResponseData := NObject (mkObject false [] [user] None) |} in
  let written := fun data =>
    snd (fst (ResolveGraphQLResponse (H := Reference.jsonparser)
                (H0 := Reference.textproto) r NewContext response data (@nil ascii))) in
  let envelopeAt := fun line column =>
    B "{" ++ quote ++ B "errors" ++ quote ++ B ":[{" ++ quote ++ B "message" ++ quote
    ++ B ":" ++ quote ++ B "unable to resolve" ++ quote ++ B "," ++ quote
    ++ B "locations" ++ quote ++ B ":[{" ++ quote ++ B "line" ++ quote ++ B ":"
    ++ B line ++ B "," ++ quote ++ B "column" ++ quote ++ B ":" ++ B column ++ B "}],"
    ++ quote ++ B "path" ++ quote ++ B ":[" ++ quote ++ B "user" ++ quote ++ B "]}],"
    ++ quote ++ B "data" ++ quote ++ B ":null}" in
  written (B "{" ++ quote ++ B "data" ++ quote ++ B ":{" ++ quote ++ B "user" ++ quote
           ++ B ":{" ++ quote ++ B "id" ++ quote ++ B ":1}}}")
  = envelopeAt "2"%string "5"%string
  /\ written (B "{" ++ quote ++ B "data" ++ quote ++ B ":{" ++ quote ++ B "id" ++ quote
              ++ B ":1}}")
     = envelopeAt "1"%string "3"%string.
Proof. split; vm_compute; reflexivity. Qed.

(** * Further properties of the resolver *)

(** ** Variables *)

Lemma samePathFrom_eq (p q : list string) :
  length p = length q -> (samePathFrom p q = true <-> p = q).
Proof.
  revert q. induction p as [| x p IH]; intros [| y q] Hlen; try discriminate.
  - split; reflexivity.
  - cbn [samePathFrom]. injection Hlen as Hlen.
    destruct (String.eqb_spec x y) as [-> | Hne]; cbn [negb].
    + rewrite (IH q Hlen). split; [intros -> | intros [= ->]]; reflexivity.
    + split; [discriminate | intros [= Hxy _]; contradiction].
Qed.

Lemma equalsVariable_iff (kind : Z) (p : list string) (b : Variable_) :
  equalsVariable kind p (Some b) = true
  <-> VariableKind b = kind /\ p = VariablePath b.
Proof.
  unfold equalsVariable.
  destruct (Z.eqb_spec (VariableKind b) kind) as [Hk | Hk]; cbn [negb].
  - destruct (Nat.eqb_spec (length p) (length (VariablePath b))) as [Hl | Hl]; cbn [negb].
    + rewrite (samePathFrom_eq _ _ Hl). tauto.
    + split; [discriminate |]. intros [_ ->]. contradiction.
  - split; [discriminate | tauto].
Qed.

Lemma Equals_iff (a b : Variable_) :
  Equals a (Some b) = true
  <-> VariableKind a = VariableKind b /\ VariablePath a = VariablePath b.
Proof.
  destruct a; cbn [Equals]; rewrite equalsVariable_iff; cbn [VariableKind VariablePath];
    split; intros [Hk Hp]; auto.
Qed.

(** X1: two variables are equal exactly when they are of one kind and
    have the same path: the [RenderAsGraphQLValue] flag of a context variable
    is not compared. A nil variable equals none. *)
Theorem Equals_kind_and_path (a : Variable_) (another : option Variable_) :
  Equals a another = true
  <-> exists b, another = Some b
                /\ VariableKind a = VariableKind b
                /\ VariablePath a = VariablePath b.
Proof.
  destruct another as [b |].
  - rewrite Equals_iff. split.
    + intros [Hk Hp]. exists b. auto.
    + intros (b' & [= <-] & Hk & Hp). auto.
  - split.
    + destruct a; discriminate.
    + intros (b & Hb & _). discriminate.
Qed.

(** [strconv.Itoa] prints different integers differently. *)
Lemma Itoa_inj (i j : Z) : Itoa i = Itoa j -> i = j.
Proof.
  assert (Hnorm : forall z, Z.to_int z <> Decimal.Pos Decimal.Nil
                            /\ Z.to_int z <> Decimal.Neg Decimal.Nil).
  { intros z. pose proof (DecimalZ.to_of (Z.to_int z)) as Hn.
    rewrite DecimalZ.of_to in Hn. rewrite Hn.
    destruct (Z.to_int z) as [d | d]; cbn [Decimal.norm].
    - split; [| discriminate]. intros [= Hd]. exact (DecimalFacts.unorm_nonnil d Hd).
    - destruct (Decimal.nzhead d); split; discriminate. }
  unfold Itoa, B. intros Heq.
  apply (f_equal string_of_list_ascii) in Heq.
  rewrite !string_of_list_ascii_of_string in Heq.
  apply (f_equal NilZero.int_of_string) in Heq.
  destruct (Hnorm i) as [Hi1 Hi2], (Hnorm j) as [Hj1 Hj2].
  rewrite !NilZero.isi in Heq by assumption.
  injection Heq as Heq. apply DecimalZ.to_int_inj. exact Heq.
Qed.

Lemma list_ascii_of_string_app (s1 s2 : string) :
  list_ascii_of_string (s1 ++ s2) = list_ascii_of_string s1 ++ list_ascii_of_string s2.
Proof.
  induction s1 as [| c s1 IH]; [reflexivity |].
  change (list_ascii_of_string (String c s1 ++ s2))
    with (c :: list_ascii_of_string (s1 ++ s2)).
  rewrite IH. reflexivity.
Qed.

Lemma variableName_inj (i j : nat) (quoteValue : bool) :
  variableName i quoteValue = variableName j quoteValue -> i = j.
Proof.
  unfold variableName. cbv zeta. destruct quoteValue; intros Heq;
    apply (f_equal list_ascii_of_string) in Heq;
    rewrite !list_ascii_of_string_app in Heq;
    rewrite !list_ascii_of_string_of_list_ascii in Heq.
  - apply app_inv_head, app_inv_tail, app_inv_head, app_inv_tail in Heq.
    apply Itoa_inj in Heq. lia.
  - apply app_inv_head, app_inv_tail in Heq. apply Itoa_inj in Heq. lia.
Qed.

Lemma indexOfVariable_Some (v : list Variable_) (variable : Variable_) (i k : nat) :
  indexOfVariable i v variable = Some k ->
  (i <= k)%nat
  /\ (exists x, v !! (k - i)%nat = Some x /\ Equals x (Some variable) = true)
  /\ (forall j x, (j < k - i)%nat -> v !! j = Some x -> Equals x (Some variable) = false).
Proof.
  revert i. induction v as [| y v IH]; intros i Hfind; [discriminate |].
  cbn [indexOfVariable] in Hfind.
  destruct (Equals y (Some variable)) eqn:Hy.
  - injection Hfind as <-. split; [lia |]. rewrite Nat.sub_diag. split.
    + exists y. split; [reflexivity | exact Hy].
    + intros j x Hj. lia.
  - destruct (IH (S i) Hfind) as (Hle & (x & Hx & Hxe) & Hmin).
    split; [lia |].
    replace (k - i)%nat with (S (k - S i)) by lia. split.
    + exists x. split; [exact Hx | exact Hxe].
    + intros [| j] z Hj Hz.
      * injection Hz as <-. exact Hy.
      * apply (Hmin j z); [lia | exact Hz].
Qed.

Lemma indexOfVariable_None (v : list Variable_) (variable : Variable_) (i : nat) :
  indexOfVariable i v variable = None ->
  forall j x, v !! j = Some x -> Equals x (Some variable) = false.
Proof.
  revert i. induction v as [| y v IH]; intros i Hfind j x Hx; [discriminate |].
  cbn [indexOfVariable] in Hfind.
  destruct (Equals y (Some variable)) eqn:Hy; [discriminate |].
  destruct j as [| j].
  - injection Hx as <-. exact Hy.
  - exact (IH (S i) Hfind j x Hx).
Qed.

Lemma Equals_refl (a : Variable_) : Equals a (Some a) = true.
Proof. apply Equals_iff. auto. Qed.

Lemma AddVariable_spec (v : list Variable_) (variable : Variable_) (quoteValue : bool) :
  AddVariable v variable quoteValue
  = match indexOfVariable 0 v variable with
    | Some i => (v, variableName i quoteValue, true)
    | None => (v ++ [variable], variableName (length v) quoteValue, false)
    end.
Proof.
  unfold AddVariable. destruct (indexOfVariable 0 v variable) as [k |]; [reflexivity |].
  unfold variableName. rewrite length_app. cbn [length].
  replace (Z.of_nat (length v + 1) - 1) with (Z.of_nat (length v)) by lia.
  reflexivity.
Qed.

(** X2: [AddVariable] names the first variable of the list that
    equals the given one, which it appends when there is none: the list is
    unchanged when [exists] is returned, and has the variable as its new last
    element otherwise; variables added before keep their index. *)
Theorem AddVariable_names_first (v : list Variable_) (variable : Variable_)
    (quoteValue : bool) :
  exists index : nat,
    snd (fst (AddVariable v variable quoteValue)) = variableName index quoteValue
    /\ (exists x, fst (fst (AddVariable v variable quoteValue)) !! index = Some x
                  /\ Equals x (Some variable) = true)
    /\ (forall j x, (j < index)%nat ->
          fst (fst (AddVariable v variable quoteValue)) !! j = Some x ->
          Equals x (Some variable) = false)
    /\ (if snd (AddVariable v variable quoteValue)
        then fst (fst (AddVariable v variable quoteValue)) = v
        else fst (fst (AddVariable v variable quoteValue)) = v ++ [variable]
             /\ index = length v).
Proof.
  rewrite AddVariable_spec.
  destruct (indexOfVariable 0 v variable) as [k |] eqn:Hfind; cbn [fst snd].
  - apply indexOfVariable_Some in Hfind. rewrite Nat.sub_0_r in Hfind.
    destruct Hfind as (_ & Hx & Hmin).
    exists k. split; [reflexivity |]. split; [exact Hx |]. split; [exact Hmin | reflexivity].
  - exists (length v). split; [reflexivity |].
    + split; [| split].
      * exists variable. split; [| apply Equals_refl].
        rewrite lookup_app_r by lia. rewrite Nat.sub_diag. reflexivity.
      * intros j x Hj Hx. rewrite lookup_app_l in Hx by exact Hj.
        exact (indexOfVariable_None v variable 0 Hfind j x Hx).
      * split; reflexivity.
Qed.

Lemma Equals_congruence (a b x : Variable_) :
  Equals a (Some b) = true ->
  Equals x (Some a) = Equals x (Some b).
Proof.
  intros Hab. apply Equals_iff in Hab. destruct Hab as [Hk Hp].
  destruct (Equals x (Some b)) eqn:Hxb.
  - apply Equals_iff in Hxb. destruct Hxb as [Hk' Hp'].
    apply Equals_iff. split; congruence.
  - destruct (Equals x (Some a)) eqn:Hxa; [| reflexivity].
    apply Equals_iff in Hxa. destruct Hxa as [Hk' Hp'].
    assert (Hyes : Equals x (Some b) = true) by (apply Equals_iff; split; congruence).
    congruence.
Qed.

Lemma indexOfVariable_congruence (a b : Variable_) (v : list Variable_) (i : nat) :
  Equals a (Some b) = true ->
  indexOfVariable i v a = indexOfVariable i v b.
Proof.
  intros Hab. revert i. induction v as [| x v IH]; intros i; [reflexivity |].
  cbn [indexOfVariable]. rewrite (Equals_congruence a b x Hab), IH. reflexivity.
Qed.

Lemma indexOfVariable_app (a : Variable_) (v w : list Variable_) (i : nat) :
  indexOfVariable i (v ++ w) a
  = match indexOfVariable i v a with
    | Some k => Some k
    | None => indexOfVariable (i + length v) w a
    end.
Proof.
  revert i. induction v as [| x v IH]; intros i.
  - cbn [app indexOfVariable length]. rewrite Nat.add_0_r. reflexivity.
  - cbn [app indexOfVariable length]. destruct (Equals x (Some a)); [reflexivity |].
    rewrite IH. replace (S i + length v)%nat with (i + S (length v))%nat by lia.
    reflexivity.
Qed.

(** After a variable was added, it is found at the index it was named by. *)
Lemma AddVariable_found (v : list Variable_) (a : Variable_) (quoteValue : bool) :
  exists index : nat,
    snd (fst (AddVariable v a quoteValue)) = variableName index quoteValue
    /\ indexOfVariable 0 (fst (fst (AddVariable v a quoteValue))) a = Some index.
Proof.
  rewrite AddVariable_spec.
  destruct (indexOfVariable 0 v a) as [k |] eqn:Hfind; cbn [fst snd].
  - exists k. split; [reflexivity | exact Hfind].
  - exists (length v). split; [reflexivity |].
    rewrite indexOfVariable_app, Hfind. cbn [indexOfVariable Nat.add].
    rewrite Equals_refl. reflexivity.
Qed.

(** X3: two variables added one after the other get the same name
    exactly when they are equal: a context variable whose path was added before gets the
    name of the earlier one, whatever its [RenderAsGraphQLValue] flag. *)
Theorem AddVariable_same_name (v : list Variable_) (a b : Variable_)
    (quoteValue : bool) :
  snd (fst (AddVariable (fst (fst (AddVariable v a quoteValue))) b quoteValue))
  = snd (fst (AddVariable v a quoteValue))
  <-> Equals a (Some b) = true.
Proof.
  destruct (AddVariable_found v a quoteValue) as (ia & Hna & Hia).
  set (v1 := fst (fst (AddVariable v a quoteValue))) in *.
  rewrite Hna. split.
  - intros Heq. rewrite AddVariable_spec in Heq.
    apply indexOfVariable_Some in Hia. rewrite Nat.sub_0_r in Hia.
    destruct Hia as (_ & (y & Hy & Hya) & _).
    destruct (indexOfVariable 0 v1 b) as [ib |] eqn:Hib; cbn [fst snd] in Heq;
      apply variableName_inj in Heq.
    + subst ib. apply indexOfVariable_Some in Hib. rewrite Nat.sub_0_r in Hib.
      destruct Hib as (_ & (x & Hx & Hxb) & _).
      assert (y = x) by congruence. subst y.
      apply Equals_iff in Hya. apply Equals_iff in Hxb. apply Equals_iff.
      destruct Hya, Hxb. split; congruence.
    + apply lookup_lt_Some in Hy. lia.
  - intros Hab.
    rewrite (indexOfVariable_congruence a b v1 0 Hab) in Hia.
    rewrite AddVariable_spec, Hia. reflexivity.
Qed.

(** ** The path and the patch queue of a context *)

Lemma writePathElements_later (all : list bytes) (i : nat) (l : list bytes)
    (buf : bytes) :
  writePathElements all (S i) l buf
  = buf ++ concat (map (fun e => literal.SLASH ++ e) l).
Proof.
  revert i buf. induction l as [| e l IH]; intros i buf.
  - simpl. rewrite app_nil_r. reflexivity.
  - cbn [writePathElements map concat Nat.eqb andb]. rewrite IH.
    rewrite <- !app_assoc. reflexivity.
Qed.

(** X4: the path of a context is its prefix, or [/data] when it has none,
    followed by each path element after a slash; a first element equal to
    [data] is left out. *)
Theorem path_joins (c : Context) :
  snd (path c)
  = (if (length (pathPrefix c) =? 0)%nat then literal.SLASH ++ literal.DATA
     else pathPrefix c)
    ++ concat
         (map (fun e => literal.SLASH ++ e)
            (match pathElements c with
             | e :: rest => if bytes_Equal literal.DATA e then rest else e :: rest
             | [] => []
             end)).
Proof.
  unfold path. cbn [snd].
  set (root := if negb (length (pathPrefix c) =? 0)%nat then pathPrefix c
               else literal.SLASH ++ literal.DATA).
  replace (if (length (pathPrefix c) =? 0)%nat then literal.SLASH ++ literal.DATA
           else pathPrefix c) with root
    by (unfold root; destruct (length (pathPrefix c) =? 0)%nat; reflexivity).
  destruct (pathElements c) as [| e rest].
  - cbn [writePathElements map concat]. rewrite app_nil_r. reflexivity.
  - cbn [writePathElements Nat.eqb andb nth]. rewrite writePathElements_later.
    destruct (bytes_Equal literal.DATA e); [reflexivity |].
    cbn [map concat]. rewrite <- !app_assoc. reflexivity.
Qed.

Lemma patches_addPatches (c : Context) (ps : list patch) :
  patches (addPatches c ps) = patches c ++ ps
  /\ maxPatch (addPatches c ps) = maxPatch c + Z.of_nat (length ps)
  /\ currentPatch (addPatches c ps) = currentPatch c.
Proof.
  revert c. induction ps as [| p ps IH]; intros c.
  - cbn [addPatches fold_left length]. rewrite app_nil_r. repeat split. lia.
  - cbn [addPatches fold_left]. fold (addPatches (addPatch c (patch_index p) (patch_path p)
      (patch_extraPath p) (patch_data p)) ps).
    destruct (IH (addPatch c (patch_index p) (patch_path p) (patch_extraPath p)
                    (patch_data p))) as (Hp & Hm & Hc).
    rewrite Hp, Hm, Hc. cbn [addPatch patches maxPatch currentPatch length].
    destruct p as [pp pe pd pi]; cbn [patch_index patch_path patch_extraPath patch_data].
    rewrite <- app_assoc. repeat split. lia.
Qed.

Lemma drainPatches_balanced (c : Context) (k : nat) :
  maxPatch c = Z.of_nat (length (patches c)) - 1 ->
  currentPatch c = Z.of_nat k - 1 ->
  (k <= length (patches c))%nat ->
  exists c',
    drainPatches (S (length (patches c) - k)) c = Some (c', drop k (patches c))
    /\ patches c' = patches c.
Proof.
  intros Hmax. remember (length (patches c) - k)%nat as n eqn:Hn.
  revert c k Hmax Hn. induction n as [| n IH]; intros c k Hmax Hn Hcur Hk.
  - assert (k = length (patches c)) by lia. subst k.
    cbn [drainPatches]. unfold popNextPatch.
    cbn [set_currentPatch maxPatch currentPatch].
    destruct (Z.ltb_spec (maxPatch c) (currentPatch c + 1)) as [_ | Hge]; [| lia].
    exists (set_currentPatch c (currentPatch c + 1)). split; [| reflexivity].
    rewrite drop_ge by lia. reflexivity.
  - change (drainPatches (S (S n)) c)
      with (match popNextPatch c with
            | (c, Some (Some p)) =>
                match drainPatches (S n) c with
                | Some (c, ps) => Some (c, p :: ps)
                | None => None
                end
            | (c, Some None) => Some (c, [])
            | (c, None) => None
            end).
    unfold popNextPatch. cbn [set_currentPatch maxPatch currentPatch patches].
    destruct (Z.ltb_spec (maxPatch c) (currentPatch c + 1)) as [Hlt | _]; [lia |].
    destruct (Z.ltb_spec (currentPatch c + 1) 0) as [Hlt | _]; [lia |].
    replace (Z.to_nat (currentPatch c + 1)) with k by lia.
    destruct (patches c !! k) as [p |] eqn:Hp.
    2: { apply lookup_ge_None in Hp. lia. }
    destruct (IH (set_currentPatch c (currentPatch c + 1)) (S k)) as (c' & Hdrain & Hsame).
    + exact Hmax.
    + cbn [set_currentPatch patches]. lia.
    + cbn [set_currentPatch currentPatch]. lia.
    + cbn [set_currentPatch patches]. lia.
    + cbn [set_currentPatch patches] in Hdrain, Hsame. rewrite Hdrain.
      exists c'. split; [| exact Hsame].
      rewrite (drop_S (patches c) p k Hp). reflexivity.
Qed.

(** X5: the patch queue is first in, first out: after the patches [ps]
    were added to a context whose queue is empty and whose cursors are
    initial, [popNextPatch] returns them in the order they were added,
    without panic, and then reports that there is none left. *)
Theorem popNextPatch_fifo (c : Context) (ps : list patch) :
  patches c = [] ->
  cursorsInitial c ->
  exists c', drainPatches (S (length ps)) (addPatches c ps) = Some (c', ps).
Proof.
  intros Hempty [Hmax Hcur].
  destruct (patches_addPatches c ps) as (Hp & Hm & Hc).
  rewrite Hempty in Hp. cbn [app] in Hp.
  destruct (drainPatches_balanced (addPatches c ps) 0) as (c' & Hdrain & Hsame).
  - rewrite Hm, Hp, Hmax. lia.
  - rewrite Hc, Hcur. reflexivity.
  - lia.
  - rewrite Hp, Nat.sub_0_r in Hdrain. cbn [drop] in Hdrain.
    exists c'. exact Hdrain.
Qed.

Lemma popNextPatch_fifo_witness :
  let p1 := {| patch_path := B "/data/a"; patch_extraPath := None;
               patch_data := B "1"; patch_index := 0 |} in
  let p2 := {| patch_path := B "/data/b"; patch_extraPath := Some (B "/c");
               patch_data := B "2"; patch_index := 1 |} in
  patches NewContext = []
  /\ cursorsInitial NewContext
  /\ exists c', drainPatches 3 (addPatches NewContext [p1; p2]) = Some (c', [p1; p2]).
Proof.
  intros p1 p2.
  assert (Hinit : cursorsInitial NewContext) by (split; reflexivity).
  split; [reflexivity |]. split; [exact Hinit |].
  exact (popNextPatch_fifo NewContext [p1; p2] eq_refl Hinit).
Defined.

(** ** What the walk does to the patch queue *)

Lemma queue_inv (c1 c2 : Context) :
  queue c1 = queue c2 ->
  patches c1 = patches c2 /\ maxPatch c1 = maxPatch c2
  /\ currentPatch c1 = currentPatch c2.
Proof. unfold queue. intros [= Hp Hm Hc]. auto. Qed.

Lemma Enqueues_refl (indices : list Z) (c : Context) : Enqueues indices c c.
Proof.
  split; [reflexivity |]. exists []. rewrite app_nil_r. cbn [length].
  split; [reflexivity |]. split; [lia | constructor].
Qed.

Lemma Enqueues_trans (indices : list Z) (c1 c2 c3 : Context) :
  Enqueues indices c1 c2 -> Enqueues indices c2 c3 -> Enqueues indices c1 c3.
Proof.
  intros (Hc1 & a1 & Hp1 & Hm1 & Ha1) (Hc2 & a2 & Hp2 & Hm2 & Ha2).
  split; [congruence |]. exists (a1 ++ a2).
  rewrite Hp2, Hp1, Hm2, Hm1, <- app_assoc, length_app.
  split; [reflexivity |]. split; [lia |]. apply Forall_app. split; assumption.
Qed.

Lemma Enqueues_mono (indices indices' : list Z) (c c' : Context) :
  incl indices indices' -> Enqueues indices c c' -> Enqueues indices' c c'.
Proof.
  intros Hincl (Hc & added & Hp & Hm & Ha).
  split; [exact Hc |]. exists added. split; [exact Hp |]. split; [exact Hm |].
  eapply List.Forall_impl; [| exact Ha]. intros p Hin. apply Hincl. exact Hin.
Qed.

Lemma Enqueues_queue (indices : list Z) (c1 c1' c2 c2' : Context) :
  queue c1 = queue c1' -> queue c2 = queue c2' ->
  Enqueues indices c1 c2 -> Enqueues indices c1' c2'.
Proof.
  intros H1 H2 (Hc & added & Hp & Hm & Ha).
  apply queue_inv in H1, H2.
  destruct H1 as (Hp1 & Hm1 & Hc1), H2 as (Hp2 & Hm2 & Hc2).
  split; [congruence |]. exists added.
  rewrite <- Hp2, <- Hp1, <- Hm2, <- Hm1. auto.
Qed.

Lemma Enqueues_same (indices : list Z) (c c' : Context) :
  queue c' = queue c -> Enqueues indices c c'.
Proof.
  intros Hq. apply (Enqueues_queue indices c c c c'); [reflexivity | | apply Enqueues_refl].
  symmetry. exact Hq.
Qed.

Lemma queue_callHook (installed : bool) (c : Context) :
  queue (callHook installed c) = queue c.
Proof. destruct installed; reflexivity. Qed.

Lemma Enqueues_preparePatch (indices : list Z) (c : Context) (patchIndex : Z)
    (extraPath : option bytes) (data : bytes) :
  In patchIndex indices ->
  Enqueues indices c (preparePatch c patchIndex extraPath data).
Proof.
  intros Hin. split; [reflexivity |].
  eexists [_]. cbn [preparePatch path addPatch set_usedBuffers patches maxPatch length].
  split; [reflexivity |]. split; [lia |].
  constructor; [exact Hin | constructor].
Qed.

Section FetchQueue.
Context `{JsonParser} `{TextProto}.
Variable r : Resolver.

Lemma resolveSingleFetch_queue (ctx : Context) (fetch : SingleFetch)
    (preparedInput : bytes) (buf : BufPair) :
  queue (ctxOf (resolveSingleFetch r ctx fetch preparedInput buf)) = queue ctx.
Proof.
  unfold resolveSingleFetch, ctxOf.
  destruct (negb (EnableSingleFlightLoader r) || DisallowSingleFlight fetch);
    destruct (Load (dataSource fetch) preparedInput) as [dataBuf err].
  - cbn [fst]. rewrite !queue_callHook. reflexivity.
  - destruct (HasData _), (HasErrors _); cbn [fst];
      rewrite ?queue_callHook; reflexivity.
Qed.

Lemma runFetches_queue (fetches : list SingleFetch) (preparedInputs : list bytes)
    (ctx : Context) (set : resultSet) :
  queue (fst (runFetches r ctx fetches preparedInputs set)) = queue ctx.
Proof.
  revert preparedInputs ctx set.
  induction fetches as [| f fetches IH]; intros [| input inputs] ctx set;
    try reflexivity.
  cbn [runFetches].
  pose proof (resolveSingleFetch_queue ctx f input
                (default NewBufPair (buffers set !! BufferId f))) as Hq.
  destruct (resolveSingleFetch r ctx f input _) as [[ctx' buf'] e].
  unfold ctxOf in Hq. cbn [fst] in Hq.
  rewrite IH. exact Hq.
Qed.

Lemma resolveFetch_queue (ctx : Context) (fetch : Fetch) (data : bytes)
    (set : resultSet) :
  queue (fst (fst (resolveFetch r ctx fetch data set))) = queue ctx.
Proof.
  unfold resolveFetch. destruct fetch as [f | fetches].
  - destruct (prepareSingleFetch ctx f data set []) as [[set' input] [e |]];
      [reflexivity |].
    pose proof (resolveSingleFetch_queue ctx f input
                  (default NewBufPair (buffers set' !! BufferId f))) as Hq.
    destruct (resolveSingleFetch r ctx f input _) as [[ctx' buf'] e'].
    exact Hq.
  - destruct (prepareFetches ctx fetches data set []) as [[set' inputs] [e |]];
      [reflexivity |].
    pose proof (runFetches_queue fetches inputs ctx set') as Hq.
    destruct (runFetches r ctx fetches inputs set') as [ctx' set''].
    exact Hq.
Qed.

End FetchQueue.

Section WalkQueue.
Context `{JsonParser} `{TextProto}.
Variable r : Resolver.
Variable indices : list Z.

Section LoopsQueue.
Variable rec : Node -> Context -> bytes -> BufPair -> Result.

Lemma resolveField_queue (o : Object) (data : bytes) (set : option resultSet)
    (f : Field) (st : fieldsState) :
  EnqueuesOnly indices (rec (Value f)) ->
  match resolveField rec o data set f st with
  | Continue st' => Enqueues indices (fs_ctx st) (fs_ctx st')
  | Return res => Enqueues indices (fs_ctx st) (ctxOf res)
  end.
Proof.
  intros Hrec. unfold resolveField.
  destruct (typeNameMismatch (fieldDataOf set data f) f); [apply Enqueues_refl |].
  cbv zeta.
  pose proof (Hrec (setPosition (addPathElement (fs_ctx st) (Name f)) (fieldPosition f))
                (fieldDataOf set data f) (fs_fieldBuf st)) as Hq.
  destruct (rec (Value f) _ _ _) as [[c2 fieldBuf] err].
  unfold ctxOf in Hq. cbn [fst] in Hq.
  assert (Hq' : Enqueues indices (fs_ctx st) (removeLastPathElement c2)).
  { revert Hq. apply Enqueues_queue; reflexivity. }
  destruct err as [e |].
  - destruct (is_errTypeNameSkipped e); [exact Hq' |].
    destruct (is_errNonNullableFieldValueIsNull e); [| exact Hq'].
    destruct (MergeBufPairErrors _ _) as [fb ob].
    destruct (ObjectNullable o); exact Hq'.
  - destruct (MergeBufPairs _ _ _) as [fb ob]. exact Hq'.
Qed.

Lemma resolveFields_queue (o : Object) (data : bytes) (set : option resultSet)
    (fields : list Field) (st : fieldsState) :
  Forall (fun f => EnqueuesOnly indices (rec (Value f))) fields ->
  match resolveFields rec o data set fields st with
  | Continue st' => Enqueues indices (fs_ctx st) (fs_ctx st')
  | Return res => Enqueues indices (fs_ctx st) (ctxOf res)
  end.
Proof.
  intros Hall. revert st. induction Hall as [| f fields Hf _ IH]; intros st.
  - apply Enqueues_refl.
  - cbn [resolveFields].
    pose proof (resolveField_queue o data set f st Hf) as Hstep.
    destruct (resolveField rec o data set f st) as [st' | res]; [| exact Hstep].
    specialize (IH st').
    destruct (resolveFields rec o data set fields st');
      eapply Enqueues_trans; eassumption.
Qed.

Lemma resolveObjectFields_queue (ctx : Context) (o : Object) (data : bytes)
    (objectBuf : BufPair) :
  Forall (fun f => EnqueuesOnly indices (rec (Value f))) (Fields o) ->
  Enqueues indices ctx (ctxOf (resolveObjectFields r rec ctx o data objectBuf)).
Proof.
  intros Hall. unfold resolveObjectFields.
  destruct (ObjectFetch o) as [fetch |].
  - pose proof (resolveFetch_queue r ctx fetch data {| buffers := ∅ |}) as Hq.
    destruct (resolveFetch r ctx fetch data _) as [[ctx' set] [e |]];
      cbn [fst] in Hq; [apply Enqueues_same; exact Hq |].
    destruct (mergeFetchErrors set objectBuf) as [set' objectBuf'].
    apply (Enqueues_trans indices ctx ctx'); [apply Enqueues_same; exact Hq |].
    match goal with
    | |- context [resolveFields rec o data ?s (Fields o) ?st0] =>
        pose proof (resolveFields_queue o data s (Fields o) st0 Hall) as Hloop;
        destruct (resolveFields rec o data s (Fields o) st0) as [st | res]
    end; cbn [fs_ctx] in Hloop; [| exact Hloop].
    destruct (fs_first st); [destruct (fs_typeNameSkip st);
      [| destruct (negb (ObjectNullable o))] |]; exact Hloop.
  - match goal with
    | |- context [resolveFields rec o data ?s (Fields o) ?st0] =>
        pose proof (resolveFields_queue o data s (Fields o) st0 Hall) as Hloop;
        destruct (resolveFields rec o data s (Fields o) st0) as [st | res]
    end; cbn [fs_ctx] in Hloop; [| exact Hloop].
    destruct (fs_first st); [destruct (fs_typeNameSkip st);
      [| destruct (negb (ObjectNullable o))] |]; exact Hloop.
Qed.

Lemma resolveObject_queue (o : Object) :
  Forall (fun f => EnqueuesOnly indices (rec (Value f))) (Fields o) ->
  EnqueuesOnly indices (fun ctx => resolveObject r rec ctx o).
Proof.
  intros Hall ctx data objectBuf. unfold resolveObject.
  destruct (negb (length (ObjectPath o) =? 0)%nat);
    [| apply resolveObjectFields_queue; exact Hall].
  destruct (Get data (ObjectPath o)) as [[value t] e].
  destruct (length (slice_bytes value) =? 0)%nat;
    [destruct (ObjectNullable o); apply Enqueues_refl |].
  apply resolveObjectFields_queue; exact Hall.
Qed.

End LoopsQueue.

Section ArrayQueue.
Variable resolveItem : Context -> bytes -> BufPair -> Result.
Hypothesis resolveItem_queue : EnqueuesOnly indices resolveItem.

Lemma resolveArrayItem_queue (array : Array) (i : nat) (item : bytes)
    (st : arrayState) :
  (StreamEnabled (ArrayStream array) = true ->
   In (StreamPatchIndex (ArrayStream array)) indices) ->
  match resolveArrayItem resolveItem array i item st with
  | Continue st' => Enqueues indices (as_ctx st) (as_ctx st')
  | Return res => Enqueues indices (as_ctx st) (ctxOf res)
  end.
Proof using resolveItem_queue.
  intros Hstream. unfold resolveArrayItem.
  destruct (beyondInitialBatch array i) eqn:Hbeyond.
  - cbn [as_ctx].
    assert (Hin : In (StreamPatchIndex (ArrayStream array)) indices).
    { apply Hstream. unfold beyondInitialBatch in Hbeyond.
      destruct (StreamEnabled (ArrayStream array)); [reflexivity | discriminate]. }
    pose proof (Enqueues_preparePatch indices
                  (addIntegerPathElement (as_ctx st) (Z.of_nat i))
                  (StreamPatchIndex (ArrayStream array)) None item Hin) as Hq.
    revert Hq. apply Enqueues_queue; reflexivity.
  - pose proof (resolveItem_queue (addIntegerPathElement (as_ctx st) (Z.of_nat i))
                  item (as_itemBuf st)) as Hq.
    destruct (resolveItem _ _ _) as [[c2 itemBuf] err].
    unfold ctxOf in Hq. cbn [fst] in Hq.
    assert (Hq' : Enqueues indices (as_ctx st) (removeLastPathElement c2)).
    { revert Hq. apply Enqueues_queue; reflexivity. }
    destruct err as [e |].
    + destruct (is_errNonNullableFieldValueIsNull e && ArrayNullable array);
        [exact Hq' |].
      destruct (is_errTypeNameSkipped e); exact Hq'.
    + destruct (MergeBufPairs _ _ _) as [ib ab]. exact Hq'.
Qed.

Lemma resolveArrayItems_queue (array : Array) (arrayItems : list bytes) (i : nat)
    (st : arrayState) :
  (StreamEnabled (ArrayStream array) = true ->
   In (StreamPatchIndex (ArrayStream array)) indices) ->
  match resolveArrayItems resolveItem array i arrayItems st with
  | Continue st' => Enqueues indices (as_ctx st) (as_ctx st')
  | Return res => Enqueues indices (as_ctx st) (ctxOf res)
  end.
Proof using resolveItem_queue.
  intros Hstream. revert i st. induction arrayItems as [| item arrayItems IH]; intros i st.
  - apply Enqueues_refl.
  - cbn [resolveArrayItems].
    pose proof (resolveArrayItem_queue array i item st Hstream) as Hstep.
    destruct (resolveArrayItem resolveItem array i item st) as [st' | res];
      [| exact Hstep].
    specialize (IH (S i) st').
    destruct (resolveArrayItems resolveItem array (S i) arrayItems st');
      eapply Enqueues_trans; eassumption.
Qed.

Lemma resolveArray_queue (array : Array) :
  (StreamEnabled (ArrayStream array) = true ->
   In (StreamPatchIndex (ArrayStream array)) indices) ->
  EnqueuesOnly indices (fun ctx => resolveArray r resolveItem ctx array).
Proof using resolveItem_queue.
  intros Hstream ctx data arrayBuf. unfold resolveArray.
  destruct (bytes_Equal data emptyArray); [apply Enqueues_refl |].
  destruct (length _ =? 0)%nat;
    [destruct (negb (ArrayNullable array)); apply Enqueues_refl |].
  destruct (ResolveAsynchronous array && negb (StreamEnabled (ArrayStream array))).
  - unfold resolveArrayAsynchronous.
    destruct (firstTaskError _ _) as [e |]; [| apply Enqueues_refl].
    destruct (is_errNonNullableFieldValueIsNull e && ArrayNullable array);
      apply Enqueues_refl.
  - unfold resolveArraySynchronous.
    match goal with
    | |- context [resolveArrayItems resolveItem array 0 ?l ?st0] =>
        pose proof (resolveArrayItems_queue array l 0 st0 Hstream) as Hloop;
        destruct (resolveArrayItems resolveItem array 0 l st0) as [st | res]
    end; exact Hloop.
Qed.

End ArrayQueue.
End WalkQueue.

Lemma patchIndices_object (o : Object) :
  patchIndices (NObject o) = flat_map (fun f => patchIndices (Value f)) (Fields o).
Proof.
  destruct o as [nullable path fields fetch]. cbn [patchIndices Fields].
  induction fields as [| [name v pos hb id tn] fields IH]; [reflexivity |].
  cbn [flat_map Value]. rewrite <- IH. reflexivity.
Qed.

Lemma patchIndices_array (a : Array) :
  patchIndices (NArray a)
  = (if StreamEnabled (ArrayStream a) then [StreamPatchIndex (ArrayStream a)] else [])
    ++ patchIndices (Item a).
Proof. destruct a; reflexivity. Qed.

Lemma resolveNode_queue `{JsonParser} `{TextProto} (r : Resolver) (node : Node)
    (ctx : Context) (data : bytes) (buf : BufPair) :
  Enqueues (patchIndices node) ctx (ctxOf (resolveNode r node ctx data buf)).
Proof.
  revert ctx data buf.
  change (EnqueuesOnly (patchIndices node) (resolveNode r node)).
  induction node as [o IH | | a IH | | d | p n | p n | p n | p n] using Node_induction;
    intros ctx data buf.
  - cbn [resolveNode]. apply resolveObject_queue.
    rewrite patchIndices_object.
    induction IH as [| f fields Hf _ IHfields]; [constructor |].
    constructor.
    + intros c d b. apply (Enqueues_mono (patchIndices (Value f))); [| apply Hf].
      cbn [flat_map]. apply incl_appl, incl_refl.
    + eapply List.Forall_impl; [| exact IHfields].
      intros f' Hf' c d b. eapply Enqueues_mono; [| apply Hf'].
      cbn [flat_map]. apply incl_appr, incl_refl.
  - apply Enqueues_refl.
  - cbn [resolveNode]. rewrite patchIndices_array. apply resolveArray_queue.
    + intros c d b. eapply Enqueues_mono; [| apply IH]. apply incl_appr, incl_refl.
    + intros ->. left. reflexivity.
  - apply Enqueues_refl.
  - cbn [resolveNode patchIndices]. destruct (DeferEnabled d).
    + apply Enqueues_preparePatch. left. reflexivity.
    + apply Enqueues_refl.
  - cbn [resolveNode]. destruct (resolveString p n data buf). apply Enqueues_refl.
  - cbn [resolveNode]. destruct (resolveBoolean p n data buf). apply Enqueues_refl.
  - cbn [resolveNode]. destruct (resolveInteger p n data buf). apply Enqueues_refl.
  - cbn [resolveNode]. destruct (resolveFloat p n data buf). apply Enqueues_refl.
Qed.

(** X6: the walk of a plan never pops or reorders the patch queue:
    it leaves the cursor where it was and only adds patches at the end, one
    per deferred null or streamed element, each under the patch index of such
    a node of the plan, and [maxPatch] grows by their number. *)
Theorem resolveNode_enqueues `{JsonParser} `{TextProto} (r : Resolver) (node : Node)
    (ctx : Context) (data : bytes) (buf : BufPair) :
  currentPatch (ctxOf (resolveNode r node ctx data buf)) = currentPatch ctx
  /\ exists added,
       patches (ctxOf (resolveNode r node ctx data buf)) = patches ctx ++ added
       /\ maxPatch (ctxOf (resolveNode r node ctx data buf))
          = maxPatch ctx + Z.of_nat (length added)
       /\ Forall (fun p => In (patch_index p) (patchIndices node)) added.
Proof.
  exact (resolveNode_queue r node ctx data buf).
Qed.

Lemma Enqueues_nil (c c' : Context) : Enqueues [] c c' -> queue c' = queue c.
Proof.
  intros (Hc & added & Hp & Hm & Ha).
  destruct added as [| p added].
  - unfold queue. rewrite Hp, Hm, Hc, app_nil_r. cbn [length]. f_equal. f_equal. lia.
  - inversion Ha as [| ? ? Hin _]. destruct Hin.
Qed.

Lemma Enqueues_balanced (indices : list Z) (c c' : Context) :
  Enqueues indices c c' -> balanced c -> balanced c'.
Proof.
  intros (Hc & added & Hp & Hm & _) [Hmax Hcur]. unfold balanced.
  rewrite Hp, Hm, Hc, Hmax, length_app. split; lia.
Qed.

(** X7: a patch queue that is balanced ([maxPatch] is the index of its
    last patch and the cursor is not before its front, as in a new context)
    stays balanced when a patch is added, when the next patch is popped and
    when a plan is walked; and popping from a balanced queue never indexes the
    patches out of range. *)
Theorem balanced_invariant `{JsonParser} `{TextProto} (r : Resolver) (c : Context) :
  balanced c ->
  (forall index path extraPath data,
     balanced (addPatch c index path extraPath data))
  /\ balanced (fst (popNextPatch c))
  /\ snd (popNextPatch c) <> None
  /\ (forall node data buf, balanced (ctxOf (resolveNode r node c data buf))).
Proof.
  intros [Hmax Hcur]. split; [| split; [| split]].
  - intros index p e d. unfold balanced.
    cbn [addPatch maxPatch patches currentPatch]. rewrite length_app. cbn [length].
    split; lia.
  - unfold popNextPatch. cbn [set_currentPatch maxPatch currentPatch patches].
    destruct (maxPatch c <? currentPatch c + 1);
      [| destruct (currentPatch c + 1 <? 0);
         [| destruct (patches c !! Z.to_nat (currentPatch c + 1))]];
      cbn [fst]; unfold balanced; cbn [set_currentPatch maxPatch currentPatch patches];
      split; lia.
  - unfold popNextPatch. cbn [set_currentPatch maxPatch currentPatch patches].
    destruct (Z.ltb_spec (maxPatch c) (currentPatch c + 1)) as [_ | Hle];
      [discriminate |].
    destruct (Z.ltb_spec (currentPatch c + 1) 0) as [Hlt | _]; [lia |].
    destruct (patches c !! Z.to_nat (currentPatch c + 1)) as [p |] eqn:Hp;
      [discriminate |].
    apply lookup_ge_None in Hp. lia.
  - intros node data buf.
    apply (Enqueues_balanced (patchIndices node) c); [| split; assumption].
    apply resolveNode_queue.
Qed.

Lemma balanced_invariant_witness :
  let r := {| EnableSingleFlightLoader := false;
              completionOrder := fun _ arrayItems => seq 0 (length arrayItems) |} in
  balanced NewContext
  /\ (forall index path extraPath data,
        balanced (addPatch NewContext index path extraPath data))
  /\ balanced (fst (popNextPatch NewContext))
  /\ snd (popNextPatch NewContext) <> None
  /\ (forall node data buf,
        balanced
          (ctxOf (resolveNode (H := Reference.jsonparser) (H0 := Reference.textproto)
                    r node NewContext data buf))).
Proof.
  intros r.
  assert (Hbal : balanced NewContext) by (split; [reflexivity | simpl; lia]).
  split; [exact Hbal |].
  exact (balanced_invariant (H := Reference.jsonparser) (H0 := Reference.textproto)
           r NewContext Hbal).
Defined.

(** X8: a streaming response whose initial plan has no deferred null and
    no streamed array is the plain response followed by one flush: no patch
    is looked for beyond the first pop and no patch array is written. *)
Theorem ResolveGraphQLStreamingResponse_plain `{JsonParser} `{TextProto} {W : Type}
    `{FlushWriter W} (r : Resolver) (clock : Clock) (fuel : nat) (ctx : Context)
    (response : GraphQLStreamingResponse) (data : bytes) (writer : W) :
  cursorsInitial ctx ->
  patchIndices (ResponseData (InitialResponse response)) = [] ->
  exists ctx',
    ResolveGraphQLStreamingResponse r clock (S fuel) ctx response data writer
    = match ResolveGraphQLResponse r ctx (InitialResponse response) data writer with
      | (_, writer', Some err) => Some (ctx', writer', Some err)
      | (_, writer', None) => Some (ctx', Flush writer', None)
      end.
Proof.
  intros [Hmax Hcur] Hplain. unfold ResolveGraphQLStreamingResponse, validateContext.
  rewrite Hmax, Hcur. cbn [Z.eqb negb orb Pos.eqb].
  assert (Hq : queue (fst (fst (ResolveGraphQLResponse r ctx (InitialResponse response)
                                  data writer))) = queue ctx).
  { rewrite ResolveGraphQLResponse_walk.
    pose proof (resolveNode_queue r (ResponseData (InitialResponse response)) ctx
                  (envelopeData data) NewBufPair) as Hq.
    rewrite Hplain in Hq. apply Enqueues_nil in Hq.
    destruct (resolveNode r _ ctx (envelopeData data) NewBufPair) as [[c1 walked] err].
    unfold ctxOf in Hq. cbn [fst] in Hq.
    cbv zeta.
    destruct err as [e |]; [destruct (is_errNonNullableFieldValueIsNull e) |];
      try match goal with
      | |- context [writeGraphqlResponse ?b ?w ?i] =>
          destruct (writeGraphqlResponse b w i)
      end; exact Hq. }
  destruct (ResolveGraphQLResponse r ctx (InitialResponse response) data writer)
    as [[c1 w1] [e |]].
  - exists c1. reflexivity.
  - cbn [fst] in Hq. apply queue_inv in Hq. destruct Hq as (_ & Hm1 & Hc1).
    cbn [streamPatches]. destruct (cancelled clock 0).
    + exists c1. reflexivity.
    + unfold popNextPatch. cbn [set_currentPatch maxPatch currentPatch].
      rewrite Hm1, Hc1, Hmax, Hcur. cbn [Z.add Z.ltb Z.compare Z.pos_sub].
      eexists. reflexivity.
Qed.

Lemma ResolveGraphQLStreamingResponse_plain_witness :
  let r := {| EnableSingleFlightLoader := false;
              completionOrder := fun _ arrayItems => seq 0 (length arrayItems) |} in
  let clock := {| cancelled := fun _ => false; flushDue := fun _ => false |} in
  let hello :=
    mkField (B "hello") (NString (Some ["hello"%string]) false)
      {| Line := 1; Column := 2 |} false 0 None in
  let response :=
    {| InitialResponse := {| ResponseData := NObject (mkObject false [] [hello] None) |};
       Patches := []; FlushInterval := 0 |} in
  let data :=
    B "{" ++ quote ++ B "data" ++ quote ++ B ":{" ++ quote ++ B "hello" ++ quote
    ++ B ":" ++ quote ++ B "world" ++ quote ++ B "}}" in
  let writer := {| pending := []; flushed := [] |} in
  cursorsInitial NewContext
  /\ patchIndices (ResponseData (InitialResponse response)) = []
  /\ (exists ctx',
        ResolveGraphQLStreamingResponse (H := Reference.jsonparser)
          (H0 := Reference.textproto) r clock 1 NewContext response data writer
        = match
            ResolveGraphQLResponse (H := Reference.jsonparser)
              (H0 := Reference.textproto) r NewContext (InitialResponse response) data
              writer
          with
          | (_, writer', Some err) => Some (ctx', writer', Some err)
          | (_, writer', None) => Some (ctx', Flush writer', None)
          end)
  /\ snd (fst (ResolveGraphQLResponse (H := Reference.jsonparser)
                 (H0 := Reference.textproto) r NewContext (InitialResponse response)
                 data writer))
     = {| pending :=
            B "{" ++ quote ++ B "data" ++ quote ++ B ":{" ++ quote ++ B "hello"
            ++ quote ++ B ":" ++ quote ++ B "world" ++ quote ++ B "}}";
          flushed := [] |}.
Proof.
  intros r clock hello response data writer.
  assert (Hinit : cursorsInitial NewContext) by (split; reflexivity).
  split; [exact Hinit |]. split; [reflexivity |]. split.
  - exact (ResolveGraphQLStreamingResponse_plain (H := Reference.jsonparser)
             (H0 := Reference.textproto) r clock 0 NewContext response data writer
             Hinit eq_refl).
  - vm_compute. reflexivity.
Defined.

(** ** Patches *)

Section PatchProperties.
Context `{JsonParser} `{TextProto} {W : Type} `{Writer W}.
Variable r : Resolver.
Variable contents : W -> bytes.
Hypothesis appends : Appends contents.

Lemma patchFrame_appends (operation path value : bytes) (w : W) :
  exists w',
    (let st := safely lBrace (w, None) in
     let st := safely quote st in
     let st := safely literal.OP st in
     let st := safely quote st in
     let st := safely colon st in
     let st := safely quote st in
     let st := safely operation st in
     let st := safely quote st in
     let st := safely comma st in
     let st := safely quote st in
     let st := safely literal.PATH st in
     let st := safely quote st in
     let st := safely colon st in
     let st := safely quote st in
     let st := safely path st in
     let st := safely quote st in
     let st := safely comma st in
     let st := safely quote st in
     let st := safely literal.VALUE st in
     let st := safely quote st in
     let st := safely colon st in
     let st := Write (fst st) value in
     safely rBrace st) = (w', None)
    /\ contents w' = contents w ++ patchFrame operation path value.
Proof using appends.
  cbv zeta. unfold patchFrame.
  repeat match goal with
  | |- context [safely ?d (?w0, None)] =>
      let w1 := fresh "w" in let Hw := fresh "Hw" in let Hc := fresh "Hc" in
      destruct (safely_appends contents appends d w0) as [w1 [Hw Hc]]; rewrite Hw; clear Hw;
      cbn [fst snd]
  | |- context [Write ?w0 ?d] =>
      let w1 := fresh "w" in let Hw := fresh "Hw" in let Hc := fresh "Hc" in
      destruct (appends w0 d) as [w1 [Hw Hc]]; rewrite Hw; clear Hw;
      cbn [fst snd]
  end.
  eexists. split; [reflexivity |].
  repeat match goal with Hc : contents _ = _ |- _ => rewrite Hc; clear Hc end.
  rewrite <- !app_assoc. reflexivity.
Qed.

End PatchProperties.

Lemma ResolveGraphQLResponsePatch_writes `{JsonParser} `{TextProto} (r : Resolver)
    (ctx : Context) (patch : GraphQLResponsePatch) (data path : bytes)
    (extraPath : option bytes) (W : Type) (HW : Writer W) (contents : W -> bytes)
    (writer : W) :
  Appends contents ->
  exists writer',
    ResolveGraphQLResponsePatch r ctx patch data path extraPath writer
    = (ctxOf (patchWalk r ctx patch data path extraPath), writer',
       errOf (patchWalk r ctx patch data path extraPath))
    /\ contents writer'
       = contents writer
         ++ (if isSome (errOf (patchWalk r ctx patch data path extraPath))
                || HasErrors (bufOf (patchWalk r ctx patch data path extraPath))
                || negb (HasData (bufOf (patchWalk r ctx patch data path extraPath)))
             then []
             else patchFrame (Operation patch) path
                    (Data (bufOf (patchWalk r ctx patch data path extraPath)))).
Proof.
  intros Happ.
  assert (Hwalked : forall (c : Context) (d : bytes) (b : BufPair),
    exists writer',
      match resolveNode r (PatchValue patch) c d b with
      | (ctx, buf, Some err) => (ctx, writer, Some err)
      | (ctx, buf, None) =>
          let hasErrors := negb (length (Errors buf) =? 0)%nat in
          let hasData := negb (length (Data buf) =? 0)%nat in
          if hasErrors then (ctx, writer, None)
          else if hasData then
            let st := safely lBrace (writer, None) in
            let st := safely quote st in
            let st := safely literal.OP st in
            let st := safely quote st in
            let st := safely colon st in
            let st := safely quote st in
            let st := safely (Operation patch) st in
            let st := safely quote st in
            let st := safely comma st in
            let st := safely quote st in
            let st := safely literal.PATH st in
            let st := safely quote st in
            let st := safely colon st in
            let st := safely quote st in
            let st := safely path st in
            let st := safely quote st in
            let st := safely comma st in
            let st := safely quote st in
            let st := safely literal.VALUE st in
            let st := safely quote st in
            let st := safely colon st in
            let st := Write (fst st) (Data buf) in
            let '(writer, err) := safely rBrace st in
            (ctx, writer, err)
          else (ctx, writer, None)
      end
      = (ctxOf (resolveNode r (PatchValue patch) c d b), writer',
         errOf (resolveNode r (PatchValue patch) c d b))
      /\ contents writer'
         = contents writer
           ++ (if isSome (errOf (resolveNode r (PatchValue patch) c d b))
                  || HasErrors (bufOf (resolveNode r (PatchValue patch) c d b))
                  || negb (HasData (bufOf (resolveNode r (PatchValue patch) c d b)))
               then []
               else patchFrame (Operation patch) path
                      (Data (bufOf (resolveNode r (PatchValue patch) c d b))))).
  { intros c d b.
    destruct (resolveNode r (PatchValue patch) c d b) as [[c1 buf] [e |]];
      unfold ctxOf, bufOf, errOf; cbn [fst snd isSome orb].
    - exists writer. rewrite app_nil_r. split; reflexivity.
    - unfold HasErrors, HasData. cbv zeta.
      destruct (negb (length (Errors buf) =? 0)%nat); cbn [orb].
      + exists writer. rewrite app_nil_r. split; reflexivity.
      + destruct (negb (length (Data buf) =? 0)%nat); cbn [negb].
        * destruct (patchFrame_appends contents Happ (Operation patch) path (Data buf)
                      writer) as (w' & Hw & Hc).
          cbv zeta in Hw. exists w'. split; [| exact Hc]. rewrite Hw. reflexivity.
        * exists writer. rewrite app_nil_r. split; reflexivity. }
  unfold ResolveGraphQLResponsePatch, patchWalk. cbv zeta.
  destruct (PatchFetch patch) as [fetch |].
  - destruct (resolveFetch r (set_pathPrefix ctx (path ++ slice_bytes extraPath)) fetch
                data {| buffers := ∅ |}) as [[c set] [e |]].
    + exists writer. unfold ctxOf, bufOf, errOf. cbn [fst snd isSome orb].
      rewrite app_nil_r. split; reflexivity.
    + destruct (buffers set !! 0) as [fetched |].
      * rewrite MergeBufPairErrors_spec. cbn [snd NewBufPair Data Errors HasErrors
          length Nat.eqb negb andb app].
        apply Hwalked.
      * apply Hwalked.
  - apply Hwalked.
Qed.

(** X9: resolving a patch writes at most one frame. When the fetch of the
    patch fails, its error is returned and nothing is written, and so when
    the walk of the value of the patch fails; when the walk leaves errors,
    or no data, nothing is written either and no error is returned;
    otherwise exactly one frame [{"op":operation,"path":path,"value":data}]
    is written, with the path as given (without the extra path) and the data
    the walk left. The value is walked under the path prefix
    [path ++ extraPath], against the data given or, when the patch has a
    fetch, against the data the fetch left in the buffer of id 0. *)
Theorem ResolveGraphQLResponsePatch_frame `{JsonParser} `{TextProto} {W : Type}
    `{Writer W} (r : Resolver) (contents : W -> bytes) (ctx : Context)
    (patch : GraphQLResponsePatch) (data path : bytes) (extraPath : option bytes)
    (writer : W) :
  Appends contents ->
  let walk := patchWalk r ctx patch data path extraPath in
  exists writer' : W,
    ResolveGraphQLResponsePatch r ctx patch data path extraPath writer
    = (ctxOf walk, writer', errOf walk)
    /\ contents writer'
       = contents writer
         ++ (if isSome (errOf walk) || HasErrors (bufOf walk)
                || negb (HasData (bufOf walk))
             then []
             else patchFrame (Operation patch) path (Data (bufOf walk))).
Proof.
  intros Happ walk. subst walk.
  exact (ResolveGraphQLResponsePatch_writes r ctx patch data path extraPath W _
           contents writer Happ).
Qed.

Lemma ResolveGraphQLResponsePatch_frame_witness :
  let r := {| EnableSingleFlightLoader := false;
              completionOrder := fun _ arrayItems => seq 0 (length arrayItems) |} in
  let fetch := fun (reply : bytes * option error) =>
    FetchSingle
      {| BufferId := 0; dataSource := {| Load := fun _ => reply |};
         DisallowSingleFlight := false; inputTemplate := {| Segments := [] |};
         DataSourceIdentifier := B "rest";
         processResponseConfig :=
           {| ExtractGraphqlResponse := false; ExtractFederationEntities := false |} |} in
  let patch := fun reply =>
    {| PatchValue := NInteger ["n"%string] false; PatchFetch := Some (fetch reply);
       Operation := B "replace" |} in
  let record := B "{" ++ quote ++ B "n" ++ quote ++ B ":7}" in
  let resolved := fun reply =>
    ResolveGraphQLResponsePatch (H := Reference.jsonparser) (H0 := Reference.textproto)
      r NewContext (patch reply) (B "null") (B "/data/later") None (@nil ascii) in
  let walk :=
    patchWalk (H := Reference.jsonparser) (H0 := Reference.textproto) r NewContext
      (patch (record, None)) (B "null") (B "/data/later") None in
  Appends (fun w : bytes => w)
  /\ (exists writer' : bytes,
        resolved (record, None) = (ctxOf walk, writer', errOf walk)
        /\ writer'
           = [] ++ (if isSome (errOf walk) || HasErrors (bufOf walk)
                       || negb (HasData (bufOf walk))
                    then []
                    else patchFrame (Operation (patch (record, None))) (B "/data/later")
                           (Data (bufOf walk))))
  /\ snd (fst (resolved (record, None)))
     = B "{" ++ quote ++ B "op" ++ quote ++ B ":" ++ quote ++ B "replace" ++ quote
       ++ B "," ++ quote ++ B "path" ++ quote ++ B ":" ++ quote ++ B "/data/later"
       ++ quote ++ B "," ++ quote ++ B "value" ++ quote ++ B ":7}"
  /\ snd (fst (resolved ([], Some (errDataSource "down")))) = []
  /\ snd (resolved ([], Some (errDataSource "down"))) = Some (errDataSource "down").
Proof.
  intros r fetch patch record resolved walk.
  split; [exact BufferWriter_appends |]. split.
  - exact (ResolveGraphQLResponsePatch_frame (H := Reference.jsonparser)
             (H0 := Reference.textproto) r (fun w : bytes => w) NewContext
             (patch (record, None)) (B "null") (B "/data/later") None []
             BufferWriter_appends).
  - split; [vm_compute; reflexivity |]. split; vm_compute; reflexivity.
Defined.

(** ** Errors and upstream responses *)

(** X10: errors written one after the other form a comma-separated
    list of error objects after the errors the pair already held, without a
    leading or a trailing comma; the data of the pair are not touched. *)
Theorem WriteErr_joins
    (errs : list (bytes * option bytes * option bytes * option bytes))
    (b : BufPair) :
  fold_left
    (fun b '(message, locations, path, extensions) =>
       WriteErr b message locations path extensions) errs b
  = {| Data := Data b;
       Errors :=
         joinErrors (Errors b)
           (bytes_Join
              (map (fun '(message, locations, path, extensions) =>
                      errorObject message locations path extensions) errs)
              comma) |}.
Proof.
  assert (Hfold : forall b,
    fold_left
      (fun b '(message, locations, path, extensions) =>
         WriteErr b message locations path extensions) errs b
    = {| Data := Data b;
         Errors :=
           writtenOnto (Errors b)
             (map (fun '(message, locations, path, extensions) =>
                     errorObject message locations path extensions) errs) |}).
  { clear b. induction errs as [| [[[m l] p] e] errs IH]; intros b.
    - destruct b; reflexivity.
    - cbn [fold_left map]. rewrite IH, WriteErr_spec. cbn [Data Errors].
      unfold HasErrors. reflexivity. }
  rewrite Hfold. f_equal. apply writtenOnto_joins.
  apply List.Forall_forall. intros o Hin. apply in_map_iff in Hin.
  destruct Hin as ([[[m l] p] e] & <- & _). apply errorObject_nonempty.
Qed.

Section ExtractProperties.
Context `{JsonParser}.

Lemma extractResponse_fold_cfg (federation : bool)
    (entries : list (nat * bytes * ValueType)) (bufPair : BufPair) :
  fold_left
    (fun bufPair '(i, bytes, _) =>
       if (i =? rootErrorsPathIndex)%nat then
         fold_left (fun bufPair '(value, _) => extractError bufPair value)
           (fst (ArrayEach bytes [])) bufPair
       else if (i =? rootDataPathIndex)%nat then
         if federation then
           let '(data, _, _) := Get bytes entitiesPath in
           Data_WriteBytes bufPair (slice_bytes data)
         else Data_WriteBytes bufPair bytes
       else bufPair)
    entries bufPair
  = {| Data :=
         Data bufPair
         ++ concat
              (map (fun '(i, bytes, _) =>
                      if (i =? rootDataPathIndex)%nat then
                        if federation
                        then slice_bytes (fst (fst (Get bytes entitiesPath)))
                        else bytes
                      else []) entries);
       Errors :=
         writtenOnto (Errors bufPair)
           (flat_map
              (fun '(i, bytes, _) =>
                 if (i =? rootErrorsPathIndex)%nat then messageErrors bytes else [])
              entries) |}.
Proof.
  revert bufPair. induction entries as [| [[i bytes] t] entries IH]; intros bufPair.
  - destruct bufPair; simpl. rewrite app_nil_r. reflexivity.
  - cbn [fold_left flat_map map concat]. rewrite IH.
    destruct i as [| [| i]]; cbn [Nat.eqb rootErrorsPathIndex rootDataPathIndex].
    + rewrite extractErrors_fold. cbn [Data Errors]. rewrite writtenOnto_app.
      reflexivity.
    + destruct federation.
      * destruct (Get bytes entitiesPath) as [[d t'] e]. cbn [fst].
        cbn [Data_WriteBytes Data Errors app]. rewrite <- app_assoc. reflexivity.
      * cbn [Data_WriteBytes Data Errors app]. rewrite <- app_assoc. reflexivity.
    + reflexivity.
Qed.

Lemma extractResponse_onto (responseData : bytes) (bufPair : BufPair)
    (cfg : ProcessResponseConfig) :
  extractResponse responseData bufPair cfg
  = {| Data := Data bufPair ++ Data (extractResponse responseData NewBufPair cfg);
       Errors :=
         Errors bufPair
         ++ (if HasErrors bufPair
                && HasErrors (extractResponse responseData NewBufPair cfg)
             then comma else [])
         ++ Errors (extractResponse responseData NewBufPair cfg) |}.
Proof.
  unfold extractResponse.
  destruct (length responseData =? 0)%nat.
  { cbn [NewBufPair Data Errors HasErrors length Nat.eqb negb].
    rewrite andb_false_r, !app_nil_r. destruct bufPair; reflexivity. }
  destruct (negb (ExtractGraphqlResponse cfg)).
  { cbn [Data_WriteBytes NewBufPair Data Errors HasErrors length Nat.eqb negb app].
    rewrite andb_false_r, !app_nil_r. reflexivity. }
  rewrite !extractResponse_fold_cfg. cbn [NewBufPair Data Errors app].
  f_equal.
  set (objects := flat_map _ (EachKey responseData responsePaths)).
  assert (Hne : Forall (fun o => o <> []) objects).
  { unfold objects. induction (EachKey responseData responsePaths) as [| [[i bytes] t] l IH].
    - constructor.
    - cbn [flat_map]. apply Forall_app. split; [| exact IH].
      destruct (i =? rootErrorsPathIndex)%nat;
        [apply messageErrors_nonempty | constructor]. }
  rewrite !(writtenOnto_joins _ objects Hne). unfold joinErrors, HasErrors.
  cbn [length Nat.eqb negb andb app]. reflexivity.
Qed.

(** X11: extracting a response onto a buffer pair that already holds
    data or errors gives what extracting it onto an empty pair and merging
    that pair gives: the data are appended and the errors are joined with
    one comma when both sides have errors. *)
Theorem extractResponse_merges (responseData : bytes) (bufPair : BufPair)
    (cfg : ProcessResponseConfig) :
  extractResponse responseData bufPair cfg
  = snd (MergeBufPairs (extractResponse responseData NewBufPair cfg) bufPair false).
Proof.
  rewrite MergeBufPairs_spec. cbn [snd andb app]. apply extractResponse_onto.
Qed.

End ExtractProperties.

(** ** Fetches *)

Section FetchProperties.
Context `{JsonParser} `{TextProto}.
Variable r : Resolver.

Lemma resolveSingleFetch_alone (ctx : Context) (fetch : SingleFetch)
    (preparedInput : bytes) (buf : BufPair) :
  Errors buf = [] ->
  bufOf (resolveSingleFetch r ctx fetch preparedInput buf)
  = extractResponse (fst (Load (dataSource fetch) preparedInput)) buf
      (processResponseConfig fetch)
  /\ errOf (resolveSingleFetch r ctx fetch preparedInput buf)
     = snd (Load (dataSource fetch) preparedInput).
Proof.
  intros Hnone. unfold resolveSingleFetch, bufOf, errOf.
  destruct (negb (EnableSingleFlightLoader r) || DisallowSingleFlight fetch);
    destruct (Load (dataSource fetch) preparedInput) as [dataBuf err]; cbn [fst snd].
  - split; reflexivity.
  - rewrite (extractResponse_onto dataBuf buf).
    set (inflight := extractResponse dataBuf NewBufPair (processResponseConfig fetch)).
    assert (Hbuf : HasErrors buf = false) by (unfold HasErrors; rewrite Hnone; reflexivity).
    rewrite Hbuf. cbn [andb app].
    destruct (HasData inflight) eqn:Hd; destruct (HasErrors inflight) eqn:He;
      cbn [fst snd]; split; try reflexivity; apply BufPair_eq;
      cbn [Data Errors Data_WriteBytes writeErrors];
      rewrite ?(HasData_false _ Hd), ?(HasErrors_false _ He), ?app_nil_r; reflexivity.
Qed.

(** X12: whatever the single-flight switch of the resolver and of the
    fetch, a fetch that runs alone leaves in a buffer pair without errors the
    extraction of what the data source wrote, and returns the error of the
    data source. *)
Theorem resolveSingleFetch_extracts (ctx : Context) (fetch : SingleFetch)
    (preparedInput : bytes) (buf : BufPair) :
  Errors buf = [] ->
  bufOf (resolveSingleFetch r ctx fetch preparedInput buf)
  = extractResponse (fst (Load (dataSource fetch) preparedInput)) buf
      (processResponseConfig fetch)
  /\ errOf (resolveSingleFetch r ctx fetch preparedInput buf)
     = snd (Load (dataSource fetch) preparedInput).
Proof.
  intros Hnone. apply resolveSingleFetch_alone. exact Hnone.
Qed.

Lemma prepareFetches_renders (ctx : Context) (fetches : list SingleFetch)
    (data : bytes) (set : resultSet) (preparedInputs : list bytes) :
  Forall (fun f => snd (Render (inputTemplate f) ctx data []) = None) fetches ->
  prepareFetches ctx fetches data set preparedInputs
  = ({| buffers :=
          fold_left (fun m f => <[BufferId f := NewBufPair]> m) fetches (buffers set) |},
     preparedInputs ++ map (fun f => fst (Render (inputTemplate f) ctx data [])) fetches,
     None).
Proof.
  intros Hall. revert set preparedInputs.
  induction Hall as [| f fetches Hf _ IH]; intros set preparedInputs.
  - cbn [prepareFetches fold_left map]. rewrite app_nil_r. destruct set; reflexivity.
  - cbn [prepareFetches fold_left map]. unfold prepareSingleFetch.
    destruct (Render (inputTemplate f) ctx data []) as [input e]. cbn [snd] in Hf.
    subst e. rewrite IH. cbn [buffers fst]. rewrite <- app_assoc. reflexivity.
Qed.

End FetchProperties.

Lemma resolveSingleFetch_extracts_witness :
  let r := {| EnableSingleFlightLoader := true;
              completionOrder := fun _ arrayItems => seq 0 (length arrayItems) |} in
  let upstream :=
    B "{" ++ quote ++ B "errors" ++ quote ++ B ":[{" ++ quote ++ B "message" ++ quote
    ++ B ":" ++ quote ++ B "boom" ++ quote ++ B "}]," ++ quote ++ B "data" ++ quote
    ++ B ":{" ++ quote ++ B "n" ++ quote ++ B ":1}}" in
  let fetch :=
    {| BufferId := 0;
       dataSource := {| Load := fun _ => (upstream, Some (errDataSource "late")) |};
       DisallowSingleFlight := false;
       inputTemplate := {| Segments := [] |};
       DataSourceIdentifier := B "rest";
       processResponseConfig :=
         {| ExtractGraphqlResponse := true; ExtractFederationEntities := false |} |} in
  Errors NewBufPair = []
  /\ bufOf (resolveSingleFetch (H := Reference.jsonparser) r NewContext fetch [] NewBufPair)
     = extractResponse (H := Reference.jsonparser)
         (fst (Load (dataSource fetch) [])) NewBufPair (processResponseConfig fetch)
  /\ errOf (resolveSingleFetch (H := Reference.jsonparser) r NewContext fetch [] NewBufPair)
     = snd (Load (dataSource fetch) [])
  /\ bufOf (resolveSingleFetch (H := Reference.jsonparser) r NewContext fetch [] NewBufPair)
     = {| Data := B "{" ++ quote ++ B "n" ++ quote ++ B ":1}";
          Errors := B "{" ++ quote ++ B "message" ++ quote ++ B ":" ++ quote
                    ++ B "boom" ++ quote ++ B "}" |}.
Proof.
  intros r upstream fetch. split; [reflexivity |].
  destruct (resolveSingleFetch_extracts (H := Reference.jsonparser) r NewContext fetch []
              NewBufPair eq_refl) as [Hbuf Herr].
  split; [exact Hbuf |]. split; [exact Herr |]. vm_compute. reflexivity.
Defined.

Section ParallelFetch.
Context `{JsonParser} `{TextProto}.
Variable r : Resolver.

Lemma prepared_buffers (fetches : list SingleFetch) (m : gmap Z BufPair) (k : Z) :
  In k (map BufferId fetches) \/ m !! k = Some NewBufPair ->
  fold_left (fun m f => <[BufferId f := NewBufPair]> m) fetches m !! k
  = Some NewBufPair.
Proof.
  revert m. induction fetches as [| g fetches IH]; intros m Hk.
  - destruct Hk as [[] | Hk]. exact Hk.
  - cbn [fold_left]. apply IH.
    destruct Hk as [[Hg | Hin] | Hm].
    + right. rewrite Hg. apply lookup_insert_eq.
    + left. exact Hin.
    + destruct (decide (BufferId g = k)) as [-> | Hne].
      * right. apply lookup_insert_eq.
      * right. rewrite lookup_insert_ne by exact Hne. exact Hm.
Qed.

Lemma runFetches_buffers (fetches : list SingleFetch) (inputs : list bytes)
    (ctx : Context) (set : resultSet) :
  length inputs = length fetches ->
  NoDup (map BufferId fetches) ->
  (forall f, In f fetches -> buffers set !! BufferId f = Some NewBufPair) ->
  (forall i f input, fetches !! i = Some f -> inputs !! i = Some input ->
     buffers (snd (runFetches r ctx fetches inputs set)) !! BufferId f
     = Some (responseOf f input))
  /\ (forall k, ~ In k (map BufferId fetches) ->
        buffers (snd (runFetches r ctx fetches inputs set)) !! k = buffers set !! k).
Proof.
  revert inputs ctx set.
  induction fetches as [| f fetches IH]; intros [| input inputs] ctx set Hlen Hnodup Hfresh;
    try discriminate.
  - split; [intros i f input Hf; discriminate | reflexivity].
  - cbn [runFetches]. rewrite (Hfresh f (or_introl eq_refl)).
    change (default NewBufPair (Some NewBufPair)) with NewBufPair.
    pose proof (resolveSingleFetch_alone r ctx f input NewBufPair eq_refl) as [Hbuf _].
    destruct (resolveSingleFetch r ctx f input NewBufPair) as [[ctx' buf'] e].
    unfold bufOf in Hbuf. cbn [fst snd] in Hbuf.
    cbn [map] in Hnodup. apply NoDup_cons in Hnodup.
    destruct Hnodup as [Hnotin Hnodup]. rewrite list_elem_of_In in Hnotin.
    injection Hlen as Hlen.
    destruct (IH inputs ctx' {| buffers := <[BufferId f := buf']> (buffers set) |}
                Hlen Hnodup) as [Hdone Hother].
    + intros g Hg. cbn [buffers].
      rewrite lookup_insert_ne.
      * apply Hfresh. right. exact Hg.
      * intros Heq. apply Hnotin. rewrite Heq. apply in_map. exact Hg.
    + split.
      * intros [| i] g inp Hg Hinp.
        -- injection Hg as <-. injection Hinp as <-.
           rewrite Hother by exact Hnotin. cbn [buffers].
           rewrite lookup_insert_eq, Hbuf. reflexivity.
        -- exact (Hdone i g inp Hg Hinp).
      * intros k Hk. rewrite Hother.
        -- cbn [buffers]. apply lookup_insert_ne. intros Heq. apply Hk. left. exact Heq.
        -- intros Hin. apply Hk. right. exact Hin.
Qed.

(** X13: without single flight, a parallel fetch whose input
    templates all render, and whose fetches write to buffers of different
    ids, never returns an error, even when a data source fails: the errors
    of the single fetches are dropped. Each fetch leaves under its buffer id
    the extraction of what its data source wrote for the input rendered from
    its template. *)
Theorem resolveFetch_parallel (ctx : Context) (fetches : list SingleFetch)
    (data : bytes) (set : resultSet) :
  EnableSingleFlightLoader r = false ->
  Forall (fun f => snd (Render (inputTemplate f) ctx data []) = None) fetches ->
  NoDup (map BufferId fetches) ->
  snd (resolveFetch r ctx (FetchParallel fetches) data set) = None
  /\ forall f, In f fetches ->
       buffers (snd (fst (resolveFetch r ctx (FetchParallel fetches) data set)))
         !! BufferId f
       = Some (responseOf f (fst (Render (inputTemplate f) ctx data []))).
Proof.
  intros _ Hrender Hnodup. unfold resolveFetch.
  rewrite (prepareFetches_renders ctx fetches data set [] Hrender). cbn [app].
  set (set' := {| buffers := fold_left _ fetches (buffers set) |}).
  set (inputs := map _ fetches).
  destruct (runFetches_buffers fetches inputs ctx set') as [Hdone _].
  - unfold inputs. apply length_map.
  - exact Hnodup.
  - intros f Hf. unfold set'. cbn [buffers]. apply prepared_buffers.
    left. apply in_map. exact Hf.
  - destruct (runFetches r ctx fetches inputs set') as [ctx' set''] eqn:Hrun.
    cbn [fst snd] in *. split; [reflexivity |].
    intros f Hf. apply list_elem_of_In, list_elem_of_lookup in Hf. destruct Hf as [i Hi].
    apply (Hdone i f); [exact Hi |].
    unfold inputs. rewrite list_lookup_fmap, Hi. reflexivity.
Qed.

End ParallelFetch.

Lemma resolveFetch_parallel_witness :
  let r := {| EnableSingleFlightLoader := false;
              completionOrder := fun _ arrayItems => seq 0 (length arrayItems) |} in
  let static := fun text =>
    {| Segments :=
         [ {| SegmentType := StaticSegmentType; SegmentData := B text;
              VariableSource := 0; VariableSourcePath := [];
              RenderAsGraphQLValue := false |} ] |} in
  let fetch := fun id text (reply : bytes * option error) =>
    {| BufferId := id; dataSource := {| Load := fun _ => reply |};
       DisallowSingleFlight := false; inputTemplate := static text;
       DataSourceIdentifier := B "rest";
       processResponseConfig :=
         {| ExtractGraphqlResponse := false; ExtractFederationEntities := false |} |} in
  let f0 := fetch 0 "a"%string (B "1", None) in
  let f1 := fetch 1 "b"%string (B "2", Some (errDataSource "down")) in
  let set := {| buffers := ∅ |} in
  EnableSingleFlightLoader r = false
  /\ Forall (fun f => snd (Render (H := Reference.jsonparser) (H0 := Reference.textproto)
                            (inputTemplate f) NewContext [] []) = None) [f0; f1]
  /\ NoDup (map BufferId [f0; f1])
  /\ snd (resolveFetch (H := Reference.jsonparser) (H0 := Reference.textproto) r
            NewContext (FetchParallel [f0; f1]) [] set) = None
  /\ (forall f, In f [f0; f1] ->
        buffers (snd (fst (resolveFetch (H := Reference.jsonparser)
                             (H0 := Reference.textproto) r NewContext
                             (FetchParallel [f0; f1]) [] set)))
          !! BufferId f
        = Some (responseOf (H := Reference.jsonparser) f
                  (fst (Render (H := Reference.jsonparser) (H0 := Reference.textproto)
                          (inputTemplate f) NewContext [] []))))
  /\ responseOf (H := Reference.jsonparser) f1 (B "b") = {| Data := B "2"; Errors := [] |}.
Proof.
  intros r static fetch f0 f1 set.
  assert (Hrender : Forall (fun f => snd (Render (H := Reference.jsonparser)
                      (H0 := Reference.textproto) (inputTemplate f) NewContext [] [])
                      = None) [f0; f1])
    by (repeat constructor).
  assert (Hnodup : NoDup (map BufferId [f0; f1])).
  { cbn [map]. apply NoDup_cons. split.
    - rewrite list_elem_of_In. cbn. intros [Heq | []]. discriminate.
    - apply NoDup_singleton. }
  split; [reflexivity |]. split; [exact Hrender |]. split; [exact Hnodup |].
  destruct (resolveFetch_parallel (H := Reference.jsonparser) (H0 := Reference.textproto)
              r NewContext [f0; f1] [] set eq_refl Hrender Hnodup) as [Herr Hbufs].
  split; [exact Herr |]. split; [exact Hbufs |]. vm_compute. reflexivity.
Defined.

(** ** Input templates *)

Section RenderProperties.
Context `{JsonParser} `{TextProto}.

Section LoopsAppend.
Variable render : bytes -> ValueType -> bytes -> bytes * option error.
Hypothesis render_appends :
  forall value dataType buf,
    render value dataType buf
    = (buf ++ fst (render value dataType []), snd (render value dataType [])).

Lemma renderMembers_appends (parseErr : option error)
    (members : list (bytes * bytes * ValueType)) (first : bool) (buf : bytes) :
  renderMembers render parseErr members first buf
  = (buf ++ fst (renderMembers render parseErr members first []),
     snd (renderMembers render parseErr members first [])).
Proof using render_appends.
  revert first buf. induction members as [| [[key value] dataType] members IH];
    intros first buf.
  - cbn [renderMembers fst snd]. rewrite app_nil_r. reflexivity.
  - cbn [renderMembers].
    set (b1 := ((if negb first then buf ++ literal.COMMA else buf) ++ key) ++ literal.COLON).
    set (b0 := ((if negb first then [] ++ literal.COMMA else []) ++ key) ++ literal.COLON).
    assert (Hb : b1 = buf ++ b0).
    { unfold b1, b0. destruct first; cbn [negb]; rewrite <- ?app_assoc; reflexivity. }
    rewrite (render_appends value dataType b1), (render_appends value dataType b0).
    destruct (snd (render value dataType [])) as [e |]; cbn [fst snd].
    + rewrite Hb, <- app_assoc. reflexivity.
    + rewrite (IH false (b1 ++ _)), (IH false (b0 ++ _)). cbn [fst snd].
      rewrite Hb, <- !app_assoc. reflexivity.
Qed.

Lemma renderElements_appends (elements : list (bytes * ValueType)) (first : bool)
    (arrayErr : option error) (buf : bytes) :
  renderElements render elements first arrayErr buf
  = (buf ++ fst (renderElements render elements first arrayErr []),
     snd (renderElements render elements first arrayErr [])).
Proof using render_appends.
  revert first arrayErr buf. induction elements as [| [value dataType] elements IH];
    intros first arrayErr buf.
  - cbn [renderElements fst snd]. rewrite app_nil_r. reflexivity.
  - cbn [renderElements].
    set (b1 := if negb first then buf ++ literal.COMMA else buf).
    set (b0 := if negb first then [] ++ literal.COMMA else []).
    assert (Hb : b1 = buf ++ b0).
    { unfold b1, b0. destruct first; cbn [negb]; rewrite ?app_nil_r; reflexivity. }
    rewrite (render_appends value dataType b1), (render_appends value dataType b0).
    rewrite (IH false _ (b1 ++ _)), (IH false _ (b0 ++ _)). cbn [fst snd].
    rewrite Hb, <- !app_assoc. reflexivity.
Qed.

End LoopsAppend.

Lemma renderGraphQLValueAt_appends (depth : nat) (data : bytes) (valueType : ValueType)
    (buf : bytes) :
  renderGraphQLValueAt depth data valueType buf
  = (buf ++ fst (renderGraphQLValueAt depth data valueType []),
     snd (renderGraphQLValueAt depth data valueType [])).
Proof.
  revert data valueType buf. induction depth as [| depth IH]; intros data valueType buf.
  - cbn [renderGraphQLValueAt fst snd]. rewrite app_nil_r. reflexivity.
  - cbn [renderGraphQLValueAt]. destruct valueType; cbn [fst snd];
      rewrite ?app_nil_r, <- ?app_assoc; try reflexivity.
    + destruct (ObjectEach data) as [members parseErr].
      rewrite (renderMembers_appends _ IH parseErr members true (buf ++ literal.LBRACE)).
      rewrite (renderMembers_appends _ IH parseErr members true ([] ++ literal.LBRACE)).
      destruct (snd (renderMembers _ parseErr members true [])) as [e |]; cbn [fst snd];
        rewrite <- ?app_assoc; reflexivity.
    + destruct (ArrayEach data []) as [elements err].
      rewrite (renderElements_appends _ IH elements true None (buf ++ literal.LBRACK)).
      rewrite (renderElements_appends _ IH elements true None ([] ++ literal.LBRACK)).
      destruct (snd (renderElements _ elements true None [])) as [e |]; cbn [fst snd];
        [| destruct err]; rewrite <- ?app_assoc; reflexivity.
Qed.

Lemma renderVariable_appends (ctx : Context) (data : bytes) (seg : TemplateSegment)
    (buf : bytes) :
  let renderVariable buf :=
    if VariableSource seg =? VariableSourceObject then
      renderObjectVariable data (VariableSourcePath seg) buf
    else if VariableSource seg =? VariableSourceContext then
      renderContextVariable ctx (VariableSourcePath seg)
        (RenderAsGraphQLValue seg) buf
    else if VariableSource seg =? VariableSourceRequestHeader then
      renderHeaderVariable ctx (VariableSourcePath seg) buf
    else (buf, Some (errCannotResolveVariable (VariableSource seg))) in
  renderVariable buf = (buf ++ fst (renderVariable []), snd (renderVariable [])).
Proof.
  cbv zeta.
  destruct (VariableSource seg =? VariableSourceObject).
  { unfold renderObjectVariable.
    destruct (Get data (VariableSourcePath seg)) as [[value t] [e |]]; cbn [fst snd];
      rewrite ?app_nil_r; reflexivity. }
  destruct (VariableSource seg =? VariableSourceContext).
  { unfold renderContextVariable.
    destruct (Get (Variables ctx) (VariableSourcePath seg)) as [[value t] [e |]];
      cbn [fst snd]; rewrite ?app_nil_r; [reflexivity |].
    destruct (negb (RenderAsGraphQLValue seg)); cbn [fst snd app]; [reflexivity |].
    unfold renderGraphQLValue. apply renderGraphQLValueAt_appends. }
  destruct (VariableSource seg =? VariableSourceRequestHeader).
  { unfold renderHeaderVariable.
    destruct (negb (length (VariableSourcePath seg) =? 1)%nat); cbn [fst snd];
      rewrite ?app_nil_r; [reflexivity |].
    destruct (length _ =? 0)%nat; cbn [fst snd]; rewrite ?app_nil_r; [reflexivity |].
    destruct (length _ =? 1)%nat; cbn [fst snd app]; [reflexivity |].
    rewrite !writeHeaderValues_joins. reflexivity. }
  cbn [fst snd]. rewrite app_nil_r. reflexivity.
Qed.

Lemma renderSegments_appends (ctx : Context) (data : bytes)
    (segments : list TemplateSegment) (buf : bytes) :
  renderSegments ctx data segments buf
  = (buf ++ fst (renderSegments ctx data segments []),
     snd (renderSegments ctx data segments [])).
Proof.
  revert buf. induction segments as [| seg segments IH]; intros buf.
  - cbn [renderSegments fst snd]. rewrite app_nil_r. reflexivity.
  - cbn [renderSegments].
    destruct (SegmentType seg =? StaticSegmentType).
    { rewrite (IH (buf ++ SegmentData seg)), (IH ([] ++ SegmentData seg)).
      cbn [fst snd app]. rewrite <- app_assoc. reflexivity. }
    destruct (SegmentType seg =? VariableSegmentType); [| apply IH].
    pose proof (renderVariable_appends ctx data seg buf) as Hvar. cbv zeta in Hvar.
    rewrite Hvar. clear Hvar.
    match goal with
    | |- context [snd ?v] => destruct v as [out [e |]]
    end; cbn [fst snd].
    + reflexivity.
    + rewrite (IH (buf ++ out)), (IH out). cbn [fst snd].
      rewrite <- app_assoc. reflexivity.
Qed.

(** X14: rendering a template only appends to the prepared input: what
    it appends, and the error it returns, do not depend on what the buffer
    held before; on an error the segments rendered so far stay written. *)
Theorem Render_appends (i : InputTemplate) (ctx : Context) (data : bytes)
    (preparedInput : bytes) :
  Render i ctx data preparedInput
  = (preparedInput ++ fst (Render i ctx data []), snd (Render i ctx data [])).
Proof.
  unfold Render. apply renderSegments_appends.
Qed.

(** X15: the segments of a template are rendered in order and
    rendering stops at the first variable that cannot be rendered: a
    template of two runs of segments renders the first run and then, when
    that did not fail, the second run after it. *)
Theorem Render_app (segments1 segments2 : list TemplateSegment) (ctx : Context)
    (data : bytes) (preparedInput : bytes) :
  Render {| Segments := segments1 ++ segments2 |} ctx data preparedInput
  = match Render {| Segments := segments1 |} ctx data preparedInput with
    | (rendered, Some err) => (rendered, Some err)
    | (rendered, None) => Render {| Segments := segments2 |} ctx data rendered
    end.
Proof.
  unfold Render. cbn [Segments]. revert preparedInput.
  induction segments1 as [| seg segments1 IH]; intros preparedInput; [reflexivity |].
  cbn [app renderSegments].
  destruct (SegmentType seg =? StaticSegmentType); [apply IH |].
  destruct (SegmentType seg =? VariableSegmentType); [| apply IH].
  match goal with
  | |- context [let '(_, _) := ?v in _] => destruct v as [out [e |]]
  end; [reflexivity | apply IH].
Qed.

End RenderProperties.

(** ** Leaves *)

(** X16: a string node without path takes data that begin with a
    letter for the string itself: the bytes are written between quotes and
    no error is returned, whatever the parser says of their type, also for a
    non-nullable node (so the bare literals true, false and null come out as
    quoted strings). *)
Theorem resolveString_letter `{JsonParser} (Nullable : bool) (data : bytes)
    (first : ascii) (rest : bytes) (stringBuf : BufPair) :
  data = first :: rest ->
  IsLetter first = true ->
  resolveString None Nullable data stringBuf
  = ({| Data := Data stringBuf ++ quote ++ data ++ quote; Errors := Errors stringBuf |},
     None).
Proof.
  intros -> Hletter. unfold resolveString. cbn [length Nat.eqb negb isSome andb nth].
  destruct (Get (first :: rest) []) as [[v t] e]. rewrite Hletter, orb_true_r.
  cbn [resolveStringValue writeQuoted slice_bytes default].
  f_equal. unfold writeQuoted, slice_bytes. cbn [default].
  apply BufPair_eq; cbn [Data Errors]; autorewrite with buf.
  - rewrite <- ?app_assoc. reflexivity.
  - reflexivity.
Qed.

Lemma resolveString_letter_witness :
  B "true" = "t"%char :: B "rue"
  /\ IsLetter "t"%char = true
  /\ resolveString (H := Reference.jsonparser) None false (B "true") NewBufPair
     = ({| Data := Data NewBufPair ++ quote ++ B "true" ++ quote;
           Errors := Errors NewBufPair |}, None).
Proof.
  split; [reflexivity |]. split; [reflexivity |].
  exact (resolveString_letter (H := Reference.jsonparser) false (B "true") "t"%char
           (B "rue") NewBufPair eq_refl eq_refl).
Defined.

(** ** The errors of a walk *)

Lemma Errors_MergeBufPairErrors (from to : BufPair) :
  Errors to `prefix_of` Errors (snd (MergeBufPairErrors from to)).
Proof. rewrite MergeBufPairErrors_spec. cbn [snd Errors]. eexists. reflexivity. Qed.

Lemma Errors_MergeBufPairs (from to : BufPair) (prefix : bool) :
  Errors to `prefix_of` Errors (snd (MergeBufPairs from to prefix)).
Proof. rewrite MergeBufPairs_spec. cbn [snd Errors]. eexists. reflexivity. Qed.

Lemma Errors_addResolveError (ctx : Context) (b : BufPair) :
  Errors b `prefix_of` Errors (addResolveError ctx b).
Proof. rewrite addResolveError_spec. cbn [Errors]. eexists. reflexivity. Qed.

Lemma Errors_mergeFetchErrors (set : resultSet) (objectBuf : BufPair) :
  Errors objectBuf `prefix_of` Errors (snd (mergeFetchErrors set objectBuf)).
Proof.
  unfold mergeFetchErrors. cbn [snd].
  generalize (map_to_list (buffers set)). intros l. revert objectBuf.
  induction l as [| [k b] l IH]; intros objectBuf; [cbn [fold_left]; reflexivity |].
  cbn [fold_left]. etransitivity; [| apply IH]. apply Errors_MergeBufPairErrors.
Qed.

Section WalkErrors.
Context `{JsonParser} `{TextProto}.
Variable r : Resolver.

Section LoopsErrors.
Variable rec : Node -> Context -> bytes -> BufPair -> Result.

Lemma resolveField_errors (o : Object) (data : bytes) (set : option resultSet)
    (f : Field) (st : fieldsState) :
  match resolveField rec o data set f st with
  | Continue st' => Errors (fs_objectBuf st) `prefix_of` Errors (fs_objectBuf st')
  | Return res => Errors (fs_objectBuf st) `prefix_of` Errors (bufOf res)
  end.
Proof.
  unfold resolveField.
  destruct (typeNameMismatch (fieldDataOf set data f) f); [reflexivity |].
  cbv zeta.
  destruct (rec (Value f) _ _ _) as [[c2 fieldBuf] err].
  set (written := Data_WriteBytes _ colon).
  assert (Hw : Errors written = Errors (fs_objectBuf st)).
  { unfold written. destruct (fs_first st); autorewrite with buf; reflexivity. }
  clearbody written. rewrite <- Hw.
  destruct err as [e |].
  - destruct (is_errTypeNameSkipped e).
    { unfold bufOf, resolveEmptyObject. cbn [fst snd]. autorewrite with buf. reflexivity. }
    destruct (is_errNonNullableFieldValueIsNull e);
      [| unfold bufOf; cbn [fst snd]; reflexivity].
    pose proof (Errors_MergeBufPairErrors fieldBuf (Data_Reset written)) as Hm.
    rewrite Errors_Data_Reset in Hm.
    destruct (MergeBufPairErrors fieldBuf (Data_Reset written)) as [fb ob].
    cbn [snd] in Hm.
    destruct (ObjectNullable o).
    + unfold bufOf, resolveNull. cbn [fst snd]. autorewrite with buf. exact Hm.
    + unfold bufOf. cbn [fst snd].
      destruct (negb (isObject (Value f))); [| exact Hm].
      etransitivity; [exact Hm | apply Errors_addResolveError].
  - pose proof (Errors_MergeBufPairs fieldBuf written false) as Hm.
    destruct (MergeBufPairs fieldBuf written false) as [fb ob].
    cbn [fs_objectBuf]. exact Hm.
Qed.

Lemma resolveFields_errors (o : Object) (data : bytes) (set : option resultSet)
    (fields : list Field) (st : fieldsState) :
  match resolveFields rec o data set fields st with
  | Continue st' => Errors (fs_objectBuf st) `prefix_of` Errors (fs_objectBuf st')
  | Return res => Errors (fs_objectBuf st) `prefix_of` Errors (bufOf res)
  end.
Proof.
  revert st. induction fields as [| f fields IH]; intros st;
    [cbn [resolveFields]; reflexivity |].
  cbn [resolveFields].
  pose proof (resolveField_errors o data set f st) as Hstep.
  destruct (resolveField rec o data set f st) as [st' | res]; [| exact Hstep].
  specialize (IH st').
  destruct (resolveFields rec o data set fields st'); etransitivity; eassumption.
Qed.

Lemma resolveObjectFields_errors (ctx : Context) (o : Object) (data : bytes)
    (objectBuf : BufPair) :
  Errors objectBuf
    `prefix_of` Errors (bufOf (resolveObjectFields r rec ctx o data objectBuf)).
Proof.
  unfold resolveObjectFields.
  assert (Hend : forall (s : option resultSet) (c : Context) (b : BufPair),
    Errors b `prefix_of`
      Errors (bufOf (match resolveFields rec o data s (Fields o)
                             {| fs_ctx := c; fs_objectBuf := b;
                                fs_fieldBuf := NewBufPair; fs_typeNameSkip := false;
                                fs_first := true |} with
                     | Return res => res
                     | Continue st =>
                         let ctx := fs_ctx st in
                         let objectBuf := fs_objectBuf st in
                         if fs_first st then
                           if fs_typeNameSkip st
                           then (ctx, objectBuf, Some errTypeNameSkipped)
                           else if negb (ObjectNullable o) then
                             (ctx, addResolveError ctx objectBuf,
                              Some errNonNullableFieldValueIsNull)
                           else (ctx, resolveNull objectBuf, None)
                         else (ctx, Data_WriteBytes objectBuf rBrace, None)
                     end))).
  { intros s c b.
    match goal with
    | |- context [resolveFields rec o data s (Fields o) ?st0] =>
        pose proof (resolveFields_errors o data s (Fields o) st0) as Hloop;
        destruct (resolveFields rec o data s (Fields o) st0) as [st | res]
    end; cbn [fs_objectBuf] in Hloop; [| exact Hloop].
    cbv zeta.
    destruct (fs_first st); [destruct (fs_typeNameSkip st);
      [| destruct (negb (ObjectNullable o))] |];
      unfold bufOf, resolveNull; cbn [fst snd]; autorewrite with buf; try exact Hloop.
    etransitivity; [exact Hloop | apply Errors_addResolveError]. }
  destruct (ObjectFetch o) as [fetch |]; [| apply Hend].
  destruct (resolveFetch r ctx fetch data _) as [[ctx' set] [e |]]; [reflexivity |].
  pose proof (Errors_mergeFetchErrors set objectBuf) as Hm.
  destruct (mergeFetchErrors set objectBuf) as [set' objectBuf']. cbn [snd] in Hm.
  etransitivity; [exact Hm | apply Hend].
Qed.

Lemma resolveObject_errors (o : Object) :
  KeepsErrors (fun ctx => resolveObject r rec ctx o).
Proof.
  intros ctx data objectBuf. unfold resolveObject.
  destruct (negb (length (ObjectPath o) =? 0)%nat);
    [| apply resolveObjectFields_errors].
  destruct (Get data (ObjectPath o)) as [[value t] e].
  destruct (length (slice_bytes value) =? 0)%nat;
    [| apply resolveObjectFields_errors].
  destruct (ObjectNullable o); unfold bufOf, resolveNull; cbn [fst snd].
  - autorewrite with buf. reflexivity.
  - apply Errors_addResolveError.
Qed.

End LoopsErrors.

Section ArrayErrors.
Variable resolveItem : Context -> bytes -> BufPair -> Result.

Lemma resolveArrayItem_errors (array : Array) (i : nat) (item : bytes)
    (st : arrayState) :
  match resolveArrayItem resolveItem array i item st with
  | Continue st' => Errors (as_arrayBuf st) `prefix_of` Errors (as_arrayBuf st')
  | Return res => Errors (as_arrayBuf st) `prefix_of` Errors (bufOf res)
  end.
Proof.
  unfold resolveArrayItem. destruct (beyondInitialBatch array i); [reflexivity |].
  destruct (resolveItem _ _ _) as [[c2 itemBuf] err].
  destruct err as [e |].
  - destruct (is_errNonNullableFieldValueIsNull e && ArrayNullable array).
    { unfold bufOf, resolveNull. cbn [fst snd]. autorewrite with buf. reflexivity. }
    destruct (is_errTypeNameSkipped e); reflexivity.
  - pose proof (Errors_MergeBufPairs itemBuf (as_arrayBuf st) (as_hasPreviousItem st))
      as Hm.
    destruct (MergeBufPairs _ _ _) as [ib ab]. exact Hm.
Qed.

Lemma resolveArrayItems_errors (array : Array) (arrayItems : list bytes) (i : nat)
    (st : arrayState) :
  match resolveArrayItems resolveItem array i arrayItems st with
  | Continue st' => Errors (as_arrayBuf st) `prefix_of` Errors (as_arrayBuf st')
  | Return res => Errors (as_arrayBuf st) `prefix_of` Errors (bufOf res)
  end.
Proof.
  revert i st. induction arrayItems as [| item arrayItems IH]; intros i st;
    [cbn [resolveArrayItems]; reflexivity |].
  cbn [resolveArrayItems].
  pose proof (resolveArrayItem_errors array i item st) as Hstep.
  destruct (resolveArrayItem resolveItem array i item st) as [st' | res];
    [| exact Hstep].
  specialize (IH (S i) st').
  destruct (resolveArrayItems resolveItem array (S i) arrayItems st');
    etransitivity; eassumption.
Qed.

Lemma mergeItemBufs_errors (bufSlice : list BufPair) (arrayBuf : BufPair)
    (hasPreviousItem : bool) (dataWritten : nat) :
  Errors arrayBuf
    `prefix_of` Errors (mergeItemBufs bufSlice arrayBuf hasPreviousItem dataWritten).
Proof.
  revert arrayBuf hasPreviousItem dataWritten.
  induction bufSlice as [| itemBuf bufSlice IH]; intros arrayBuf hasPreviousItem dataWritten;
    [cbn [mergeItemBufs]; reflexivity |].
  cbn [mergeItemBufs].
  pose proof (Errors_MergeBufPairs itemBuf arrayBuf hasPreviousItem) as Hm.
  destruct (MergeBufPairs itemBuf arrayBuf hasPreviousItem) as [ib ab]. cbn [snd] in Hm.
  etransitivity; [exact Hm | apply IH].
Qed.

Lemma resolveArray_errors (array : Array) :
  KeepsErrors (fun ctx => resolveArray r resolveItem ctx array).
Proof.
  intros ctx data arrayBuf. unfold resolveArray.
  destruct (bytes_Equal data emptyArray).
  { unfold bufOf, resolveEmptyArray. cbn [fst snd]. autorewrite with buf. reflexivity. }
  destruct (length _ =? 0)%nat.
  { destruct (negb (ArrayNullable array)); unfold bufOf, resolveEmptyArray, resolveNull;
      cbn [fst snd]; autorewrite with buf; reflexivity. }
  destruct (ResolveAsynchronous array && negb (StreamEnabled (ArrayStream array))).
  - unfold resolveArrayAsynchronous.
    destruct (firstTaskError _ _) as [e |].
    + destruct (is_errNonNullableFieldValueIsNull e && ArrayNullable array);
        unfold bufOf, resolveNull; cbn [fst snd]; autorewrite with buf; reflexivity.
    + unfold bufOf. cbn [fst snd]. autorewrite with buf.
      etransitivity; [| apply mergeItemBufs_errors]. autorewrite with buf. reflexivity.
  - unfold resolveArraySynchronous.
    match goal with
    | |- context [resolveArrayItems resolveItem array 0 ?l ?st0] =>
        pose proof (resolveArrayItems_errors array l 0 st0) as Hloop;
        destruct (resolveArrayItems resolveItem array 0 l st0) as [st | res]
    end; cbn [as_arrayBuf] in Hloop; autorewrite with buf in Hloop; [| exact Hloop].
    unfold bufOf. cbn [fst snd]. autorewrite with buf. exact Hloop.
Qed.

End ArrayErrors.

(** X17: the walk of a plan never drops or rewrites the errors that the
    buffer pair it writes to already holds (while it may reset its data): the
    errors after the walk begin with the errors before it, whether the walk
    succeeds or fails. *)
Theorem resolveNode_keeps_errors (node : Node) (ctx : Context) (data : bytes)
    (buf : BufPair) :
  exists written,
    Errors (bufOf (resolveNode r node ctx data buf)) = Errors buf ++ written.
Proof.
  change (Errors buf `prefix_of` Errors (bufOf (resolveNode r node ctx data buf))).
  destruct node as [o | | a | | d | p n | p n | p n | p n]; cbn [resolveNode].
  - apply resolveObject_errors.
  - unfold bufOf, resolveEmptyObject. cbn [fst snd]. autorewrite with buf. reflexivity.
  - apply resolveArray_errors.
  - unfold bufOf, resolveEmptyArray. cbn [fst snd]. autorewrite with buf. reflexivity.
  - unfold bufOf, resolveNull. cbn [fst snd]. autorewrite with buf. reflexivity.
  - unfold resolveString, resolveStringValue, writeQuoted, resolveNull.
    destruct (negb (length data =? 0)%nat && negb (isSome p)).
    + destruct (Get data []) as [[v t] e].
      destruct (ValueType_eqb t String_ || IsLetter (nth 0 data "000"%char));
        [| destruct (negb n)]; unfold bufOf; cbn [fst snd]; autorewrite with buf;
        reflexivity.
    + destruct (Get data (default [] p)) as [[v t] e].
      destruct (isSome e || negb (ValueType_eqb t String_));
        [destruct (negb n) | destruct v as [v |]; [| destruct (negb (isSome None) && negb n)]];
        unfold bufOf; cbn [fst snd]; autorewrite with buf; reflexivity.
  - unfold resolveBoolean, resolveNull. destruct (Get data p) as [[v t] e].
    destruct (isSome e || negb (ValueType_eqb t Boolean_)); [destruct (negb n) |];
      unfold bufOf; cbn [fst snd]; autorewrite with buf; reflexivity.
  - unfold resolveInteger, resolveNull. destruct (Get data p) as [[v t] e].
    destruct (isSome e || negb (ValueType_eqb t Number)); [destruct (negb n) |];
      unfold bufOf; cbn [fst snd]; autorewrite with buf; reflexivity.
  - unfold resolveFloat, resolveNull. destruct (Get data p) as [[v t] e].
    destruct (isSome e || negb (ValueType_eqb t Number)); [destruct (negb n) |];
      unfold bufOf; cbn [fst snd]; autorewrite with buf; reflexivity.
Qed.

End WalkErrors.

(** ** The output of an array *)

Lemma firstTaskError_benign (order : list nat) (tasks : list Result) :
  Forall (fun t => benign (errOf t)) tasks ->
  firstTaskError order tasks = None.
Proof.
  intros Hall. induction order as [| i order IH]; [reflexivity |].
  cbn [firstTaskError]. unfold Result in *.
  destruct (tasks !! i) as [[[c b] [e |]] |] eqn:Hi; try exact IH.
  apply list_elem_of_lookup_2, list_elem_of_In in Hi.
  rewrite List.Forall_forall in Hall. specialize (Hall _ Hi).
  destruct Hall as [Hnone | Hskip]; unfold errOf in *; cbn [snd] in *; [discriminate |].
  injection Hskip as ->. exact IH.
Qed.

(** X18: an asynchronous array whose element tasks all return without
    error, or are skipped for their type name, writes an opening bracket, the
    outputs of the elements that wrote any, separated by commas and in the
    order of the elements, and a closing bracket; the errors of the elements
    come after the errors already there, separated by commas; and the context
    of the caller is as it was. *)
Theorem resolveArrayAsynchronous_joins `{JsonParser} `{TextProto} (r : Resolver)
    (array : Array) (ctx : Context) (arrayItems : list bytes) (arrayBuf : BufPair)
    (order : list nat) :
  Forall (fun t => benign (errOf t))
    (imap (elementTask (resolveNode r (Item array)) ctx) arrayItems) ->
  resolveArrayAsynchronous (resolveNode r (Item array)) ctx array arrayItems arrayBuf
    order
  = (ctx,
     {| Data :=
          Data arrayBuf ++ lBrack
          ++ bytes_Join
               (nonEmpty
                  (map (fun t => Data (bufOf t))
                     (imap (elementTask (resolveNode r (Item array)) ctx) arrayItems)))
               comma
          ++ rBrack;
        Errors :=
          joinErrors (Errors arrayBuf)
            (bytes_Join
               (nonEmpty
                  (map (fun t => Errors (bufOf t))
                     (imap (elementTask (resolveNode r (Item array)) ctx) arrayItems)))
               comma) |},
     None).
Proof.
  intros Hall. unfold resolveArrayAsynchronous.
  rewrite (firstTaskError_benign order _ Hall).
  set (tasks := imap (elementTask (resolveNode r (Item array)) ctx) arrayItems).
  f_equal. f_equal. apply BufPair_eq; cbn [Data Errors]; autorewrite with buf.
  - rewrite mergeItemBufs_data_joins. autorewrite with buf.
    rewrite map_map, <- !app_assoc. reflexivity.
  - rewrite mergeItemBufs_errors_joins. autorewrite with buf.
    rewrite map_map. apply writtenOnto_joins. apply nonEmpty_Forall.
Qed.

Lemma resolveArrayAsynchronous_joins_witness :
  let r := {| EnableSingleFlightLoader := false;
              completionOrder := fun _ arrayItems => seq 0 (length arrayItems) |} in
  let array :=
    mkArray [] false true (NInteger [] false)
      {| StreamEnabled := false; InitialBatchSize := 0; StreamPatchIndex := 0 |} in
  let arrayItems := [B "1"; B "2"; B "3"] in
  let tasks :=
    imap (elementTask
            (resolveNode (H := Reference.jsonparser) (H0 := Reference.textproto) r
               (Item array)) NewContext) arrayItems in
  Forall (fun t => benign (errOf t)) tasks
  /\ resolveArrayAsynchronous
       (resolveNode (H := Reference.jsonparser) (H0 := Reference.textproto) r (Item array))
       NewContext array arrayItems NewBufPair [2%nat; 0%nat; 1%nat]
     = (NewContext,
        {| Data :=
             Data NewBufPair ++ lBrack
             ++ bytes_Join (nonEmpty (map (fun t => Data (bufOf t)) tasks)) comma
             ++ rBrack;
           Errors :=
             joinErrors (Errors NewBufPair)
               (bytes_Join (nonEmpty (map (fun t => Errors (bufOf t)) tasks)) comma) |},
        None)
  /\ Data NewBufPair ++ lBrack
     ++ bytes_Join (nonEmpty (map (fun t => Data (bufOf t)) tasks)) comma ++ rBrack
     = B "[1,2,3]".
Proof.
  intros r array arrayItems tasks.
  assert (Hall : Forall (fun t => benign (errOf t)) tasks)
    by (repeat constructor; left; vm_compute; reflexivity).
  split; [exact Hall |]. split.
  - exact (resolveArrayAsynchronous_joins (H := Reference.jsonparser)
             (H0 := Reference.textproto) r array NewContext arrayItems NewBufPair
             [2%nat; 0%nat; 1%nat] Hall).
  - vm_compute. reflexivity.
Defined.

(** ** The output of an object *)

Section ObjectProperties.
Context `{JsonParser} `{TextProto}.
Variable r : Resolver.
Variable rec : Node -> Context -> bytes -> BufPair -> Result.

Lemma resolveField_written (o : Object) (data : bytes) (f : Field) (st : fieldsState)
    (c : Context) (b : BufPair) :
  typeNameMismatch data f = false ->
  fs_fieldBuf st = NewBufPair ->
  rec (Value f) (setPosition (addPathElement (fs_ctx st) (Name f)) (fieldPosition f))
    data NewBufPair
  = (c, b, None) ->
  resolveField rec o data None f st
  = Continue
      {| fs_ctx := removeLastPathElement c;
         fs_objectBuf :=
           {| Data := Data (fs_objectBuf st)
                      ++ (if fs_first st then lBrace else comma)
                      ++ objectMember (Name f) (Data b);
              Errors := writtenOnto (Errors (fs_objectBuf st)) (nonEmpty [Errors b]) |};
         fs_fieldBuf := NewBufPair;
         fs_typeNameSkip := fs_typeNameSkip st;
         fs_first := false |}.
Proof.
  intros Hgate Hfb Hchild. unfold resolveField. cbn [fieldDataOf]. rewrite Hgate.
  cbv zeta. rewrite Hfb, Hchild. rewrite MergeBufPairs_spec. f_equal. f_equal.
  apply BufPair_eq; cbn [Data Errors andb app].
  - unfold objectMember. destruct (fs_first st); autorewrite with buf;
      rewrite <- !app_assoc; reflexivity.
  - assert (He : Errors (Data_WriteBytes
                           (Data_WriteBytes
                              (Data_WriteBytes
                                 (Data_WriteBytes
                                    (if fs_first st
                                     then Data_WriteBytes (fs_objectBuf st) lBrace
                                     else Data_WriteBytes (fs_objectBuf st) comma)
                                    quote) (Name f)) quote) colon)
                  = Errors (fs_objectBuf st)).
    { destruct (fs_first st); autorewrite with buf; reflexivity. }
    unfold HasErrors. rewrite He. cbn [nonEmpty List.filter writtenOnto fold_left].
    destruct (Errors b) as [| x e]; cbn [length Nat.eqb negb fold_left].
    + rewrite andb_false_r, !app_nil_r. reflexivity.
    + rewrite andb_true_r. reflexivity.
Qed.

Lemma resolveFields_written (o : Object) (data : bytes) (fields : list Field)
    (written : list (bytes * BufPair)) (ctx ctx' : Context) (st : fieldsState) :
  FieldsWalk rec data ctx fields written ctx' ->
  fs_ctx st = ctx ->
  fs_fieldBuf st = NewBufPair ->
  exists skip,
    resolveFields rec o data None fields st
    = Continue
        {| fs_ctx := ctx';
           fs_objectBuf :=
             {| Data :=
                  Data (fs_objectBuf st)
                  ++ match writtenMembers written with
                     | [] => []
                     | members =>
                         (if fs_first st then lBrace else comma)
                         ++ bytes_Join members comma
                     end;
                Errors :=
                  writtenOnto (Errors (fs_objectBuf st)) (writtenErrors written) |};
           fs_fieldBuf := NewBufPair;
           fs_typeNameSkip := skip;
           fs_first := fs_first st && (length written =? 0)%nat |}.
Proof.
  intros Hwalk. revert st.
  induction Hwalk as [ctx | ctx f fields written ctx' Hgate _ IH
                      | ctx f fields c b written ctx' Hgate Hchild _ IH];
    intros st Hctx Hfb.
  - exists (fs_typeNameSkip st). cbn [resolveFields writtenMembers writtenErrors map
      nonEmpty List.filter writtenOnto fold_left length Nat.eqb].
    rewrite andb_true_r, app_nil_r. destruct st as [c ob fb sk fi].
    cbn [fs_ctx fs_objectBuf fs_fieldBuf fs_typeNameSkip fs_first] in *. subst.
    destruct ob; reflexivity.
  - cbn [resolveFields]. unfold resolveField. cbn [fieldDataOf]. rewrite Hgate.
    match goal with
    | |- context [resolveFields rec o data None fields ?st1] =>
        destruct (IH st1 Hctx Hfb) as [skip Hloop]
    end.
    exists skip. rewrite Hloop. reflexivity.
  - cbn [resolveFields]. subst ctx.
    rewrite (resolveField_written o data f st c b Hgate Hfb Hchild).
    match goal with
    | |- context [resolveFields rec o data None fields ?st1] =>
        destruct (IH st1 eq_refl eq_refl) as [skip Hloop]
    end.
    exists skip. rewrite Hloop.
    cbn [fs_ctx fs_objectBuf fs_fieldBuf fs_typeNameSkip fs_first Data Errors
         length Nat.eqb andb].
    rewrite andb_false_r. f_equal. f_equal. apply BufPair_eq; cbn [Data Errors].
    + unfold writtenMembers. cbn [map fst snd].
      fold (writtenMembers written). rewrite bytes_Join_cons.
      destruct (writtenMembers written) as [| m ms].
      * cbn [map concat app]. rewrite ?app_nil_r, <- ?app_assoc. reflexivity.
      * rewrite bytes_Join_cons. rewrite <- ?app_assoc. cbn [map concat].
        rewrite <- ?app_assoc. reflexivity.
    + unfold writtenErrors, nonEmpty. cbn [map fst snd List.filter].
      unfold writtenOnto.
      destruct (negb (length (Errors b) =? 0)%nat); cbn [fold_left]; reflexivity.
Qed.

End ObjectProperties.

(** X19: an object without fetch whose fields all resolve without
    error, but for those its type-name conditions gate out, and which wrote
    at least one field, writes an opening brace, one member ["name":value]
    for each field that is not gated out, in the order of the plan and
    separated by commas, and a closing brace; the errors the values left
    come after the errors already there, separated by commas. *)
Theorem resolveObject_members `{JsonParser} `{TextProto} (r : Resolver) (o : Object)
    (ctx ctx' : Context) (data data' : bytes) (objectBuf : BufPair)
    (written : list (bytes * BufPair)) :
  ObjectFetch o = None ->
  objectData o data = Some data' ->
  FieldsWalk (resolveNode r) data' ctx (Fields o) written ctx' ->
  written <> [] ->
  resolveNode r (NObject o) ctx data objectBuf
  = (ctx',
     {| Data := Data objectBuf ++ lBrace ++ bytes_Join (writtenMembers written) comma
                ++ rBrace;
        Errors := joinErrors (Errors objectBuf)
                    (bytes_Join (writtenErrors written) comma) |},
     None).
Proof.
  intros Hfetch Hdata Hwalk Hwritten. cbn [resolveNode].
  rewrite (resolveObject_objectData r _ _ _ _ _ _ Hdata).
  unfold resolveObjectFields. rewrite Hfetch.
  match goal with
  | |- context [resolveFields (resolveNode r) o data' None (Fields o) ?st0] =>
      destruct (resolveFields_written (resolveNode r) o data' (Fields o) written ctx ctx'
                  st0 Hwalk eq_refl eq_refl) as [skip Hloop]
  end.
  rewrite Hloop. cbn [fs_first fs_ctx fs_objectBuf andb].
  destruct written as [| w written]; [contradiction |].
  cbn [length Nat.eqb]. f_equal. f_equal.
  apply BufPair_eq; cbn [Data Errors]; autorewrite with buf; cbn [Data Errors].
  - unfold writtenMembers. cbn [map]. rewrite <- !app_assoc. reflexivity.
  - apply writtenOnto_joins. apply nonEmpty_Forall.
Qed.

Lemma resolveObject_members_witness :
  let r := {| EnableSingleFlightLoader := false;
              completionOrder := fun _ arrayItems => seq 0 (length arrayItems) |} in
  let pos := {| Line := 1; Column := 2 |} in
  let hello :=
    mkField (B "hello") (NString (Some ["hello"%string]) false) pos false 0 None in
  let bark :=
    mkField (B "bark") (NBoolean ["bark"%string] false) pos false 0 (Some (B "Dog")) in
  let n := mkField (B "n") (NInteger ["n"%string] false) pos false 0 None in
  let o := mkObject false [] [hello; bark; n] None in
  let data :=
    B "{" ++ quote ++ B "hello" ++ quote ++ B ":" ++ quote ++ B "world" ++ quote
    ++ B "," ++ quote ++ B "n" ++ quote ++ B ":1}" in
  let written :=
    [ (B "hello", {| Data := quote ++ B "world" ++ quote; Errors := [] |});
      (B "n", {| Data := B "1"; Errors := [] |}) ] in
  ObjectFetch o = None
  /\ objectData (H := Reference.jsonparser) o data = Some data
  /\ FieldsWalk (H := Reference.jsonparser)
       (resolveNode (H := Reference.jsonparser) (H0 := Reference.textproto) r)
       data NewContext (Fields o) written (setPosition NewContext pos)
  /\ written <> []
  /\ resolveNode (H := Reference.jsonparser) (H0 := Reference.textproto) r (NObject o)
       NewContext data NewBufPair
     = (setPosition NewContext pos,
        {| Data := Data NewBufPair ++ lBrace ++ bytes_Join (writtenMembers written) comma
                   ++ rBrace;
           Errors := joinErrors (Errors NewBufPair)
                       (bytes_Join (writtenErrors written) comma) |},
        None)
  /\ Data NewBufPair ++ lBrace ++ bytes_Join (writtenMembers written) comma ++ rBrace
     = data.
Proof.
  intros r pos hello bark n o data written.
  assert (Hwalk : FieldsWalk (H := Reference.jsonparser)
            (resolveNode (H := Reference.jsonparser) (H0 := Reference.textproto) r)
            data NewContext (Fields o) written (setPosition NewContext pos)).
  { apply (FieldsWalk_field _ data NewContext hello [bark; n]
             (setPosition (addPathElement NewContext (B "hello")) pos)
             {| Data := quote ++ B "world" ++ quote; Errors := [] |});
      [reflexivity | vm_compute; reflexivity |].
    apply FieldsWalk_skip; [vm_compute; reflexivity |].
    apply (FieldsWalk_field _ data _ n []
             (setPosition (addPathElement (setPosition NewContext pos) (B "n")) pos)
             {| Data := B "1"; Errors := [] |});
      [reflexivity | vm_compute; reflexivity |].
    apply FieldsWalk_nil. }
  assert (Hne : written <> []) by discriminate.
  split; [reflexivity |]. split; [reflexivity |]. split; [exact Hwalk |].
  split; [exact Hne |]. split.
  - exact (resolveObject_members (H := Reference.jsonparser) (H0 := Reference.textproto)
             r o NewContext (setPosition NewContext pos) data data NewBufPair written
             eq_refl eq_refl Hwalk Hne).
  - vm_compute. reflexivity.
Defined.

(** ** Subscriptions *)

Lemma writeGraphqlResponse_buffer (buf : BufPair) (w : bytes) (ignoreData : bool) :
  writeGraphqlResponse buf w ignoreData = (w ++ envelope buf ignoreData, None).
Proof.
  destruct (writeGraphqlResponse_appends (fun w : bytes => w) BufferWriter_appends
              buf w ignoreData) as (w' & Hw & Hc).
  rewrite Hw, Hc. reflexivity.
Qed.

Lemma EngineResultWriter_appends : Appends pending.
Proof. intros w p. eexists. split; reflexivity. Qed.

Lemma safely_flushed (data : bytes) (st : EngineResultWriter * option error) :
  flushed (fst (safely data st)) = flushed (fst st).
Proof. destruct st as [w [e |]]; reflexivity. Qed.

Lemma writeGraphqlResponse_engine (buf : BufPair) (w : EngineResultWriter)
    (ignoreData : bool) :
  writeGraphqlResponse buf w ignoreData
  = ({| pending := pending w ++ envelope buf ignoreData; flushed := flushed w |}, None).
Proof.
  destruct (writeGraphqlResponse_appends pending EngineResultWriter_appends
              buf w ignoreData) as (w' & Hw & Hc).
  rewrite Hw. f_equal.
  assert (Hf : flushed (fst (writeGraphqlResponse buf w ignoreData)) = flushed w).
  { unfold writeGraphqlResponse. cbv zeta.
    destruct (negb (length (Errors buf) =? 0)%nat);
      destruct (negb (length (Data buf) =? 0)%nat && negb ignoreData);
      rewrite ?safely_flushed; cbn [Write EngineResultWriter_Writer fst flushed];
      rewrite ?safely_flushed; reflexivity. }
  rewrite Hw in Hf. cbn [fst] in Hf.
  destruct w' as [p f]. cbn [pending flushed] in *. subst. reflexivity.
Qed.

Section SubscriptionProperties.
Context `{JsonParser} `{TextProto}.
Variable r : Resolver.

(** A response to a message on the engine's writer: the bytes are those
    written to a plain buffer, and nothing is flushed. *)
Lemma ResolveGraphQLResponse_engine (ctx : Context) (response : GraphQLResponse)
    (data : bytes) (w : EngineResultWriter) :
  exists ctx' err,
    ResolveGraphQLResponse r ctx response data w
    = (ctx',
       {| pending := pending w ++ (if isSome err then [] else responseTo r ctx response data);
          flushed := flushed w |},
       err)
    /\ frame ctx' = frame ctx.
Proof.
  unfold responseTo. rewrite !ResolveGraphQLResponse_walk.
  pose proof (resolveNode_frame r (ResponseData response) ctx (envelopeData data)
                NewBufPair) as Hframe.
  destruct (resolveNode r (ResponseData response) ctx (envelopeData data) NewBufPair)
    as [[c1 walked] err].
  unfold ctxOf in Hframe. cbn [fst] in Hframe. cbv zeta.
  destruct err as [e |]; [destruct (is_errNonNullableFieldValueIsNull e) |];
    rewrite ?writeGraphqlResponse_engine, ?writeGraphqlResponse_buffer; cbn [fst snd app].
  - exists c1, None. split; [reflexivity | exact Hframe].
  - exists c1, (Some e). cbn [isSome]. rewrite app_nil_r. destruct w.
    split; [reflexivity | exact Hframe].
  - exists c1, None. split; [reflexivity | exact Hframe].
Qed.

Lemma subscriptionLoop_frames (resolverDone : nat -> bool) (response : GraphQLResponse)
    (next : list bytes) (k : nat) (ctx0 ctx : Context) (w : EngineResultWriter) :
  (forall k, resolverDone k = false) ->
  pending w = [] ->
  frame ctx = frame ctx0 ->
  exists ctx' w' err chunks,
    subscriptionLoop r resolverDone k ctx response next w = (ctx', w', err)
    /\ pending w' = []
    /\ flushed w' = flushed w ++ chunks
    /\ Forall2
         (fun chunk data =>
            exists c, frame c = frame ctx0 /\ chunk = responseTo r c response data)
         chunks (firstn (length chunks) next)
    /\ (err = None -> length chunks = length next).
Proof.
  intros Hnever. revert k ctx w.
  induction next as [| data next IH]; intros k ctx w Hpending Hframe.
  - exists ctx, w, None, []. cbn [subscriptionLoop]. rewrite Hnever, app_nil_r.
    repeat split; [exact Hpending | constructor].
  - cbn [subscriptionLoop]. rewrite Hnever.
    cbn [FlushWriter_Writer EngineResultWriter_FlushWriter].
    destruct (ResolveGraphQLResponse_engine ctx response data w)
      as (c1 & err & Hres & Hf1).
    rewrite Hres, Hpending. cbn [app].
    destruct err as [e |]; cbn [isSome].
    + exists c1, {| pending := []; flushed := flushed w |}, (Some e), [].
      rewrite app_nil_r. cbn [pending flushed length firstn].
      repeat split; [constructor | discriminate].
    + destruct (IH (S k) c1
                  (Flush {| pending := responseTo r ctx response data;
                            flushed := flushed w |}))
        as (ctx' & w' & err & chunks & Hloop & Hp & Hfl & Hall & Hlen).
      * reflexivity.
      * rewrite Hf1. exact Hframe.
      * exists ctx', w', err, (responseTo r ctx response data :: chunks).
        rewrite Hloop. split; [reflexivity |]. split; [exact Hp |].
        split; [| split].
        -- rewrite Hfl. cbn [Flush EngineResultWriter_FlushWriter flushed pending].
           rewrite <- app_assoc. reflexivity.
        -- cbn [length firstn]. constructor; [| exact Hall].
           exists ctx. split; [exact Hframe | reflexivity].
        -- intros He. cbn [length]. rewrite (Hlen He). reflexivity.
Qed.

(** X20: on the writer of the execution engine, a subscription
    whose trigger renders and whose source starts flushes one chunk per
    message, in the order of the messages, as long as no message fails and
    the resolver is not done: the chunk of a message is the response to that
    message alone, resolved with the variables, the request, the path and the
    hooks of the caller, and nothing is left unflushed. It returns without
    error only after the last message. *)
Theorem ResolveGraphQLSubscription_frames (resolverDone : nat -> bool)
    (ctx : Context) (subscription : GraphQLSubscription) (writer : EngineResultWriter)
    (rendered : bytes) (next : list bytes) :
  Render (TriggerInputTemplate (Trigger subscription)) ctx [] [] = (rendered, None) ->
  Start (Source (Trigger subscription)) rendered = (next, None) ->
  (forall k, resolverDone k = false) ->
  pending writer = [] ->
  exists ctx' writer' err chunks,
    ResolveGraphQLSubscription r resolverDone ctx subscription writer
    = (ctx', writer', err)
    /\ pending writer' = []
    /\ flushed writer' = flushed writer ++ chunks
    /\ Forall2
         (fun chunk data =>
            exists c,
              frame c = frame ctx
              /\ chunk = responseTo r c (Response subscription) data)
         chunks (firstn (length chunks) next)
    /\ (err = None -> length chunks = length next).
Proof.
  intros Hrender Hstart Hnever Hpending. unfold ResolveGraphQLSubscription.
  rewrite Hrender. cbv zeta. rewrite Hstart.
  apply subscriptionLoop_frames; [exact Hnever | exact Hpending | reflexivity].
Qed.

(** X21: a subscription whose source cannot start for the unable to
    resolve error answers with one response that holds that error alone,
    flushes it and returns no error: the response has an errors member with
    the one error object of the message [unable to resolve], and no data
    member. Another error of the source is returned and nothing is written. *)
Theorem ResolveGraphQLSubscription_unable {W : Type} `{FlushWriter W}
    (contents : W -> bytes) (resolverDone : nat -> bool) (ctx : Context)
    (subscription : GraphQLSubscription) (writer : W) (rendered : bytes)
    (next : list bytes) (err : error) :
  Appends contents ->
  Render (TriggerInputTemplate (Trigger subscription)) ctx [] [] = (rendered, None) ->
  Start (Source (Trigger subscription)) rendered = (next, Some err) ->
  if is_ErrUnableToResolve err then
    exists writer',
      ResolveGraphQLSubscription r resolverDone ctx subscription writer
      = (ctx, Flush writer', None)
      /\ contents writer'
         = contents writer ++ lBrace ++ quote ++ literalErrors ++ quote ++ colon
           ++ lBrack ++ errorObject unableToResolveMsg None None None ++ rBrack
           ++ rBrace
  else
    ResolveGraphQLSubscription r resolverDone ctx subscription writer
    = (ctx, writer, Some err).
Proof.
  intros Happ Hrender Hstart. unfold ResolveGraphQLSubscription.
  rewrite Hrender. cbv zeta. rewrite Hstart.
  destruct (is_ErrUnableToResolve err); [| reflexivity].
  destruct (Happ writer unableToResolveResponse) as (w' & Hw & Hc).
  rewrite Hw. exists w'. split; [reflexivity |]. rewrite Hc. reflexivity.
Qed.

End SubscriptionProperties.

Lemma ResolveGraphQLSubscription_frames_witness :
  let r := {| EnableSingleFlightLoader := false;
              completionOrder := fun _ arrayItems => seq 0 (length arrayItems) |} in
  let message := fun value =>
    B "{" ++ quote ++ B "data" ++ quote ++ B ":{" ++ quote ++ B "n" ++ quote ++ B ":"
    ++ B value ++ B "}}" in
  let next := [message "1"%string; message "2"%string] in
  let subscription :=
    {| Trigger :=
         {| TriggerInputTemplate :=
              {| Segments :=
                   [ {| SegmentType := StaticSegmentType; SegmentData := B "topic";
                        VariableSource := 0; VariableSourcePath := [];
                        RenderAsGraphQLValue := false |} ] |};
            Source := {| Start := fun _ => (next, None) |} |};
       Response :=
         {| ResponseData :=
              NObject
                (mkObject false []
                   [mkField (B "n") (NInteger ["n"%string] false)
                      {| Line := 1; Column := 2 |} false 0 None] None) |} |} in
  let writer := {| pending := []; flushed := [] |} in
  let resolverDone := fun _ : nat => false in
  Render (H := Reference.jsonparser) (H0 := Reference.textproto)
    (TriggerInputTemplate (Trigger subscription)) NewContext [] [] = (B "topic", None)
  /\ Start (Source (Trigger subscription)) (B "topic") = (next, None)
  /\ (forall k, resolverDone k = false)
  /\ pending writer = []
  /\ (exists ctx' writer' err chunks,
        ResolveGraphQLSubscription (H := Reference.jsonparser)
          (H0 := Reference.textproto) r resolverDone NewContext subscription writer
        = (ctx', writer', err)
        /\ pending writer' = []
        /\ flushed writer' = flushed writer ++ chunks
        /\ Forall2
             (fun chunk data =>
                exists c,
                  frame c = frame NewContext
                  /\ chunk = responseTo (H := Reference.jsonparser)
                               (H0 := Reference.textproto) r c (Response subscription)
                               data)
             chunks (firstn (length chunks) next)
        /\ (err = None -> length chunks = length next))
  /\ flushed
       (snd (fst (ResolveGraphQLSubscription (H := Reference.jsonparser)
                    (H0 := Reference.textproto) r resolverDone NewContext subscription
                    writer)))
     = next.
Proof.
  intros r message next subscription writer resolverDone.
  assert (Hnever : forall k, resolverDone k = false) by reflexivity.
  split; [reflexivity |]. split; [reflexivity |]. split; [exact Hnever |].
  split; [reflexivity |]. split.
  - exact (ResolveGraphQLSubscription_frames (H := Reference.jsonparser)
             (H0 := Reference.textproto) r resolverDone NewContext subscription writer
             (B "topic") next eq_refl eq_refl Hnever eq_refl).
  - vm_compute. reflexivity.
Defined.

Lemma ResolveGraphQLSubscription_unable_witness :
  let r := {| EnableSingleFlightLoader := false;
              completionOrder := fun _ arrayItems => seq 0 (length arrayItems) |} in
  let subscription :=
    {| Trigger :=
         {| TriggerInputTemplate := {| Segments := [] |};
            Source := {| Start := fun _ => ([], Some ErrUnableToResolve) |} |};
       Response := {| ResponseData := NEmptyObject |} |} in
  let writer := {| pending := []; flushed := [] |} in
  let resolverDone := fun _ : nat => false in
  Appends pending
  /\ Render (H := Reference.jsonparser) (H0 := Reference.textproto)
       (TriggerInputTemplate (Trigger subscription)) NewContext [] [] = ([], None)
  /\ Start (Source (Trigger subscription)) [] = ([], Some ErrUnableToResolve)
  /\ exists writer',
       ResolveGraphQLSubscription (H := Reference.jsonparser)
         (H0 := Reference.textproto) r resolverDone NewContext subscription writer
       = (NewContext, Flush writer', None)
       /\ pending writer'
          = pending writer ++ lBrace ++ quote ++ literalErrors ++ quote ++ colon
            ++ lBrack ++ errorObject unableToResolveMsg None None None ++ rBrack
            ++ rBrace.
Proof.
  intros r subscription writer resolverDone.
  split; [exact EngineResultWriter_appends |]. split; [reflexivity |].
  split; [reflexivity |].
  exact (ResolveGraphQLSubscription_unable (H := Reference.jsonparser)
           (H0 := Reference.textproto) r pending resolverDone NewContext subscription
           writer [] [] ErrUnableToResolve EngineResultWriter_appends eq_refl eq_refl).
Defined.

(** ** What a response returns *)

(** X22: on a writer that takes every write, [ResolveGraphQLResponse]
    either writes one whole envelope and returns no error, or writes nothing
    and returns the error of the walk; it never returns the non-null error,
    which it reports in the envelope instead. *)
Theorem ResolveGraphQLResponse_aborts `{JsonParser} `{TextProto} {W : Type}
    `{Writer W} (contents : W -> bytes) (r : Resolver) (ctx : Context)
    (response : GraphQLResponse) (data : bytes) (writer : W) :
  Appends contents ->
  let walk := resolveNode r (ResponseData response) ctx (envelopeData data) NewBufPair in
  let res := ResolveGraphQLResponse r ctx response data writer in
  match snd res with
  | Some e =>
      errOf walk = Some e
      /\ is_errNonNullableFieldValueIsNull e = false
      /\ contents (snd (fst res)) = contents writer
  | None =>
      (errOf walk = None \/ errOf walk = Some errNonNullableFieldValueIsNull)
      /\ exists buf ignoreData,
           contents (snd (fst res)) = contents writer ++ envelope buf ignoreData
  end.
Proof.
  intros Happ walk res. unfold res. rewrite ResolveGraphQLResponse_walk. fold walk.
  destruct walk as [[c1 walked] [e |]]; unfold errOf; cbn [snd]; cbv zeta.
  - destruct (is_errNonNullableFieldValueIsNull e) eqn:He.
    + match goal with
      | |- context [writeGraphqlResponse ?b writer true] =>
          destruct (writeGraphqlResponse_appends contents Happ b writer true)
            as (w' & Hw & Hc); rewrite Hw; cbn [fst snd]
      end.
      split.
      * right. f_equal. apply is_errNonNullableFieldValueIsNull_true. exact He.
      * eexists _, true. exact Hc.
    + cbn [fst snd]. repeat split. exact He.
  - match goal with
    | |- context [writeGraphqlResponse ?b writer false] =>
        destruct (writeGraphqlResponse_appends contents Happ b writer false)
          as (w' & Hw & Hc); rewrite Hw; cbn [fst snd]
    end.
    split; [left; reflexivity |]. eexists _, false. exact Hc.
Qed.

Lemma ResolveGraphQLResponse_aborts_witness :
  let r := {| EnableSingleFlightLoader := false;
              completionOrder := fun _ arrayItems => seq 0 (length arrayItems) |} in
  let gated :=
    mkField (B "bark") (NBoolean ["bark"%string] false) {| Line := 1; Column := 2 |}
      false 0 (Some (B "Dog")) in
  let response := {| ResponseData := NObject (mkObject false [] [gated] None) |} in
  let data :=
    B "{" ++ quote ++ B "data" ++ quote ++ B ":{" ++ quote ++ B "__typename" ++ quote
    ++ B ":" ++ quote ++ B "Cat" ++ quote ++ B "}}" in
  Appends (fun w : bytes => w)
  /\ ResolveGraphQLResponse (H := Reference.jsonparser) (H0 := Reference.textproto) r
       NewContext response data (B "sent before")
     = (NewContext, B "sent before", Some errTypeNameSkipped)
  /\ (let walk :=
        resolveNode (H := Reference.jsonparser) (H0 := Reference.textproto) r
          (ResponseData response) NewContext
          (envelopeData (H := Reference.jsonparser) data) NewBufPair in
      let res :=
        ResolveGraphQLResponse (H := Reference.jsonparser) (H0 := Reference.textproto)
          r NewContext response data (B "sent before") in
      match snd res with
      | Some e =>
          errOf walk = Some e
          /\ is_errNonNullableFieldValueIsNull e = false
          /\ snd (fst res) = B "sent before"
      | None =>
          (errOf walk = None \/ errOf walk = Some errNonNullableFieldValueIsNull)
          /\ exists buf ignoreData,
               snd (fst res) = B "sent before" ++ envelope buf ignoreData
      end).
Proof.
  intros r gated response data.
  split; [exact BufferWriter_appends |]. split; [vm_compute; reflexivity |].
  exact (ResolveGraphQLResponse_aborts (H := Reference.jsonparser)
           (H0 := Reference.textproto) (fun w : bytes => w) r NewContext response data
           (B "sent before") BufferWriter_appends).
Defined.

(** ** Resolve errors *)

Lemma pathOf_quoted (e : bytes) (elements : list bytes) :
  pathOf (e :: elements)
  = lBrack ++ bytes_Join (map (fun e => quote ++ e ++ quote) (e :: elements)) comma
    ++ rBrack.
Proof.
  unfold pathOf. f_equal. revert e. induction elements as [| e' elements IH]; intros e.
  - cbn [map bytes_Join]. rewrite <- !app_assoc. reflexivity.
  - change (bytes_Join (e :: e' :: elements) quotedComma)
      with (e ++ quotedComma ++ bytes_Join (e' :: elements) quotedComma).
    change (bytes_Join (map (fun e => quote ++ e ++ quote) (e :: e' :: elements)) comma)
      with ((quote ++ e ++ quote) ++ comma
            ++ bytes_Join (map (fun e => quote ++ e ++ quote) (e' :: elements)) comma).
    specialize (IH e'). unfold quotedComma. rewrite <- !app_assoc in *.
    do 2 f_equal. do 2 f_equal. exact IH.
Qed.

(** X23: the resolve error the walk adds is one error object
    after the errors already there, separated from them by a comma: its
    message is [unable to resolve], its locations are the one position of
    the context, and its path is the JSON array of the path elements of the
    context as strings; there is no path member when the context has no path
    element. The data are not touched. *)
Theorem addResolveError_writes (ctx : Context) (objectBuf : BufPair) :
  addResolveError ctx objectBuf
  = {| Data := Data objectBuf;
       Errors :=
         joinErrors (Errors objectBuf)
           (errorObject unableToResolveMsg
              (Some
                 (lBrack ++ lBrace ++ quote ++ literalLine ++ quote ++ colon
                  ++ Itoa (Z.of_N (Line (position ctx))) ++ comma ++ quote
                  ++ literalColumn ++ quote ++ colon
                  ++ Itoa (Z.of_N (Column (position ctx))) ++ rBrace ++ rBrack))
              (match pathElements ctx with
               | [] => None
               | elements =>
                   Some
                     (lBrack
                      ++ bytes_Join (map (fun e => quote ++ e ++ quote) elements) comma
                      ++ rBrack)
               end)
              None) |}.
Proof.
  rewrite addResolveError_spec. f_equal. unfold joinErrors, HasErrors.
  assert (Hne : forall l p x, (length (errorObject unableToResolveMsg l p x) =? 0)%nat = false).
  { intros l p x. unfold errorObject. reflexivity. }
  rewrite Hne, andb_true_r. f_equal. f_equal.
  unfold unableToResolveError, locationsOf. f_equal.
  destruct (pathElements ctx) as [| e elements]; [reflexivity |].
  cbn [length Nat.ltb Nat.leb]. rewrite pathOf_quoted. reflexivity.
Qed.

(** ** Type-name conditions *)

Section GatedProperties.
Context `{JsonParser} `{TextProto}.
Variable r : Resolver.

Lemma resolveFields_gated (rec : Node -> Context -> bytes -> BufPair -> Result)
    (o : Object) (data : bytes) (fields : list Field) (st : fieldsState) :
  Forall (fun f => typeNameMismatch data f = true) fields ->
  resolveFields rec o data None fields st
  = Continue
      {| fs_ctx := fs_ctx st; fs_objectBuf := fs_objectBuf st;
         fs_fieldBuf := fs_fieldBuf st;
         fs_typeNameSkip := fs_typeNameSkip st || negb (length fields =? 0)%nat;
         fs_first := fs_first st |}.
Proof.
  intros Hall. revert st. induction Hall as [| f fields Hf _ IH]; intros st.
  - cbn [resolveFields length Nat.eqb negb]. rewrite orb_false_r. destruct st; reflexivity.
  - cbn [resolveFields]. unfold resolveField. cbn [fieldDataOf]. rewrite Hf, IH.
    cbn [fs_ctx fs_objectBuf fs_fieldBuf fs_typeNameSkip fs_first length Nat.eqb negb orb].
    rewrite orb_true_r. reflexivity.
Qed.

(** X24: an object without fetch that has fields, all of them gated out
    by their type-name condition, writes nothing, leaves the context as it
    was and returns the type-name skip, whether it is nullable or not. *)
Theorem resolveObject_gated (o : Object) (ctx : Context) (data data' : bytes)
    (objectBuf : BufPair) :
  ObjectFetch o = None ->
  objectData o data = Some data' ->
  Fields o <> [] ->
  Forall (fun f => typeNameMismatch data' f = true) (Fields o) ->
  resolveNode r (NObject o) ctx data objectBuf
  = (ctx, objectBuf, Some errTypeNameSkipped).
Proof.
  intros Hfetch Hdata Hfields Hall. cbn [resolveNode].
  rewrite (resolveObject_objectData r _ _ _ _ _ _ Hdata).
  unfold resolveObjectFields. rewrite Hfetch.
  rewrite (resolveFields_gated _ o data' (Fields o) _ Hall).
  cbn [fs_ctx fs_objectBuf fs_typeNameSkip fs_first orb].
  destruct (Fields o); [contradiction | reflexivity].
Qed.

(** X25: when the value of a field returns the type-name skip, the object
    that holds the field gives up what it wrote: whatever the fields before
    it wrote, its output is the empty object [{}] and it returns no error;
    the errors these fields left are kept. *)
Theorem resolveObject_skipped_field (o : Object) (ctx ctx1 c : Context)
    (data data' : bytes) (objectBuf b : BufPair) (pre post : list Field) (f : Field)
    (written : list (bytes * BufPair)) :
  ObjectFetch o = None ->
  objectData o data = Some data' ->
  Fields o = pre ++ f :: post ->
  FieldsWalk (resolveNode r) data' ctx pre written ctx1 ->
  typeNameMismatch data' f = false ->
  resolveNode r (Value f)
    (setPosition (addPathElement ctx1 (Name f)) (fieldPosition f)) data' NewBufPair
  = (c, b, Some errTypeNameSkipped) ->
  resolveNode r (NObject o) ctx data objectBuf
  = (removeLastPathElement c,
     {| Data := lBrace ++ rBrace;
        Errors := joinErrors (Errors objectBuf)
                    (bytes_Join (writtenErrors written) comma) |},
     None).
Proof.
  intros Hfetch Hdata Hfields Hwalk Hgate Hchild. cbn [resolveNode].
  rewrite (resolveObject_objectData r _ _ _ _ _ _ Hdata).
  unfold resolveObjectFields. rewrite Hfetch, Hfields, resolveFields_app.
  match goal with
  | |- context [resolveFields (resolveNode r) o data' None pre ?st0] =>
      destruct (resolveFields_written (resolveNode r) o data' pre written ctx ctx1
                  st0 Hwalk eq_refl eq_refl) as [skip Hloop]
  end.
  rewrite Hloop. cbn [resolveFields]. unfold resolveField at 1.
  cbn [fieldDataOf fs_ctx fs_fieldBuf fs_objectBuf fs_first]. rewrite Hgate. cbv zeta.
  rewrite Hchild. cbn [is_errTypeNameSkipped].
  f_equal. f_equal. unfold resolveEmptyObject.
  apply BufPair_eq; cbn [Data Errors]; autorewrite with buf.
  - reflexivity.
  - match goal with
    | |- Errors (if ?first then _ else _) = _ => destruct first
    end; autorewrite with buf; cbn [Errors];
      apply writtenOnto_joins; apply nonEmpty_Forall.
Qed.

(** X26: the walk of a plan leaves every element it pushed on the path
    popped again: after it, whether it succeeded or failed, the path elements
    of the context are those before it, and so are its variables, its
    request, its path prefix and its hooks. *)
Theorem resolveNode_restores (node : Node) (ctx : Context) (data : bytes)
    (buf : BufPair) :
  pathElements (ctxOf (resolveNode r node ctx data buf)) = pathElements ctx
  /\ Variables (ctxOf (resolveNode r node ctx data buf)) = Variables ctx
  /\ request (ctxOf (resolveNode r node ctx data buf)) = request ctx
  /\ pathPrefix (ctxOf (resolveNode r node ctx data buf)) = pathPrefix ctx
  /\ beforeFetchHook (ctxOf (resolveNode r node ctx data buf)) = beforeFetchHook ctx
  /\ afterFetchHook (ctxOf (resolveNode r node ctx data buf)) = afterFetchHook ctx.
Proof.
  pose proof (resolveNode_frame r node ctx data buf) as Hframe.
  apply frame_inv in Hframe. destruct Hframe as (Hv & Hr & Hp & Hx & Hb & Ha).
  repeat split; assumption.
Qed.

End GatedProperties.

Lemma resolveObject_gated_witness :
  let r := {| EnableSingleFlightLoader := false;
              completionOrder := fun _ arrayItems => seq 0 (length arrayItems) |} in
  let gated := fun name typeName =>
    mkField (B name) (NBoolean [name] false) {| Line := 1; Column := 2 |}
      false 0 (Some (B typeName)) in
  let o := mkObject true [] [gated "bark"%string "Dog"%string;
                             gated "swim"%string "Fish"%string] None in
  let data :=
    B "{" ++ quote ++ B "__typename" ++ quote ++ B ":" ++ quote ++ B "Cat" ++ quote
    ++ B "}" in
  ObjectFetch o = None
  /\ objectData (H := Reference.jsonparser) o data = Some data
  /\ Fields o <> []
  /\ Forall (fun f => typeNameMismatch (H := Reference.jsonparser) data f = true)
       (Fields o)
  /\ resolveNode (H := Reference.jsonparser) (H0 := Reference.textproto) r (NObject o)
       NewContext data NewBufPair
     = (NewContext, NewBufPair, Some errTypeNameSkipped).
Proof.
  intros r gated o data.
  assert (Hne : Fields o <> []) by discriminate.
  assert (Hall : Forall (fun f => typeNameMismatch (H := Reference.jsonparser) data f
                                  = true) (Fields o))
    by (repeat constructor; vm_compute; reflexivity).
  split; [reflexivity |]. split; [reflexivity |]. split; [exact Hne |].
  split; [exact Hall |].
  exact (resolveObject_gated (H := Reference.jsonparser) (H0 := Reference.textproto) r o
           NewContext data data NewBufPair eq_refl eq_refl Hne Hall).
Defined.

Lemma resolveObject_skipped_field_witness :
  let r := {| EnableSingleFlightLoader := false;
              completionOrder := fun _ arrayItems => seq 0 (length arrayItems) |} in
  let pos := {| Line := 1; Column := 2 |} in
  let name := mkField (B "name") (NString (Some ["name"%string]) false) pos false 0 None in
  let bark :=
    mkField (B "bark") (NBoolean ["bark"%string] false) pos false 0 (Some (B "Dog")) in
  let pet :=
    mkField (B "pet") (NObject (mkObject true ["pet"%string] [bark] None)) pos false 0
      None in
  let o := mkObject false [] [name; pet] None in
  let data :=
    B "{" ++ quote ++ B "name" ++ quote ++ B ":" ++ quote ++ B "x" ++ quote ++ B ","
    ++ quote ++ B "pet" ++ quote ++ B ":{" ++ quote ++ B "__typename" ++ quote ++ B ":"
    ++ quote ++ B "Cat" ++ quote ++ B "}}" in
  let written := [(B "name", {| Data := quote ++ B "x" ++ quote; Errors := [] |})] in
  let ctx1 := setPosition NewContext pos in
  let c := setPosition (addPathElement ctx1 (B "pet")) pos in
  ObjectFetch o = None
  /\ objectData (H := Reference.jsonparser) o data = Some data
  /\ Fields o = [name] ++ pet :: []
  /\ FieldsWalk (H := Reference.jsonparser)
       (resolveNode (H := Reference.jsonparser) (H0 := Reference.textproto) r)
       data NewContext [name] written ctx1
  /\ typeNameMismatch (H := Reference.jsonparser) data pet = false
  /\ resolveNode (H := Reference.jsonparser) (H0 := Reference.textproto) r (Value pet)
       (setPosition (addPathElement ctx1 (Name pet)) (fieldPosition pet)) data NewBufPair
     = (c, NewBufPair, Some errTypeNameSkipped)
  /\ resolveNode (H := Reference.jsonparser) (H0 := Reference.textproto) r (NObject o)
       NewContext data NewBufPair
     = (removeLastPathElement c,
        {| Data := lBrace ++ rBrace;
           Errors := joinErrors (Errors NewBufPair)
                       (bytes_Join (writtenErrors written) comma) |},
        None).
Proof.
  intros r pos name bark pet o data written ctx1 c.
  assert (Hwalk : FieldsWalk (H := Reference.jsonparser)
            (resolveNode (H := Reference.jsonparser) (H0 := Reference.textproto) r)
            data NewContext [name] written ctx1).
  { apply (FieldsWalk_field _ data NewContext name []
             (setPosition (addPathElement NewContext (B "name")) pos)
             {| Data := quote ++ B "x" ++ quote; Errors := [] |});
      [reflexivity | vm_compute; reflexivity |].
    apply FieldsWalk_nil. }
  assert (Hchild :
    resolveNode (H := Reference.jsonparser) (H0 := Reference.textproto) r (Value pet)
      (setPosition (addPathElement ctx1 (Name pet)) (fieldPosition pet)) data NewBufPair
    = (c, NewBufPair, Some errTypeNameSkipped)) by (vm_compute; reflexivity).
  split; [reflexivity |]. split; [reflexivity |]. split; [reflexivity |].
  split; [exact Hwalk |]. split; [reflexivity |]. split; [exact Hchild |].
  exact (resolveObject_skipped_field (H := Reference.jsonparser)
           (H0 := Reference.textproto) r o NewContext ctx1 c data data NewBufPair
           NewBufPair [name] [] pet written eq_refl eq_refl eq_refl Hwalk eq_refl Hchild).
Defined.

(** ** A writer that fails *)

(** X27: when the writer refuses the opening brace, an envelope without
    data to write (the data are ignored or empty) writes nothing more and
    returns that error. With data to write, the data are written all the
    same, and the error returned is that of this write or of the closing
    brace after it: the first error is lost. *)
Theorem writeGraphqlResponse_refused {W : Type} `{Writer W} (buf : BufPair)
    (writer writer1 : W) (ignoreData : bool) (e : error) :
  Write writer lBrace = (writer1, Some e) ->
  writeGraphqlResponse buf writer ignoreData
  = if HasData buf && negb ignoreData
    then safely rBrace (Write writer1 (Data buf))
    else (writer1, Some e).
Proof.
  intros Hfirst. unfold writeGraphqlResponse, HasData. cbv zeta.
  assert (Hst : safely lBrace (writer, None) = (writer1, Some e))
    by (unfold safely, writeSafe; cbn [fst snd]; exact Hfirst).
  rewrite Hst.
  assert (Hskip : forall d, safely d (writer1, Some e) = (writer1, Some e))
    by reflexivity.
  destruct (negb (length (Errors buf) =? 0)%nat);
    destruct (negb (length (Data buf) =? 0)%nat && negb ignoreData);
    rewrite !Hskip; reflexivity.
Qed.

Lemma writeGraphqlResponse_refused_witness :
  let writer := {| delivered := []; refusals := 1 |} in
  let writer1 := {| delivered := []; refusals := 0 |} in
  let buf := {| Data := B "1"; Errors := [] |} in
  Write writer lBrace = (writer1, Some (errWriter "refused"))
  /\ writeGraphqlResponse buf writer true = (writer1, Some (errWriter "refused"))
  /\ writeGraphqlResponse buf writer false
     = (if HasData buf && negb false
        then safely rBrace (Write writer1 (Data buf))
        else (writer1, Some (errWriter "refused")))
  /\ writeGraphqlResponse buf writer false
     = ({| delivered := B "1}"; refusals := 0 |}, None).
Proof.
  intros writer writer1 buf. split; [reflexivity |]. split; [| split].
  - exact (writeGraphqlResponse_refused buf writer writer1 true (errWriter "refused")
             eq_refl).
  - exact (writeGraphqlResponse_refused buf writer writer1 false (errWriter "refused")
             eq_refl).
  - vm_compute. reflexivity.
Defined.

(** ** The patches of a streaming response *)

Section BatchProperties.
Context `{JsonParser} `{TextProto}.
Variable r : Resolver.

Lemma ResolveGraphQLResponsePatch_buffer (ctx : Context) (patch : GraphQLResponsePatch)
    (data path : bytes) (extraPath : option bytes) (buf : bytes) :
  ResolveGraphQLResponsePatch r ctx patch data path extraPath buf
  = let res := ResolveGraphQLResponsePatch (W := bytes) r ctx patch data path extraPath []
    in (fst (fst res), buf ++ snd (fst res), snd res).
Proof.
  destruct (ResolveGraphQLResponsePatch_writes r ctx patch data path extraPath bytes _
              (fun w : bytes => w) buf BufferWriter_appends) as (w1 & Hres1 & Hc1).
  destruct (ResolveGraphQLResponsePatch_writes r ctx patch data path extraPath bytes _
              (fun w : bytes => w) [] BufferWriter_appends) as (w0 & Hres0 & Hc0).
  rewrite Hres1, Hres0. cbn [fst snd]. rewrite Hc1, Hc0. reflexivity.
Qed.

Lemma ResolveGraphQLResponse_engine_buffer (ctx : Context) (response : GraphQLResponse)
    (data : bytes) (w : EngineResultWriter) :
  ResolveGraphQLResponse r ctx response data w
  = let res := ResolveGraphQLResponse (W := bytes) r ctx response data [] in
    (fst (fst res),
     {| pending := pending w ++ snd (fst res); flushed := flushed w |},
     snd res).
Proof.
  rewrite !ResolveGraphQLResponse_walk.
  destruct (resolveNode r (ResponseData response) ctx (envelopeData data) NewBufPair)
    as [[c1 walked] err].
  cbv zeta.
  destruct err as [e |]; [destruct (is_errNonNullableFieldValueIsNull e) |];
    rewrite ?writeGraphqlResponse_engine, ?writeGraphqlResponse_buffer; cbn [fst snd app];
    try reflexivity.
  rewrite app_nil_r. destruct w. reflexivity.
Qed.

Lemma streamPatches_run {W : Type} `{FlushWriter W} (clock : Clock)
    (response : GraphQLStreamingResponse) (n : nat) (ctx : Context)
    (outs : list bytes) (ctx' : Context) :
  (forall k, cancelled clock k = false) ->
  (forall k, flushDue clock k = false) ->
  PatchesRun r response n ctx outs ctx' ->
  forall (fuel k : nat) (buf : bytes) (writer : W),
    (n <= fuel)%nat ->
    streamPatches r clock fuel k ctx response buf writer
    = Some (Continue (ctx', writer, batchOnto buf outs)).
Proof.
  intros Hrun Hdue Hpatches.
  induction Hpatches as
    [ctx ctx' Hpop
    | n ctx c1 p outs ctx' Hpop Hbeyond Hrest IH
    | n ctx c1 c2 p preparedPatch out outs ctx' Hpop Hidx Hlookup Hpatch Hrest IH];
    intros fuel k buf writer Hfuel;
    (destruct fuel as [| fuel]; [lia |]); cbn [streamPatches];
    rewrite Hrun, Hpop.
  - reflexivity.
  - apply Z.ltb_lt in Hbeyond. rewrite Hbeyond. apply IH. lia.
  - assert (Hin : (Z.of_nat (length (Patches response)) - 1 <? patch_index p) = false).
    { apply Z.ltb_ge. apply lookup_lt_Some in Hlookup. lia. }
    rewrite Hin.
    assert (Hpos : (patch_index p <? 0) = false) by (apply Z.ltb_ge; exact Hidx).
    rewrite Hpos, Hlookup. cbv zeta.
    rewrite ResolveGraphQLResponsePatch_buffer, Hpatch. cbn [fst snd].
    rewrite Hdue. cbn [batchOnto fold_left].
    rewrite IH by lia. reflexivity.
Qed.

Lemma batchOnto_later (buf : bytes) (outs : list bytes) :
  (1 < length buf)%nat ->
  batchOnto buf outs = buf ++ concat (map (fun out => literal.COMMA ++ out) outs).
Proof.
  revert buf. induction outs as [| out outs IH]; intros buf Hlen.
  - cbn. rewrite app_nil_r. reflexivity.
  - cbn [batchOnto fold_left map concat].
    assert (Hne : negb (length buf =? 1)%nat = true)
      by (apply negb_true_iff, Nat.eqb_neq; lia).
    rewrite Hne. fold (batchOnto ((buf ++ literal.COMMA) ++ out) outs).
    rewrite IH by (rewrite !length_app; lia).
    rewrite <- !app_assoc. reflexivity.
Qed.

Lemma batchOnto_joins (out : bytes) (outs : list bytes) :
  out <> [] ->
  batchOnto literal.LBRACK (out :: outs)
  = literal.LBRACK ++ bytes_Join (out :: outs) literal.COMMA.
Proof.
  intros Hout. cbn [batchOnto fold_left].
  change (negb (length literal.LBRACK =? 1)%nat) with false. cbv iota.
  fold (batchOnto (literal.LBRACK ++ out) outs).
  rewrite batchOnto_later.
  - rewrite bytes_Join_cons, <- app_assoc. reflexivity.
  - rewrite length_app. destruct out; [congruence |].
    change (length literal.LBRACK) with 1%nat. cbn [length]. lia.
Qed.

(** X28: a streaming response on the engine's writer, when the request is
    not cancelled and the flush interval does not pass: the initial response
    is flushed as one chunk, then the queue of patches is emptied, which
    includes the patches that patches queue. When every patch resolved
    writes a frame, the frames are flushed as a second chunk, one JSON array
    of the frames in the order of the queue; patches of an index the
    response has no patch for are skipped. *)
Theorem ResolveGraphQLStreamingResponse_batch (clock : Clock)
    (response : GraphQLStreamingResponse) (ctx : Context) (data : bytes)
    (writer : EngineResultWriter) (c0 : Context) (first : bytes) (n : nat)
    (out : bytes) (outs : list bytes) (ctx' : Context) (fuel : nat) :
  (forall k, cancelled clock k = false) ->
  (forall k, flushDue clock k = false) ->
  cursorsInitial ctx ->
  ResolveGraphQLResponse (W := bytes) r ctx (InitialResponse response) data []
  = (c0, first, None) ->
  PatchesRun r response n c0 (out :: outs) ctx' ->
  Forall (fun o => o <> []) (out :: outs) ->
  (n <= fuel)%nat ->
  ResolveGraphQLStreamingResponse r clock fuel ctx response data writer
  = Some (ctx',
          {| pending := [];
             flushed := flushed writer
                        ++ [pending writer ++ first;
                            literal.LBRACK ++ bytes_Join (out :: outs) literal.COMMA
                            ++ literal.RBRACK] |},
          None).
Proof.
  intros Hrun Hdue [Hmax Hcur] Hfirst Hpatches Hframes Hfuel.
  unfold ResolveGraphQLStreamingResponse, validateContext.
  rewrite Hmax, Hcur. cbn [Z.eqb negb orb Pos.eqb].
  rewrite ResolveGraphQLResponse_engine_buffer, Hfirst. cbn [fst snd].
  rewrite (streamPatches_run clock response n c0 (out :: outs) ctx' Hrun Hdue Hpatches)
    by exact Hfuel.
  rewrite batchOnto_joins by (inversion Hframes; assumption).
  assert (Hlen : negb (length (literal.LBRACK
                                 ++ bytes_Join (out :: outs) literal.COMMA) =? 1)%nat
                 = true).
  { apply negb_true_iff, Nat.eqb_neq. rewrite length_app, bytes_Join_cons, length_app.
    inversion Hframes as [| ? ? Hout _]. destruct out; [congruence |].
    change (length literal.LBRACK) with 1%nat. cbn [length]. lia. }
  rewrite Hlen.
  cbn [Write EngineResultWriter_Writer FlushWriter_Writer EngineResultWriter_FlushWriter
       Flush pending flushed app].
  rewrite <- !app_assoc. reflexivity.
Qed.

End BatchProperties.

Lemma ResolveGraphQLStreamingResponse_batch_witness :
  let r := {| EnableSingleFlightLoader := false;
              completionOrder := fun _ arrayItems => seq 0 (length arrayItems) |} in
  let clock := {| cancelled := fun _ => false; flushDue := fun _ => false |} in
  let hello :=
    mkField (B "hello") (NString (Some ["hello"%string]) false)
      {| Line := 1; Column := 2 |} false 0 None in
  let later :=
    mkField (B "later") (NNull {| DeferEnabled := true; DeferPatchIndex := 0 |})
      {| Line := 1; Column := 3 |} false 0 None in
  let response :=
    {| InitialResponse :=
         {| ResponseData := NObject (mkObject false [] [hello; later] None) |};
       Patches := [{| PatchValue := NString (Some ["later"%string]) false;
                      PatchFetch := None; Operation := B "replace" |}];
       FlushInterval := 0 |} in
  let data :=
    B "{" ++ quote ++ B "data" ++ quote ++ B ":{" ++ quote ++ B "hello" ++ quote
    ++ B ":" ++ quote ++ B "world" ++ quote ++ B "," ++ quote ++ B "later" ++ quote
    ++ B ":" ++ quote ++ B "soon" ++ quote ++ B "}}" in
  let first :=
    B "{" ++ quote ++ B "data" ++ quote ++ B ":{" ++ quote ++ B "hello" ++ quote
    ++ B ":" ++ quote ++ B "world" ++ quote ++ B "," ++ quote ++ B "later" ++ quote
    ++ B ":null}}" in
  let out := patchFrame (B "replace") (B "/data/later") (quote ++ B "soon" ++ quote) in
  let writer := {| pending := []; flushed := [] |} in
  cursorsInitial NewContext
  /\ exists c0 ctx',
       ResolveGraphQLResponse (H := Reference.jsonparser) (H0 := Reference.textproto)
         (W := bytes) r NewContext (InitialResponse response) data []
       = (c0, first, None)
       /\ PatchesRun (H := Reference.jsonparser) (H0 := Reference.textproto)
            r response 2 c0 [out] ctx'
       /\ ResolveGraphQLStreamingResponse (H := Reference.jsonparser)
            (H0 := Reference.textproto) r clock 5 NewContext response data writer
          = Some (ctx',
                  {| pending := [];
                     flushed := [first; B "[" ++ out ++ B "]"] |},
                  None).
Proof.
  intros r clock hello later response data first out writer.
  assert (Hinit : cursorsInitial NewContext) by (split; reflexivity).
  split; [exact Hinit |].
  pose (initial :=
    ResolveGraphQLResponse (H := Reference.jsonparser) (H0 := Reference.textproto)
      (W := bytes) r NewContext (InitialResponse response) data []).
  pose (c0 := fst (fst initial)).
  pose (c1 := fst (popNextPatch c0)).
  pose (c2 :=
    fst (fst (ResolveGraphQLResponsePatch (H := Reference.jsonparser)
                (H0 := Reference.textproto) (W := bytes) r c1
                {| PatchValue := NString (Some ["later"%string]) false;
                   PatchFetch := None; Operation := B "replace" |}
                (B "{" ++ quote ++ B "hello" ++ quote ++ B ":" ++ quote ++ B "world"
                 ++ quote ++ B "," ++ quote ++ B "later" ++ quote ++ B ":" ++ quote
                 ++ B "soon" ++ quote ++ B "}")
                (B "/data/later") None []))).
  pose (ctx' := fst (popNextPatch c2)).
  assert (Hfirst :
    ResolveGraphQLResponse (H := Reference.jsonparser) (H0 := Reference.textproto)
      (W := bytes) r NewContext (InitialResponse response) data []
    = (c0, first, None)) by (vm_compute; reflexivity).
  assert (Hpatches :
    PatchesRun (H := Reference.jsonparser) (H0 := Reference.textproto)
      r response 2 c0 [out] ctx').
  { apply (PatchesRun_patch (H := Reference.jsonparser) (H0 := Reference.textproto)
             r response 1 c0 c1 c2
             {| patch_path := B "/data/later"; patch_extraPath := None;
                patch_data :=
                  B "{" ++ quote ++ B "hello" ++ quote ++ B ":" ++ quote ++ B "world"
                  ++ quote ++ B "," ++ quote ++ B "later" ++ quote ++ B ":" ++ quote
                  ++ B "soon" ++ quote ++ B "}";
                patch_index := 0 |}
             {| PatchValue := NString (Some ["later"%string]) false;
                PatchFetch := None; Operation := B "replace" |}
             out [] ctx').
    - vm_compute; reflexivity.
    - simpl; lia.
    - reflexivity.
    - vm_compute; reflexivity.
    - apply PatchesRun_done. vm_compute; reflexivity. }
  assert (Hframes : Forall (fun o : bytes => o <> []) [out])
    by (constructor; [discriminate | constructor]).
  assert (Hfuel : (2 <= 5)%nat) by lia.
  exists c0, ctx'. split; [exact Hfirst |]. split; [exact Hpatches |].
  exact (ResolveGraphQLStreamingResponse_batch (H := Reference.jsonparser)
           (H0 := Reference.textproto) r clock response NewContext data writer c0
           first 2 out [] ctx' 5 (fun _ => eq_refl) (fun _ => eq_refl) Hinit Hfirst
           Hpatches Hframes Hfuel).
Defined.

(** ** Variables and template segments *)

(** X29: the template segment of a variable is rendered by the renderer
    of its kind: a context variable from the variables of the request and
    with its flag, an object variable from the data, a header variable from
    the headers of the request. *)
Theorem Render_TemplateSegment `{JsonParser} `{TextProto} (v : Variable_)
    (ctx : Context) (data : bytes) (preparedInput : bytes) :
  Render {| Segments := [Variable_TemplateSegment v] |} ctx data preparedInput
  = match v with
    | ContextVariable path renderAsGraphQLValue =>
        renderContextVariable ctx path renderAsGraphQLValue preparedInput
    | ObjectVariable path => renderObjectVariable data path preparedInput
    | HeaderVariable path => renderHeaderVariable ctx path preparedInput
    end.
Proof.
  destruct v as [path flag | path | path]; unfold Render; cbn.
  - destruct (renderContextVariable ctx path flag preparedInput) as [out [e |]];
      reflexivity.
  - destruct (renderObjectVariable data path preparedInput) as [out [e |]];
      reflexivity.
  - destruct (renderHeaderVariable ctx path preparedInput) as [out [e |]];
      reflexivity.
Qed.

(** ** The error of an unresolved leaf *)

(** X30: the walk of a chain of non-nullable objects without fetch down to a
    non-nullable leaf whose source is null, the fields before the failing
    one resolving without error, returns the non-null error and leaves no
    data and exactly one error: the synthetic error with the message
    [unable to resolve], the locations of the field of the leaf and, as its
    path, the path elements of the context followed by the names of the
    fields from the root of the chain down to the object that holds the
    failing field. The name of the failing field itself is not in the path,
    and there is no path member when the path is empty. *)
Theorem resolveNode_unresolved `{JsonParser} `{TextProto} (r : Resolver) (node : Node)
    (ctx : Context) (data : bytes) (names : list bytes) (pos : Position) :
  Unresolved r node ctx data (Some (names, pos)) ->
  exists ctx',
    resolveNode r node ctx data NewBufPair
    = (ctx',
       {| Data := [];
          Errors :=
            errorObject unableToResolveMsg (Some (locationsOf pos))
              (match pathElements ctx ++ names with
               | [] => None
               | elements => Some (pathOf elements)
               end)
              None |},
       Some errNonNullableFieldValueIsNull)
    /\ pathElements ctx' = pathElements ctx.
Proof.
  intros Hun.
  destruct (Unresolved_resolveNode r node ctx data _ Hun) as (ctx' & Hwalk & Hframe & _).
  exists ctx'. split.
  - rewrite Hwalk. cbn [blameErrors]. unfold unableToResolveError.
    destruct (pathElements ctx ++ names); reflexivity.
  - apply frame_inv in Hframe. destruct Hframe as (_ & _ & Hp & _). exact Hp.
Qed.

Lemma resolveNode_unresolved_witness :
  let r := {| EnableSingleFlightLoader := false;
              completionOrder := fun _ arrayItems => seq 0 (length arrayItems) |} in
  let n :=
    mkField (B "n") (NInteger ["n"%string] false) {| Line := 2; Column := 5 |}
      false 0 None in
  let inner := mkObject false ["user"%string] [n] None in
  let user := mkField (B "user") (NObject inner) {| Line := 1; Column := 3 |} false 0 None in
  let root := mkObject false [] [user] None in
  let found := B "{" ++ quote ++ B "id" ++ quote ++ B ":1}" in
  let record := B "{" ++ quote ++ B "user" ++ quote ++ B ":" ++ found ++ B "}" in
  Unresolved (H := Reference.jsonparser) (H0 := Reference.textproto) r (NObject root)
    NewContext record (Some ([B "user"], {| Line := 2; Column := 5 |}))
  /\ exists ctx',
       resolveNode (H := Reference.jsonparser) (H0 := Reference.textproto) r
         (NObject root) NewContext record NewBufPair
       = (ctx',
          {| Data := [];
             Errors :=
               errorObject unableToResolveMsg
                 (Some (locationsOf {| Line := 2; Column := 5 |}))
                 (match pathElements NewContext ++ [B "user"] with
                  | [] => None
                  | elements => Some (pathOf elements)
                  end)
                 None |},
          Some errNonNullableFieldValueIsNull)
       /\ pathElements ctx' = pathElements NewContext.
Proof.
  intros r n inner user root found record.
  pose (atUser := setPosition (addPathElement NewContext (Name user)) (fieldPosition user)).
  assert (Hleaf : Unresolved (H := Reference.jsonparser) (H0 := Reference.textproto) r
            (Value n) (setPosition (addPathElement atUser (Name n)) (fieldPosition n))
            found None).
  { apply Unresolved_leaf; [reflexivity | vm_compute; reflexivity]. }
  assert (Hinner : Unresolved (H := Reference.jsonparser) (H0 := Reference.textproto) r
            (NObject inner) atUser record
            (Some ([], {| Line := 2; Column := 5 |}))).
  { apply (Unresolved_object (H := Reference.jsonparser) (H0 := Reference.textproto) r
             inner atUser record found n atUser None);
      [reflexivity | vm_compute; reflexivity | | exact Hleaf].
    split; [reflexivity |]. split; [reflexivity |].
    exists [], [].
    exists {| fs_ctx := atUser; fs_objectBuf := NewBufPair; fs_fieldBuf := NewBufPair;
              fs_typeNameSkip := false; fs_first := true |}.
    repeat split; reflexivity. }
  assert (Hun : Unresolved (H := Reference.jsonparser) (H0 := Reference.textproto) r
            (NObject root) NewContext record
            (Some ([B "user"], {| Line := 2; Column := 5 |}))).
  { apply (Unresolved_object (H := Reference.jsonparser) (H0 := Reference.textproto) r
             root NewContext record record user NewContext
             (Some ([], {| Line := 2; Column := 5 |})));
      [reflexivity | reflexivity | | exact Hinner].
    split; [reflexivity |]. split; [reflexivity |].
    exists [], [].
    exists {| fs_ctx := NewContext; fs_objectBuf := NewBufPair; fs_fieldBuf := NewBufPair;
              fs_typeNameSkip := false; fs_first := true |}.
    repeat split; reflexivity. }
  split; [exact Hun |].
  exact (resolveNode_unresolved (H := Reference.jsonparser) (H0 := Reference.textproto)
           r (NObject root) NewContext record [B "user"] {| Line := 2; Column := 5 |} Hun).
Defined.
